(** * cqn4sql: query normalisation of CQN against a CSN model

    A shallow embedding of [db-service/lib/infer/index.js] (inference) and
    of [cqn4sql.js] (rewriting), with the properties of the specification
    stated over it.

    Conventions of the embedding:
    - a JS object used as a dictionary with insertion order is an
      association list;
    - [throw] / [cds.error] is the [Err] branch of [result];
    - hidden properties attached by the inference ([$refLinks], [flatName],
      [isJoinRelevant]) are fields of the reference node;
    - arrays that are shared and mutated after they were stored
      ([_csnPath], the where-exists sub-selects) live in an explicit store
      and are addressed by index;
    - code that is not part of the two files (the pseudo variables, the
      join tree, the resolution of nested projections, the on-conditions
      of unmanaged associations, the translation of the join tree to
      joins) is a [Variable] of the section that uses it.

    Left out of the embedding: the [search] and [limit] clauses of a
    [SELECT], [UPDATE.with], the commands [STREAM], [CREATE] and [DROP],
    and the [key] marker that flat columns inherit. *)

From Stdlib Require Import Ascii String List ZArith Bool Lia Arith.
Import ListNotations.
Local Open Scope string_scope.
Local Open Scope list_scope.

Set Implicit Arguments.
Set Warnings "-register-all".

(** ** Errors and the error monad *)

Inductive error : Type :=
| NoModel                        (* 'Please specify a model' *)
| UnionNotSupported              (* '”UNION” based queries are not supported' *)
| UnknownName (name : string)    (* '"x" not found in ...' *)
| NoAssociation (name : string)  (* 'No association "x" in ...' *)
| BadQuerySource                 (* 'Query source must be a an entity or an association' *)
| DuplicateAlias (name : string)
| ExpectingAlias                 (* 'Expecting expression to have an alias name' *)
| DuplicateElement (name : string)
| EmptyProjection                (* 'Queries must have at least one non-virtual column' *)
| AmbiguousOrderBy (name : string)
| NotSupportedColumn             (* 'Not supported: ...' *)
| AmbiguousName (name : string)
| AmbiguousWildcard
| FilterOnNonAssoc               (* 'A filter can only be provided when navigating along associations' *)
| UnmanagedInInfixFilter (name : string)
| NonFkInInfixFilter (name : string)
| CastOnStructure                (* 'Structured elements can't be cast to a different type' *)
| UnsupportedStructuralComparison (op : string)
| StructuralShapeMismatch
| CannotCompareStructWithValue
| FilterMultipleKeys             (* 'Filters can only be applied to managed associations which result in a single foreign key' *)
| AssocInExpression
| StructInExpression
| UnexpectedSelfAfterExists (name : string)
| TypeError (what : string)      (* a JS TypeError: property access on undefined *)
| OutOfFuel.

Inductive result (A : Type) : Type :=
| Ok (a : A)
| Err (e : error).
Arguments Ok {A} a.
Arguments Err {A} e.

Definition bind {A B} (r : result A) (k : A -> result B) : result B :=
  match r with Ok a => k a | Err e => Err e end.

Notation "x <- c1 ;; c2" := (bind c1 (fun x => c2))
  (at level 61, c1 at next level, right associativity).
Notation "' pat <- c1 ;; c2" := (bind c1 (fun x => match x with pat => c2 end))
  (at level 61, pat pattern, c1 at next level, right associativity).

Definition is_ok {A} (r : result A) : bool :=
  match r with Ok _ => true | Err _ => false end.

Definition of_option {A} (o : option A) (e : error) : result A :=
  match o with Some a => Ok a | None => Err e end.

(** ** Small helpers on strings and lists *)

Definition eqs (a b : string) : bool := String.eqb a b.

Fixpoint assoc {A} (k : string) (l : list (string * A)) : option A :=
  match l with
  | [] => None
  | (k', v) :: r => if eqs k k' then Some v else assoc k r
  end.

Definition has_key {A} (k : string) (l : list (string * A)) : bool :=
  match assoc k l with Some _ => true | None => false end.

(** [Array.prototype.join]. *)
Definition join (sep : string) (l : list string) : string := String.concat sep l.

(** [Array.prototype.findIndex], [None] for -1. *)
Fixpoint findIndex {A} (p : A -> bool) (l : list A) : option nat :=
  match l with
  | [] => None
  | x :: r => if p x then Some 0 else option_map S (findIndex p r)
  end.

Definition last_opt {A} (l : list A) : option A :=
  match rev l with [] => None | x :: _ => Some x end.

(** [l.slice(0, l.length - 1)] *)
Definition but_last {A} (l : list A) : list A := removelast l.

(** The part of a dotted name after the last dot: [name.split('.').pop()]. *)
Fixpoint after_last_dot_aux (s acc : string) : string :=
  match s with
  | EmptyString => acc
  | String c r =>
      if Ascii.eqb c "."%char then after_last_dot_aux r EmptyString
      else after_last_dot_aux r (acc ++ String c EmptyString)
  end.
Definition after_last_dot (s : string) : string := after_last_dot_aux s EmptyString.

(** ** Literal values *)

Inductive value : Type :=
| VNull
| VBool (b : bool)
| VNum (z : Z)
| VStr (s : string).

(** JS truthiness of a literal, as in [token.val && ...]. *)
Definition truthy (v : value) : bool :=
  match v with
  | VNull => false
  | VBool b => b
  | VNum z => negb (Z.eqb z 0)
  | VStr s => negb (eqs s "")
  end.

Definition is_null (v : value) : bool :=
  match v with VNull => true | _ => false end.

(** A non-empty string is the only truthy name ([col.as || ...]). *)
Definition truthy_name (o : option string) : option string :=
  match o with
  | Some n => if eqs n "" then None else Some n
  | None => None
  end.

(** ** The model (CSN, linked) *)

Module Csn.

(** [definition.kind].  [KSelect] stands for a subquery used as a query
    source (an object with a [SELECT] and inferred [elements]); [KNone] for
    objects without a kind, such as pseudo elements. *)
Inductive dkind : Type := KEntity | KElement | KType | KSelect | KNone.

Definition dkind_eqb (a b : dkind) : bool :=
  match a, b with
  | KEntity, KEntity | KElement, KElement | KType, KType
  | KSelect, KSelect | KNone, KNone => true
  | _, _ => false
  end.

(** One entry of a managed association's [keys]: [{ ref, as }]. *)
Record fkey : Type := FKey { fk_ref : list string; fk_as : option string }.

(** Token of an [on] condition as stored in the model. *)
Inductive ctoken : Type :=
| CStr (s : string)
| CRef (r : list string)
| CVal (v : value)
| CXpr (l : list ctoken).

(** One link of the [parent] chain of an element: kind and name of the
    enclosing definition, innermost first. *)
Record parent_info : Type := Parent { p_kind : dkind; p_name : string }.

(** A linked definition.  [d_parents] is the [parent] chain; [_target] is
    [model.definitions[target]], see [target_of]. *)
Inductive def : Type := Def {
  d_name : string;
  d_kind : dkind;
  d_parents : list parent_info;
  d_elements : option (list (string * def));
  d_target : option string;
  d_keys : option (list fkey);
  d_on : option (list ctoken);
  d_virtual : bool;             (* virtual === true *)
  d_key : bool;                 (* key element of its entity *)
  d_is2one : bool;
  d_skip : bool;                (* '@cds.persistence.skip' === true *)
  d_not_localized : bool        (* '@cds.localized' === false *)
}.

Record model : Type := Model { definitions : list (string * def) }.

(** An empty definition object [{}]. *)
Definition empty_def : def :=
  Def "" KNone [] None None None None false false false false false.

(** A scalar element [name] below the parent chain [ps]. *)
Definition scalar (name : string) (ps : list parent_info) : def :=
  Def name KElement ps None None None None false false false false false.

(** A structured element. *)
Definition struct (name : string) (ps : list parent_info)
    (els : list (string * def)) : def :=
  Def name KElement ps (Some els) None None None false false false false false.

(** A managed association. *)
Definition managed (name : string) (ps : list parent_info) (tgt : string)
    (ks : list fkey) : def :=
  Def name KElement ps None (Some tgt) (Some ks) None false false true false false.

(** An unmanaged association. *)
Definition unmanaged (name : string) (ps : list parent_info) (tgt : string)
    (on : list ctoken) : def :=
  Def name KElement ps None (Some tgt) None (Some on) false false false false false.

Definition entity (name : string) (els : list (string * def)) : def :=
  Def name KEntity [] (Some els) None None None false false false false false.

Definition with_key (d : def) : def :=
  Def (d_name d) (d_kind d) (d_parents d) (d_elements d) (d_target d)
      (d_keys d) (d_on d) (d_virtual d) true (d_is2one d) (d_skip d)
      (d_not_localized d).

(** [definition.isAssociation]: the linked class of an element that has a
    [target]. *)
Definition isAssociation (d : def) : bool :=
  match d_target d with Some _ => true | None => false end.

(** [definition._target]. *)
Definition target_of (m : model) (d : def) : option def :=
  match d_target d with
  | Some t => assoc t (definitions m)
  | None => None
  end.

(** [Object.values(definition.elements)]. *)
Definition element_values (d : def) : list def :=
  match d_elements d with Some els => map snd els | None => [] end.

(** [entity.keys]: the key elements of an entity, in declaration order. *)
Definition entity_keys (d : def) : list def :=
  filter d_key (element_values d).

(** [isStructured(elt)]: [Boolean(elt?.elements && elt.kind === 'element')]. *)
Definition isStructured (d : def) : bool :=
  match d_elements d with
  | Some _ => dkind_eqb (d_kind d) KElement
  | None => false
  end.

(** [isAssocOrStruct(elt)]: [elt?.keys || (elt?.elements && elt.kind === 'element')]. *)
Definition isAssocOrStruct (d : def) : bool :=
  match d_keys d with
  | Some _ => true
  | None => isStructured d
  end.

(** [definition.elements || definition._target?.elements] *)
Definition elements_or_target (m : model) (d : def) : option (list (string * def)) :=
  match d_elements d with
  | Some els => Some els
  | None =>
      match target_of m d with
      | Some t => d_elements t
      | None => None
      end
  end.

(** [getElementForRef(ref, def)]:
    [ref.reduce((prev, res) => prev?.elements?.[res] || prev?._target?.elements[res], def)].
    [None] is [undefined]. *)
Fixpoint getElementForRef (m : model) (ref : list string) (d : option def)
  : option def :=
  match ref with
  | [] => d
  | r :: rest =>
      let next :=
        match d with
        | None => None
        | Some p =>
            match (match d_elements p with
                   | Some els => assoc r els
                   | None => None
                   end) with
            | Some e => Some e
            | None =>
                match target_of m p with
                | Some t =>
                    match d_elements t with
                    | Some els => assoc r els
                    | None => None
                    end
                | None => None
                end
            end
        end in
      getElementForRef m rest next
  end.

(** [getFullName(node, name = node.name)]: walks the parent chain up to
    the entity and joins the names with an underscore.  A chain that ends
    without reaching an entity is a property access on [undefined]. *)
Fixpoint getFullName_chain (ps : list parent_info) (name : string)
  : result string :=
  match ps with
  | [] => Err (TypeError "parent")
  | p :: rest =>
      if dkind_eqb (p_kind p) KEntity then Ok name
      else getFullName_chain rest (p_name p ++ "_" ++ name)
  end.

Definition getFullName (d : def) : result string :=
  getFullName_chain (d_parents d) (d_name d).

End Csn.

(** ** Queries (CQN) *)

Module Cqn.
Import Csn.

(** One entry of [$refLinks]: the resolved definition of a step, the
    environment in which the next step resolves, the table alias, and the
    [onlyForeignKeyAccess] mark set when the column is merged into the join
    tree. *)
Record refLink : Type := Link {
  l_definition : def;
  l_target : def;
  l_alias : string;
  l_onlyForeignKeyAccess : bool;
  l_skipExpand : bool
}.

Definition link (d t : def) (a : string) : refLink := Link d t a false false.

Definition set_alias (a : string) (l : refLink) : refLink :=
  Link (l_definition l) (l_target l) a (l_onlyForeignKeyAccess l)
       (l_skipExpand l).

Definition set_skipExpand (l : refLink) : refLink :=
  Link (l_definition l) (l_target l) (l_alias l) (l_onlyForeignKeyAccess l)
       true.

(** Visible properties shared by columns and tokens. *)
Record attrs : Type := Attrs {
  a_as : option string;
  a_cast : option string;          (* cast: { type } *)
  a_param : bool;
  a_sort : option string;
  a_nulls : option string;
  a_annos : list (string * value)  (* '@...' annotations *)
}.

Definition no_attrs : attrs := Attrs None None false None None [].
Definition as_ (n : string) : attrs := Attrs (Some n) None false None None [].
Definition set_as (o : option string) (a : attrs) : attrs :=
  Attrs o (a_cast a) (a_param a) (a_sort a) (a_nulls a) (a_annos a).

(** Hidden properties that the inference attaches to an object with a
    [ref]. *)
Record refinfo : Type := RefInfo {
  refLinks : list refLink;         (* $refLinks *)
  flatName : option string;
  isJoinRelevant : bool
}.

Definition no_info : refinfo := RefInfo [] None false.

(** Tokens of a token stream, columns, and query sources.  A token is a
    string ([Kw]: keyword, operator, or the wildcard) or an object that is
    told apart by the property it carries: [ref], [val], [list], [xpr],
    [func], [SELECT]. *)
Inductive token : Type :=
| Kw (s : string)
| Ref (steps : list step) (ri : refinfo) (a : attrs) (proj : projection)
| Val (v : value) (a : attrs)
| Lst (l : list token)
| Xpr (l : list token) (a : attrs)
| Fn (f : string) (args : option (list token)) (a : attrs)
| Sub (q : select) (a : attrs)
(** A step of a [ref]: a plain name, or [{ id, where }]. *)
with step : Type :=
| Step (id : string) (where_ : option (list token))
(** Nested projection on a column. *)
with projection : Type :=
| NoProj
| Expand (cols : list token)
| Inline (cols : list token)
(** The [SELECT] property of a query. *)
with select : Type :=
| Select (from : source) (columns : option (list token))
         (where_ : option (list token)) (having : option (list token))
         (groupBy : option (list token)) (orderBy : option (list token))
         (excluding : option (list string)) (localized : bool)
(** A [from]: a reference, a join node, a subquery, or a plain name. *)
with source : Type :=
| SrcRef (steps : list step) (ri : refinfo) (as_name : option string)
| SrcJoin (kind : string) (args : list source) (on : list token)
| SrcSelect (q : select) (as_name : option string)
| SrcName (name : string).

Definition step_id (s : step) : string := match s with Step i _ => i end.
Definition step_where (s : step) : option (list token) :=
  match s with Step _ w => w end.
Definition plain (id : string) : step := Step id None.

(** [step === name] for a step of a [ref]: only a plain string can be
    equal to a name; the same holds for [step in dictionary]. *)
Definition step_is (name : string) (s : step) : bool :=
  match s with Step i None => eqs i name | Step _ (Some _) => false end.

Definition step_in {A} (dict : list (string * A)) (s : step) : bool :=
  match s with Step i None => has_key i dict | Step _ (Some _) => false end.

(** [ref.map(idOnly)] *)
Definition ids (steps : list step) : list string := map step_id steps.

Definition sel_from (s : select) : source :=
  match s with Select f _ _ _ _ _ _ _ => f end.
Definition sel_columns (s : select) : option (list token) :=
  match s with Select _ c _ _ _ _ _ _ => c end.
Definition sel_where (s : select) : option (list token) :=
  match s with Select _ _ w _ _ _ _ _ => w end.

(** The query object: exactly one of the commands. *)
Inductive query : Type :=
| SELECT (s : select)
| SET (args : list query)
| INSERT (into : source)
| UPSERT (into : source)
| UPDATE (entity : source) (where_ : option (list token))
| DELETE (from : source) (where_ : option (list token)).

Definition is_SET (q : query) : bool :=
  match q with SET _ => true | _ => false end.

(** A reference token without projection, as it occurs in the output. *)
Definition flat_ref (names : list string) (a : attrs) : token :=
  Ref (map plain names) no_info a NoProj.

Definition token_attrs (t : token) : attrs :=
  match t with
  | Ref _ _ a _ | Val _ a | Xpr _ a | Fn _ _ a | Sub _ a => a
  | Kw _ | Lst _ => no_attrs
  end.

Definition is_kw (s : string) (t : token) : bool :=
  match t with Kw k => eqs k s | _ => false end.

End Cqn.

(** ** Inference ([infer/index.js]) *)

Module Infer.
Import Csn Cqn.

(** An inferred query element. *)
Inductive element : Type :=
| EDef (d : def)                 (* a definition of the model, as it is *)
| EType (t : string)             (* a cast type, or one of [cdsTypes] *)
| EEmpty                         (* [{}] *)
| ECopy (base : element) (annos : list (string * value))
        (name : option string)   (* [getCopyWithAnnos(from, base)] *)
| ENested (els : list (string * element)) (many : bool).
                                 (* [cds.struct] / [cds.array] of an expand *)

Definition element_name (e : element) : option string :=
  match e with
  | EDef d => Some (d_name d)
  | ECopy _ _ (Some n) => Some n
  | _ => None
  end.

(** [getCopyWithAnnos(from, base)]: the base with the annotations of the
    column; the name is overridden when the column has an alias that
    differs from the name of the base. *)
Definition getCopyWithAnnos (a : attrs) (base : element) : element :=
  ECopy base (a_annos a)
    (match truthy_name (a_as a) with
     | Some n =>
         match element_name base with
         | Some bn => if eqs bn n then None else Some n
         | None => Some n
         end
     | None => None
     end).

(** [getCdsTypeForVal(val)]: all numbers of the embedding are safe
    integers; [typeof null] is ['object']. *)
Definition getCdsTypeForVal (v : value) : element :=
  match v with
  | VStr _ => EType "cds.String"
  | VBool _ => EType "cds.Boolean"
  | VNum _ => EType "cds.Integer"
  | VNull => EEmpty
  end.

(** The string a literal turns into when it is used as a property name,
    [queryElements[col.val]]. *)
Definition Z_to_string (z : Z) : string :=
  let digits := fix go (fuel : nat) (n : N) (acc : string) : string :=
    match fuel with
    | O => acc
    | S f =>
        let d := String (ascii_of_N (48 + N.modulo n 10)) EmptyString in
        if N.ltb n 10 then (d ++ acc)%string else go f (N.div n 10) (d ++ acc)%string
    end in
  let n := Z.abs_N z in
  let s := digits (S (N.to_nat (N.log2 n))) n EmptyString in
  if Z.ltb z 0 then ("-" ++ s)%string else s.

Definition value_key (v : value) : string :=
  match v with
  | VNull => "null"
  | VBool true => "true"
  | VBool false => "false"
  | VNum z => Z_to_string z
  | VStr s => s
  end.

(** The dictionary of query sources: alias to definition. *)
Definition sources := list (string * def).

(** One entry of [$combinedElements[name]]: [{ index, tableAlias }]. *)
Record combined : Type := Combined { index : string; tableAlias : def }.

(** [inferCombinedElements()]: for every source in order, for every
    element in order, append to the entry of the element's name or create
    it at the end. *)
Fixpoint add_combined (key : string) (c : combined)
    (ce : list (string * list combined)) : list (string * list combined) :=
  match ce with
  | [] => [(key, [c])]
  | (k, l) :: r =>
      if eqs key k then (k, l ++ [c]) :: r else (k, l) :: add_combined key c r
  end.

Definition inferCombinedElements (srcs : sources)
  : list (string * list combined) :=
  fold_left
    (fun ce '(idx, ta) =>
       fold_left (fun ce e => add_combined (fst e) (Combined idx ta) ce)
                 (match d_elements ta with Some els => els | None => [] end) ce)
    srcs [].

(** [queryElements[k] = v]: replaces in place or appends. *)
Fixpoint set_key {A} (k : string) (v : A) (l : list (string * A))
  : list (string * A) :=
  match l with
  | [] => [(k, v)]
  | (k', v') :: r =>
      if eqs k k' then (k', v) :: r else (k', v') :: set_key k v r
  end.

(** [{ ...a, ...b }] *)
Definition spread {A} (a b : list (string * A)) : list (string * A) :=
  fold_left (fun acc kv => set_key (fst kv) (snd kv) acc) b a.

(** The definition an element behaves as when it is read through its
    prototype chain. *)
Fixpoint def_of_element (e : element) : def :=
  match e with
  | EDef d => d
  | EType _ | EEmpty => empty_def
  | ECopy base _ name =>
      let d := def_of_element base in
      match name with
      | Some n =>
          Def n (d_kind d) (d_parents d) (d_elements d) (d_target d)
              (d_keys d) (d_on d) (d_virtual d) (d_key d) (d_is2one d)
              (d_skip d) (d_not_localized d)
      | None => d
      end
  | ENested els _ =>
      Def "" KType []
          (Some ((fix go (l : list (string * element)) :=
                    match l with
                    | [] => []
                    | (k, e) :: r => (k, def_of_element e) :: go r
                    end) els))
          None None None false false false false false
  end.

(** [{ elements: queryElements }], the environment of [$self]. *)
Definition self_env (qe : list (string * element)) : def :=
  Def "" KNone [] (Some (map (fun kv => (fst kv, def_of_element (snd kv))) qe))
      None None None false false false false false.

(** [getElementForCast(thing)]: [{}] without a cast; a cast on a
    structure is rejected. *)
Definition getElementForCast (a : attrs) (links : list refLink)
  : result element :=
  match a_cast a with
  | None => Ok EEmpty
  | Some t =>
      match last_opt links with
      | Some l =>
          match d_elements (l_definition l) with
          | Some _ => Err CastOnStructure
          | None => Ok (EType t)
          end
      | None => Ok (EType t)
      end
  end.

(** *** Resolution of references *)

Section Resolve.

(** [pseudos.elements] of [infer/pseudos.js]. *)
Variable pseudos : list (string * def).

(** The join tree of [infer/join-tree.js]: its state and the effect of
    [joinTree.mergeColumn(column)] on the links of the column. *)
Variable JoinTree : Type.
Variable mergeColumn : list step -> list refLink -> JoinTree -> list refLink * JoinTree.

Variable m : model.
Variable srcs : sources.
Variable outerQueries : list sources.
Variable combinedElements : list (string * list combined).

(** The object [pseudos], as the environment of a pseudo path. *)
Definition pseudos_env : def :=
  Def "" KNone [] (Some pseudos) None None None false false false false false.

(** What the inference owns while it walks over a query. *)
Record istate : Type := IState {
  queryElements : list (string * element);
  joinTree : JoinTree
}.

(** The [$baseLink] argument: only [definition] and [target] are read. *)
Record baseLink : Type := Base { b_definition : def; b_target : def }.

Definition base_of (l : refLink) : baseLink :=
  Base (l_definition l) (l_target l).

(** [isColumnJoinRelevant(column)] *)
Fixpoint isColumnJoinRelevant_loop (expand : bool) (steps : list step)
    (links : list refLink) (fkAccess : bool) (assoc_ : option def) : bool :=
  match steps, links with
  | ref :: steps', link :: links' =>
      let d := l_definition link in
      let has_next := match steps' with [] => false | _ => true end in
      if (match d_on d with Some _ => true | None => false end) && isAssociation d
      then
        if negb has_next then expand && (match assoc_ with Some _ => true | None => false end)
        else true
      else if (match assoc_ with
               | Some a =>
                   match d_keys a with
                   | Some ks =>
                       existsb (fun k =>
                         (fix every (kr : list string) (ss : list step) : bool :=
                            match kr with
                            | [] => true
                            | s :: kr' =>
                                match ss with
                                | Step i None :: ss' => eqs i s && every kr' ss'
                                | _ => false
                                end
                            end) (fk_ref k) (ref :: steps')) ks
                   | None => false
                   end
               | None => false
               end)
      then false
      else
        match d_target d, d_keys d with
        | Some _, Some _ =>
            let fkAccess' :=
              if has_next || (match assoc_ with Some _ => true | None => false end)
              then false else true in
            match step_where ref with
            | Some _ => if expand && negb has_next then false else true
            | None => isColumnJoinRelevant_loop expand steps' links' fkAccess' (Some d)
            end
        | _, _ => isColumnJoinRelevant_loop expand steps' links' fkAccess assoc_
        end
  | _, _ =>
      match assoc_ with
      | None => false
      | Some _ => negb fkAccess
      end
  end.

Definition isColumnJoinRelevant (expand : bool) (steps : list step)
    (links : list refLink) : bool :=
  isColumnJoinRelevant_loop expand steps links false None.

Variable resolveExpand : token -> result element.
Variable resolveInline : token -> result (list (string * element)).

(** The state of the loop over the steps of one [ref]. *)
Record walk : Type := Walk {
  w_links : list refLink;          (* column.$refLinks so far *)
  w_steps : list step;             (* the steps seen, filters linked *)
  nameSegments : list string;
  skipAliasedFkSegmentsOfNameStack : list string;
  pseudoPath : bool;
  isPersisted : bool;
  w_joinRelevant : bool;           (* column.isJoinRelevant *)
  w_state : istate
}.

Definition rec_type : Type :=
  istate -> token -> bool -> option baseLink -> bool -> bool ->
  result (token * istate).

(** [list.forEach(t => inferQueryElement(t, false, ...))] *)
Fixpoint infer_each (rec : rec_type) (st : istate) (l : list token)
    (base : option baseLink) (inExists inExpr : bool)
  : result (list token * istate) :=
  match l with
  | [] => Ok ([], st)
  | t :: r =>
      '(t', st1) <- rec st t false base inExists inExpr ;;
      '(r', st2) <- infer_each rec st1 r base inExists inExpr ;;
      Ok (t' :: r', st2)
  end.

(** The walk over the tokens of an infix filter of a column step. *)
Fixpoint infer_filter (rec : rec_type) (st : istate) (l : list token)
    (base : baseLink) (skipJoinsForFilter : bool)
  : result (list token * istate) :=
  match l with
  | [] => Ok ([], st)
  | t :: r =>
      if is_kw "exists" t then
        '(r', st') <- infer_filter rec st r base true ;;
        Ok (t :: r', st')
      else
        '(t', st1) <-
          match t with
          | Ref _ _ _ _ | Xpr _ _ =>
              rec st t false (Some base) skipJoinsForFilter false
          | Fn f (Some args) a =>
              '(args', st1) <- infer_each rec st args (Some base) skipJoinsForFilter false ;;
              Ok (Fn f (Some args') a, st1)
          | _ => Ok (t, st)
          end ;;
        '(r', st2) <- infer_filter rec st1 r base skipJoinsForFilter ;;
        Ok (t' :: r', st2)
  end.

(** [definition.keys.find(k => k.ref.every((step, j) => column.ref[i + j] === step))]
    for the steps from index [i] on. *)
Fixpoint key_matches (kr : list string) (ss : list step) : bool :=
  match kr with
  | [] => true
  | s :: kr' =>
      match ss with
      | st :: ss' => step_is s st && key_matches kr' ss'
      | [] => false
      end
  end.

Definition find_key (ks : list fkey) (ss : list step) : option fkey :=
  find (fun k => key_matches (fk_ref k) ss) ks.

(** The name under which a plain reference enters the query elements. *)
Definition elementName_of (a : attrs) (steps : list step) (flat : string)
    (firstStepIsSelf firstStepIsTableAlias : bool) : string :=
  match truthy_name (a_as a) with
  | Some n => n
  | None =>
      let refNavigation :=
        join "_" (ids (if firstStepIsSelf || firstStepIsTableAlias
                       then tl steps else steps)) in
      if eqs refNavigation flat then flat else refNavigation
  end.

Section Column.

(** The column whose [ref] is walked, and the arguments of
    [inferQueryElement]. *)
Variable rec : rec_type.
Variable ref : list step.
Variable a : attrs.
Variable proj : projection.
Variable insertIntoQueryElements : bool.
Variable base : option baseLink.
Variable inExists : bool.

Definition is_expand : bool := match proj with Expand _ => true | _ => false end.
Definition is_inline : bool := match proj with Inline _ => true | _ => false end.

Definition firstStepIsTableAlias : bool :=
  match ref with
  | s :: _ :: _ => step_in srcs s
  | [s] => step_in srcs s && is_inline
  | [] => false
  end.

Definition firstStepIsSelf : bool :=
  negb firstStepIsTableAlias &&
  match ref with
  | s :: _ :: _ => step_is "$self" s || step_is "$projection" s
  | _ => false
  end.

(** The link of the first step, without its alias, and whether the name
    of the step is part of the flat name. *)
Definition resolve_first (id : string) (w : walk)
  : result (def * def * bool * bool) :=
  match assoc id pseudos with
  | Some p => Ok (p, pseudos_env, true, true)
  | None =>
      match base with
      | Some b =>
          match elements_or_target m (b_definition b) with
          | Some els =>
              match assoc id els with
              | Some e => Ok (e, b_target b, false, true)
              | None => Err (UnknownName id)
              end
          | None => Err (UnknownName id)
          end
      | None =>
          if firstStepIsTableAlias then
            d <- of_option (assoc id srcs) (TypeError "sources") ;;
            Ok (d, d, false, false)
          else if firstStepIsSelf then
            let env := self_env (queryElements (w_state w)) in
            Ok (env, env, false, false)
          else
            match find (fun outer => has_key id outer) outerQueries with
            | Some outer =>
                d <- of_option (assoc id outer) (TypeError "sources") ;;
                Ok (d, d, false, false)
            | None =>
                match assoc id combinedElements with
                | Some (c :: more) =>
                    match more with
                    | _ :: _ => Err (AmbiguousName id)
                    | [] =>
                        els <- of_option (d_elements (tableAlias c)) (TypeError "elements") ;;
                        d <- of_option (assoc id els) (TypeError "definition") ;;
                        Ok (d, tableAlias c, false, true)
                    end
                | Some [] => Err (TypeError "tableAlias")
                | None => Err (UnknownName id)
                end
            end
      end
  end.

(** The link of a later step, resolved in the definition of the previous
    link; the last component tells whether the column became join
    relevant ([$dummy]). *)
Definition resolve_next (id : string) (prev : refLink) (w : walk)
  : result (def * def * bool) :=
  let definition := l_definition prev in
  match (match elements_or_target m definition with
         | Some els => assoc id els
         | None => None
         end) with
  | Some e => Ok (e, l_target prev, false)
  | None =>
      if firstStepIsSelf then Err (UnknownName id)
      else if (match ref with s :: _ => step_is "$user" s | [] => false end)
              && pseudoPath w
      then Ok (empty_def, l_target prev, false)
      else if eqs id "$dummy" then
        Ok (Def "$dummy" KNone
                (Parent (d_kind (l_target prev)) (d_name (l_target prev))
                   :: d_parents (l_target prev))
                None None None None false false false false false,
            empty_def, true)
      else Err (UnknownName id)
  end.

(** The segments that a later step contributes to the flat name. *)
Definition name_segments_next (id : string) (prev : refLink)
    (rest : list step) (w : walk) : list string * list string :=
  let found :=
    match d_keys (l_definition prev) with
    | Some ks => find_key ks rest
    | None => None
    end in
  let stack :=
    match found with
    | Some k => skipAliasedFkSegmentsOfNameStack w ++ tl (fk_ref k)
    | None => skipAliasedFkSegmentsOfNameStack w
    end in
  let foreignKeyAlias :=
    match found with
    | Some k =>
        match fk_as k with
        | Some n => if eqs n "" then None else Some n
        | None => None
        end
    | None => None
    end in
  match foreignKeyAlias with
  | Some n => (nameSegments w ++ [n], stack)
  | None =>
      match stack with
      | s :: stack' =>
          if eqs s id then (nameSegments w, stack')
          else (nameSegments w ++ [id], stack)
      | [] => (nameSegments w ++ [id], stack)
      end
  end.

(** What happens at the last step of the [ref]: the flat name is fixed
    and the element of the column enters the query elements. *)
Definition infer_leaf (i : nat) (id : string) (lk : refLink) (w : walk)
  : result walk :=
  let flat := join "_" (nameSegments w) in
  let st := w_state w in
  let qe := queryElements st in
  let column :=
    Ref (w_steps w) (RefInfo (w_links w) (Some flat) (w_joinRelevant w)) a proj in
  qe' <-
    match a_cast a with
    | Some _ =>
        b <- getElementForCast a (w_links w) ;;
        Ok (if insertIntoQueryElements
            then set_key (match truthy_name (a_as a) with Some n => n | None => flat end)
                         (getCopyWithAnnos a b) qe
            else qe)
    | None =>
        match proj with
        | Expand _ =>
            els <- resolveExpand column ;;
            Ok (if insertIntoQueryElements
                then set_key (match truthy_name (a_as a) with Some n => n | None => flat end) els qe
                else qe)
        | Inline _ =>
            if insertIntoQueryElements then
              els <- resolveInline column ;;
              Ok (spread qe els)
            else Ok qe
        | NoProj =>
            (* shortcut for [ref: ['$user']] -> [ref: ['$user', 'id']] *)
            leafArt <-
              (if Nat.eqb i 0 && eqs id "$user" then
                 els <- of_option (d_elements (l_definition lk)) (TypeError "elements") ;;
                 Ok (assoc "id" els)
               else Ok (Some (l_definition lk))) ;;
            if insertIntoQueryElements then
              let elementName :=
                elementName_of a ref flat firstStepIsSelf firstStepIsTableAlias in
              if has_key elementName qe then Err (DuplicateElement elementName)
              else
                art <- of_option leafArt (TypeError "leafArt") ;;
                Ok (set_key elementName (getCopyWithAnnos a (EDef art)) qe)
            else Ok qe
        end
    end ;;
  Ok (Walk (w_links w) (w_steps w) (nameSegments w)
           (skipAliasedFkSegmentsOfNameStack w) (pseudoPath w) (isPersisted w)
           (w_joinRelevant w) (IState qe' (joinTree st))).

(** One round of [column.ref.forEach((step, i) => ...)]; [rest] are the
    steps from index [i] on. *)
Definition infer_step (i : nat) (rest : list step) (w : walk) : result walk :=
  match rest with
  | [] => Ok w
  | Step id where_ :: later =>
      (* the link of the step and the name segments *)
      '(d, t, jr, segs, stack, pseudo) <-
        match i with
        | O =>
            '(d, t, pseudo, named) <- resolve_first id w ;;
            Ok (d, t, false,
                if named then nameSegments w ++ [id] else nameSegments w,
                skipAliasedFkSegmentsOfNameStack w, pseudo)
        | S _ =>
            prev <- of_option (last_opt (w_links w)) (TypeError "$refLinks") ;;
            '(d, t, jr) <- resolve_next id prev w ;;
            let '(segs, stack) := name_segments_next id prev rest w in
            Ok (d, t, jr, segs, stack, pseudoPath w)
        end ;;
      let has_next := match later with [] => false | _ => true end in
      (* the infix filter of the step *)
      '(where', jr', st') <-
        match where_ with
        | Some f =>
            let danglingFilter := negb (has_next || is_expand || inExists) in
            if negb (isAssociation d) || danglingFilter then Err FilterOnNonAssoc
            else
              '(f', st') <- infer_filter rec (w_state w) f (Base d t) inExists ;;
              Ok (Some f', negb is_expand, st')
        | None => Ok (None, false, w_state w)
        end ;;
      let alias :=
        match has_next, truthy_name (a_as a) with
        | false, Some n => n
        | _, _ => after_last_dot id
        end in
      let lk := link d t alias in
      let persisted :=
        match target_of m d with
        | Some tg => if d_skip tg then false else isPersisted w
        | None => isPersisted w
        end in
      let w' :=
        Walk (w_links w ++ [lk]) (w_steps w ++ [Step id where']) segs stack
             pseudo persisted (w_joinRelevant w || jr || jr') st' in
      if has_next then Ok w' else infer_leaf i id lk w'
  end.

Fixpoint infer_steps (i : nat) (rest : list step) (w : walk) : result walk :=
  match rest with
  | [] => Ok w
  | _ :: later =>
      w' <- infer_step i rest w ;;
      infer_steps (S i) later w'
  end.

End Column.

(** [inferQueryElement(column, insertIntoQueryElements, $baseLink, inExists, inExpr)].
    The result is the column with its hidden properties and the new state.
    [fuel] bounds the nesting of filters and expressions. *)
Fixpoint inferQueryElement (fuel : nat) (st : istate) (column : token)
    (insertIntoQueryElements : bool) (base : option baseLink)
    (inExists inExpr : bool) {struct fuel} : result (token * istate) :=
  match fuel with
  | O => Err OutOfFuel
  | S fuel' =>
      let rec := inferQueryElement fuel' in
      match column with
      | Kw _ | Val _ _ | Sub _ _ => Ok (column, st)
      | Fn f None _ => Ok (column, st)
      | Fn f (Some args) a =>
          '(args', st') <- infer_each rec st args base inExists inExpr ;;
          Ok (Fn f (Some args') a, st')
      | Lst l =>
          '(l', st') <- infer_each rec st l base inExists inExpr ;;
          Ok (Lst l', st')
      | Xpr l a =>
          '(l', st') <- infer_each rec st l base inExists true ;;
          Ok (Xpr l' a, st')
      | Ref steps ri a proj =>
          if a_param a then Ok (column, st)
          else
            w <- infer_steps rec steps a proj insertIntoQueryElements base inExists
                   0 steps
                   (Walk [] [] [] [] false true (isJoinRelevant ri) st) ;;
            leaf <- of_option (last_opt (w_links w)) (TypeError "$refLinks") ;;
            let flat := Some (join "_" (nameSegments w)) in
            let skip :=
              existsb (fun l =>
                         match target_of m (l_definition l) with
                         | Some t => d_skip t
                         | None => false
                         end) (w_links w) in
            if is_expand proj && skip then
              Ok (Ref (w_steps w)
                      (RefInfo (but_last (w_links w) ++ [set_skipExpand leaf])
                               flat (w_joinRelevant w)) a proj,
                  w_state w)
            else
              let virtual :=
                (d_virtual (l_definition leaf) || negb (isPersisted w))
                && negb inExpr in
              if negb inExists && negb virtual
                 && isColumnJoinRelevant (is_expand proj) (w_steps w) (w_links w)
              then
                let '(links', jt') :=
                  mergeColumn (w_steps w) (w_links w) (joinTree (w_state w)) in
                Ok (Ref (w_steps w) (RefInfo links' flat true) a proj,
                    IState (queryElements (w_state w)) jt')
              else
                Ok (Ref (w_steps w) (RefInfo (w_links w) flat (w_joinRelevant w)) a proj,
                    w_state w)
      end
  end.

End Resolve.

(** *** Query sources *)

Section Target.

Variable m : model.

(** [association.foreignKeys] of the linked model: the names under which
    the foreign keys of a managed association can be addressed. *)
Variable foreignKeys : def -> list string.

(** [getDefinition(name, model)] *)
Definition getDefinition (name : string) : result def :=
  of_option (assoc name (definitions m)) (UnknownName name).

(** [e._target || e] *)
Definition target_or_self (e : def) : def :=
  match target_of m e with Some t => t | None => e end.

Section Attach.

(** [attachRefLinksToArg] on the tokens of a filter, one level below. *)
Variable attach_token : token -> refLink -> bool -> result token.

(** [step.where.forEach(walkTokenStream)]; the flag [existsPredicate] is
    shared by the whole walk, nested expressions included. *)
Fixpoint walkTokenStream (fuel : nat)
  : list token -> refLink -> bool -> result (list token * bool) :=
  match fuel with
  | O => fun _ _ _ => Err OutOfFuel
  | S fuel' =>
      fix walk (l : list token) (lk : refLink) (existsPredicate : bool)
        : result (list token * bool) :=
        match l with
        | [] => Ok ([], existsPredicate)
        | t :: r =>
            '(t', e') <-
              (if is_kw "exists" t then Ok (t, true)
               else
                 match t with
                 | Xpr x a =>
                     '(x', e') <- walkTokenStream fuel' x lk existsPredicate ;;
                     Ok (Xpr x' a, e')
                 | _ =>
                     t' <- attach_token t lk existsPredicate ;;
                     Ok (t', false)
                 end) ;;
            '(r', e'') <- walk r lk e' ;;
            Ok (t' :: r', e'')
        end
  end.

(** The first link of an argument that is resolved below a base link. *)
Definition attach_first_in_base (id : string) (next : option string)
    (baseDef : def) (expandOrExists : bool) : result (def * def) :=
  match (match elements_or_target m baseDef with
         | Some els => assoc id els
         | None => None
         end) with
  | None => Err (UnknownName id)
  | Some e =>
      if isAssociation e && negb expandOrExists
         && (match d_on e with Some _ => true | None => false end)
      then Err (UnmanagedInInfixFilter (d_name e))
      else if isAssociation e && negb expandOrExists
              && (match next with
                  | Some n => negb (existsb (eqs n) (foreignKeys e))
                  | None => false
                  end)
      then Err (NonFkInInfixFilter (d_name e))
      else Ok (e, target_or_self e)
  end.

(** The loop [ref.forEach((step, i) => ...)] of [attachRefLinksToArg];
    [rest] are the steps from index [i] on. *)
Fixpoint attach_steps (fuel : nat) (i : nat) (rest : list step)
    (as_name : option string) (base : option refLink) (expandOrExists : bool)
    (links : list refLink) (done : list step)
  : result (list step * list refLink) :=
  match rest with
  | [] => Ok (done, links)
  | Step id where_ :: later =>
      '(d, t) <-
        match i with
        | O =>
            match base with
            | Some b =>
                attach_first_in_base id
                  (match later with s :: _ => Some (step_id s) | [] => None end)
                  (l_definition b) expandOrExists
            | None =>
                d <- getDefinition id ;;
                Ok (d, d)
            end
        | S _ =>
            recent <- of_option (last_opt links) (TypeError "$refLinks") ;;
            els <- of_option (d_elements (l_target recent)) (TypeError "elements") ;;
            e <- of_option (assoc id els) (UnknownName id) ;;
            Ok (e, target_or_self e)
        end ;;
      let alias :=
        match later, truthy_name as_name with
        | [], Some n => n
        | _, _ => after_last_dot id
        end in
      let lk := link d t alias in
      where' <-
        match where_ with
        | None => Ok None
        | Some f =>
            if dkind_eqb (d_kind d) KEntity || isAssociation d then
              '(f', _) <- walkTokenStream fuel f lk false ;;
              Ok (Some f')
            else Err FilterOnNonAssoc
        end ;;
      attach_steps fuel (S i) later as_name base expandOrExists
        (links ++ [lk]) (done ++ [Step id where'])
  end.

End Attach.

(** [attachRefLinksToArg(arg, $baseLink, expandOrExists)] on a token. *)
Fixpoint attachRefLinksToArg (fuel : nat) (arg : token) (base : refLink)
    (expandOrExists : bool) : result token :=
  match fuel with
  | O => Err OutOfFuel
  | S fuel' =>
      match arg with
      | Xpr x a =>
          x' <- (fix each (l : list token) : result (list token) :=
                   match l with
                   | [] => Ok []
                   | t :: r =>
                       t' <- attachRefLinksToArg fuel' t base expandOrExists ;;
                       r' <- each r ;;
                       Ok (t' :: r')
                   end) x ;;
          Ok (Xpr x' a)
      | Ref steps ri a proj =>
          '(steps', links) <-
            attach_steps (fun t lk e => attachRefLinksToArg fuel' t lk e) fuel
              0 steps (a_as a) (Some base) expandOrExists [] [] ;;
          Ok (Ref steps' (RefInfo links (Some (join "_" (ids steps)))
                                  (isJoinRelevant ri)) a proj)
      | _ => Ok arg
      end
  end.

End Target.

(** *** The elements of a query *)

Section Elements.

Variable pseudos : list (string * def).
Variable JoinTree : Type.
Variable mergeColumn : list step -> list refLink -> JoinTree -> list refLink * JoinTree.
Variable resolveExpand : token -> result element.
Variable resolveInline : token -> result (list (string * element)).
Variable m : model.
Variable srcs : sources.
Variable outerQueries : list sources.
Variable combinedElements : list (string * list combined).

Let ist : Type := istate JoinTree.

Definition inferQE (fuel : nat) : rec_type JoinTree :=
  inferQueryElement pseudos mergeColumn m srcs outerQueries combinedElements
    resolveExpand resolveInline fuel.

(** A token stream in which [exists] switches off the joins of the token
    that follows: the walk over [where] and over the [xpr] of a column. *)
Fixpoint walk_exists (fuel : nat)
  : ist -> list token -> bool -> result (list token * ist * bool) :=
  match fuel with
  | O => fun _ _ _ => Err OutOfFuel
  | S fuel' =>
      fix walk (st : ist) (l : list token) (skipJoins : bool)
        : result (list token * ist * bool) :=
        match l with
        | [] => Ok ([], st, skipJoins)
        | t :: r =>
            '(t', st', skip') <-
              (if is_kw "exists" t then Ok (t, st, true)
               else
                 match t with
                 | Xpr x a =>
                     '(x', st', skip') <- walk_exists fuel' st x skipJoins ;;
                     Ok (Xpr x' a, st', skip')
                 | _ =>
                     '(t', st') <- inferQE fuel st t false None skipJoins true ;;
                     Ok (t', st', false)
                 end) ;;
            '(r', st'', skip'') <- walk st' r skip' ;;
            Ok (t' :: r', st'', skip'')
        end
  end.

(** [xpr?.forEach(...)] of [getElementForXprOrSubquery]: nested
    expressions are inferred as tokens, not walked. *)
Fixpoint infer_xpr_tokens (fuel : nat) (st : ist) (l : list token)
    (skipJoins : bool) : result (list token * ist) :=
  match l with
  | [] => Ok ([], st)
  | t :: r =>
      if is_kw "exists" t then
        '(r', st') <- infer_xpr_tokens fuel st r true ;;
        Ok (t :: r', st')
      else
        '(t', st1) <- inferQE fuel st t false None skipJoins true ;;
        '(r', st2) <- infer_xpr_tokens fuel st1 r false ;;
        Ok (t' :: r', st2)
  end.

Definition token_links (t : token) : list refLink :=
  match t with Ref _ ri _ _ => refLinks ri | _ => [] end.

(** [getElementForXprOrSubquery(col)] *)
Definition getElementForXprOrSubquery (fuel : nat) (st : ist)
    (col : token) : result (token * element * ist) :=
  match col with
  | Xpr x a =>
      '(x', st') <- infer_xpr_tokens fuel st x false ;;
      b <- (match a_cast a with
            | Some _ => getElementForCast a []
            | None =>
                match x' with
                | t :: _ => getElementForCast (token_attrs t) (token_links t)
                | [] => getElementForCast a []
                end
            end) ;;
      Ok (Xpr x' a, getCopyWithAnnos a b, st')
  | _ =>
      b <- getElementForCast (token_attrs col) [] ;;
      Ok (col, getCopyWithAnnos (token_attrs col) b, st)
  end.

(** [col.as || col.func || col.val] of a column that is not a plain
    reference; [None] is [undefined]. *)
Definition alias_of_column (col : token) : option string :=
  match truthy_name (a_as (token_attrs col)) with
  | Some n => Some n
  | None =>
      match col with
      | Fn f _ _ => Some f
      | Val v _ => Some (value_key v)
      | _ => None
      end
  end.

(** The columns that enter the first branch of the loop over the columns:
    [col.val !== undefined || col.xpr || col.SELECT || col.func || col.param]. *)
Definition is_expression_column (col : token) : bool :=
  match col with
  | Val _ _ | Xpr _ _ | Sub _ _ => true
  | Fn f _ _ => negb (eqs f "")
  | Ref _ _ a _ => a_param a
  | Kw _ | Lst _ => false
  end.

(** The first loop over the columns: expressions, values, functions,
    subqueries and parameters enter the query elements under their alias;
    plain references are kept for the second loop.  The result also tells
    whether a wildcard was seen. *)
Definition infer_expression_column (fuel : nat) (st : ist) (col : token)
  : result (token * ist) :=
  match alias_of_column col with
  | None => Err ExpectingAlias
  | Some as_name =>
      if has_key as_name (queryElements st) then Err (DuplicateElement as_name)
      else
        match col with
        | Xpr _ _ | Sub _ _ =>
            '(col', e, st') <- getElementForXprOrSubquery fuel st col ;;
            Ok (col', IState (set_key as_name e (queryElements st')) (joinTree st'))
        | Fn f args a =>
            '(args', st') <-
              match args with
              | Some l =>
                  '(l', st') <- infer_each (inferQE fuel) st l None false false ;;
                  Ok (Some l', st')
              | None => Ok (None, st)
              end ;;
            e <- getElementForCast a [] ;;
            Ok (Fn f args' a, IState (set_key as_name e (queryElements st')) (joinTree st'))
        | _ =>
            (* either binding parameter or value *)
            e <- match a_cast (token_attrs col) with
                 | Some _ => getElementForCast (token_attrs col) (token_links col)
                 | None =>
                     Ok (match col with
                         | Val v _ => getCdsTypeForVal v
                         | _ => EEmpty
                         end)
                 end ;;
            Ok (col, IState (set_key as_name e (queryElements st)) (joinTree st))
        end
  end.

Fixpoint infer_columns_first (fuel : nat) (st : ist) (columns : list token)
  : result (list token * ist * bool) :=
  match columns with
  | [] => Ok ([], st, false)
  | col :: r =>
      if is_kw "*" col then
        '(r', st', _) <- infer_columns_first fuel st r ;;
        Ok (col :: r', st', true)
      else if is_expression_column col then
        '(col', st1) <- infer_expression_column fuel st col ;;
        '(r', st2, w) <- infer_columns_first fuel st1 r ;;
        Ok (col' :: r', st2, w)
      else
        match col with
        | Ref _ _ _ _ =>
            '(r', st', w) <- infer_columns_first fuel st r ;;
            Ok (col :: r', st', w)
        | _ => Err NotSupportedColumn
        end
  end.

(** The second loop: [refs.forEach(col => inferQueryElement(col) ...)]. *)
Fixpoint infer_columns_refs (fuel : nat) (st : ist) (columns : list token)
  : result (list token * ist) :=
  match columns with
  | [] => Ok ([], st)
  | col :: r =>
      '(col', st1) <-
        match col with
        | Ref _ _ a _ =>
            if a_param a then Ok (col, st)
            else inferQE fuel st col true None false false
        | _ => Ok (col, st)
        end ;;
      '(r', st2) <- infer_columns_refs fuel st1 r ;;
      Ok (col' :: r', st2)
  end.

(** What [setElementOnColumns] attaches to a plain reference column
    after the second loop. *)
Definition element_on_column (qe : list (string * element)) (col : token)
  : result (option element) :=
  match col with
  | Ref steps ri a _ =>
      match a_cast a with
      | Some _ => e <- getElementForCast a (refLinks ri) ;; Ok (Some e)
      | None =>
          match steps with
          | [s] =>
              if step_is "$user" s then
                Ok (assoc (match truthy_name (a_as a) with
                           | Some n => n
                           | None => "$user"
                           end) qe)
              else Ok (option_map (fun l => EDef (l_definition l)) (last_opt (refLinks ri)))
          | _ => Ok (option_map (fun l => EDef (l_definition l)) (last_opt (refLinks ri)))
          end
      end
  | _ => Ok None
  end.

(** [inferElementsFromWildCard()] *)
Definition inferElementsFromWildCard (excluding : option (list string))
    (qe : list (string * element)) : result (list (string * element)) :=
  match qe, srcs with
  | [], [(_, d)] =>
      (* only one query source and no overwritten columns *)
      els <- of_option (d_elements d) (TypeError "elements") ;;
      Ok (map (fun kv => (fst kv, EDef (snd kv))) els)
  | _, _ =>
      let exclude x :=
        match excluding with
        | Some l => existsb (eqs x) l
        | None => false
        end in
      let ambiguous :=
        existsb (fun kv => match snd kv with _ :: _ :: _ => true | _ => false end)
                combinedElements in
      qe' <-
        fold_left
          (fun acc kv =>
             qe <- acc ;;
             match snd kv with
             | _ :: _ :: _ => Ok qe
             | [c] =>
                 if exclude (fst kv) || has_key (fst kv) qe then Ok qe
                 else
                   els <- of_option (d_elements (tableAlias c)) (TypeError "elements") ;;
                   d <- of_option (assoc (fst kv) els) (TypeError "element") ;;
                   Ok (set_key (fst kv) (EDef d) qe)
             | [] => Err (TypeError "tableAlias")
             end)
          combinedElements (Ok qe) ;;
      if ambiguous then Err AmbiguousWildcard else Ok qe'
  end.

(** A query as a definition: the environment of a reference that
    addresses the elements of the query itself. *)
Definition query_def (qe : list (string * element)) : def :=
  Def "" KSelect [] (Some (map (fun kv => (fst kv, def_of_element (snd kv))) qe))
      None None None false false false false false.

(** The walk over [orderBy]: a token whose first step names a query
    element (other than an expanded association) is resolved in the
    elements of the query. *)
Fixpoint infer_orderBy (fuel : nat) (has_columns : bool) (st : ist)
    (l : list token) : result (list token * ist) :=
  match l with
  | [] => Ok ([], st)
  | t :: r =>
      let base :=
        if has_columns then
          match t with
          | Ref (Step id None :: _) _ _ _ =>
              match assoc id (queryElements st) with
              | Some (ENested _ _) => None
              | Some _ =>
                  Some (Base (self_env (queryElements st))
                             (query_def (queryElements st)))
              | None => None
              end
          | _ => None
          end
        else None in
      '(t', st1) <- inferQE fuel st t false base false false ;;
      '(r', st2) <- infer_orderBy fuel has_columns st1 r ;;
      Ok (t' :: r', st2)
  end.

Definition on_some {A B} (o : option A) (st : B)
    (f : A -> result (A * B)) : result (option A * B) :=
  match o with
  | Some x => '(x', st') <- f x ;; Ok (Some x', st')
  | None => Ok (None, st)
  end.

(** [inferQueryElements($combinedElements)] of a [SELECT]. *)
Definition inferQueryElements (fuel : nat) (jt : JoinTree) (s : select)
  : result (select * ist) :=
  match s with
  | Select from columns where_ having groupBy orderBy excluding localized =>
      let st0 := IState [] jt in
      '(columns', st1) <-
        match columns with
        | None =>
            qe <- inferElementsFromWildCard excluding [] ;;
            Ok (None, IState qe jt)
        | Some cols =>
            '(cols1, st1, wildcardSelect) <- infer_columns_first fuel st0 cols ;;
            '(cols2, st2) <- infer_columns_refs fuel st1 cols1 ;;
            if (wildcardSelect : bool) then
              qe <- inferElementsFromWildCard excluding (queryElements st2) ;;
              Ok (Some cols2, IState qe (joinTree st2))
            else Ok (Some cols2, st2)
        end ;;
      '(orderBy', st2) <-
        on_some orderBy st1
          (infer_orderBy fuel (match columns with Some _ => true | None => false end) st1) ;;
      '(where', st3) <-
        on_some where_ st2
          (fun w => '(w', st', _) <- walk_exists fuel st2 w false ;; Ok (w', st')) ;;
      '(groupBy', st4) <-
        on_some groupBy st3
          (fun g => infer_each (inferQE fuel) st3 g None false false) ;;
      '(having', st5) <-
        on_some having st4
          (fun h => infer_each (inferQE fuel) st4 h None false false) ;;
      Ok (Select from columns' where' having' groupBy' orderBy' excluding localized,
          st5)
  end.

End Elements.

(** *** The entry point of the inference *)

Section Entry.

Variable pseudos : list (string * def).
Variable JoinTree : Type.
Variable newJoinTree : sources -> JoinTree.
Variable mergeColumn : list step -> list refLink -> JoinTree -> list refLink * JoinTree.
Variable resolveExpand : token -> result element.
Variable resolveInline : token -> result (list (string * element)).
Variable foreignKeys : def -> list string.

(** The inferred query with its hidden properties. *)
Record inferred : Type := Inferred {
  i_query : query;
  i_sources : sources;
  i_combinedElements : list (string * list combined);
  i_elements : list (string * element);
  i_joinTree : option JoinTree
}.

Section InferTarget.

Variable m : model.
(** [infer(from, model)] on a subquery in [from]. *)
Variable infer_select : select -> result (select * list (string * element)).

(** The definition reached by the steps after the first one:
    [from.ref.slice(1).reduce(...)]. *)
Fixpoint target_of_path (d : def) (steps : list step) : result def :=
  match steps with
  | [] => Ok d
  | r :: rest =>
      els <- of_option (d_elements d) (TypeError "elements") ;;
      next <-
        match assoc (step_id r) els with
        | Some e =>
            match d_elements e with
            | Some _ => Ok e
            | None => of_option (target_of m e) (NoAssociation (step_id r))
            end
        | None => Err (NoAssociation (step_id r))
        end ;;
      target_of_path next rest
  end.

(** [inferTarget(from, querySources)].  The target of a path is an entity
    or a structured element; the property [_isAssociation] that the check
    of the query source also reads is set on no definition of the linked
    model, so that the check is [target.kind !== 'entity']. *)
Fixpoint inferTarget (fuel : nat) (from : source) (querySources : sources)
  : result (source * sources) :=
  match from with
  | SrcRef steps ri as_name =>
      match steps with
      | [] => Err (TypeError "ref")
      | first :: rest =>
          d <- getDefinition m (step_id first) ;;
          target <- target_of_path d rest ;;
          if negb (dkind_eqb (d_kind target) KEntity) then Err BadQuerySource
          else
            '(steps', links) <-
              attach_steps m foreignKeys
                (fun t lk e => attachRefLinksToArg m foreignKeys fuel t lk e)
                (S fuel) 0 steps as_name None false [] [] ;;
            let alias :=
              match truthy_name as_name with
              | Some n => n
              | None =>
                  match rest with
                  | [] => after_last_dot (step_id first)
                  | _ => step_id (last rest first)
                  end
              end in
            if has_key alias querySources then Err (DuplicateAlias alias)
            else
              Ok (SrcRef steps' (RefInfo links (flatName ri) (isJoinRelevant ri)) as_name,
                  set_key alias target querySources)
      end
  | SrcJoin k args on =>
      '(args', qs) <-
        (fix each (l : list source) (qs : sources)
           : result (list source * sources) :=
           match l with
           | [] => Ok ([], qs)
           | x :: r =>
               '(x', qs1) <- inferTarget fuel x qs ;;
               '(r', qs2) <- each r qs1 ;;
               Ok (x' :: r', qs2)
           end) args querySources ;;
      Ok (SrcJoin k args' on, qs)
  | SrcSelect q as_name =>
      '(q', els) <- infer_select q ;;
      Ok (SrcSelect q' as_name,
          set_key (match truthy_name as_name with Some n => n | None => "" end)
                  (query_def els) querySources)
  | SrcName name =>
      d <- getDefinition m name ;;
      Ok (from, set_key (after_last_dot name) d querySources)
  end.

End InferTarget.

(** [infer(from, model)] on a subquery that is a query source: the
    subquery with its hidden properties, and its elements. *)
Definition infer_subselect (rec : query -> result inferred) (q : select)
  : result (select * list (string * element)) :=
  i <- rec (SELECT q) ;;
  match i_query i with
  | SELECT q' => Ok (q', i_elements i)
  | _ => Err (TypeError "SELECT")
  end.

(** [infer(originalQuery, model)].  [outerQueries] is the hidden property
    of the same name that [transformSubquery] sets on a subquery; [fuel]
    bounds the nesting of subqueries, filters and expressions. *)
Fixpoint infer (fuel : nat) (outerQueries : list sources)
    (originalQuery : query) (model_ : option model) : result inferred :=
  match model_ with
  | None => Err NoModel
  | Some m =>
      if is_SET originalQuery then Err UnionNotSupported
      else
        match fuel with
        | O => Err OutOfFuel
        | S fuel' =>
            let infer_select :=
              infer_subselect (fun q => infer fuel' [] q model_) in
            let elements_of (from : source) (s : select)
                (rebuild : source -> select -> query) :=
              '(from', srcs) <- inferTarget m infer_select fuel' from [] ;;
              let jt := newJoinTree srcs in
              let ce := inferCombinedElements srcs in
              '(s', st) <-
                inferQueryElements pseudos mergeColumn resolveExpand
                  resolveInline m srcs outerQueries ce fuel' jt s ;;
              Ok (Inferred (rebuild from' s') srcs ce (queryElements st)
                           (Some (joinTree st))) in
            match originalQuery with
            | SET _ => Err UnionNotSupported
            | SELECT s =>
                elements_of (sel_from s) s
                  (fun from' s' =>
                     match s' with
                     | Select _ c w h g o e l => SELECT (Select from' c w h g o e l)
                     end)
            | DELETE from where_ =>
                elements_of from (Select from None where_ None None None None false)
                  (fun from' s' => DELETE from' (sel_where s'))
            | UPDATE entity where_ =>
                elements_of entity (Select entity None where_ None None None None false)
                  (fun from' s' => UPDATE from' (sel_where s'))
            | INSERT into =>
                '(into', srcs) <- inferTarget m infer_select fuel' into [] ;;
                Ok (Inferred (INSERT into') srcs [] [] None)
            | UPSERT into =>
                '(into', srcs) <- inferTarget m infer_select fuel' into [] ;;
                Ok (Inferred (UPSERT into') srcs [] [] None)
            end
        end
  end.

End Entry.


End Infer.

(** ** Rewriting ([cqn4sql.js]) *)

Module Rewrite.
Import Csn Cqn Infer.

(** *** Shared arrays

    [getFlatColumnsFor] stores its [csnPath] array in the flat columns it
    returns ([_csnPath]) and goes on pushing to the same array.  The
    arrays live in a store; a flat column holds the index of its array. *)

Definition store : Type := list (list string).

Definition alloc (content : list string) (s : store) : nat * store :=
  (length s, s ++ [content]).

Fixpoint push_at (p : nat) (x : string) (s : store) : store :=
  match s, p with
  | [], _ => []
  | a :: r, O => (a ++ [x]) :: r
  | a :: r, S p' => a :: push_at p' x r
  end.

Definition read (p : nat) (s : store) : list string := nth p s [].

(** A flat column: the visible object, and the hidden properties
    [element] and [_csnPath]. *)
Record flatcol : Type := FlatCol {
  fc_token : token;
  fc_element : option def;
  fc_csnPath : option nat
}.

(** The argument of [getFlatColumnsFor]: a column of the query or an
    element of the model. *)
Inductive flat_input : Type :=
| InCol (column : token)
| InDef (element : def).

(** The mutable surroundings of [getFlatColumnsFor]: the store of the
    [csnPath] arrays, and the [replace] columns, whose [as] is
    overwritten when they replace an element of a wildcard. *)
Record fstate : Type := FState {
  f_store : store;
  f_replace : list token
}.

(** [replacement.as || replacement.ref?.[replacement.ref.length - 1] || replacement],
    compared with the name of an element: only a string can be equal. *)
Definition replacement_name (t : token) : option string :=
  match truthy_name (a_as (token_attrs t)) with
  | Some n => Some n
  | None =>
      match t with
      | Ref steps _ _ _ =>
          match last_opt steps with
          | Some (Step i None) => Some i
          | _ => None
          end
      | Kw s => Some s
      | _ => None
      end
  end.

Definition names_element (name : string) (t : token) : bool :=
  match replacement_name t with
  | Some n => eqs n name
  | None => false
  end.

(** [getReplacement(from)] *)
Definition getReplacement (from : list token) (name : string) : option token :=
  find (names_element name) from.

(** [replacedBy.as = baseName] on the first replacement that names the
    element. *)
Definition with_as (baseName : string) (t : token) : token :=
  match t with
  | Ref s ri a p => Ref s ri (set_as (Some baseName) a) p
  | Val v a => Val v (set_as (Some baseName) a)
  | Xpr x a => Xpr x (set_as (Some baseName) a)
  | Fn f args a => Fn f args (set_as (Some baseName) a)
  | Sub q a => Sub q (set_as (Some baseName) a)
  | _ => t
  end.

Fixpoint overwrite_as (name baseName : string) (l : list token) : list token :=
  match l with
  | [] => []
  | t :: r =>
      if names_element name t then with_as baseName t :: r
      else t :: overwrite_as name baseName r
  end.

(** *** Flattening of columns *)

Section Flat.

Variable m : model.
Variable foreignKeys : def -> list string.
Variable combinedElements : list (string * list combined).

(** [getQuerySourceName(node, $baseLink)] *)
Definition getQuerySourceName (node : token) (base : option refLink)
  : result string :=
  match node with
  | Ref steps ri _ _ =>
      match refLinks ri with
      | [] => Err (TypeError "Invalid node")
      | first :: _ =>
          match base with
          | Some b => Ok (l_alias b)
          | None =>
              if isJoinRelevant ri then
                match find (fun l => isAssociation (l_definition l)
                                     && negb (l_onlyForeignKeyAccess l))
                           (rev (refLinks ri)) with
                | Some l => Ok (l_alias l)
                | None => Err (TypeError "alias")
                end
              else
                match steps with
                | [] => Err (TypeError "ref")
                | s :: _ =>
                    let k := d_kind (l_definition first) in
                    if dkind_eqb k KSelect || dkind_eqb k KEntity then Ok (step_id s)
                    else
                      match assoc (step_id s) combinedElements with
                      | Some (c :: _) => Ok (after_last_dot (index c))
                      | _ => Err (TypeError "$combinedElements")
                      end
                end
          end
      end
  | _ => Err (TypeError "Invalid node")
  end.

(** An object that is not a definition, read as one: it has no name, no
    parent, no elements. *)
Definition not_a_definition : def :=
  Def "undefined" KNone [] None None None None false false false false false.

(** What the head of [getFlatColumnsFor] computes: the element to expand,
    its base name, the column alias, and the leaf association of a join
    relevant column.  [None] when the column is dropped (unmanaged
    association, virtual element). *)
Definition flat_head (column : flat_input) (baseName columnAlias : option string)
  : result (option (def * string * option string * option refLink)) :=
  let by_base (element : def) :=
    b <- match truthy_name baseName with
         | Some b => Ok (b ++ "_" ++ d_name element)%string
         | None => getFullName element
         end ;;
    Ok (Some (element, b, columnAlias, None)) in
  let dropped (element : def) : bool :=
    match d_on element with Some _ => true | None => d_virtual element end in
  match column with
  | InDef element => if dropped element then Ok None else by_base element
  | InCol (Ref steps ri _ _) =>
      match last_opt (refLinks ri) with
      | None => by_base not_a_definition
      | Some leaf =>
          let element := l_definition leaf in
          if dropped element then Ok None
          else
            match isJoinRelevant ri, truthy_name (flatName ri) with
            | false, Some f => Ok (Some (element, f, columnAlias, None))
            | true, _ =>
                match find (fun l => isAssociation (l_definition l))
                           (rev (refLinks ri)) with
                | None => Err (TypeError "leafAssoc")
                | Some leafAssoc =>
                    if existsb (eqs (l_alias leaf))
                               (foreignKeys (l_definition leafAssoc))
                    then
                      b <- getFullName (l_definition leafAssoc) ;;
                      Ok (Some (l_definition leafAssoc, b,
                                Some (join "_" (ids (but_last steps))),
                                Some leafAssoc))
                    else
                      b <- getFullName element ;;
                      Ok (Some (element, b, columnAlias, Some leafAssoc))
                end
            | false, None => by_base element
            end
      end
  | InCol _ => by_base not_a_definition
  end.

(** [l.forEach(x => flatColumns.push(...f(x)))] with the state threaded. *)
Fixpoint flat_each {A} (f : A -> fstate -> result (list flatcol * fstate))
    (l : list A) (st : fstate) : result (list flatcol * fstate) :=
  match l with
  | [] => Ok ([], st)
  | x :: r =>
      '(cs, st1) <- f x st ;;
      '(cs', st2) <- flat_each f r st1 ;;
      Ok (cs ++ cs', st2)
  end.

Definition with_table (tableAlias : option string) (name : string) : list string :=
  match truthy_name tableAlias with
  | Some t => [t; name]
  | None => [name]
  end.

Definition set_store (s : store) (st : fstate) : fstate := FState s (f_replace st).

Definition input_attrs (column : flat_input) : attrs :=
  match column with
  | InCol t => token_attrs t
  | InDef _ => no_attrs
  end.

(** [getFlatColumnsFor(column, baseName, columnAlias, tableAlias, csnPath, exclude, replace)].
    [csnPath] is the index of the array in the store; [use_replace] tells
    whether [replace] is the list of the state or the default [[]].
    [fuel] bounds the recursion, which follows the elements of structures
    and the targets of foreign keys. *)
Fixpoint getFlatColumnsFor (fuel : nat) (column : flat_input)
    (baseName columnAlias tableAlias : option string) (csnPath : nat)
    (exclude : list token) (use_replace : bool) (st : fstate) {struct fuel}
  : result (list flatcol * fstate) :=
  match fuel with
  | O => Err OutOfFuel
  | S fuel' =>
      let passes_through :=
        match column with
        | InCol (Val v _) => truthy v
        | InCol (Fn f _ _) => negb (eqs f "")
        | InCol (Sub _ _) => true
        | _ => false
        end in
      if passes_through then
        match column with
        | InCol t => Ok ([FlatCol t None None], st)
        | InDef _ => Ok ([], st)
        end
      else
      h <- flat_head column baseName columnAlias ;;
      match h with
      | None => Ok ([], st)
      | Some (element, baseName, columnAlias, leafAssoc) =>
          match getReplacement exclude (d_name element) with
          | Some _ => Ok ([], st)
          | None =>
          match (if use_replace then getReplacement (f_replace st) (d_name element)
                 else None) with
          | Some replacedBy =>
              let has_as :=
                match truthy_name (a_as (token_attrs replacedBy)) with
                | Some _ => true | None => false end in
              let replace' :=
                if has_as then overwrite_as (d_name element) baseName (f_replace st)
                else f_replace st in
              let replacedBy' :=
                if has_as then with_as baseName replacedBy else replacedBy in
              baseName' <-
                match replacedBy with
                | Ref (_ :: _ :: _) ri _ _ =>
                    match rev (refLinks ri) with
                    | _ :: l :: _ => getFullName (l_definition l)
                    | _ => Err (TypeError "definition")
                    end
                | _ => Ok baseName
                end ;;
              tableAlias' <-
                match replacedBy with
                | Ref _ ri _ _ =>
                    if isJoinRelevant ri then
                      t <- getQuerySourceName replacedBy None ;; Ok (Some t)
                    else Ok tableAlias
                | _ => Ok tableAlias
                end ;;
              getFlatColumnsFor fuel' (InCol replacedBy') (Some baseName')
                (if has_as then Some baseName else None) tableAlias' csnPath
                [] false (FState (f_store st) replace')
          | None =>
              let st := set_store (push_at csnPath (d_name element) (f_store st)) st in
              match d_keys element, d_elements element with
              | Some keys, _ =>
                  flat_each
                    (fun fk st =>
                       fkElement <- of_option
                                      (getElementForRef m (fk_ref fk) (target_of m element))
                                      (TypeError "fkElement") ;;
                       let lastRef := last (fk_ref fk) "undefined" in
                       let fkBaseName :=
                         match leafAssoc with
                         | Some la =>
                             if l_onlyForeignKeyAccess la then
                               (baseName ++ "_" ++
                                match truthy_name (fk_as fk) with
                                | Some n => n | None => lastRef end)%string
                             else lastRef
                         | None =>
                             (baseName ++ "_" ++
                              match truthy_name (fk_as fk) with
                              | Some n => n | None => lastRef end)%string
                         end in
                       match d_elements fkElement with
                       | Some els =>
                           (* structured key *)
                           let fkPath := read csnPath (f_store st) ++ [lastRef] in
                           flat_each
                             (fun e st =>
                                let alias :=
                                  match truthy_name columnAlias with
                                  | Some ca =>
                                      let fkName :=
                                        match truthy_name (fk_as fk) with
                                        | Some n => (n ++ "_" ++ d_name e)%string
                                        | None => (join "_" (fk_ref fk) ++ "_" ++ d_name e)%string
                                        end in
                                      Some (ca ++ "_" ++ fkName)%string
                                  | None => None
                                  end in
                                let '(p, s') := alloc fkPath (f_store st) in
                                getFlatColumnsFor fuel' (InDef e) (Some fkBaseName)
                                  alias tableAlias p exclude use_replace
                                  (set_store s' st))
                             (map snd els) st
                       | None =>
                           if isAssociation fkElement then
                             (* assoc as key *)
                             getFlatColumnsFor fuel' (InDef fkElement) (Some baseName)
                               columnAlias tableAlias csnPath exclude use_replace st
                           else
                             (* leaf reached *)
                             let a :=
                               match truthy_name columnAlias with
                               | Some ca =>
                                   as_ (ca ++ "_" ++ join "_" (fk_ref fk))%string
                               | None => no_attrs
                               end in
                             Ok ([FlatCol (flat_ref (with_table tableAlias fkBaseName) a)
                                          (Some fkElement) (Some csnPath)], st)
                       end)
                    keys st
              | None, Some els =>
                  flat_each
                    (fun e st =>
                       let alias :=
                         match truthy_name columnAlias with
                         | Some ca => Some (ca ++ "_" ++ d_name e)%string
                         | None => None
                         end in
                       let '(p, s') := alloc (read csnPath (f_store st)) (f_store st) in
                       getFlatColumnsFor fuel' (InDef e) (Some baseName) alias
                         tableAlias p exclude use_replace (set_store s' st))
                    (map snd els) st
              | None, None =>
                  let ca := input_attrs column in
                  let columnAlias' :=
                    match a_cast ca, truthy_name columnAlias with
                    | Some _, None => Some baseName
                    | _, _ => truthy_name columnAlias
                    end in
                  Ok ([FlatCol (flat_ref (with_table tableAlias baseName)
                                  (Attrs columnAlias' (a_cast ca) false (a_sort ca)
                                         None []))
                               (Some element) (Some csnPath)], st)
              end
          end
          end
      end
  end.

(** A call that relies on the default [csnPath = []]: a new array. *)
Definition getFlatColumnsFor_new (fuel : nat) (column : flat_input)
    (baseName columnAlias tableAlias : option string) (exclude : list token)
    (use_replace : bool) (st : fstate) : result (list flatcol * fstate) :=
  let '(p, s') := alloc [] (f_store st) in
  getFlatColumnsFor fuel column baseName columnAlias tableAlias p exclude
    use_replace (set_store s' st).

(** A flat column read after the flattening is over: its [_csnPath]
    array with everything that was pushed to it. *)
Record leafcol : Type := LeafCol {
  lc_token : token;
  lc_element : option def;
  lc_csnPath : list string
}.

Definition resolve_leaf (s : store) (c : flatcol) : leafcol :=
  LeafCol (fc_token c) (fc_element c)
          (match fc_csnPath c with Some p => read p s | None => [] end).

(** A call [getFlatColumnsFor(column, baseName, columnAlias, tableAlias)]
    whose result is read when the call is over. *)
Definition flatten (fuel : nat) (column : flat_input)
    (baseName columnAlias tableAlias : option string) : result (list leafcol) :=
  '(cs, st) <- getFlatColumnsFor_new fuel column baseName columnAlias tableAlias
                 [] false (FState [] []) ;;
  Ok (map (resolve_leaf (f_store st)) cs).

(** Two definitions are the same object when they have the same name
    below the same parents. *)
Definition parent_eqb (a b : parent_info) : bool :=
  dkind_eqb (p_kind a) (p_kind b) && eqs (p_name a) (p_name b).

Fixpoint parents_eqb (a b : list parent_info) : bool :=
  match a, b with
  | [], [] => true
  | x :: a', y :: b' => parent_eqb x y && parents_eqb a' b'
  | _, _ => false
  end.

Definition same_def (a b : def) : bool :=
  eqs (d_name a) (d_name b) && dkind_eqb (d_kind a) (d_kind b)
  && parents_eqb (d_parents a) (d_parents b).

(** [getParentEntity(element)]: the entity at the end of the parent
    chain. *)
Definition getParentEntity (d : def) : option def :=
  if dkind_eqb (d_kind d) KEntity then Some d
  else
    match find (fun p => dkind_eqb (p_kind p) KEntity) (d_parents d) with
    | Some p => assoc (p_name p) (definitions m)
    | None => None
    end.

(** The sides of the comparisons with [$self] in an [on] condition, read
    in steps of three tokens. *)
Fixpoint backlink_refs (fuel : nat) (on : list ctoken) : list (option ctoken) :=
  match fuel, on with
  | S fuel', lhs :: rest =>
      let rhs := nth_error rest 1 in
      let is_self t :=
        match t with CRef [s] => eqs s "$self" | _ => false end in
      let here :=
        if is_self lhs then [rhs]
        else match rhs with
             | Some r => if is_self r then [Some lhs] else []
             | None => []
             end in
      here ++ backlink_refs fuel' (skipn 2 rest)
  | _, _ => []
  end.

(** [backlinkFor(assoc)]; [None] is [null]. *)
Definition backlinkFor (assoc_ : def) : result (option (list (option def))) :=
  match d_on assoc_ with
  | None => Ok None
  | Some on =>
      let target := target_of m assoc_ in
      bs <- (fix each (l : list (option ctoken)) : result (list (option def)) :=
               match l with
               | [] => Ok []
               | Some (CRef (r0 :: rest)) :: l' =>
                   let env :=
                     if eqs r0 "$self" || eqs r0 "$projection"
                     then getParentEntity assoc_ else target in
                   r <- each l' ;;
                   Ok (getElementForRef m rest env :: r)
               | _ :: _ => Err (TypeError "ref")
               end) (backlink_refs (length on) on) ;;
      Ok (Some bs)
  end.

(** [backlinkFor(assoc)?.[0]] *)
Definition first_backlink (assoc_ : def) : result (option def) :=
  b <- backlinkFor assoc_ ;;
  Ok (match b with
      | Some (Some d :: _) => Some d
      | _ => None
      end).

(** The names of the [ref] of a flat column. *)
Definition ref_names (t : token) : list string :=
  match t with Ref steps _ _ _ => ids steps | _ => [] end.

(** One pair of [getParentKeyForeignKeyPairs]: the source side (a [ref]
    and the visible properties of the flat column it was taken from) and
    the [ref] of the target side. *)
Record fkpair : Type := FkPair {
  sourceSide : list string * attrs;
  targetSide : list string
}.

(** [getParentKeyForeignKeyPairs(assoc, targetSideRefLink, flipSourceAndTarget)] *)
Definition getParentKeyForeignKeyPairs (fuel : nat) (assoc_ : def)
    (targetSideRefLink : refLink) (flipSourceAndTarget : bool)
  : result (list fkpair) :=
  backlink <- first_backlink assoc_ ;;
  let host := match backlink with Some b => b | None => assoc_ end in
  match d_keys host with
  | None => Ok []
  | Some keys =>
      (fix each (l : list fkey) : result (list fkpair) :=
         match l with
         | [] => Ok []
         | fk :: l' =>
             elem <- of_option (getElementForRef m (fk_ref fk) (target_of m host))
                               (TypeError "elem") ;;
             (* it might be a structured element: the full parent key tuple *)
             flatParentKeys <-
               flatten fuel (InDef elem)
                 (Some (join "_" (but_last (fk_ref fk)))) None None ;;
             flatAssociationName <- getFullName host ;;
             flatForeignKeys <-
               flatten fuel (InDef elem) (Some flatAssociationName) (fk_as fk) None ;;
             let name_of (c : leafcol) : string :=
               match truthy_name (a_as (token_attrs (lc_token c))) with
               | Some n => (flatAssociationName ++ "_" ++ n)%string
               | None => hd "undefined" (ref_names (lc_token c))
               end in
             pairs <-
               (fix zip (fks pks : list leafcol) : result (list fkpair) :=
                  match fks, pks with
                  | [], _ => Ok []
                  | _ :: _, [] => Err (TypeError "flatParentKeys")
                  | f :: fks', p :: pks' =>
                      let is_backlink :=
                        match backlink with Some _ => true | None => false end in
                      let pair :=
                        if flipSourceAndTarget then
                          (* [where exists <assoc>] expansion *)
                          let refInTarget := if is_backlink then p else f in
                          let refInSource := if is_backlink then f else p in
                          FkPair (ref_names (lc_token refInSource),
                                  token_attrs (lc_token refInSource))
                                 [l_alias targetSideRefLink; name_of refInTarget]
                        else
                          (* [select from <assoc>] to [where exists] expansion *)
                          let refInTarget := if is_backlink then f else p in
                          let refInSource := if is_backlink then p else f in
                          FkPair ([name_of refInSource], no_attrs)
                                 (l_alias targetSideRefLink
                                    :: ref_names (lc_token refInTarget)) in
                      r <- zip fks' pks' ;;
                      Ok (pair :: r)
                  end) flatForeignKeys flatParentKeys ;;
             r <- each l' ;;
             Ok (pairs ++ r)
         end) keys
  end.

(** [sourceSide.ref.unshift(alias); on.push(sourceSide, '=', targetSide)],
    with ['and'] between the pairs. *)
Fixpoint pairs_condition (alias : string) (pairs : list fkpair) : list token :=
  match pairs with
  | [] => []
  | p :: r =>
      let cmp :=
        [flat_ref (alias :: fst (sourceSide p)) (snd (sourceSide p));
         Kw "="; flat_ref (targetSide p) no_attrs] in
      match r with
      | [] => cmp
      | _ => cmp ++ Kw "and" :: pairs_condition alias r
      end
  end.

(** [hasLogicalOr(tokenStream)] *)
Definition hasLogicalOr (l : list token) : bool :=
  existsb (fun t => is_kw "or" t || is_kw "OR" t) l.

(** [asXpr(thing)] *)
Definition asXpr (l : list token) : token := Xpr l no_attrs.

End Flat.

(** *** Where-exists subqueries *)

(** The [SELECT] that [getWhereExistsSubquery] builds:
    [{ from: { ref: [name], as: alias }, columns: [{ val: 1 }], where: on }]. *)
Record subselect : Type := SubSelect {
  ss_ref : string;
  ss_as : string;
  ss_where : list token
}.

Definition select_of (s : subselect) : select :=
  Select (SrcRef [plain (ss_ref s)] no_info (Some (ss_as s)))
         (Some [Val (VNum 1) no_attrs]) (Some (ss_where s))
         None None None None false.

Definition exists_token (s : subselect) : token := Sub (select_of s) no_attrs.

(** [whereExistsSubqueries] links the sub-selects by pushing to the
    [where] array of objects that are shared between the list and the
    tokens pushed before.  The objects are the cells of a heap, addressed
    by their position in the list; an entry of a [where] is a token or
    [{ SELECT: cell }]. *)
Record cell : Type := Cell {
  c_ref : string;
  c_as : string;
  c_where : list (token + nat)
}.

Definition heap : Type := list cell.

Definition cell_of (s : subselect) : cell :=
  Cell (ss_ref s) (ss_as s) (map inl (ss_where s)).

Fixpoint heap_push (p : nat) (items : list (token + nat)) (h : heap) : heap :=
  match h, p with
  | [], _ => []
  | c :: r, O => Cell (c_ref c) (c_as c) (c_where c ++ items) :: r
  | c :: r, S p' => c :: heap_push p' items r
  end.

(** The [reduce]: [prev] is [None] for the initial [{}], which has no
    [where]; every cell has one. *)
Fixpoint reduce_cells (cur : nat) (n : nat) (prev : option nat) (h : heap) : heap :=
  match n with
  | O => h
  | S n' =>
      match prev with
      | Some p =>
          reduce_cells (S cur) n' (Some cur)
            (heap_push p [inl (Kw "and"); inl (Kw "exists"); inr cur] h)
      | None => reduce_cells (S cur) n' (Some cur) h
      end
  end.

(** The entries of a [where] when the heap is read with [rd]. *)
Fixpoint read_entries (rd : nat -> option subselect) (l : list (token + nat))
  : option (list token) :=
  match l with
  | [] => Some []
  | inl t :: r => option_map (cons t) (read_entries rd r)
  | inr q :: r =>
      match rd q, read_entries rd r with
      | Some s, Some r' => Some (exists_token s :: r')
      | _, _ => None
      end
  end.

(** The query that a cell stands for when the heap is read. *)
Fixpoint read_cell (fuel : nat) (h : heap) (p : nat) : option subselect :=
  match fuel with
  | O => None
  | S fuel' =>
      match nth_error h p with
      | None => None
      | Some c =>
          match read_entries (read_cell fuel' h) (c_where c) with
          | Some w => Some (SubSelect (c_ref c) (c_as c) w)
          | None => None
          end
      end
  end.

(** [whereExistsSubqueries(whereExistsSubSelects)]; [None] is the
    [undefined] of an empty list. *)
Definition whereExistsSubqueries (subs : list subselect) : option subselect :=
  match subs with
  | [s] => Some s
  | _ =>
      let h := reduce_cells 0 (length subs) None (map cell_of subs) in
      read_cell (S (length subs)) h 0
  end.

(** The same result, written as a nesting. *)
Fixpoint nest (subs : list subselect) : option subselect :=
  match subs with
  | [] => None
  | s :: r =>
      match nest r with
      | None => Some s
      | Some inner =>
          Some (SubSelect (ss_ref s) (ss_as s)
                  (ss_where s ++ [Kw "and"; Kw "exists"; exists_token inner]))
      end
  end.

(** *** Token streams *)

(** The operators of a comparison with a structure. *)
Definition eqOps : list (list string) := [["is"]; ["="]].
Definition notEqOps : list (list string) := [["is"; "not"]; ["<>"]; ["!="]].
Definition notSupportedOps : list (list string) := [[">"]; ["<"]; [">="]; ["<="]].
Definition allOps : list (list string) :=
  eqOps ++ eqOps ++ notEqOps ++ notSupportedOps.

(** [ops.some(([firstOp]) => firstOp === next)] *)
Definition is_first_op (ops : list (list string)) (next : option token) : bool :=
  match next with
  | Some (Kw s) => existsb (fun op => match op with f :: _ => eqs f s | [] => false end) ops
  | _ => false
  end.

(** [allOps.some(([, secondOp]) => secondOp === rhs)]: the second
    operator of an operator with one word is [undefined], which is what
    a missing [rhs] is equal to. *)
Definition is_second_op (rhs : option token) : bool :=
  match rhs with
  | None => true
  | Some (Kw s) =>
      existsb (fun op => match op with [_; x] => eqs x s | _ => false end) allOps
  | Some _ => false
  end.

(** [notEqOps.some(([f, s]) => operator[0] === f && operator[1] === s) ? 'or' : 'and'] *)
Definition boolOp (operator : list string) : string :=
  if existsb (fun op => if list_eq_dec string_dec op operator then true else false)
             notEqOps
  then "or" else "and".

(** [lhs_csnPath.slice(1).every((val, i) => val === rhs_csnPath[i + 1])] *)
Fixpoint every_step (lhs rhs : list string) : bool :=
  match lhs with
  | [] => true
  | x :: lhs' =>
      match rhs with
      | y :: rhs' => eqs x y && every_step lhs' rhs'
      | [] => false
      end
  end.

Definition path_matches (lhs rhs : leafcol) : bool :=
  every_step (tl (lc_csnPath lhs)) (tl (lc_csnPath rhs)).

(** [flatRhs.splice(index, 1)] *)
Fixpoint remove_at {A} (i : nat) (l : list A) : list A :=
  match l, i with
  | [], _ => []
  | _ :: r, O => r
  | x :: r, S i' => x :: remove_at i' r
  end.

(** The [while] loop of a comparison of two structures: every leaf of
    the left side takes the first leaf of the right side that matches.
    The result is the tokens and what is left of the right side. *)
Fixpoint match_leaves (operator : list string) (flatLhs flatRhs : list leafcol)
  : list token * list leafcol :=
  match flatLhs with
  | [] => ([], flatRhs)
  | l :: rest =>
      match findIndex (path_matches l) flatRhs with
      | None => match_leaves operator rest flatRhs
      | Some i =>
          let rhs := nth i flatRhs l in
          let here :=
            flat_ref (ref_names (lc_token l)) no_attrs
              :: map Kw operator ++ [lc_token rhs] in
          let '(more, leftover) := match_leaves operator rest (remove_at i flatRhs) in
          (here ++ (match rest with [] => [] | _ => [Kw (boolOp operator)] end) ++ more,
           leftover)
      end
  end.

(** [flatLhs.forEach((column, i) => ...)] of a comparison with a value. *)
Fixpoint compare_leaves (operator : list string) (value : token)
    (flatLhs : list leafcol) : list token :=
  match flatLhs with
  | [] => []
  | c :: rest =>
      (lc_token c :: map Kw operator ++ [value])
        ++ (match rest with [] => [] | _ => [Kw (boolOp operator)] end)
        ++ compare_leaves operator value rest
  end.

Section Stream.

Variable m : model.
Variable foreignKeys : def -> list string.
Variable pseudos : list (string * def).
Variable srcs : sources.
Variable combinedElements : list (string * list combined).
(** [inferred.SELECT?.localized] *)
Variable localized_query : bool.

(** The table aliases of the join tree ([infer/join-tree.js]):
    [joinTree.addNextAvailableTableAlias(id)]. *)
Variable JoinTree : Type.
Variable addNextAvailableTableAlias : string -> JoinTree -> string * JoinTree.

(** [transformSubquery(q)]: the rewrite of a subquery, which runs the
    entry point on it. *)
Variable transformSubquery : token -> result token.

(** [calculateOnCondition] of [onCondFor]: the [on] condition of an
    unmanaged association, for the link of the association, the link of
    the target side, and [inWhereOrJoin]. *)
Variable calculateOnCondition :
  refLink -> refLink -> bool -> list ctoken -> result (list token).

(** [localized(definition)] *)
Definition localized (d : def) : string :=
  if localized_query && negb (d_not_localized d) then
    match assoc ("localized." ++ d_name d)%string (definitions m) with
    | Some view => if eqs (d_name view) "" then d_name d else d_name view
    | None => d_name d
    end
  else d_name d.

(** [flattenWithBaseName(def)] of [expandComparison] *)
Definition flattenWithBaseName (fuel : nat) (node : token)
  : result (list leafcol) :=
  match node with
  | Ref steps ri _ _ =>
      match refLinks ri, last_opt (refLinks ri) with
      | first :: _, Some leaf =>
          tableAlias <-
            getQuerySourceName combinedElements node
              (match steps with
               | _ :: _ :: _ =>
                   if isAssociation (l_definition first) then Some first else None
               | _ => None
               end) ;;
          match d_parents (l_definition leaf) with
          | [] => Err (TypeError "parent")
          | p :: _ =>
              if negb (dkind_eqb (p_kind p) KEntity) then
                (* we need the base name *)
                flatten m foreignKeys combinedElements fuel (InDef (l_definition leaf))
                  (Some (join "_" (ids (but_last steps)))) None (Some tableAlias)
              else
                flatten m foreignKeys combinedElements fuel (InDef (l_definition leaf))
                  None None (Some tableAlias)
          end
      | _, _ => Err (TypeError "$refLinks")
      end
  | _ => Err (TypeError "$refLinks")
  end.

Definition has_links (t : token) : bool :=
  match t with
  | Ref _ ri _ _ => match refLinks ri with [] => false | _ => true end
  | _ => false
  end.

(** [expandComparison(token, operator, value)] *)
Definition expandComparison (fuel : nat) (token_ : token)
    (operator : list string) (value : token) : result (list token) :=
  if has_links value then
    (* structural comparison *)
    flatRhs <- flattenWithBaseName fuel value ;;
    flatLhs <- flattenWithBaseName fuel token_ ;;
    if negb (Nat.eqb (length flatRhs) (length flatLhs)) then
      Err StructuralShapeMismatch
    else
      let '(result, leftover) := match_leaves operator flatLhs flatRhs in
      match leftover with
      | [] => Ok result
      | _ => Err StructuralShapeMismatch
      end
  else
    (* compare with value *)
    flatLhs <- flattenWithBaseName fuel token_ ;;
    let is_null_value :=
      match value with
      | Val VNull _ => true
      | Kw s => eqs s "null"
      | _ => false
      end in
    match flatLhs with
    | _ :: _ :: _ =>
        if is_null_value then Ok (compare_leaves operator value flatLhs)
        else Err CannotCompareStructWithValue
    | _ => Ok (compare_leaves operator value flatLhs)
    end.

(** [assertNoStructInXpr(token, inInfixFilter)] *)
Definition assertNoStructInXpr (t : token) (inInfixFilter : bool)
  : result unit :=
  match t with
  | Ref _ ri _ _ =>
      match last_opt (refLinks ri) with
      | Some leaf =>
          if negb inInfixFilter && isAssociation (l_definition leaf)
          then Err AssocInExpression
          else if isStructured (l_definition leaf) then Err StructInExpression
          else Ok tt
      | None => Ok tt
      end
  | _ => Ok tt
  end.

(** [onCondFor(assocRefLink, targetSideRefLink, inWhereOrJoin)] *)
Definition onCondFor (fuel : nat) (assocRefLink targetSideRefLink : refLink)
    (inWhereOrJoin : bool) : result (list token) :=
  match d_keys (l_definition assocRefLink), d_on (l_definition assocRefLink) with
  | Some _, _ =>
      pairs <- getParentKeyForeignKeyPairs m foreignKeys combinedElements fuel
                 (l_definition assocRefLink) targetSideRefLink true ;;
      Ok (pairs_condition (l_alias assocRefLink) pairs)
  | None, Some on =>
      calculateOnCondition assocRefLink targetSideRefLink inWhereOrJoin on
  | None, None => Err (TypeError "on")
  end.

(** The type of [getTransformedTokenStream(tokenStream, $baseLink)], with
    the table aliases threaded. *)
Definition stream_fun : Type :=
  list token -> option refLink -> JoinTree -> result (list token * JoinTree).

(** [getWhereExistsSubquery(current, next, customWhere, inWhere)] *)
Definition getWhereExistsSubquery (tts : stream_fun) (fuel : nat)
    (current next : refLink) (customWhere : option (list token))
    (inWhere : bool) (jt : JoinTree) : result (subselect * JoinTree) :=
  let definition := l_definition current in
  let nextDefinition := l_definition next in
  let fkSource := if inWhere then nextDefinition else definition in
  on <-
    match d_keys fkSource with
    | Some _ =>
        pairs <- getParentKeyForeignKeyPairs m foreignKeys combinedElements fuel
                   fkSource current inWhere ;;
        Ok (pairs_condition (l_alias next) pairs)
    | None =>
        unmanagedOn <-
          onCondFor fuel (if inWhere then next else current)
                    (if inWhere then current else next) inWhere ;;
        Ok (match customWhere with
            | Some _ => if hasLogicalOr unmanagedOn then [asXpr unmanagedOn]
                        else unmanagedOn
            | None => unmanagedOn
            end)
    end ;;
  (* infix filter conditions are wrapped in [xpr] when they contain [or] *)
  '(on', jt') <-
    match customWhere with
    | Some w =>
        '(filter, jt') <- tts w (Some next) jt ;;
        Ok (on ++ Kw "and" :: (if hasLogicalOr filter then [asXpr filter] else filter),
            jt')
    | None => Ok (on, jt)
    end ;;
  Ok (SubSelect
        (localized (match target_of m nextDefinition with
                    | Some t => t
                    | None => nextDefinition
                    end))
        (l_alias next) on',
      jt').

(** [a[i] = x] on an array: slots between the end and [i] stay empty;
    an empty slot is shown as the keyword [undefined]. *)
Definition hole : token := Kw "undefined".

Fixpoint array_set (i : nat) (x : token) (l : list token) : list token :=
  match i, l with
  | O, [] => [x]
  | O, _ :: r => x :: r
  | S i', [] => hole :: array_set i' x []
  | S i', y :: r => y :: array_set i' x r
  end.

(** [a.splice(start, deleteCount, ...items)] for a start that is not
    negative. *)
Definition splice (start deleteCount : nat) (items l : list token) : list token :=
  firstn start l ++ items ++ skipn (start + deleteCount) l.

Fixpoint list_update {A} (i : nat) (f : A -> A) (l : list A) : list A :=
  match l, i with
  | [], _ => []
  | x :: r, O => f x :: r
  | x :: r, S i' => x :: list_update i' f r
  end.

(** The loop over the steps of the reference after [exists].  [n] bounds
    the number of rounds: the index [j] can be set back by a structured
    step, in which case the loop of the source does not end. *)
Fixpoint exists_steps (tts : stream_fun) (fuel : nat) (n : nat) (j : nat)
    (steps : list step) (links : list refLink) (base : option refLink)
    (firstStepIsTableAlias : bool) (subs : list subselect) (jt : JoinTree)
  : result (list subselect * JoinTree) :=
  match nth_error steps j with
  | None => Ok (subs, jt)
  | Some step_ =>
      match n with
      | O => Err OutOfFuel
      | S n' =>
          if Nat.eqb j 0 && firstStepIsTableAlias then
            exists_steps tts fuel n' 1 steps links base firstStepIsTableAlias subs jt
          else
            current <-
              match j with
              | O =>
                  match base with
                  | Some b => Ok b
                  | None =>
                      first <- of_option (nth_error links 0) (TypeError "$refLinks") ;;
                      match assoc (step_id step_) combinedElements with
                      | Some (c :: _) =>
                          Ok (link (l_target first) (l_target first) (index c))
                      | _ => Err (TypeError "$combinedElements")
                      end
                  end
              | S j' => of_option (nth_error links j') (TypeError "$refLinks")
              end ;;
            next0 <- of_option (nth_error links j) (TypeError "$refLinks") ;;
            let j' :=
              if isStructured (l_definition next0) then
                (* find next association / entity in the ref *)
                match findIndex (fun rl => isAssociation (l_definition rl)
                                           || dkind_eqb (d_kind (l_definition rl)) KEntity)
                                (skipn (j + 2) links) with
                | Some k => 2 + k
                | None => 1
                end
              else j in
            next1 <- of_option (nth_error links j') (TypeError "alias") ;;
            let '(as_name, jt1) :=
              addNextAvailableTableAlias (after_last_dot (l_alias next1)) jt in
            let next := set_alias as_name next1 in
            let links' := list_update j' (set_alias as_name) links in
            '(sub, jt2) <-
              getWhereExistsSubquery tts fuel current next (step_where step_) true jt1 ;;
            exists_steps tts fuel n' (S j') steps links' base firstStepIsTableAlias
              (subs ++ [sub]) jt2
      end
  end.

(** [String.prototype.toLowerCase] on ASCII letters. *)
Definition lower_ascii (c : ascii) : ascii :=
  let n := nat_of_ascii c in
  if (65 <=? n)%nat && (n <=? 90)%nat then ascii_of_nat (n + 32) else c.

Fixpoint toLowerCase (s : string) : string :=
  match s with
  | EmptyString => EmptyString
  | String c r => String (lower_ascii c) (toLowerCase r)
  end.

(** [typeof t === 'string' ? t.toLowerCase() : ''] *)
Definition lower_keyword (t : option token) : string :=
  match t with
  | Some (Kw s) => toLowerCase s
  | _ => ""
  end.

(** JS truthiness of an entry of a token stream. *)
Definition token_truthy (t : option token) : bool :=
  match t with
  | None => false
  | Some (Kw s) => negb (eqs s "")
  | Some _ => true
  end.

(** [{ ...token }]: the visible properties. *)
Definition shallow_copy (t : token) : token :=
  match t with
  | Ref steps _ a proj => Ref steps no_info a proj
  | _ => t
  end.

(** [list.length === 0] handling: replace [[not] in <empty list>]. *)
Definition empty_list_case (tokenStream : list token) (i : nat)
    (transformedWhere : list token) : list token :=
  let firstPrecedingToken :=
    if (2 <=? i)%nat then lower_keyword (nth_error tokenStream (i - 2)) else "" in
  let secondPrecedingToken :=
    if (2 <=? i)%nat then lower_keyword (nth_error tokenStream (i - 1)) else "" in
  if eqs firstPrecedingToken "not" then
    splice (i - 2) 2 [Kw "is"; Kw "not"; Kw "null"] transformedWhere
  else if eqs secondPrecedingToken "in" then
    splice (i - 1) 1 [Kw "="; Val VNull no_attrs] transformedWhere
  else transformedWhere ++ [Lst []].

(** The infix filter that is a single value: the value is compared with
    the key of the target of the filtered association. *)
Definition key_filter (fuel : nat) (token_ : token) (base : refLink)
  : result (list token) :=
  let def_ :=
    match target_of m (l_definition base) with
    | Some t => t
    | None => l_definition base
    end in
  backlink <- match entity_keys def_ with
              | [] => Ok None
              | _ => first_backlink m (l_definition base)
              end ;;
  let keys :=
    filter (fun k => match backlink with
                     | Some b => negb (same_def k b)
                     | None => true
                     end) (entity_keys def_) in
  flatKeys <-
    (fix each (l : list def) : result (list leafcol) :=
       match l with
       | [] => Ok []
       | v :: r =>
           cs <- flatten m foreignKeys combinedElements fuel (InDef v) None None
                   (Some (l_alias base)) ;;
           cs' <- each r ;;
           Ok (cs ++ cs')
       end) keys ;;
  match flatKeys with
  | _ :: _ :: _ => Err FilterMultipleKeys
  | [c] => Ok [lc_token c; Kw "="; token_]
  | [] => Ok []
  end.

(** The operators and the right side of a comparison that starts at
    index [i]: [(ops, rhs, indexRhs)]. *)
Definition comparison_at (tokenStream : list token) (i : nat) (next : string)
  : list string * option token * nat :=
  let rhs := nth_error tokenStream (i + 2) in
  if is_second_op rhs then
    (next :: (match rhs with Some (Kw s) => [s] | _ => ["undefined"] end),
     nth_error tokenStream (i + 3), i + 3)
  else ([next], rhs, i + 2).

(** The test on the right side of a comparison with a structure. *)
Definition comparable_rhs (rhs : token) : bool :=
  match rhs with
  | Ref _ ri _ _ =>
      match last_opt (refLinks ri) with
      | Some l => isAssocOrStruct (l_definition l)
      | None => false
      end
  | Val _ _ => true
  | Kw s => eqs s "null"
  | _ => false
  end.

(** One round of the loop of [getTransformedTokenStream] for the token
    at index [i]: the index of the token that was handled last, the new
    [transformedWhere] and the table aliases. *)
Definition stream_step (rec : stream_fun) (fuel : nat)
    (tokenStream : list token) (base : option refLink) (i : nat)
    (token_ : token) (transformedWhere : list token) (jt : JoinTree)
  : result (nat * list token * JoinTree) :=
  let push t := Ok (i, transformedWhere ++ [t], jt) in
  match token_ with
  | Lst [] => Ok (i, empty_list_case tokenStream i transformedWhere, jt)
  | Lst l =>
      '(l', jt') <- rec l None jt ;;
      Ok (i, transformedWhere ++ [Lst l'], jt')
  | _ =>
  if is_kw "exists" token_ then
    let tw := transformedWhere ++ [token_] in
    match nth_error tokenStream (i + 1) with
    | None => Err (TypeError "ref")
    | Some (Ref steps ri _ _) =>
        if match steps with
           | s :: _ => step_is "$self" s || step_is "$projection" s
           | [] => false
           end
        then Err (UnexpectedSelfAfterExists (step_id (hd (plain "") steps)))
        else
          let firstStepIsTableAlias :=
            match steps with
            | s :: _ :: _ => step_in srcs s
            | _ => false
            end in
          '(subs, jt') <-
            exists_steps rec fuel (S (length steps)) 0 steps (refLinks ri) base
              firstStepIsTableAlias [] jt ;;
          sub <- of_option (whereExistsSubqueries subs) (TypeError "SELECT") ;;
          Ok (i + 1, array_set (i + 1) (exists_token sub) tw, jt')
    | Some _ => Ok (i, tw, jt)
    end
  else
    let single_value :=
      match tokenStream, token_, base with
      | [_], Val v _, Some b => if truthy v then Some b else None
      | _, _, _ => None
      end in
    match single_value with
    | Some b =>
        (* infix filter - OData variant w/o mentioning key *)
        cmp <- key_filter fuel token_ b ;;
        Ok (i, transformedWhere ++ cmp, jt)
    | None =>
    let is_param :=
      match token_ with Ref _ _ a _ => a_param a | _ => false end in
    let is_pseudo :=
      match token_ with
      | Ref (s :: _) _ _ _ => step_in pseudos s
      | _ => false
      end in
    if is_param || is_pseudo then push (shallow_copy token_)
    else
      let definition :=
        match token_ with
        | Ref _ ri _ _ => option_map l_definition (last_opt (refLinks ri))
        | _ => None
        end in
      let next := nth_error tokenStream (i + 1) in
      let structured :=
        match definition with
        | Some d =>
            match d_elements d, d_keys d with
            | None, None => false
            | _, _ => true
            end
        | None => false
        end in
      if is_first_op allOps next && structured then
        (* expand [struct = null | struct2] *)
        let op := match next with Some (Kw s) => s | _ => "" end in
        let '(ops, rhs_, indexRhs) := comparison_at tokenStream i op in
        rhs <- of_option rhs_ (TypeError "rhs") ;;
        if comparable_rhs rhs then
          if is_first_op notSupportedOps next
          then Err (UnsupportedStructuralComparison op)
          else
            newTokens <- expandComparison fuel token_ ops rhs ;;
            let needXpr :=
              (if Nat.eqb i 0 then false
               else token_truthy (nth_error tokenStream (i - 1)))
              || token_truthy (nth_error tokenStream (indexRhs + 1)) in
            Ok (indexRhs,
                transformedWhere ++ (if needXpr then [asXpr newTokens] else newTokens),
                jt)
        else Ok (i, transformedWhere, jt)
      else
        (* reject associations in expression, except in an infix filter *)
        _ <- assertNoStructInXpr token_
               (match base with Some _ => true | None => false end) ;;
        match token_ with
        | Ref steps ri a proj =>
            tableAlias <- getQuerySourceName combinedElements token_ base ;;
            name <-
              (match base, isJoinRelevant ri with
               | None, true =>
                   leaf <- of_option (last_opt (refLinks ri)) (TypeError "$refLinks") ;;
                   getFullName (l_definition leaf)
               | _, _ =>
                   Ok (match flatName ri with Some f => f | None => "undefined" end)
               end) ;;
            push (Ref [plain tableAlias; plain name] no_info a proj)
        | Sub _ _ =>
            r <- transformSubquery token_ ;;
            push r
        | Xpr x a =>
            '(x', jt') <- rec x base jt ;;
            Ok (i, transformedWhere ++ [Xpr x' a], jt')
        | Fn f (Some args) a =>
            '(args', jt') <-
              (fix each (l : list token) (jt : JoinTree)
                 : result (list token * JoinTree) :=
                 match l with
                 | [] => Ok ([], jt)
                 | t :: r =>
                     '(t', jt1) <-
                       (if match t with Val v _ => truthy v | _ => false end
                        then Ok (t, jt)
                        else
                          '(ts, jt1) <- rec [t] base jt ;;
                          Ok (hd hole ts, jt1)) ;;
                     '(r', jt2) <- each r jt1 ;;
                     Ok (t' :: r', jt2)
                 end) args jt ;;
            Ok (i, transformedWhere ++ [Fn f (Some args') a], jt')
        | _ => push token_
        end
    end
  end.

(** The loop [for (let i = 0; i < tokenStream.length; i++)]; the index
    grows in every round, so that [n] rounds are enough for a stream of
    length [n]. *)
Fixpoint stream_loop (rec : stream_fun) (fuel : nat) (n : nat)
    (tokenStream : list token) (base : option refLink) (i : nat)
    (transformedWhere : list token) (jt : JoinTree)
  : result (list token * JoinTree) :=
  match nth_error tokenStream i with
  | None => Ok (transformedWhere, jt)
  | Some token_ =>
      match n with
      | O => Err OutOfFuel
      | S n' =>
          '(i', tw, jt') <-
            stream_step rec fuel tokenStream base i token_ transformedWhere jt ;;
          stream_loop rec fuel n' tokenStream base (S i') tw jt'
      end
  end.

(** [getTransformedTokenStream(tokenStream, $baseLink)]; [fuel] bounds
    the nesting of lists, expressions and filters, and the flattening. *)
Fixpoint getTransformedTokenStream (fuel : nat) (tokenStream : list token)
    (base : option refLink) (jt : JoinTree) {struct fuel}
  : result (list token * JoinTree) :=
  match fuel with
  | O => Err OutOfFuel
  | S fuel' =>
      stream_loop (getTransformedTokenStream fuel') fuel' (length tokenStream)
        tokenStream base 0 [] jt
  end.

(** *** The [from] clause *)

(** The loop of [_transformFrom] over the reversed steps: the links are
    the reversed [$refLinks], whose aliases are overwritten on the way. *)
Fixpoint from_steps (fuel : nat) (n : nat) (i : nat) (refReverse : list step)
    (linksReverse : list refLink) (subs : list subselect) (jt : JoinTree)
  : result (list subselect * list refLink * JoinTree) :=
  match n with
  | O => Ok (subs, linksReverse, jt)
  | S n' =>
      stepLink <- of_option (nth_error linksReverse i) (TypeError "stepLink") ;;
      match isAssociation (l_definition stepLink), nth_error linksReverse (S i) with
      | true, Some nextStepLink0 =>
          nextStep <- of_option (nth_error refReverse (S i)) (TypeError "nextStep") ;;
          let k :=
            if isStructured (l_definition nextStepLink0) then
              (* find next association / entity in the ref *)
              match findIndex (fun rl => isAssociation (l_definition rl)
                                         || dkind_eqb (d_kind (l_definition rl)) KEntity)
                              (skipn (i + 2) linksReverse) with
              | Some x => 2 + x
              | None => 1
              end
            else S i in
          nextStepLink1 <- of_option (nth_error linksReverse k) (TypeError "alias") ;;
          let '(as_name, jt1) :=
            addNextAvailableTableAlias (after_last_dot (l_alias nextStepLink1)) jt in
          let nextStepLink := set_alias as_name nextStepLink1 in
          let linksReverse' := list_update k (set_alias as_name) linksReverse in
          let stepLink' :=
            match nth_error linksReverse' i with Some l => l | None => stepLink end in
          '(sub, jt2) <-
            getWhereExistsSubquery (getTransformedTokenStream fuel) fuel stepLink'
              nextStepLink (step_where nextStep) false jt1 ;;
          from_steps fuel n' (S i) refReverse linksReverse' (subs ++ [sub]) jt2
      | _, _ => from_steps fuel n' (S i) refReverse linksReverse subs jt
      end
  end.

(** The result of [getTransformedFrom]; [None] is a [transformedWhere]
    that is [undefined]. *)
Record transformed_from : Type := TransformedFrom {
  transformedWhere : option (list token);
  transformedFrom : source
}.

(** How [_transformFrom] glues the filter conditions to the where-exists
    subquery. *)
Definition glue_conditions (chain : option subselect)
    (filterConditions : list (list token)) : list token :=
  match chain with
  | Some sub =>
      [Kw "exists"; exists_token sub]
        ++ flat_map
             (fun f =>
                Kw "and" ::
                (match filterConditions with
                 | _ :: _ :: _ => [asXpr f]
                 | _ => if (3 <? length f)%nat then [asXpr f] else f
                 end))
             filterConditions
  | None =>
      (fix go (l : list (list token)) : list token :=
         match l with
         | [] => []
         | f :: r =>
             (match filterConditions with
              | _ :: _ :: _ => [asXpr f]
              | _ => f
              end)
               ++ (match r with [] => [] | _ => [Kw "and"] end) ++ go r
         end) (rev filterConditions)
  end.

(** [_transformFrom()] for a [from] with a [ref]. *)
Definition transformFrom_ref (fuel : nat) (steps : list step) (ri : refinfo)
    (as_name : option string) (existingWhere : list token) (jt : JoinTree)
  : result (transformed_from * JoinTree) :=
  let refReverse := rev steps in
  '(subs, linksReverse, jt1) <-
    from_steps fuel (length refReverse) 0 refReverse (rev (refLinks ri)) [] jt ;;
  leafStep <- of_option (nth_error refReverse 0) (TypeError "where") ;;
  (* only append infix filter to outer where if it is the leaf of the from ref *)
  '(filter, jt2) <-
    match step_where leafStep with
    | Some w =>
        '(f, jt2) <- getTransformedTokenStream fuel w (nth_error linksReverse 0) jt1 ;;
        Ok ([f], jt2)
    | None => Ok ([], jt1)
    end ;;
  let filterConditions :=
    filter ++ (match existingWhere with [] => [] | _ => [existingWhere] end) in
  leaf <- of_option (nth_error linksReverse 0) (TypeError "$refLinks") ;;
  as_first <-
    match truthy_name as_name with
    | Some n => Ok n
    | None =>
        match nth_error (rev (refLinks ri)) 0 with
        | Some l => Ok (after_last_dot (d_name (l_definition l)))
        | None => Err (TypeError "$refLinks")
        end
    end ;;
  '(chain, alias) <-
    match subs with
    | [] => Ok (None, as_first)
    | _ =>
        sub <- of_option (whereExistsSubqueries subs) (TypeError "SELECT") ;;
        Ok (Some sub, l_alias leaf)
    end ;;
  Ok (TransformedFrom
        (Some (glue_conditions chain filterConditions))
        (SrcRef [plain (localized (l_target leaf))]
                (RefInfo [leaf] None false)
                (Some alias)),
      jt2).

(** *** Columns *)

(** Nested projections: [expandColumn(col)] runs the entry point on a
    subquery, [nestedProjectionOnStructure(col, prop)] flattens an
    [expand] or [inline] on a structure. *)
Variable expandColumn : token -> JoinTree -> result (token * JoinTree).
Variable nestedProjectionOnStructure : token -> result (list token).
(** Elements that a wildcard leaves out: foreign keys of the OData
    flavour of the model and media data. *)
Variable skippedByWildcard : def -> bool.
(** [definition.type === 'cds.Composition'] *)
Variable isComposition : def -> bool.

(** [getColumnsForWildcard(except, replace)] *)
Definition getColumnsForWildcard (fuel : nat) (except replace : list token)
  : result (list token) :=
  '(cols, _) <-
    flat_each
      (fun (kv : string * list combined) st =>
         match snd kv with
         | [] => Err (TypeError "tableAlias")
         | c :: _ =>
             els <- of_option (d_elements (tableAlias c)) (TypeError "elements") ;;
             element <- of_option (assoc (fst kv) els) (TypeError "element") ;;
             if skippedByWildcard element then Ok ([], st)
             else
               getFlatColumnsFor_new m foreignKeys combinedElements fuel
                 (InDef element) None None (Some (index c)) except true st
         end)
      combinedElements (FState [] replace) ;;
  Ok (map fc_token cols).

(** [t.as || t.ref[t.ref.length - 1]] of a transformed column. *)
Definition column_name (t : token) : result (option string) :=
  match truthy_name (a_as (token_attrs t)) with
  | Some n => Ok (Some n)
  | None =>
      match t with
      | Ref steps _ _ _ =>
          Ok (match last_opt steps with
              | Some (Step i None) => Some i
              | _ => None
              end)
      | _ => Err (TypeError "ref")
      end
  end.

(** [transformedColumns.findIndex(t => (t.as || t.ref[...]) === name)] *)
Fixpoint find_column (name : option string) (l : list token)
  : result (option nat) :=
  match l with
  | [] => Ok None
  | t :: r =>
      n <- column_name t ;;
      if match n, name with
         | Some a, Some b => eqs a b
         | _, _ => false
         end
      then Ok (Some 0)
      else
        i <- find_column name r ;;
        Ok (option_map S i)
  end.

(** The flat columns of a plain reference column. *)
Definition flat_columns_of_ref (fuel : nat) (col : token)
  : result (list token) :=
  match col with
  | Ref steps ri a _ =>
      tableAliasName <- getQuerySourceName combinedElements col None ;;
      leaf <- of_option (last_opt (refLinks ri)) (TypeError "$refLinks") ;;
      if d_virtual (l_definition leaf) then Ok []
      else
        let from_ :=
          match steps with
          | s :: _ => if step_is tableAliasName s then tl steps else steps
          | [] => steps
          end in
        let baseName :=
          match steps with
          | _ :: _ :: _ => Some (join "_" (ids (but_last from_)))
          | _ => None
          end in
        let refNavigation := join "_" (ids from_) in
        let columnAlias :=
          match truthy_name (a_as a) with
          | Some n => Some n
          | None =>
              match (if isJoinRelevant ri then truthy_name (flatName ri) else None) with
              | Some f => Some f
              | None =>
                  match truthy_name (flatName ri) with
                  | Some f => if eqs f refNavigation then None else Some refNavigation
                  | None => None
                  end
              end
          end in
        if existsb (fun l => match target_of m (l_definition l) with
                             | Some t => d_skip t
                             | None => false
                             end) (refLinks ri)
        then Ok []
        else
          cs <- flatten m foreignKeys combinedElements fuel (InCol col) baseName
                  columnAlias (Some tableAliasName) ;;
          Ok (map lc_token cs)
  | _ => Err (TypeError "ref")
  end.

(** [excluding] holds names. *)
Definition excluding_tokens (excluding : option (list string)) : list token :=
  match excluding with Some l => map Kw l | None => [] end.

(** The loop of [getTransformedColumns(columns)]: [before] are the
    columns already seen, [rest] the ones to come. *)
Fixpoint transform_columns (fuel : nat) (excluding : option (list string))
    (before rest : list token) (transformedColumns : list token)
    (jt : JoinTree) : result (list token * JoinTree) :=
  match rest with
  | [] => Ok (transformedColumns, jt)
  | col :: later =>
      '(cols', jt') <-
        match col with
        | Ref _ ri _ (Expand _) =>
            last <- of_option (last_opt (refLinks ri)) (TypeError "$refLinks") ;;
            match d_elements (l_definition last) with
            | Some _ =>
                cs <- nestedProjectionOnStructure col ;;
                Ok (transformedColumns ++ cs, jt)
            | None =>
                if l_skipExpand last then Ok (transformedColumns, jt)
                else
                  '(c, jt') <- expandColumn col jt ;;
                  Ok (transformedColumns ++ [c], jt')
            end
        | Ref _ _ _ (Inline _) =>
            cs <- nestedProjectionOnStructure col ;;
            Ok (transformedColumns ++ cs, jt)
        | Ref steps _ a NoProj =>
            if match steps with s :: _ => step_in pseudos s | [] => false end
            then Ok (transformedColumns ++ [shallow_copy col], jt)
            else if a_param a
            then Ok (transformedColumns ++ [shallow_copy col], jt)
            else
              flatColumns <- flat_columns_of_ref fuel col ;;
              (* might already be present in result through wildcard expansion *)
              Ok (fold_left
                    (fun acc fc =>
                       match truthy_name (a_as (token_attrs fc)) with
                       | Some n =>
                           if existsb (fun inserted =>
                                         match truthy_name (a_as (token_attrs inserted)) with
                                         | Some n' => eqs n' n
                                         | None => false
                                         end) acc
                           then acc else acc ++ [fc]
                       | None => acc ++ [fc]
                       end)
                    flatColumns transformedColumns, jt)
        | Kw _ =>
            if is_kw "*" col then
              let all := before ++ rest in
              let wildcardIndex :=
                match findIndex (is_kw "*") all with Some i => i | None => 0 end in
              cs <- getColumnsForWildcard fuel
                      (firstn wildcardIndex all ++ excluding_tokens excluding)
                      (skipn (S wildcardIndex) all) ;;
              Ok (transformedColumns ++ cs, jt)
            else Ok (transformedColumns ++ [col], jt)
        | _ =>
            '(transformedColumn, jt') <-
              match col with
              | Sub _ _ => r <- transformSubquery col ;; Ok (r, jt)
              | Xpr x a =>
                  '(x', jt') <- getTransformedTokenStream fuel x None jt ;;
                  Ok (Xpr x' (set_as (truthy_name (a_as a)) no_attrs), jt')
              | Fn f args a =>
                  '(args', jt') <-
                    match args with
                    | Some l =>
                        '(l', jt') <- getTransformedTokenStream fuel l None jt ;;
                        Ok (Some l', jt')
                    | None => Ok (None, jt)
                    end ;;
                  Ok (Fn f args'
                         (set_as (match truthy_name (a_as a) with
                                  | Some n => Some n
                                  | None => Some f
                                  end) no_attrs), jt')
              | _ => Ok (col, jt)
              end ;;
            replaceWith <-
              find_column (truthy_name (a_as (token_attrs transformedColumn)))
                          transformedColumns ;;
            match replaceWith with
            | None => Ok (transformedColumns ++ [transformedColumn], jt')
            | Some i => Ok (splice i 1 [transformedColumn] transformedColumns, jt')
            end
        end ;;
      transform_columns fuel excluding (before ++ [col]) later cols' jt'
  end.

(** [getTransformedColumns(columns)] *)
Definition getTransformedColumns (fuel : nat) (excluding : option (list string))
    (columns : list token) (jt : JoinTree) : result (list token * JoinTree) :=
  '(cols, jt') <- transform_columns fuel excluding [] columns [] jt ;;
  match cols, columns with
  | [], _ :: _ =>
      (* a managed composition exposure is also removed from the columns *)
      if existsb (fun c => match c with
                           | Ref _ ri _ _ =>
                               match last_opt (refLinks ri) with
                               | Some l => isComposition (l_definition l)
                               | None => false
                               end
                           | _ => false
                           end) columns
      then Ok (cols, jt')
      else Err EmptyProjection
  | _, _ => Ok (cols, jt')
  end.

(** *** [groupBy] and [orderBy] *)

Definition with_sort (col : token) (t : token) : token :=
  let c := token_attrs col in
  let set a :=
    Attrs (a_as a) (a_cast a) (a_param a)
          (match a_sort c with Some s => Some s | None => a_sort a end)
          (match a_nulls c with Some s => Some s | None => a_nulls a end)
          (a_annos a) in
  match t with
  | Ref s ri a p => Ref s ri (set a) p
  | Val v a => Val v (set a)
  | Xpr x a => Xpr x (set a)
  | Fn f args a => Fn f args (set a)
  | Sub q a => Sub q (set a)
  | _ => t
  end.

(** [getTransformedOrderByGroupBy(columns, inOrderBy)] *)
Fixpoint getTransformedOrderByGroupBy (fuel : nat) (columns : list token)
    (inOrderBy : bool) (jt : JoinTree) : result (list token * JoinTree) :=
  match columns with
  | [] => Ok ([], jt)
  | col :: rest =>
      '(cs, jt1) <-
        match col with
        | Ref steps ri a proj =>
            if isJoinRelevant ri then
              ta <- getQuerySourceName combinedElements col None ;;
              leaf <- of_option (last_opt (refLinks ri)) (TypeError "$refLinks") ;;
              name <- getFullName (l_definition leaf) ;;
              Ok ([with_sort col (flat_ref [ta; name] no_attrs)], jt)
            else if match steps with s :: _ => step_in pseudos s | [] => false end
            then Ok ([shallow_copy col], jt)
            else if existsb (fun l => match target_of m (l_definition l) with
                                      | Some t => d_skip t
                                      | None => false
                                      end) (refLinks ri)
            then Ok ([], jt)
            else
              first <- of_option (nth_error (refLinks ri) 0) (TypeError "$refLinks") ;;
              (* do not prepend a table alias if the column addresses an
                 element of the query *)
              tableAliasName <-
                (if dkind_eqb (d_kind (l_target first)) KSelect then Ok None
                 else t <- getQuerySourceName combinedElements col None ;; Ok (Some t)) ;;
              leaf <- of_option (last_opt (refLinks ri)) (TypeError "$refLinks") ;;
              if d_virtual (l_definition leaf) then Ok ([], jt)
              else
                let from_ :=
                  match steps, tableAliasName with
                  | s :: _, Some t => if step_is t s then tl steps else steps
                  | _, _ => steps
                  end in
                let baseName :=
                  match steps with
                  | _ :: _ :: _ => Some (join "_" (ids (but_last from_)))
                  | _ => None
                  end in
                flatColumns <-
                  flatten m foreignKeys combinedElements fuel (InCol col) baseName
                    None tableAliasName ;;
                match flatColumns with
                | _ :: _ :: _ =>
                    if inOrderBy then Err (AmbiguousOrderBy (d_name (l_definition leaf)))
                    else Ok (map lc_token flatColumns, jt)
                | [] =>
                    match a_sort a, a_nulls a with
                    | None, None => Ok ([], jt)
                    | _, _ => Err (TypeError "nulls")
                    end
                | c :: r =>
                    Ok (with_sort col (lc_token c) :: map lc_token r, jt)
                end
        | Sub _ _ => r <- transformSubquery col ;; Ok ([with_sort col r], jt)
        | Xpr x a =>
            '(x', jt') <- getTransformedTokenStream fuel x None jt ;;
            Ok ([with_sort col (Xpr x' no_attrs)], jt')
        | Fn f (Some args) a =>
            '(args', jt') <- getTransformedTokenStream fuel args None jt ;;
            Ok ([with_sort col (Fn f (Some args') no_attrs)], jt')
        | Fn f None a => Err (TypeError "length")
        | _ => Ok ([col], jt)
        end ;;
      '(rest', jt2) <- getTransformedOrderByGroupBy fuel rest inOrderBy jt1 ;;
      Ok (cs ++ rest', jt2)
  end.

(** [getTransformedFrom(from, existingWhere)].  An argument of a join that
    is a subquery becomes [{ SELECT: { from, where } }] with the rewritten
    [from] of the subquery; its [where] is the property [whereExists] of
    the result, which no branch sets. *)
Fixpoint getTransformedFrom (fuel : nat) (from : source)
    (existingWhere : list token) (jt : JoinTree) {struct from}
  : result (transformed_from * JoinTree) :=
  match from with
  | SrcRef steps ri as_name =>
      transformFrom_ref fuel steps ri as_name existingWhere jt
  | SrcJoin k args on =>
      '(args', jt') <-
        (fix each (l : list source) (jt : JoinTree)
           : result (list source * JoinTree) :=
           match l with
           | [] => Ok ([], jt)
           | arg :: r =>
               '(arg', jt1) <-
                 match arg with
                 | SrcSelect (Select f _ w _ _ _ _ _) _ =>
                     '(t, jt1) <-
                       getTransformedFrom fuel f
                         (match w with Some w' => w' | None => [] end) jt ;;
                     Ok (SrcSelect
                           (Select (transformedFrom t) None None None None None
                                   None false)
                           None,
                         jt1)
                 | _ =>
                     '(t, jt1) <- getTransformedFrom fuel arg [] jt ;;
                     Ok (transformedFrom t, jt1)
                 end ;;
               '(r', jt2) <- each r jt1 ;;
               Ok (arg' :: r', jt2)
           end) args jt ;;
      Ok (TransformedFrom None (SrcJoin k args' on), jt')
  | SrcSelect q as_name =>
      r <- transformSubquery (Sub q (set_as as_name no_attrs)) ;;
      match r with
      | Sub q' _ => Ok (TransformedFrom None (SrcSelect q' as_name), jt)
      | _ => Err (TypeError "SELECT")
      end
  | SrcName name =>
      Ok (TransformedFrom None (SrcRef [plain name] no_info (Some (after_last_dot name))),
          jt)
  end.

End Stream.

(** *** The entry point *)

Section Entry.

Variable pseudos : list (string * def).
Variable foreignKeys : def -> list string.
Variable skippedByWildcard : def -> bool.
Variable isComposition : def -> bool.

(** The join tree of [infer/join-tree.js]. *)
Variable JoinTree : Type.
Variable newJoinTree : sources -> JoinTree.
Variable mergeColumn : list step -> list refLink -> JoinTree -> list refLink * JoinTree.
Variable addNextAvailableTableAlias : string -> JoinTree -> string * JoinTree.
Variable isInitial : JoinTree -> bool.
(** [translateAssocsToJoins()]: the left joins for the nodes of the join
    tree. *)
Variable translateAssocsToJoins : model -> JoinTree -> source -> result source.

Variable resolveExpand : token -> result element.
Variable resolveInline : token -> result (list (string * element)).
Variable calculateOnCondition :
  model -> refLink -> refLink -> bool -> list ctoken -> result (list token).
Variable expandColumn : model -> token -> JoinTree -> result (token * JoinTree).
Variable nestedProjectionOnStructure : model -> token -> result (list token).

Definition opt_nonempty (o : option (list token)) : option (list token) :=
  match o with
  | Some (_ :: _) => o
  | _ => None
  end.

(** [cqn4sql(query, model)].  [outerQueries] is the hidden property that
    [transformSubquery] attaches to a subquery before it runs the entry
    point on it; [fuel] bounds the nesting of subqueries. *)
Fixpoint cqn4sql (fuel : nat) (outerQueries : list sources) (query_ : query)
    (model_ : option model) {struct fuel} : result query :=
  inferred <- infer pseudos newJoinTree mergeColumn resolveExpand resolveInline
                foreignKeys fuel outerQueries query_ model_ ;;
  match fuel, model_ with
  | O, _ => Err OutOfFuel
  | _, None => Err NoModel
  | S fuel', Some m =>
      let srcs := i_sources inferred in
      let transformSubquery (t : token) : result token :=
        match t with
        | Sub q a =>
            r <- cqn4sql fuel' (outerQueries ++ [srcs]) (SELECT q) model_ ;;
            match r with
            | SELECT q' => Ok (Sub q' a)
            | _ => Err (TypeError "SELECT")
            end
        | _ => Err (TypeError "SELECT")
        end in
      let tts :=
        getTransformedTokenStream m foreignKeys pseudos srcs
          (i_combinedElements inferred) false addNextAvailableTableAlias
          transformSubquery (calculateOnCondition m) in
      let localized_of (s : select) :=
        match s with Select _ _ _ _ _ _ _ l => l end in
      match i_query inferred, i_joinTree inferred with
      | SELECT (Select (SrcJoin _ _ _) _ _ _ _ _ _ _), _ => Ok (i_query inferred)
      | INSERT into, _ | UPSERT into, _ =>
          let as_name :=
            match into with
            | SrcRef _ _ a | SrcSelect _ a => truthy_name a
            | _ => None
            end in
          let name :=
            match srcs with
            | [(_, d)] => d_name d
            | _ => "undefined"
            end in
          let into' := SrcRef [plain name] no_info as_name in
          Ok (match i_query inferred with
              | UPSERT _ => UPSERT into'
              | _ => INSERT into'
              end)
      | SELECT (Select from columns where_ having groupBy orderBy excluding loc), Some jt =>
          let stream := getTransformedTokenStream m foreignKeys pseudos srcs
                          (i_combinedElements inferred) loc
                          addNextAvailableTableAlias transformSubquery
                          (calculateOnCondition m) in
          (* first transform the existing where *)
          '(where1, jt1) <- on_some where_ jt (fun w => stream fuel' w None jt) ;;
          (* now transform the from clause *)
          '(tf, jt2) <-
            getTransformedFrom m foreignKeys pseudos srcs (i_combinedElements inferred)
              loc addNextAvailableTableAlias transformSubquery
              (calculateOnCondition m) fuel' from
              (match where1 with Some w => w | None => [] end) jt1 ;;
          let where2 :=
            match opt_nonempty (transformedWhere tf) with
            | Some w => Some w
            | None => where_
            end in
          '(columns', jt3) <-
            match columns with
            | Some cols =>
                getTransformedColumns m foreignKeys pseudos srcs
                  (i_combinedElements inferred) loc addNextAvailableTableAlias
                  transformSubquery (calculateOnCondition m) (expandColumn m)
                  (nestedProjectionOnStructure m) skippedByWildcard isComposition
                  fuel' excluding cols jt2
            | None =>
                cs <- getColumnsForWildcard m foreignKeys
                        (i_combinedElements inferred) skippedByWildcard fuel' [] [] ;;
                Ok (cs, jt2)
            end ;;
          '(having', jt4) <- on_some having jt3 (fun h => stream fuel' h None jt3) ;;
          '(groupBy', jt5) <-
            on_some groupBy jt4
              (fun g =>
                 getTransformedOrderByGroupBy m foreignKeys pseudos srcs
                   (i_combinedElements inferred) loc addNextAvailableTableAlias
                   transformSubquery (calculateOnCondition m) fuel' g false jt4) ;;
          '(orderBy', jt6) <-
            on_some orderBy jt5
              (fun o =>
                 getTransformedOrderByGroupBy m foreignKeys pseudos srcs
                   (i_combinedElements inferred) loc addNextAvailableTableAlias
                   transformSubquery (calculateOnCondition m) fuel' o true jt5) ;;
          from' <-
            (if isInitial jt6 then Ok (transformedFrom tf)
             else translateAssocsToJoins m jt6 (transformedFrom tf)) ;;
          Ok (SELECT (Select from' (Some columns') where2 having'
                             (match groupBy' with
                              | Some [] => groupBy
                              | _ => groupBy'
                              end)
                             (match orderBy' with
                              | Some [] => orderBy
                              | _ => orderBy'
                              end)
                             excluding loc))
      | DELETE from where_, Some jt | UPDATE from where_, Some jt =>
          '(where1, jt1) <- on_some where_ jt (fun w => tts fuel' w None jt) ;;
          '(tf, jt2) <-
            getTransformedFrom m foreignKeys pseudos srcs (i_combinedElements inferred)
              false addNextAvailableTableAlias transformSubquery
              (calculateOnCondition m) fuel' from
              (match where1 with Some w => w | None => [] end) jt1 ;;
          let where2 :=
            match opt_nonempty (transformedWhere tf) with
            | Some w => Some w
            | None => where1
            end in
          from' <-
            (if isInitial jt2 then Ok (transformedFrom tf)
             else translateAssocsToJoins m jt2 (transformedFrom tf)) ;;
          Ok (match i_query inferred with
              | UPDATE _ _ => UPDATE from' where2
              | _ => DELETE from' where2
              end)
      | _, _ => Err (TypeError "joinTree")
      end
  end.

End Entry.

End Rewrite.

(** ** A small bookshop model, used for the concrete runs *)

Module Bookshop.
Import Csn Cqn Infer.

Definition inE : list parent_info := [Parent KEntity "E"].

Definition Authors : def :=
  entity "Authors"
    [("ID", with_key (scalar "ID" [Parent KEntity "Authors"]));
     ("name", scalar "name" [Parent KEntity "Authors"]);
     ("books", unmanaged "books" [Parent KEntity "Authors"] "Books"
                 [CRef ["books"; "author"]; CStr "="; CRef ["$self"]])].

Definition Books : def :=
  entity "Books"
    [("ID", with_key (scalar "ID" [Parent KEntity "Books"]));
     ("title", scalar "title" [Parent KEntity "Books"]);
     ("stock", scalar "stock" [Parent KEntity "Books"]);
     ("author", managed "author" [Parent KEntity "Books"] "Authors"
                  [FKey ["ID"] None]);
     ("dedication",
      struct "dedication" [Parent KEntity "Books"]
        [("text", scalar "text" [Parent KElement "dedication"; Parent KEntity "Books"]);
         ("sub",
          struct "sub" [Parent KElement "dedication"; Parent KEntity "Books"]
            [("foo", scalar "foo" [Parent KElement "sub"; Parent KElement "dedication";
                                   Parent KEntity "Books"])])]);
     ("single",
      struct "single" [Parent KEntity "Books"]
        [("leaf", scalar "leaf" [Parent KElement "single"; Parent KEntity "Books"])])].

Definition bookshop : model :=
  Model [("Books", Books); ("Authors", Authors)].

(** Modelled from the spec: the pseudo namespace of [infer/pseudos.js],
    which is not part of the sources at hand.  Session and context roots
    resolve to synthetic definitions; the current-user pseudo has the
    children user id, locale and tenant. *)
Definition pseudo_elements : list (string * def) :=
  [("$user",
    Def "$user" KNone [] (Some [("id", scalar "id" []);
                                ("locale", scalar "locale" []);
                                ("tenant", scalar "tenant" [])])
        None None None false false false false false);
   ("$now", scalar "$now" []);
   ("$at", scalar "$at" []);
   ("$locale", scalar "$locale" []);
   ("$tenant", scalar "$tenant" [])].

(** Modelled from the spec: the alias bookkeeping of the join tree of
    [infer/join-tree.js], which is not part of the sources at hand: the
    aliases in use; a new alias is the requested name, or the name with a
    counter on collision.  Columns of the concrete runs below are never
    join relevant, so that merging a column leaves the links as they are. *)
Definition join_tree : Type := list string.
Definition new_join_tree (srcs : sources) : join_tree := map fst srcs.
Definition merge_none (_ : list step) (links : list refLink) (jt : join_tree)
  : list refLink * join_tree := (links, jt).

Fixpoint next_free (fuel : nat) (id : string) (j : nat) (used : list string)
  : string :=
  let candidate := (id ++ Infer.Z_to_string (Z.of_nat j))%string in
  match fuel with
  | O => candidate
  | S fuel' =>
      if existsb (eqs candidate) used then next_free fuel' id (S j) used
      else candidate
  end.

Definition add_alias (id : string) (jt : join_tree) : string * join_tree :=
  let alias :=
    if existsb (eqs id) jt then next_free (length jt) id 2 jt else id in
  (alias, alias :: jt).

(** Nested projections do not occur in the concrete runs. *)
Definition no_expand (_ : token) : result element := Ok EEmpty.
Definition no_inline (_ : token) : result (list (string * element)) := Ok [].
Definition fk_names (d : def) : list string :=
  match d_keys d with
  | Some ks => map (fun k => match fk_as k with
                             | Some n => n
                             | None => last (fk_ref k) ""
                             end) ks
  | None => []
  end.

Definition infer_bookshop (q : query) : result (inferred join_tree) :=
  infer pseudo_elements new_join_tree merge_none no_expand no_inline fk_names
        10 [] q (Some bookshop).

(** Unmanaged associations are not followed in the concrete runs. *)
Definition no_on_condition (_ : model) (_ _ : refLink) (_ : bool)
    (_ : list ctoken) : result (list token) := Err (TypeError "on").
Definition no_expand_column (_ : model) (_ : token) (_ : join_tree)
  : result (token * join_tree) := Err (TypeError "expand").
Definition no_nested (_ : model) (_ : token) : result (list token) := Ok [].
Definition no_joins (_ : model) (_ : join_tree) (from : source) : result source :=
  Ok from.
Definition always_initial (_ : join_tree) : bool := true.
Definition none_skipped (_ : def) : bool := false.

Definition cqn4sql_bookshop (q : query) : result query :=
  Rewrite.cqn4sql pseudo_elements fk_names none_skipped none_skipped
    new_join_tree merge_none add_alias always_initial no_joins no_expand
    no_inline no_on_condition no_expand_column no_nested 10 [] q (Some bookshop).

End Bookshop.

(** A model with an association inside a structure: a shelf has a
    structured label whose [book] points to a volume, and a volume points
    to its writer. *)
Module Library.
Import Csn Cqn Infer.

Definition Writers : def :=
  entity "Writers"
    [("ID", with_key (scalar "ID" [Parent KEntity "Writers"]))].

Definition Volumes : def :=
  entity "Volumes"
    [("ID", with_key (scalar "ID" [Parent KEntity "Volumes"]));
     ("writer", managed "writer" [Parent KEntity "Volumes"] "Writers"
                  [FKey ["ID"] None])].

Definition Shelves : def :=
  entity "Shelves"
    [("ID", with_key (scalar "ID" [Parent KEntity "Shelves"]));
     ("label",
      struct "label" [Parent KEntity "Shelves"]
        [("book", managed "book" [Parent KElement "label"; Parent KEntity "Shelves"]
                    "Volumes" [FKey ["ID"] None])])].

Definition library : model :=
  Model [("Shelves", Shelves); ("Volumes", Volumes); ("Writers", Writers)].

Definition cqn4sql_library (q : query) : result query :=
  Rewrite.cqn4sql Bookshop.pseudo_elements Bookshop.fk_names
    Bookshop.none_skipped Bookshop.none_skipped
    Bookshop.new_join_tree Bookshop.merge_none Bookshop.add_alias
    Bookshop.always_initial Bookshop.no_joins Bookshop.no_expand
    Bookshop.no_inline Bookshop.no_on_condition Bookshop.no_expand_column
    Bookshop.no_nested 10 [] q (Some library).

End Library.

(** ** Statements: the vocabulary of the properties *)

Module Statements.
Import Csn Cqn Infer Rewrite.

(** The columns whose name can only come from [as]: expressions,
    subqueries and bind parameters. *)
Definition needs_alias (col : token) : bool :=
  match col with
  | Xpr _ a | Sub _ a =>
      match truthy_name (a_as a) with Some _ => false | None => true end
  | Ref _ _ a _ =>
      a_param a && match truthy_name (a_as a) with Some _ => false | None => true end
  | _ => false
  end.

(** The source [Books] of the bookshop model. *)
Definition from_Books : source := SrcRef [plain "Books"] no_info None.

Definition select_from_Books (columns : list token)
    (where_ : option (list token)) : query :=
  SELECT (Select from_Books (Some columns) where_ None None None None false).

(** The name under which the column [$user] enters the query elements. *)
Definition user_name (a : attrs) : string :=
  match truthy_name (a_as a) with Some n => n | None => "$user" end.

(** What may happen to a path below [$user]: it resolves, or the name of
    the column is taken. *)
Definition resolves {A} (insert : bool) (r : result A) : Prop :=
  match r with
  | Ok _ => True
  | Err (DuplicateElement _) => insert = true
  | Err _ => False
  end.

(** The invariant of the walk below [$user]. *)
Definition below_user {JoinTree : Type} (w : walk JoinTree) : Prop :=
  pseudoPath w = true /\ w_links w <> [].

(** A reference as it is written in a query. *)
Definition ref_ (names : list string) : token :=
  Ref (map plain names) no_info no_attrs NoProj.

Definition null : token := Val VNull no_attrs.

Definition num (z : Z) : token := Val (VNum z) no_attrs.

(** The [where] clause of a rewritten [SELECT]. *)
Definition where_of (r : result query) : result (list token) :=
  match r with
  | Ok (SELECT s) =>
      match sel_where s with
      | Some w => Ok w
      | None => Ok []
      end
  | Ok _ => Err (TypeError "SELECT")
  | Err e => Err e
  end.

(** [SELECT ID FROM Books WHERE <where>], rewritten. *)
Definition rewrite_where (w : list token) : result (list token) :=
  where_of (Bookshop.cqn4sql_bookshop (select_from_Books [ref_ ["ID"]] (Some w))).

(** A column of [Books] in the output. *)
Definition Books_ (name : string) : token := flat_ref ["Books"; name] no_attrs.

(** The reference [dedication] in a query on [Books], as the inference
    leaves it. *)
Definition dedication_def : def :=
  match d_elements Bookshop.Books with
  | Some els => match assoc "dedication" els with Some d => d | None => empty_def end
  | None => empty_def
  end.

Definition dedication_ref : token :=
  Ref [plain "dedication"]
      (RefInfo [link dedication_def Bookshop.Books "dedication"]
               (Some "dedication") false)
      no_attrs NoProj.

Definition transform_where_Books (w : list token)
  : result (list token * Bookshop.join_tree) :=
  getTransformedTokenStream Bookshop.bookshop Bookshop.fk_names
    Bookshop.pseudo_elements [("Books", Bookshop.Books)]
    (inferCombinedElements [("Books", Bookshop.Books)]) false
    Bookshop.add_alias (fun t => Ok t) (Bookshop.no_on_condition Bookshop.bookshop)
    10 w None ["Books"].

(** A reference of the output with its two steps: the query source and
    the flat name. *)
Definition two_steps (tableAlias : string) (t : token) : Prop :=
  exists name a, t = flat_ref [tableAlias; name] a.

(** The reference [title] in a query on [Books], as the inference leaves
    it. *)
Definition title_ref : token :=
  Ref [plain "title"]
      (RefInfo [link (scalar "title" [Parent KEntity "Books"]) Bookshop.Books "title"]
               (Some "title") false)
      no_attrs NoProj.

(** The heap after [whereExistsSubqueries] has linked the sub-selects:
    every cell but the last points to the next one; [k] is the address of
    the first cell. *)
Fixpoint link_cells (k : nat) (subs : list subselect) : heap :=
  match subs with
  | [] => []
  | s :: r =>
      match r with
      | [] => [cell_of s]
      | _ =>
          Cell (ss_ref s) (ss_as s)
               (map inl (ss_where s) ++ [inl (Kw "and"); inl (Kw "exists"); inr (S k)])
            :: link_cells (S k) r
      end
  end.

(** The links of an association path, in reverse order: every link but
    the last (the root) is an association, and no link is a structured
    element. *)
Fixpoint association_path (linksReverse : list refLink) : Prop :=
  match linksReverse with
  | stepLink :: (nextLink :: _) as rest =>
      isAssociation (l_definition stepLink) = true
      /\ isStructured (l_definition nextLink) = false
      /\ association_path rest
  | _ => True
  end.

Section Chain.

Variable m : model.
Variable foreignKeys : def -> list string.
Variable pseudos : list (string * def).
Variable srcs : sources.
Variable combinedElements : list (string * list combined).
Variable localized_query : bool.
Variable JoinTree : Type.
Variable addNextAvailableTableAlias : string -> JoinTree -> string * JoinTree.
Variable transformSubquery : token -> result token.
Variable calculateOnCondition :
  refLink -> refLink -> bool -> list ctoken -> result (list token).

(** The where-exists subquery of one step, with the stream rewrite of the
    query at hand. *)
Definition exists_subquery (fuel : nat) :=
  getWhereExistsSubquery m foreignKeys combinedElements localized_query
    calculateOnCondition
    (getTransformedTokenStream m foreignKeys pseudos srcs combinedElements
       localized_query addNextAvailableTableAlias transformSubquery
       calculateOnCondition fuel)
    fuel.

(** The chain in the words of the specification: walking the path in
    reverse, every step is paired with the step before it, which gets a
    new alias and becomes the source of a subquery. *)
Fixpoint chain_steps (fuel : nat) (refReverse : list step)
    (linksReverse : list refLink) (jt : JoinTree) {struct refReverse}
  : result (list subselect * list refLink * JoinTree) :=
  match refReverse, linksReverse with
  | _ :: ((nextStep :: _) as rest), stepLink :: nextLink :: links =>
      let '(as_name, jt1) :=
        addNextAvailableTableAlias (after_last_dot (l_alias nextLink)) jt in
      let next := set_alias as_name nextLink in
      '(sub, jt2) <- exists_subquery fuel stepLink next (step_where nextStep) false jt1 ;;
      '(subs, links', jt3) <- chain_steps fuel rest (next :: links) jt2 ;;
      Ok (sub :: subs, stepLink :: links', jt3)
  | _, _ => Ok ([], linksReverse, jt)
  end.

(** One subquery of the chain reads
    [SELECT 1 FROM <target of next> AS <alias of next> WHERE <on> [AND <filter>]]. *)
Definition exists_select (next : refLink) (customWhere : option (list token))
    (sub : subselect) : Prop :=
  ss_ref sub = localized m localized_query (target_or_self m (l_definition next))
  /\ ss_as sub = l_alias next
  /\ exists on : list token,
       match customWhere with
       | Some _ => exists filter, ss_where sub = on ++ Kw "and" :: filter
       | None => ss_where sub = on
       end.

(** The chain in reverse step order: the step before each association
    step is the source of one subquery, with its infix filter. *)
Fixpoint exists_chain (refReverse : list step) (linksReverse : list refLink)
    (subs : list subselect) {struct refReverse} : Prop :=
  match refReverse, linksReverse with
  | _ :: ((nextStep :: _) as rest), _ :: ((nextLink :: _) as links) =>
      match subs with
      | sub :: subs' =>
          (exists as_name : string,
             exists_select (set_alias as_name nextLink) (step_where nextStep) sub)
          /\ exists_chain rest links subs'
      | [] => False
      end
  | _, _ => subs = []
  end.

End Chain.

(** The links of [Books:author] as the inference attaches them. *)
Definition Books_author : refinfo :=
  RefInfo [link Bookshop.Books Bookshop.Books "Books";
           link (managed "author" [Parent KEntity "Books"] "Authors"
                   [FKey ["ID"] None])
                Bookshop.Authors "author"]
          None false.

Definition transform_from_author (steps : list step) (ri : refinfo)
  : result (transformed_from * Bookshop.join_tree) :=
  transformFrom_ref Bookshop.bookshop Bookshop.fk_names
    Bookshop.pseudo_elements [("author", Bookshop.Authors)]
    (inferCombinedElements [("author", Bookshop.Authors)]) false
    Bookshop.add_alias (fun t => Ok t)
    (Bookshop.no_on_condition Bookshop.bookshop)
    10 steps ri None [] ["author"].

(** [SELECT ID from <path>] *)
Definition select_ID_from (path : list string) : query :=
  SELECT (Select (SrcRef (map plain path) no_info None)
            (Some [Ref [plain "ID"] no_info no_attrs NoProj])
            None None None None None false).

Definition where_of_query (r : result query) : option (list token) :=
  match r with
  | Ok (SELECT s) => sel_where s
  | _ => None
  end.

(** *** A second run on a query that was inferred before *)

(** What the inference reads of a step without changing it: the name,
    and whether the step has an infix filter. *)
Definition shape_step (s : step) : string * bool :=
  (step_id s, match step_where s with Some _ => true | None => false end).

Definition same_steps (l l' : list step) : Prop :=
  map shape_step l = map shape_step l'.

(** What the inference leaves of a token: the kind of the token and its
    enumerable properties other than nested tokens. *)
Definition same_head (t t' : token) : Prop :=
  match t, t' with
  | Kw s, Kw s' => s = s'
  | Ref steps _ a proj, Ref steps' _ a' proj' =>
      a = a' /\ proj = proj' /\ same_steps steps steps'
  | Val v a, Val v' a' => v = v' /\ a = a'
  | Lst _, Lst _ => True
  | Xpr _ a, Xpr _ a' => a = a'
  | Fn f args a, Fn f' args' a' =>
      f = f' /\ a = a' /\ (args = None <-> args' = None)
  | Sub q a, Sub q' a' => q = q' /\ a = a'
  | _, _ => False
  end.

(** An inference of tokens that only annotates, and that finds on a token
    it has annotated what it has left there. *)
Definition annotating {JoinTree : Type} (rec : rec_type JoinTree) : Prop :=
  forall st t insert base inExists inExpr t' st',
    rec st t insert base inExists inExpr = Ok (t', st') ->
    same_head t t'
    /\ rec st t' insert base inExists inExpr = Ok (t', st').

(** A reader of a column that does not look at [isJoinRelevant]. *)
Definition ignores_join_relevance {A : Type} (f : token -> A) : Prop :=
  forall steps links flat b b' a proj,
    f (Ref steps (RefInfo links flat b) a proj)
    = f (Ref steps (RefInfo links flat b') a proj).

(** [column.isJoinRelevant = b] during the walk over the steps. *)
Definition set_joinRelevant {JoinTree : Type} (b : bool) (w : walk JoinTree)
  : walk JoinTree :=
  Walk (w_links w) (w_steps w) (nameSegments w)
       (skipAliasedFkSegmentsOfNameStack w) (pseudoPath w) (isPersisted w)
       b (w_state w).

(** The same for the links of the arguments of a filter in [from]. *)
Definition attaching (f : token -> refLink -> bool -> result token) : Prop :=
  forall t lk expandOrExists t',
    f t lk expandOrExists = Ok t' ->
    same_head t t' /\ f t' lk expandOrExists = Ok t'.

Section Rerun.

Variable pseudos : list (string * def).
Variable JoinTree : Type.
Variable newJoinTree : sources -> JoinTree.
Variable mergeColumn : list step -> list refLink -> JoinTree -> list refLink * JoinTree.
Variable resolveExpand : token -> result element.
Variable resolveInline : token -> result (list (string * element)).
Variable foreignKeys : def -> list string.

(** The query as a run leaves it to the caller: the clone that the
    inference works on shares the clauses and their tokens with the
    original query, so that the hidden properties which the inference
    attaches are on the original too.  A run that fails in the inference
    leaves the query as it was. *)
Definition annotated (fuel : nat) (outerQueries : list sources) (q : query)
    (model_ : option model) : query :=
  match infer pseudos newJoinTree mergeColumn resolveExpand resolveInline
          foreignKeys fuel outerQueries q model_ with
  | Ok i => i_query i
  | Err _ => q
  end.

End Rerun.

(** [SELECT title, author.name FROM Books WHERE exists author[name = 'x']] *)
Definition select_titles : query :=
  select_from_Books
    [ref_ ["title"]; ref_ ["author"; "name"]]
    (Some [Kw "exists";
           Ref [Step "author" (Some [ref_ ["name"]; Kw "="; Val (VStr "x") no_attrs])]
               no_info no_attrs NoProj]).

(** *** Columns of a query on [Books] as the inference links them *)

(** The links of the column [author.ID]: a managed association and its
    foreign key. *)
Definition author_link : refLink :=
  link (managed "author" [Parent KEntity "Books"] "Authors" [FKey ["ID"] None])
       Bookshop.Books "author".

Definition author_ID_link : refLink :=
  link (with_key (scalar "ID" [Parent KEntity "Authors"])) Bookshop.Books "ID".

(** The links of the column [dedication.text]: a structure and its leaf. *)
Definition dedication_link : refLink :=
  link dedication_def Bookshop.Books "dedication".

Definition dedication_text_link : refLink :=
  link (scalar "text" [Parent KElement "dedication"; Parent KEntity "Books"])
       Bookshop.Books "text".

(** The inference of a token of a query on [Books]. *)
Definition infer_token_Books (fuel : nat)
  : rec_type Bookshop.join_tree :=
  inferQueryElement Bookshop.pseudo_elements Bookshop.merge_none
    Bookshop.bookshop [("Books", Bookshop.Books)] []
    (inferCombinedElements [("Books", Bookshop.Books)])
    Bookshop.no_expand Bookshop.no_inline fuel.

(** *** Flat names *)

(** The base name of an element that is flattened below [baseName]: the
    given base and the name of the element, or the full name of the
    element when no base is given. *)
Definition element_base_name (baseName : option string) (element : def)
  : result string :=
  match truthy_name baseName with
  | Some b => Ok (b ++ "_" ++ d_name element)%string
  | None => getFullName element
  end.

(** A flat column that is a reference to a name that starts with
    [baseName], below the table alias if there is one. *)
Definition named_below (tableAlias : option string) (baseName : string)
    (c : flatcol) : Prop :=
  exists (rest : string) (a : attrs),
    fc_token c = flat_ref (with_table tableAlias (baseName ++ rest)%string) a.

(** *** Comparison of two structures *)

(** The path of a leaf below the operand it was flattened from. *)
Definition path_below (c : leafcol) : list string := tl (lc_csnPath c).

(** The comparison of two rows of leaves, leaf by leaf: the reference of
    the left leaf, the operator, the right leaf, and the connective
    between two comparisons. *)
Fixpoint compare_pairwise (operator : list string) (lhs rhs : list leafcol)
  : list token :=
  match lhs, rhs with
  | l :: lhs', r :: rhs' =>
      (flat_ref (ref_names (lc_token l)) no_attrs
         :: map Kw operator ++ [lc_token r])
        ++ (match lhs' with [] => [] | _ => [Kw (boolOp operator)] end)
        ++ compare_pairwise operator lhs' rhs'
  | _, _ => []
  end.

(** *** Token streams *)

(** A token that the rewrite of a token stream has nothing to do with: a
    keyword or operator other than [exists], or a literal value. *)
Definition literal_token (t : token) : bool :=
  match t with
  | Kw s => negb (eqs s "exists")
  | Val _ _ => true
  | _ => false
  end.

(** The reference [author] in a query on [Books], as the inference
    leaves it. *)
Definition author_ref : token :=
  Ref [plain "author"] (RefInfo [author_link] (Some "author") false)
      no_attrs NoProj.

(** *** The elements of a query *)

(** An inference of tokens that, when it is not asked to insert, leaves
    the elements of the query as they are. *)
Definition keeps_elements {JoinTree : Type} (rec : rec_type JoinTree) : Prop :=
  forall st t base inExists inExpr t' st',
    rec st t false base inExists inExpr = Ok (t', st') ->
    queryElements st' = queryElements st.

(** *** Query sources *)

(** The clause of a query that names its sources: [from], [into] or
    [entity]. *)
Definition query_source (q : query) : option source :=
  match q with
  | SELECT s => Some (sel_from s)
  | INSERT into | UPSERT into => Some into
  | UPDATE entity _ => Some entity
  | DELETE from _ => Some from
  | SET _ => None
  end.

(** The name of the definition that a query source starts at. *)
Definition first_name (s : source) : option string :=
  match s with
  | SrcRef (first :: _) _ _ => Some (step_id first)
  | SrcName name => Some name
  | _ => None
  end.

(** A [from] that names its sources by references and subqueries, not by
    plain strings. *)
Fixpoint by_reference (s : source) : bool :=
  match s with
  | SrcRef _ _ _ | SrcSelect _ _ => true
  | SrcJoin _ args _ => forallb by_reference args
  | SrcName _ => false
  end.

(** A query source that is an entity or a query. *)
Definition entity_or_query (s : string * def) : Prop :=
  d_kind (snd s) = KEntity \/ d_kind (snd s) = KSelect.

(** The alias of a query source with a single step:
    [from.as || <last segment of the name>]. *)
Definition alias_of (as_name : option string) (name : string) : string :=
  match truthy_name as_name with
  | Some n => n
  | None => after_last_dot name
  end.

(** [SELECT ID from <first> join <second>] *)
Definition select_ID_from_join (first second : string) : query :=
  SELECT (Select (SrcJoin "inner"
                    [SrcRef [plain first] no_info None;
                     SrcRef [plain second] no_info None] [])
            (Some [Ref [plain "ID"] no_info no_attrs NoProj])
            None None None None None false).

(** The column [author[ID = 1]]: a single step with an infix filter. *)
Definition filtered_author : token :=
  Ref ([] ++ [Step "author" (Some [ref_ ["ID"]; Kw "="; num 1])])
      no_info no_attrs NoProj.

(** *** Combined elements *)

(** The names of the elements of a query source, in their order. *)
Definition element_names (d : def) : list string :=
  match d_elements d with Some els => map fst els | None => [] end.

(** The query sources that have an element [name], in the order of the
    sources, as entries [{ index, tableAlias }]. *)
Definition sources_with (name : string) (srcs : sources) : list combined :=
  map (fun s => Combined (fst s) (snd s))
      (filter (fun s => existsb (eqs name) (element_names (snd s))) srcs).

(** *** Columns *)

(** The name under which a column of a single plain step enters the
    query elements: [col.as], or the name of the step. *)
Definition column_key (a : attrs) (id : string) : string :=
  match truthy_name (a_as a) with Some n => n | None => id end.

(** What a single plain step of a column resolves to: the link, the name
    segments, whether the path is a pseudo path, and the leaf artifact. *)
Definition single_step {JoinTree : Type} (pseudos : list (string * def))
    (m : model) (srcs : sources) (outerQueries : list sources)
    (combinedElements : list (string * list combined))
    (id : string) (a : attrs) (st0 : istate JoinTree)
  : result (refLink * list string * bool * option def) :=
  '(d, t, pseudo, named) <-
    resolve_first pseudos m srcs outerQueries combinedElements [Step id None]
      NoProj None id (Walk [] [] [] [] false true false st0) ;;
  leafArt <-
    (if eqs id "$user" then
       els <- of_option (d_elements d) (TypeError "elements") ;;
       Ok (assoc "id" els)
     else Ok (Some d)) ;;
  Ok (link d t (match truthy_name (a_as a) with
                | Some n => n
                | None => after_last_dot id
                end),
      if named then [id] else [], pseudo, leafArt).

(** A column that is a plain reference to a virtual element (no bind
    parameter, not rooted in a pseudo variable, with a query source). *)
Definition virtual_column (pseudos : list (string * def))
    (combinedElements : list (string * list combined)) (col : token) : bool :=
  match col with
  | Ref steps ri a NoProj =>
      negb (match steps with s :: _ => step_in pseudos s | [] => false end)
      && negb (a_param a)
      && is_ok (getQuerySourceName combinedElements col None)
      && match last_opt (refLinks ri) with
         | Some l => d_virtual (l_definition l)
         | None => false
         end
  | _ => false
  end.

(** [c.$refLinks?.[c.$refLinks.length - 1].definition] *)
Definition leaf_of (col : token) : option def :=
  match col with
  | Ref _ ri _ _ => option_map l_definition (last_opt (refLinks ri))
  | _ => None
  end.

(** An entity with a virtual element, and the column [note] of a query
    on it. *)
Definition note_def : def :=
  Def "note" KElement [Parent KEntity "Drafts"] None None None None
      true false false false false.

Definition Drafts : def :=
  entity "Drafts"
    [("ID", with_key (scalar "ID" [Parent KEntity "Drafts"]));
     ("note", note_def)].

Definition note_ref : token :=
  Ref [plain "note"] (RefInfo [link note_def Drafts "note"] (Some "note") false)
      no_attrs NoProj.

(** *** Paths after [exists] *)

Section Path.

Variable m : model.
Variable foreignKeys : def -> list string.
Variable pseudos : list (string * def).
Variable srcs : sources.
Variable combinedElements : list (string * list combined).
Variable localized_query : bool.
Variable JoinTree : Type.
Variable addNextAvailableTableAlias : string -> JoinTree -> string * JoinTree.
Variable transformSubquery : token -> result token.
Variable calculateOnCondition :
  refLink -> refLink -> bool -> list ctoken -> result (list token).

(** The subqueries of [exists <path>]: walking the path forward, every
    step gets a new alias and becomes the source of one subquery, which
    is correlated with the step before it. *)
Fixpoint exists_path (fuel : nat) (steps : list step) (links : list refLink)
    (current : refLink) (jt : JoinTree) {struct steps}
  : result (list subselect * JoinTree) :=
  match steps, links with
  | step_ :: steps', next1 :: links' =>
      let '(as_name, jt1) :=
        addNextAvailableTableAlias (after_last_dot (l_alias next1)) jt in
      let next := set_alias as_name next1 in
      '(sub, jt2) <-
        exists_subquery m foreignKeys pseudos srcs combinedElements
          localized_query addNextAvailableTableAlias transformSubquery
          calculateOnCondition fuel current next (step_where step_) true jt1 ;;
      '(subs, jt3) <- exists_path fuel steps' links' next jt2 ;;
      Ok (sub :: subs, jt3)
  | _, _ => Ok ([], jt)
  end.

(** The subqueries in step order: one per step, from the target of the
    step under a new alias, with the infix filter of the step. *)
Fixpoint exists_path_shape (steps : list step) (links : list refLink)
    (subs : list subselect) {struct steps} : Prop :=
  match steps, links with
  | step_ :: steps', next :: links' =>
      match subs with
      | sub :: subs' =>
          (exists as_name : string,
             exists_select m localized_query (set_alias as_name next)
               (step_where step_) sub)
          /\ exists_path_shape steps' links' subs'
      | [] => False
      end
  | _, _ => subs = []
  end.

End Path.

(** Chapters of books: [Chapters.book] points to [Books], whose [author]
    points to [Authors]. *)
Definition book_def : def :=
  managed "book" [Parent KEntity "Chapters"] "Books" [FKey ["ID"] None].

Definition Chapters : def :=
  entity "Chapters"
    [("ID", with_key (scalar "ID" [Parent KEntity "Chapters"]));
     ("book", book_def)].

Definition chapters : model :=
  Model [("Chapters", Chapters); ("Books", Bookshop.Books);
         ("Authors", Bookshop.Authors)].

(** The reference [book.author] in a query on [Chapters], as the
    inference leaves it. *)
Definition book_author_links : list refLink :=
  [link book_def Chapters "book";
   link (managed "author" [Parent KEntity "Books"] "Authors" [FKey ["ID"] None])
        Chapters "author"].

Definition book_author_ref : token :=
  Ref [plain "book"; plain "author"]
      (RefInfo book_author_links (Some "book_author") false) no_attrs NoProj.

Definition transform_where_Chapters (w : list token)
  : result (list token * Bookshop.join_tree) :=
  getTransformedTokenStream chapters Bookshop.fk_names
    Bookshop.pseudo_elements [("Chapters", Chapters)]
    (inferCombinedElements [("Chapters", Chapters)]) false
    Bookshop.add_alias (fun t => Ok t) (Bookshop.no_on_condition chapters)
    10 w None ["Chapters"].


(** *** A plain projection from an entity *)

(** An element without structure: no elements, no target, no keys, no
    [on] condition, not virtual. *)
Definition is_scalar (d : def) : bool :=
  dkind_eqb (d_kind d) KElement
  && match d_elements d, d_target d, d_keys d, d_on d with
     | None, None, None, None => negb (d_virtual d)
     | _, _, _, _ => false
     end.

(** A name that stands for a scalar element of the query source when it
    is the only step of a column. *)
Definition scalar_column (pseudos : list (string * def))
    (els : list (string * def)) (id : string) : bool :=
  negb (eqs id "") && negb (eqs id "$user") && negb (has_key id pseudos)
  && match assoc id els with
     | Some d => is_scalar d
     | None => false
     end.

Fixpoint no_dot (s : string) : bool :=
  match s with
  | EmptyString => true
  | String c r => negb (Ascii.eqb c "."%char) && no_dot r
  end.

(** The column [id] of the entity [E] as the inference leaves it. *)
Definition linked_column (E : def) (id : string) (d : def) : token :=
  Ref [Step id None] (RefInfo [link d E (after_last_dot id)] (Some id) false)
      no_attrs NoProj.

Definition linked (E : def) (els : list (string * def)) (id : string) : token :=
  match assoc id els with
  | Some d => linked_column E id d
  | None => ref_ [id]
  end.

(** [SELECT from <from> { <columns> }] *)
Definition plain_select (loc : bool) (from : source) (columns : list token) : query :=
  SELECT (Select from (Some columns) None None None None None loc).


(** *** A query without columns on an entity *)

(** An element of the entity itself that the wildcard selects as one
    column: named as its key, directly below the entity, scalar, not
    skipped. *)
Definition own_scalar (skippedByWildcard : def -> bool) (kv : string * def) : bool :=
  eqs (d_name (snd kv)) (fst kv)
  && match d_parents (snd kv) with
     | p :: _ => dkind_eqb (p_kind p) KEntity
     | [] => false
     end
  && is_scalar (snd kv)
  && negb (skippedByWildcard (snd kv)).

(** [SELECT from <from> { <columns> } excluding { ... }] *)
Definition select_all (loc : bool) (excluding : option (list string))
    (from : source) (columns : option (list token)) : query :=
  SELECT (Select from columns None None None None excluding loc).

Definition Genres : def :=
  entity "Genres"
    [("ID", with_key (scalar "ID" [Parent KEntity "Genres"]));
     ("name", scalar "name" [Parent KEntity "Genres"]);
     ("descr", scalar "descr" [Parent KEntity "Genres"])].

End Statements.

(** ** Properties *)

Module Properties.
Import Csn Cqn Infer Rewrite Statements.

(** *** Union queries (§4.7, §7) *)

Section Union.

Variable pseudos : list (string * def).
Variable foreignKeys : def -> list string.
Variable skippedByWildcard isComposition : def -> bool.
Variable JoinTree : Type.
Variable newJoinTree : sources -> JoinTree.
Variable mergeColumn : list step -> list refLink -> JoinTree -> list refLink * JoinTree.
Variable addNextAvailableTableAlias : string -> JoinTree -> string * JoinTree.
Variable isInitial : JoinTree -> bool.
Variable translateAssocsToJoins : model -> JoinTree -> source -> result source.
Variable resolveExpand : token -> result element.
Variable resolveInline : token -> result (list (string * element)).
Variable calculateOnCondition :
  model -> refLink -> refLink -> bool -> list ctoken -> result (list token).
Variable expandColumn : model -> token -> JoinTree -> result (token * JoinTree).
Variable nestedProjectionOnStructure : model -> token -> result (list token).

(** The inference rejects a union before it looks at anything else. *)
Lemma infer_rejects_union (fuel : nat) (outer : list sources)
    (args : list query) (m : model) :
  infer pseudos newJoinTree mergeColumn resolveExpand resolveInline foreignKeys
        fuel outer (SET args) (Some m)
  = Err UnionNotSupported.
Proof. destruct fuel; reflexivity. Qed.

(** C7: for every input query that is a SET/union query, the rewrite
    raises the error for unions and produces no output query, whatever the
    model, the nesting bound and the outer queries are. *)
Theorem C7_union_not_supported (fuel : nat) (outer : list sources)
    (args : list query) (m : model) :
  cqn4sql pseudos foreignKeys skippedByWildcard isComposition newJoinTree
          mergeColumn addNextAvailableTableAlias isInitial
          translateAssocsToJoins resolveExpand resolveInline
          calculateOnCondition expandColumn nestedProjectionOnStructure
          fuel outer (SET args) (Some m)
  = Err UnionNotSupported.
Proof.
  destruct fuel; cbn [cqn4sql]; rewrite infer_rejects_union; reflexivity.
Qed.

End Union.

(** *** Columns without alias (§7) *)

Section Alias.

Variable pseudos : list (string * def).
Variable foreignKeys : def -> list string.
Variable JoinTree : Type.
Variable newJoinTree : sources -> JoinTree.
Variable mergeColumn : list step -> list refLink -> JoinTree -> list refLink * JoinTree.
Variable resolveExpand : token -> result element.
Variable resolveInline : token -> result (list (string * element)).

Lemma needs_alias_expression (col : token) :
  needs_alias col = true ->
  is_kw "*" col = false /\ is_expression_column col = true
  /\ alias_of_column col = None.
Proof.
  unfold needs_alias, alias_of_column.
  destruct col as [s|steps ri a p|v a|l|x a|f args a|q a];
    cbn; intros H; try discriminate.
  - apply andb_true_iff in H as [Hp Ha]. rewrite Hp.
    destruct (truthy_name (a_as a)); [discriminate|]. auto.
  - destruct (truthy_name (a_as a)); [discriminate|]. auto.
  - destruct (truthy_name (a_as a)); [discriminate|]. auto.
Qed.

(** The first loop over the columns stops at the first column that needs
    an alias and has none, when the columns before it went through. *)
Lemma first_loop_expecting_alias (m : model) (srcs : sources)
    (outer : list sources) (ce : list (string * list combined)) (fuel : nat)
    (before : list token) :
  forall (st : istate JoinTree) (col : token) (after : list token) r,
    needs_alias col = true ->
    infer_columns_first pseudos mergeColumn resolveExpand resolveInline m srcs
      outer ce fuel st before = Ok r ->
    infer_columns_first pseudos mergeColumn resolveExpand resolveInline m srcs
      outer ce fuel st (before ++ col :: after) = Err ExpectingAlias.
Proof.
  induction before as [|b before IH]; intros st col after r Hcol Hbefore.
  - destruct (needs_alias_expression col Hcol) as (Hstar & Hexpr & Halias).
    cbn [app infer_columns_first]. rewrite Hstar, Hexpr.
    unfold infer_expression_column. rewrite Halias. reflexivity.
  - cbn [app infer_columns_first] in *.
    destruct (is_kw "*" b).
    + destruct (infer_columns_first _ _ _ _ _ _ _ _ _ st before) as [[[r' st'] w]|e] eqn:E;
        [|discriminate].
      rewrite (IH st col after _ Hcol E). reflexivity.
    + destruct (is_expression_column b).
      * destruct (infer_expression_column _ _ _ _ _ _ _ _ _ st b) as [[b' st1]|e];
          [|discriminate].
        cbn [bind] in *.
        destruct (infer_columns_first _ _ _ _ _ _ _ _ _ st1 before) as [[[r' st'] w]|e] eqn:E;
          [|discriminate].
        rewrite (IH st1 col after _ Hcol E). reflexivity.
      * destruct b; try discriminate.
        destruct (infer_columns_first _ _ _ _ _ _ _ _ _ st before) as [[[r' st'] w]|e] eqn:E;
          [|discriminate].
        rewrite (IH st col after _ Hcol E). reflexivity.
Qed.


End Alias.



(** *** The current-user pseudo (§4.2) *)

Section User.

Variable pseudos : list (string * def).
Variable JoinTree : Type.
Variable mergeColumn : list step -> list refLink -> JoinTree -> list refLink * JoinTree.
Variable m : model.
Variable srcs : sources.
Variable outerQueries : list sources.
Variable combinedElements : list (string * list combined).
Variable resolveExpand : token -> result element.
Variable resolveInline : token -> result (list (string * element)).

Variable u : def.
Hypothesis user_is_pseudo : assoc "$user" pseudos = Some u.

Let inferQueryElement' :=
  inferQueryElement pseudos mergeColumn m srcs outerQueries combinedElements
    resolveExpand resolveInline.

Lemma resolves_ok {A} (insert : bool) (r : result A) (x : A) :
  r = Ok x -> resolves insert r.
Proof. intros ->. exact I. Qed.

Section Path.

Variable rec : rec_type JoinTree.
Variable tail : list step.
Variable a : attrs.
Variable insert : bool.
Variable base : option baseLink.
Variable inExists : bool.
Hypothesis no_cast : a_cast a = None.

Let ref := plain "$user" :: tail.

Let step_ := infer_step pseudos m srcs outerQueries combinedElements
               resolveExpand resolveInline rec ref a NoProj insert base inExists.
Let steps_ := infer_steps pseudos m srcs outerQueries combinedElements
                resolveExpand resolveInline rec ref a NoProj insert base inExists.

Lemma last_opt_snoc {A} (l : list A) (x : A) : last_opt (l ++ [x]) = Some x.
Proof. unfold last_opt. rewrite rev_unit. reflexivity. Qed.

Lemma last_opt_nonempty {A} (l : list A) : l <> [] -> exists x, last_opt l = Some x.
Proof.
  intros H. destruct (rev l) eqn:E.
  - apply (f_equal (@rev A)) in E. rewrite rev_involutive in E. contradiction.
  - exists a0. unfold last_opt. rewrite E. reflexivity.
Qed.

(** A step that is not the first one and carries no filter. *)
Lemma step_below_user (i : nat) (id : string) (later : list step)
    (w : walk JoinTree) :
  below_user w ->
  match step_ (S i) (Step id None :: later) w with
  | Ok w' => below_user w'
  | Err (DuplicateElement _) => insert = true
  | Err _ => False
  end.
Proof.
  intros [Hp Hl]. destruct (last_opt_nonempty Hl) as [prev Hprev].
  subst step_. unfold infer_step. rewrite Hprev. cbn [of_option bind].
  assert (Hnext : exists d t jr,
             resolve_next m srcs ref NoProj id prev w = Ok (d, t, jr)).
  { unfold resolve_next.
    destruct (match elements_or_target m (l_definition prev) with
              | Some els => assoc id els
              | None => None
              end); [eauto|].
    subst ref. unfold firstStepIsSelf, firstStepIsTableAlias.
    cbn. rewrite Hp. destruct tail; cbn; rewrite ?andb_false_r; eauto. }
  destruct Hnext as (d & t & jr & Hnext). rewrite Hnext. cbn [bind].
  destruct (name_segments_next id prev (Step id None :: later) w) as [segs stack].
  cbn [bind].
  destruct later as [|s later'].
  - (* the leaf *)
    unfold infer_leaf. rewrite no_cast. cbn.
    destruct insert; cbn.
    + destruct (has_key _ _); cbn; [reflexivity|].
      split; [assumption|]. intros H. apply app_eq_nil in H as [_ H]. discriminate.
    + split; [assumption|]. intros H. apply app_eq_nil in H as [_ H]. discriminate.
  - cbn. split; [assumption|].
    intros H. apply app_eq_nil in H as [_ H]. discriminate.
Qed.

Lemma steps_below_user (rest : list step) :
  Forall (fun s => step_where s = None) rest ->
  forall (i : nat) (w : walk JoinTree),
    below_user w ->
    match steps_ (S i) rest w with
    | Ok w' => below_user w'
    | Err (DuplicateElement _) => insert = true
    | Err _ => False
    end.
Proof.
  induction 1 as [|s rest Hs Hrest IH]; intros i w Hw.
  - cbn. exact Hw.
  - subst steps_. cbn [infer_steps].
    destruct s as [id wh]. cbn in Hs. subst wh.
    pose proof (step_below_user i id rest Hw) as Hstep. subst step_.
    destruct (infer_step _ _ _ _ _ _ _ _ _ _ _ _ _ _ _ _) as [w'|e].
    + cbn [bind]. apply IH. exact Hstep.
    + cbn [bind]. exact Hstep.
Qed.

End Path.

Section Column.

Variable fuel : nat.
Variable st : istate JoinTree.
Variable ri : refinfo.
Variable a : attrs.
Variable base : option baseLink.
Variable inExists inExpr : bool.
Hypothesis no_cast : a_cast a = None.
Hypothesis no_param : a_param a = false.

(** The end of [inferQueryElement] keeps the query elements and does not
    fail. *)
Lemma after_walk (w : walk JoinTree) :
  w_links w <> [] ->
  exists col' st',
    (leaf <- of_option (last_opt (w_links w)) (TypeError "$refLinks") ;;
     let flat := Some (join "_" (nameSegments w)) in
     let skip :=
       existsb (fun l => match target_of m (l_definition l) with
                         | Some t => d_skip t
                         | None => false
                         end) (w_links w) in
     if is_expand NoProj && skip then
       Ok (Ref (w_steps w)
               (RefInfo (but_last (w_links w) ++ [set_skipExpand leaf]) flat
                        (w_joinRelevant w)) a NoProj, w_state w)
     else
       let virtual :=
         (d_virtual (l_definition leaf) || negb (isPersisted w)) && negb inExpr in
       if negb inExists && negb virtual
          && isColumnJoinRelevant (is_expand NoProj) (w_steps w) (w_links w)
       then
         let '(links', jt') :=
           mergeColumn (w_steps w) (w_links w) (joinTree (w_state w)) in
         Ok (Ref (w_steps w) (RefInfo links' flat true) a NoProj,
             IState (queryElements (w_state w)) jt')
       else
         Ok (Ref (w_steps w) (RefInfo (w_links w) flat (w_joinRelevant w)) a NoProj,
             w_state w))
    = Ok (col', st')
    /\ queryElements st' = queryElements (w_state w).
Proof.
  intros Hl. destruct (last_opt_nonempty Hl) as [leaf Hleaf].
  rewrite Hleaf. cbn [of_option bind is_expand andb].
  destruct (negb inExists && _ && _).
  - destruct (mergeColumn _ _ _) as [links' jt']. eauto.
  - eauto.
Qed.

(** The single step [$user]: the element of the column is the [id] child
    of the pseudo definition, with the annotations of the column. *)
Lemma user_single_step (els : list (string * def)) (idd : def) :
  d_elements u = Some els ->
  assoc "id" els = Some idd ->
  has_key (user_name a) (queryElements st) = false ->
  exists col' st',
    inferQueryElement' (S fuel) st (Ref [plain "$user"] ri a NoProj) true base
      inExists inExpr = Ok (col', st')
    /\ queryElements st'
       = set_key (user_name a) (getCopyWithAnnos a (EDef idd)) (queryElements st).
Proof.
  intros Hels Hid Hfresh.
  subst inferQueryElement'. cbn [inferQueryElement]. rewrite no_param.
  unfold plain. cbn [infer_steps]. unfold infer_step, resolve_first.
  rewrite user_is_pseudo.
  cbn [bind app]. unfold infer_leaf. rewrite no_cast.
  cbn [Nat.eqb andb eqs String.eqb Ascii.eqb Bool.eqb l_definition link
       w_links w_state w_steps nameSegments queryElements joinTree].
  rewrite Hels. cbn [of_option bind]. rewrite Hid.
  assert (Hname :
            elementName_of a [Step "$user" None] (join "_" ([] ++ ["$user"]))
              (firstStepIsSelf srcs [Step "$user" None] NoProj)
              (firstStepIsTableAlias srcs [Step "$user" None] NoProj)
            = user_name a).
  { unfold elementName_of, user_name, firstStepIsSelf, firstStepIsTableAlias.
    destruct (truthy_name (a_as a)); [reflexivity|].
    cbn. rewrite !andb_false_r. reflexivity. }
  rewrite Hname, Hfresh. cbn [of_option bind infer_steps].
  match goal with
  | |- context [of_option (last_opt (w_links ?W)) _] =>
      destruct (@after_walk W) as (c & s' & E & Q);
        [cbn; discriminate|]
  end.
  exists c, s'. split; [exact E | rewrite Q; reflexivity].
Qed.

(** A path below [$user] whose steps carry no filter resolves, whether
    its sub-steps are known or not. *)
Lemma user_path (els : list (string * def)) (idd : def) (rest : list step)
    (insert : bool) :
  d_elements u = Some els ->
  assoc "id" els = Some idd ->
  Forall (fun s => step_where s = None) rest ->
  resolves insert
    (inferQueryElement' (S fuel) st (Ref (plain "$user" :: rest) ri a NoProj)
       insert base inExists inExpr).
Proof.
  intros Hels Hid Hrest.
  subst inferQueryElement'. cbn [inferQueryElement]. rewrite no_param.
  unfold plain. cbn [infer_steps]. unfold infer_step at 1, resolve_first.
  rewrite user_is_pseudo. cbn [bind app].
  destruct rest as [|s rest'].
  - unfold infer_leaf. rewrite no_cast.
    cbn [Nat.eqb andb eqs String.eqb Ascii.eqb Bool.eqb l_definition link
         w_links w_state w_steps nameSegments queryElements joinTree].
    rewrite Hels. cbn [of_option bind]. rewrite Hid.
    destruct insert.
    + destruct (has_key _ _); [reflexivity|].
      cbn [of_option bind infer_steps].
      match goal with
      | |- context [of_option (last_opt (w_links ?W)) _] =>
          destruct (@after_walk W) as (c & s' & E & Q); [cbn; discriminate|]
      end.
      eapply resolves_ok. exact E.
    + cbn [of_option bind infer_steps].
      match goal with
      | |- context [of_option (last_opt (w_links ?W)) _] =>
          destruct (@after_walk W) as (c & s' & E & Q); [cbn; discriminate|]
      end.
      eapply resolves_ok. exact E.
  - cbn [bind].
    match goal with
    | |- context [infer_steps _ _ _ _ _ _ _ ?rec _ _ _ _ _ _ 1 _ ?W0] =>
        set (W := W0);
        pose proof (@steps_below_user rec (s :: rest') a insert base inExists
                      no_cast (s :: rest') Hrest 0 W) as Hsteps
    end.
    unfold plain in Hsteps.
    assert (Hw : below_user W).
    { subst W. split; cbn; [reflexivity | discriminate]. }
    specialize (Hsteps Hw).
    destruct (infer_steps _ _ _ _ _ _ _ _ _ _ _ _ _ _ _ _ _) as [w'|e].
    + cbn [bind]. destruct Hsteps as [_ Hl].
      destruct (@after_walk w' Hl) as (c & s' & E & Q).
      eapply resolves_ok. exact E.
    + cbn [bind]. exact Hsteps.
Qed.


End Column.

End User.


(** *** Concrete runs on the bookshop *)


(** The spec's scenarios 6 and 7 hold on the embedding. *)
Example scenario_struct_equals_null :
  rewrite_where [ref_ ["dedication"]; Kw "="; null]
  = Ok [Books_ "dedication_text"; Kw "="; null; Kw "and";
        Books_ "dedication_sub_foo"; Kw "="; null].
Proof. vm_compute. reflexivity. Qed.

Example scenario_struct_not_equals_null :
  rewrite_where [ref_ ["dedication"]; Kw "<>"; null]
  = Ok [Books_ "dedication_text"; Kw "<>"; null; Kw "or";
        Books_ "dedication_sub_foo"; Kw "<>"; null].
Proof. vm_compute. reflexivity. Qed.

Example scenario_struct_less_than_null :
  rewrite_where [ref_ ["dedication"]; Kw "<"; null]
  = Err (UnsupportedStructuralComparison "<").
Proof. vm_compute. reflexivity. Qed.

Example scenario_in_empty_list :
  rewrite_where [ref_ ["stock"]; Kw "in"; Lst []]
  = Ok [Books_ "stock"; Kw "="; null].
Proof. vm_compute. reflexivity. Qed.

Example scenario_not_in_empty_list :
  rewrite_where [ref_ ["stock"]; Kw "not"; Kw "in"; Lst []]
  = Ok [Books_ "stock"; Kw "is"; Kw "not"; Kw "null"].
Proof. vm_compute. reflexivity. Qed.

(** C4, failing run: [WHERE dedication = null AND stock IN ()].  The
    three tokens of the structural comparison become one expression, so
    that the index of the input stream is past the end of the output when
    the empty list is reached: [in] stays and [= null] is appended. *)
Theorem C4_in_empty_list_after_structural_comparison :
  rewrite_where [ref_ ["dedication"]; Kw "="; null; Kw "and";
                 ref_ ["stock"]; Kw "in"; Lst []]
  = Ok [Xpr [Books_ "dedication_text"; Kw "="; null; Kw "and";
             Books_ "dedication_sub_foo"; Kw "="; null] no_attrs;
        Kw "and"; Books_ "stock"; Kw "in"; Kw "="; null].
Proof. vm_compute. reflexivity. Qed.

(** C5, failing run: [WHERE dedication < stock].  The structured operand
    is dropped without an error. *)
Theorem C5_structure_less_than_scalar :
  rewrite_where [ref_ ["dedication"]; Kw "<"; ref_ ["stock"]]
  = Ok [Kw "<"; Books_ "stock"].
Proof. vm_compute. reflexivity. Qed.


(** C9, failing run: [WHERE EXISTS author[0]].  The filter is the single
    value 0, the target has the single key [ID]; the value is left as it
    is. *)
Theorem C9_filter_with_falsy_value :
  rewrite_where [Kw "exists";
                 Ref [Step "author" (Some [num 0])] no_info no_attrs NoProj]
  = Ok [Kw "exists";
        exists_token
          (SubSelect "Authors" "author"
             [flat_ref ["author"; "ID"] no_attrs; Kw "=";
              flat_ref ["Books"; "author_ID"] no_attrs; Kw "and"; num 0])].
Proof. vm_compute. reflexivity. Qed.

(** With a value that is truthy the filter becomes a comparison with the
    key. *)
Example filter_with_value :
  rewrite_where [Kw "exists";
                 Ref [Step "author" (Some [num 5])] no_info no_attrs NoProj]
  = Ok [Kw "exists";
        exists_token
          (SubSelect "Authors" "author"
             [flat_ref ["author"; "ID"] no_attrs; Kw "=";
              flat_ref ["Books"; "author_ID"] no_attrs; Kw "and";
              flat_ref ["author"; "ID"] no_attrs; Kw "="; num 5])].
Proof. vm_compute. reflexivity. Qed.

(** *** Comparison of a structure with a value (§4.6.3) *)

Section StructValue.

Variable m : model.
Variable foreignKeys : def -> list string.
Variable pseudos : list (string * def).
Variable srcs : sources.
Variable combinedElements : list (string * list combined).
Variable localized_query : bool.
Variable JoinTree : Type.
Variable addNextAvailableTableAlias : string -> JoinTree -> string * JoinTree.
Variable transformSubquery : token -> result token.
Variable calculateOnCondition :
  refLink -> refLink -> bool -> list ctoken -> result (list token).

(** One round of the loop over the token stream. *)
Lemma stream_loop_step (rec : stream_fun JoinTree) (fuel n : nat)
    (tokenStream : list token) (base : option refLink) (i : nat)
    (tw : list token) (jt : JoinTree) :
  stream_loop m foreignKeys pseudos srcs combinedElements
    localized_query addNextAvailableTableAlias transformSubquery calculateOnCondition rec fuel
    (S n) tokenStream base i tw jt
  = match nth_error tokenStream i with
    | None => Ok (tw, jt)
    | Some token_ =>
        '(i', tw', jt') <-
          stream_step m foreignKeys pseudos srcs combinedElements
            localized_query addNextAvailableTableAlias transformSubquery calculateOnCondition
            rec fuel tokenStream base i token_ tw jt ;;
        stream_loop m foreignKeys pseudos srcs combinedElements
          localized_query addNextAvailableTableAlias transformSubquery calculateOnCondition rec
          fuel n tokenStream base (S i') tw' jt'
    end.
Proof. reflexivity. Qed.

Lemma stream_loop_end (rec : stream_fun JoinTree) (fuel n : nat)
    (tokenStream : list token) (base : option refLink) (i : nat)
    (tw : list token) (jt : JoinTree) :
  nth_error tokenStream i = None ->
  stream_loop m foreignKeys pseudos srcs combinedElements
    localized_query addNextAvailableTableAlias transformSubquery calculateOnCondition rec fuel
    n tokenStream base i tw jt
  = Ok (tw, jt).
Proof. intros H. destruct n; cbn; rewrite H; reflexivity. Qed.


End StructValue.


(** *** Reference closure (§8) *)

Section Closure.

Variable m : model.
Variable foreignKeys : def -> list string.
Variable combinedElements : list (string * list combined).

Lemma flat_each_Forall {A} (P : flatcol -> Prop)
    (f : A -> fstate -> result (list flatcol * fstate)) (l : list A) :
  (forall x st cs st', f x st = Ok (cs, st') -> Forall P cs) ->
  forall st cs st', flat_each f l st = Ok (cs, st') -> Forall P cs.
Proof.
  intros Hf. induction l as [|x l IH]; intros st cs st' H; cbn in H.
  - injection H as <- <-. constructor.
  - destruct (f x st) as [[cs1 st1]|e] eqn:E1; [|discriminate]. cbn in H.
    destruct (flat_each f l st1) as [[cs2 st2]|e] eqn:E2; [|discriminate].
    cbn in H. injection H as <- <-.
    apply Forall_app. split; [eapply Hf; exact E1 | eapply IH; exact E2].
Qed.

Lemma with_table_some (t name : string) :
  t <> "" -> with_table (Some t) name = [t; name].
Proof.
  intros H. unfold with_table, truthy_name, eqs.
  destruct (String.eqb t "") eqn:E; [apply String.eqb_eq in E; contradiction|].
  reflexivity.
Qed.

(** Every flat column that [getFlatColumnsFor] makes for an element or a
    reference, given a table alias, is a reference with two steps that
    starts with the table alias. *)
Lemma flat_columns_two_steps (tableAlias : string) (fuel : nat) :
  tableAlias <> "" ->
  forall (column : flat_input) (baseName columnAlias : option string)
         (csnPath : nat) (exclude : list token) (st st' : fstate)
         (cols : list flatcol),
    match column with
    | InDef _ | InCol (Ref _ _ _ _) => True
    | InCol _ => False
    end ->
    getFlatColumnsFor m foreignKeys combinedElements fuel column baseName
      columnAlias (Some tableAlias) csnPath exclude false st = Ok (cols, st') ->
    Forall (fun c => two_steps tableAlias (fc_token c)) cols.
Proof.
  intros Hta. induction fuel as [|fuel IH];
    intros column baseName columnAlias csnPath exclude st st' cols Hcol H.
  - discriminate.
  - cbn [getFlatColumnsFor] in H.
    assert (Hpass : match column with
                    | InCol (Val v _) => truthy v
                    | InCol (Fn f _ _) => negb (eqs f "")
                    | InCol (Sub _ _) => true
                    | _ => false
                    end = false).
    { destruct column as [[]|]; try reflexivity; contradiction. }
    rewrite Hpass in H.
    destruct (flat_head foreignKeys column baseName columnAlias)
      as [[[[[element bn] ca] leafAssoc]|]|e]; cbn [bind] in H;
      [| injection H as <- <-; constructor | discriminate].
    destruct (getReplacement exclude (d_name element));
      [injection H as <- <-; constructor|].
    destruct (d_keys element) as [keys|].
    + (* a managed association: its foreign keys *)
      revert H. apply flat_each_Forall. intros fk st0 cs st0' Hfk.
      destruct (getElementForRef m (fk_ref fk) (target_of m element))
        as [fkElement|]; [|discriminate]. cbn [of_option bind] in Hfk.
      destruct (d_elements fkElement) as [els|].
      * revert Hfk. apply flat_each_Forall. intros e st1 cs1 st1' He.
        destruct (alloc _ _) as [p s'] in He.
        eapply IH; [|exact He]. exact I.
      * destruct (isAssociation fkElement).
        -- eapply IH; [|exact Hfk]. exact I.
        -- injection Hfk as <- <-. constructor; [|constructor].
           cbn [fc_token]. rewrite with_table_some by assumption.
           unfold two_steps. eauto.
    + destruct (d_elements element) as [els|].
      * revert H. apply flat_each_Forall. intros e st1 cs1 st1' He.
        destruct (alloc _ _) as [p s'] in He.
        eapply IH; [|exact He]. exact I.
      * injection H as <- <-. constructor; [|constructor].
        cbn [fc_token]. rewrite with_table_some by assumption.
        unfold two_steps. eauto.
Qed.

Variable pseudos : list (string * def).
Variable srcs : sources.
Variable localized_query : bool.
Variable JoinTree : Type.
Variable addNextAvailableTableAlias : string -> JoinTree -> string * JoinTree.
Variable transformSubquery : token -> result token.
Variable calculateOnCondition :
  refLink -> refLink -> bool -> list ctoken -> result (list token).

(** A reference token of a stream that is neither a bind parameter nor
    rooted in a pseudo and whose leaf is a scalar is replaced by the
    reference with two steps: the name of its query source and a flat
    name. *)
Lemma stream_reference_two_steps (rec : stream_fun JoinTree) (fuel : nat)
    (tokenStream : list token) (base : option refLink) (i : nat)
    (steps : list step) (ri : refinfo) (a : attrs) (proj : projection)
    (leaf : refLink) (tw : list token) (jt : JoinTree)
    (r : nat * list token * JoinTree) :
  a_param a = false ->
  match steps with s :: _ => step_in pseudos s | [] => false end = false ->
  last_opt (refLinks ri) = Some leaf ->
  d_elements (l_definition leaf) = None ->
  d_keys (l_definition leaf) = None ->
  stream_step m foreignKeys pseudos srcs combinedElements localized_query
    addNextAvailableTableAlias transformSubquery calculateOnCondition rec fuel
    tokenStream base i (Ref steps ri a proj) tw jt = Ok r ->
  exists source name,
    getQuerySourceName combinedElements (Ref steps ri a proj) base = Ok source
    /\ r = (i, tw ++ [Ref [plain source; plain name] no_info a proj], jt).
Proof.
  intros Hparam Hpseudo Hleaf Hels Hkeys H.
  unfold stream_step in H. cbn [is_kw] in H.
  assert (Hsingle : match tokenStream, Ref steps ri a proj, base with
                    | [_], Val v _, Some b => if truthy v then Some b else None
                    | _, _, _ => None
                    end = None).
  { destruct tokenStream as [|? [|? ?]]; reflexivity. }
  rewrite Hsingle, Hparam, Hpseudo, Hleaf in H.
  cbn [orb option_map] in H. rewrite Hels, Hkeys, andb_false_r in H.
  destruct (assertNoStructInXpr _ _); [|discriminate]. cbn [bind] in H.
  destruct (getQuerySourceName combinedElements (Ref steps ri a proj) base)
    as [source|e]; [|discriminate]. cbn [bind] in H.
  match type of H with
  | context [bind ?n _] => destruct n as [name|e]; [|discriminate]
  end.
  cbn [bind] in H. injection H as <-. eauto.
Qed.


End Closure.



(** *** The chain of where-exists subqueries (§4.6.1) *)

Lemma link_cells_length (subs : list subselect) :
  forall k, length (link_cells k subs) = length subs.
Proof.
  induction subs as [|s [|s' r] IH]; intros k; try reflexivity.
  cbn [link_cells length]. f_equal. apply (IH (S k)).
Qed.

(** Pushing the pointer to a new cell to the last cell of the linked
    part. *)
Lemma heap_push_link (pre : list subselect) :
  forall (k : nat) (x y : subselect) (post : heap),
    heap_push (length pre)
      [inl (Kw "and"); inl (Kw "exists"); inr (S (k + length pre))]
      (link_cells k (pre ++ [x]) ++ cell_of y :: post)
    = link_cells k (pre ++ [x; y]) ++ post.
Proof.
  induction pre as [|p pre IH]; intros k x y post.
  - cbn. rewrite Nat.add_0_r. reflexivity.
  - cbn [length app].
    assert (E : forall z, link_cells k (p :: pre ++ z :: nil) =
                          Cell (ss_ref p) (ss_as p)
                               (map inl (ss_where p) ++
                                [inl (Kw "and"); inl (Kw "exists"); inr (S k)])
                            :: link_cells (S k) (pre ++ z :: nil)).
    { intros z. cbn [link_cells]. destruct pre; reflexivity. }
    rewrite E. cbn [app heap_push].
    replace (S (k + S (length pre))) with (S (S k + length pre)) by lia.
    rewrite IH.
    cbn [link_cells]. destruct pre; reflexivity.
Qed.

(** The [reduce] of [whereExistsSubqueries] links the cells. *)
Lemma reduce_cells_links (rest : list subselect) :
  forall (pre : list subselect) (x : subselect),
    reduce_cells (S (length pre)) (length rest) (Some (length pre))
      (link_cells 0 (pre ++ [x]) ++ map cell_of rest)
    = link_cells 0 (pre ++ x :: rest).
Proof.
  induction rest as [|y rest IH]; intros pre x.
  - cbn. apply app_nil_r.
  - cbn [length reduce_cells map].
    pose proof (heap_push_link pre 0 x y (map cell_of rest)) as Hpush.
    cbn [Nat.add] in Hpush. rewrite Hpush.
    replace (pre ++ [x; y]) with ((pre ++ [x]) ++ [y])
      by (rewrite <- app_assoc; reflexivity).
    replace (S (length pre)) with (length (pre ++ [x]))
      by (rewrite length_app; cbn; lia).
    rewrite IH. rewrite <- app_assoc. reflexivity.
Qed.

Lemma reduce_cells_from_start (subs : list subselect) :
  reduce_cells 0 (length subs) None (map cell_of subs) = link_cells 0 subs.
Proof.
  destruct subs as [|x rest]; [reflexivity|].
  cbn [length reduce_cells map].
  exact (reduce_cells_links rest [] x).
Qed.

Lemma read_entries_tokens (rd : nat -> option subselect) (ws : list token)
    (rest : list (token + nat)) :
  read_entries rd (map inl ws ++ rest)
  = option_map (app ws) (read_entries rd rest).
Proof.
  induction ws as [|w ws IH]; cbn.
  - destruct (read_entries rd rest); reflexivity.
  - rewrite IH. destruct (read_entries rd rest); reflexivity.
Qed.

Lemma nest_nonempty (s : subselect) (r : list subselect) :
  exists inner, nest (s :: r) = Some inner.
Proof. cbn. destruct (nest r); eauto. Qed.

Lemma subselect_eta (s : subselect) :
  SubSelect (ss_ref s) (ss_as s) (ss_where s) = s.
Proof. destruct s; reflexivity. Qed.

(** Reading the linked heap gives the nesting of the sub-selects. *)
Lemma read_linked_cells (rest : list subselect) :
  forall (pre : heap) (fuel : nat),
    length rest < fuel ->
    read_cell fuel (pre ++ link_cells (length pre) rest) (length pre) = nest rest.
Proof.
  induction rest as [|s r IH]; intros pre fuel Hfuel.
  - destruct fuel; [reflexivity|]. cbn [link_cells read_cell nest].
    rewrite app_nil_r.
    rewrite (proj2 (nth_error_None pre (length pre))) by lia. reflexivity.
  - destruct fuel as [|fuel]; [cbn in Hfuel; lia|]. cbn [length] in Hfuel.
    cbn [read_cell]. rewrite nth_error_app2 by lia. rewrite Nat.sub_diag.
    destruct r as [|s' r'].
    + cbn [link_cells nth_error cell_of c_where c_ref c_as nest].
      replace (map inl (ss_where s)) with (map (@inl token nat) (ss_where s) ++ [])
        by apply app_nil_r.
      rewrite read_entries_tokens. cbn. rewrite app_nil_r.
      rewrite subselect_eta. reflexivity.
    + set (rest := s' :: r') in *.
      assert (Hlink : link_cells (length pre) (s :: rest)
                      = Cell (ss_ref s) (ss_as s)
                             (map inl (ss_where s) ++
                              [inl (Kw "and"); inl (Kw "exists"); inr (S (length pre))])
                          :: link_cells (S (length pre)) rest) by reflexivity.
      rewrite Hlink. cbn [nth_error c_where c_ref c_as].
      rewrite read_entries_tokens. cbn [read_entries option_map].
      match goal with
      | |- context [read_cell fuel (pre ++ ?c :: ?l) _] =>
          pose proof (IH (pre ++ [c]) fuel) as IH';
          rewrite length_app, Nat.add_1_r, <- app_assoc in IH';
          cbn [app] in IH'
      end.
      rewrite IH' by lia.
      cbn [nest]. fold (nest rest).
      destruct (nest_nonempty s' r') as [inner Hinner]. fold rest in Hinner.
      rewrite Hinner. cbn. reflexivity.
Qed.

(** The linking of the sub-selects through the shared [where] arrays
    gives the nesting of the sub-selects. *)
Lemma whereExistsSubqueries_nest (subs : list subselect) :
  whereExistsSubqueries subs = nest subs.
Proof.
  unfold whereExistsSubqueries.
  destruct subs as [|s [|s' r]]; try reflexivity.
  rewrite reduce_cells_from_start.
  apply (read_linked_cells (s :: s' :: r) []). lia.
Qed.

Section Chain.

Variable m : model.
Variable foreignKeys : def -> list string.
Variable pseudos : list (string * def).
Variable srcs : sources.
Variable combinedElements : list (string * list combined).
Variable localized_query : bool.
Variable JoinTree : Type.
Variable addNextAvailableTableAlias : string -> JoinTree -> string * JoinTree.
Variable transformSubquery : token -> result token.
Variable calculateOnCondition :
  refLink -> refLink -> bool -> list ctoken -> result (list token).

Local Abbreviation exists_subquery :=
  (Statements.exists_subquery m foreignKeys pseudos srcs combinedElements
     localized_query addNextAvailableTableAlias transformSubquery
     calculateOnCondition).
Local Abbreviation chain_steps :=
  (Statements.chain_steps m foreignKeys pseudos srcs combinedElements
     localized_query addNextAvailableTableAlias transformSubquery
     calculateOnCondition).
Local Abbreviation exists_select := (Statements.exists_select m localized_query).
Local Abbreviation exists_chain := (Statements.exists_chain m localized_query).

Lemma list_update_app {A} (f : A -> A) (pre : list A) (x : A) (post : list A) :
  list_update (length pre) f (pre ++ x :: post) = pre ++ f x :: post.
Proof. induction pre as [|p pre IH]; cbn; [reflexivity|]. rewrite IH. reflexivity. Qed.

Lemma nth_error_middle {A} (pre : list A) (x : A) (post : list A) :
  nth_error (pre ++ x :: post) (length pre) = Some x.
Proof. rewrite nth_error_app2 by lia. rewrite Nat.sub_diag. reflexivity. Qed.

Lemma association_path_alias (a : string) (y : refLink) (l : list refLink) :
  association_path (y :: l) -> association_path (set_alias a y :: l).
Proof. destruct l; cbn; auto. Qed.

Lemma chain_steps_pair (fuel : nat) (s t : step) (rest : list step)
    (x y : refLink) (links : list refLink) (jt : JoinTree) :
  chain_steps fuel (s :: t :: rest) (x :: y :: links) jt
  = (let '(as_name, jt1) :=
       addNextAvailableTableAlias (after_last_dot (l_alias y)) jt in
     '(sub, jt2) <- exists_subquery fuel x (set_alias as_name y) (step_where t) false jt1 ;;
     '(subs, links', jt3) <- chain_steps fuel (t :: rest) (set_alias as_name y :: links) jt2 ;;
     Ok (sub :: subs, x :: links', jt3)).
Proof. reflexivity. Qed.

(** The loop of [_transformFrom] over the indices of the reversed path
    is the pairwise walk, on an association path. *)
Lemma from_steps_chain (fuel : nat) (suffix : list step) :
  forall (links prefix_links : list refLink) (prefix : list step)
         (subs : list subselect) (jt : JoinTree),
    length prefix = length prefix_links ->
    length suffix = length links ->
    association_path links ->
    from_steps m foreignKeys pseudos srcs combinedElements localized_query
      addNextAvailableTableAlias transformSubquery calculateOnCondition fuel
      (length links) (length prefix_links) (prefix ++ suffix)
      (prefix_links ++ links) subs jt
    = ('(subs', links', jt') <- chain_steps fuel suffix links jt ;;
       Ok (subs ++ subs', prefix_links ++ links', jt')).
Proof.
  induction suffix as [|s suffix IH];
    intros links pl pr subs jt Hpre Hlen Hpath.
  - destruct links; [|discriminate]. cbn. rewrite !app_nil_r. reflexivity.
  - destruct links as [|x links]; [discriminate|].
    cbn [length from_steps]. rewrite nth_error_middle. cbn [of_option bind].
    destruct links as [|y links].
    + (* the root of the path *)
      destruct suffix; [|discriminate].
      rewrite (proj2 (nth_error_None (pl ++ [x]) (S (length pl))))
        by (rewrite length_app; cbn; lia).
      cbn. rewrite !app_nil_r.
      destruct (isAssociation (l_definition x)); reflexivity.
    + destruct suffix as [|t suffix]; [discriminate|].
      destruct Hpath as (Hassoc & Hstruct & Hrest).
      rewrite Hassoc.
      replace (pl ++ x :: y :: links) with ((pl ++ [x]) ++ y :: links)
        by (rewrite <- app_assoc; reflexivity).
      replace (S (length pl)) with (length (pl ++ [x]))
        by (rewrite length_app; cbn; lia).
      rewrite nth_error_middle.
      replace (pr ++ s :: t :: suffix) with ((pr ++ [s]) ++ t :: suffix)
        by (rewrite <- app_assoc; reflexivity).
      replace (length (pl ++ [x])) with (length (pr ++ [s]))
        by (rewrite !length_app; cbn; lia).
      rewrite nth_error_middle. cbn [of_option bind].
      rewrite Hstruct.
      replace (length (pr ++ [s])) with (length (pl ++ [x]))
        by (rewrite !length_app; cbn; lia).
      rewrite nth_error_middle. cbn [of_option bind].
      rewrite chain_steps_pair.
      destruct (addNextAvailableTableAlias (after_last_dot (l_alias y)) jt)
        as [as_name jt1].
      rewrite list_update_app.
      assert (Hx : nth_error ((pl ++ [x]) ++ set_alias as_name y :: links)
                             (length pl) = Some x).
      { rewrite <- app_assoc. cbn [app]. apply nth_error_middle. }
      rewrite Hx. unfold exists_subquery.
      destruct (getWhereExistsSubquery _ _ _ _ _ _ _ _ _ _ _ _)
        as [[sub jt2]|e]; [|reflexivity].
      cbn [bind].
      change (length (y :: links))
        with (length (set_alias as_name y :: links)).
      rewrite (IH (set_alias as_name y :: links) (pl ++ [x]) (pr ++ [s]));
        [ | rewrite !length_app; cbn; lia | cbn in Hlen |- *; lia
          | apply association_path_alias; exact Hrest ].
      destruct (chain_steps fuel (t :: suffix) (set_alias as_name y :: links) jt2)
        as [[[subs' links'] jt3]|e]; [|reflexivity].
      cbn [bind]. rewrite <- !app_assoc. reflexivity.
Qed.

Lemma exists_subquery_select (fuel : nat) (current next : refLink)
    (customWhere : option (list token)) (jt jt' : JoinTree) (sub : subselect) :
  exists_subquery fuel current next customWhere false jt = Ok (sub, jt') ->
  exists_select next customWhere sub.
Proof.
  unfold exists_subquery, getWhereExistsSubquery, exists_select.
  match goal with
  | |- (x <- ?c ;; _) = _ -> _ => destruct c as [on|e]; [|discriminate]
  end.
  cbn [bind]. destruct customWhere as [w|].
  - match goal with
    | |- context [getTransformedTokenStream ?a ?b ?c ?d ?e ?f ?g ?h ?i ?j ?k ?l ?n] =>
        destruct (getTransformedTokenStream a b c d e f g h i j k l n)
          as [[filter jt2]|err]; [|discriminate]
    end.
    cbn [bind]. intros H. injection H as <- _. cbn.
    repeat split. exists on. eexists. reflexivity.
  - cbn [bind]. intros H. injection H as <- _. cbn.
    repeat split. exists on. reflexivity.
Qed.

Lemma exists_chain_head (refReverse : list step) (x y : refLink)
    (links : list refLink) (subs : list subselect) :
  exists_chain refReverse (x :: links) subs ->
  exists_chain refReverse (y :: links) subs.
Proof. destruct refReverse as [|s [|t rest]]; cbn; auto. Qed.

Lemma exists_chain_pair (s t : step) (rest : list step) (x y : refLink)
    (links : list refLink) (sub : subselect) (subs : list subselect) :
  exists_chain (s :: t :: rest) (x :: y :: links) (sub :: subs)
  = ((exists as_name : string,
        exists_select (set_alias as_name y) (step_where t) sub)
     /\ exists_chain (t :: rest) (y :: links) subs).
Proof. reflexivity. Qed.

Lemma chain_steps_exists_chain (fuel : nat) (refReverse : list step) :
  forall (linksReverse links' : list refLink) (jt jt' : JoinTree)
         (subs : list subselect),
    length refReverse = length linksReverse ->
    chain_steps fuel refReverse linksReverse jt = Ok (subs, links', jt') ->
    exists_chain refReverse linksReverse subs
    /\ length subs = length refReverse - 1
    /\ nth_error links' 0 = nth_error linksReverse 0.
Proof.
  induction refReverse as [|s rest IH]; intros lr lr' jt jt' subs Hlen H.
  - cbn in H. injection H as <- <- _. repeat split.
  - destruct lr as [|x lr]; [discriminate|].
    destruct rest as [|t rest].
    + destruct lr; [|discriminate]. cbn in H. injection H as <- <- _.
      repeat split.
    + destruct lr as [|y lr]; [discriminate|].
      rewrite chain_steps_pair in H.
      destruct (addNextAvailableTableAlias (after_last_dot (l_alias y)) jt)
        as [as_name jt1].
      destruct (exists_subquery fuel x (set_alias as_name y) (step_where t) false jt1)
        as [[sub jt2]|err] eqn:Hsub; [|discriminate].
      cbn [bind] in H.
      destruct (chain_steps fuel (t :: rest) (set_alias as_name y :: lr) jt2)
        as [[[subs' lr''] jt3]|err] eqn:Hrest; [|discriminate].
      cbn [bind] in H. injection H as <- <- _.
      apply IH in Hrest; [|cbn in Hlen |- *; lia].
      destruct Hrest as (Hchain & Hcount & _).
      split; [|split].
      * rewrite exists_chain_pair. split.
        -- exists as_name. eapply exists_subquery_select. exact Hsub.
        -- eapply exists_chain_head. exact Hchain.
      * cbn [length] in *. lia.
      * reflexivity.
Qed.

(** X2: a [from] reference of more than one step over associations is
    rewritten to a reference of one step, the target of the last step,
    with the alias of that step; the steps before it become the chain of
    [EXISTS (SELECT 1 FROM <target> AS <alias> WHERE <on> [AND <filter>])]
    subqueries, one per association step, built in reverse step order,
    each nested into the [where] of the one before under [and], and the
    outermost one opens the [where] of the query. *)
Theorem from_association_path_becomes_exists_chain (fuel : nat) (steps : list step)
    (ri : refinfo) (as_name : option string) (existingWhere : list token)
    (jt jt' : JoinTree) (r : transformed_from) :
  1 < length steps ->
  length (refLinks ri) = length steps ->
  association_path (rev (refLinks ri)) ->
  transformFrom_ref m foreignKeys pseudos srcs combinedElements localized_query
    addNextAvailableTableAlias transformSubquery calculateOnCondition
    fuel steps ri as_name existingWhere jt = Ok (r, jt') ->
  exists (leaf : refLink) (subs : list subselect) (chain : subselect)
         (conditions : list token),
    last_opt (refLinks ri) = Some leaf
    /\ transformedFrom r
       = SrcRef [plain (localized m localized_query (l_target leaf))]
                (RefInfo [leaf] None false) (Some (l_alias leaf))
    /\ exists_chain (rev steps) (rev (refLinks ri)) subs
    /\ length subs = length steps - 1
    /\ nest subs = Some chain
    /\ transformedWhere r
       = Some (Kw "exists" :: exists_token chain :: conditions).
Proof.
  intros Hlong Hlen Hpath. unfold transformFrom_ref.
  replace (length (rev steps)) with (length (rev (refLinks ri)))
    by (rewrite !length_rev; exact Hlen).
  pose proof (@from_steps_chain fuel (rev steps) (rev (refLinks ri)) [] [] [] jt
                eq_refl) as Hloop.
  cbn [app length] in Hloop. rewrite Hloop; clear Hloop;
    [ | rewrite !length_rev; symmetry; exact Hlen | exact Hpath ].
  destruct (chain_steps fuel (rev steps) (rev (refLinks ri)) jt)
    as [[[subs links'] jt1]|err] eqn:Hchain; [|discriminate].
  cbn [bind app].
  apply chain_steps_exists_chain in Hchain;
    [ | rewrite !length_rev; symmetry; exact Hlen ].
  destruct Hchain as (Hchain & Hcount & Hleaf).
  rewrite length_rev in Hcount.
  assert (Hlast : last_opt (refLinks ri) = nth_error (rev (refLinks ri)) 0)
    by (unfold last_opt; destruct (rev (refLinks ri)); reflexivity).
  rewrite Hleaf, <- Hlast.
  destruct (nth_error (rev steps) 0) as [leafStep|]; [|discriminate].
  cbn [of_option bind].
  match goal with
  | |- (x <- ?c ;; _) = _ -> _ => destruct c as [[filter jt2]|err]; [|discriminate]
  end.
  cbn [bind].
  destruct (last_opt (refLinks ri)) as [leaf|]; [|discriminate].
  cbn [of_option bind].
  match goal with
  | |- (x <- ?c ;; _) = _ -> _ => destruct c as [as_first|err]; [|discriminate]
  end.
  cbn [bind].
  destruct subs as [|sub subs]; [cbn in Hcount; lia|].
  rewrite whereExistsSubqueries_nest.
  destruct (nest_nonempty sub subs) as [chain Hnest]. rewrite Hnest.
  cbn [of_option bind]. intros H. injection H as <- _.
  exists leaf, (sub :: subs), chain. eexists.
  cbn [transformedFrom transformedWhere glue_conditions app].
  repeat split; try assumption.
Qed.

End Chain.

(** [SELECT from Books:author] becomes
    [SELECT from Authors as author where exists
       (SELECT 1 from Books as Books where Books.author_ID = author.ID)]. *)
Example scenario_from_path :
  option_map
    (fun r => (transformedWhere (fst r),
               match transformedFrom (fst r) with
               | SrcRef steps _ as_name => Some (steps, as_name)
               | _ => None
               end))
    (match transform_from_author [plain "Books"; plain "author"] Books_author with
     | Ok r => Some r
     | Err _ => None
     end)
  = Some (Some [Kw "exists";
                exists_token
                  (SubSelect "Books" "Books"
                     [flat_ref ["Books"; "author_ID"] no_attrs; Kw "=";
                      flat_ref ["author"; "ID"] no_attrs])],
          Some ([plain "Authors"], Some "author")).
Proof. vm_compute. reflexivity. Qed.

(** X2, witness: the path [Books:author] of the bookshop is such a path. *)
Lemma from_association_path_becomes_exists_chain_witness :
  1 < length [plain "Books"; plain "author"]
  /\ length (refLinks Books_author) = length [plain "Books"; plain "author"]
  /\ association_path (rev (refLinks Books_author))
  /\ exists (r : transformed_from) (jt' : Bookshop.join_tree),
       transform_from_author [plain "Books"; plain "author"] Books_author
       = Ok (r, jt')
       /\ exists (leaf : refLink) (subs : list subselect) (chain : subselect)
                 (conditions : list token),
            last_opt (refLinks Books_author) = Some leaf
            /\ transformedFrom r
               = SrcRef [plain (localized Bookshop.bookshop false (l_target leaf))]
                        (RefInfo [leaf] None false) (Some (l_alias leaf))
            /\ exists_chain Bookshop.bookshop false
                 (rev [plain "Books"; plain "author"])
                 (rev (refLinks Books_author)) subs
            /\ length subs = length [plain "Books"; plain "author"] - 1
            /\ nest subs = Some chain
            /\ transformedWhere r
               = Some (Kw "exists" :: exists_token chain :: conditions).
Proof.
  split; [cbn; lia|]. split; [reflexivity|]. split; [cbn; repeat split|].
  eexists. eexists. split; [vm_compute; reflexivity|].
  eapply from_association_path_becomes_exists_chain
    with (foreignKeys := Bookshop.fk_names)
         (pseudos := Bookshop.pseudo_elements)
         (srcs := [("author", Bookshop.Authors)])
         (combinedElements := inferCombinedElements [("author", Bookshop.Authors)])
         (addNextAvailableTableAlias := Bookshop.add_alias)
         (transformSubquery := fun t => Ok t)
         (calculateOnCondition := Bookshop.no_on_condition Bookshop.bookshop)
         (fuel := 10) (as_name := None) (existingWhere := []) (jt := ["author"]);
    [cbn; lia | reflexivity | cbn; repeat split | vm_compute; reflexivity].
Defined.

(** With the structure next to the last step the subquery reads from
    the entity before the structure. *)
Example scenario_from_path_structure_before_leaf :
  where_of_query
    (Library.cqn4sql_library (select_ID_from ["Shelves"; "label"; "book"]))
  = Some [Kw "exists";
          exists_token
            (SubSelect "Shelves" "Shelves"
               [flat_ref ["Shelves"; "label_book_ID"] no_attrs; Kw "=";
                flat_ref ["book"; "ID"] no_attrs])].
Proof. vm_compute. reflexivity. Qed.

(** C1, failing run: [SELECT ID from Shelves:label.book.writer].  The step
    before the association [book] is the structure [label]; the entity
    before it is looked up from position 2 of the reversed path, not from
    the position of the step at hand, so the subquery of [book] reads from
    the structure [label] and not from [Shelves]. *)
Theorem C1_structure_inside_from_path :
  where_of_query
    (Library.cqn4sql_library
       (select_ID_from ["Shelves"; "label"; "book"; "writer"]))
  = Some [Kw "exists";
          exists_token
            (SubSelect "Volumes" "book"
               [flat_ref ["book"; "writer_ID"] no_attrs; Kw "=";
                flat_ref ["writer"; "ID"] no_attrs;
                Kw "and"; Kw "exists";
                exists_token
                  (SubSelect "label" "label"
                     [flat_ref ["label"; "label_book_ID"] no_attrs; Kw "=";
                      flat_ref ["book"; "ID"] no_attrs])])].
Proof. vm_compute. reflexivity. Qed.

End Properties.

(** ** The inference on a query that was inferred before *)

Module Rerun.
Import Csn Cqn Infer Rewrite Statements.

(** *** Steps that differ in their filters only *)

Lemma same_steps_refl (l : list step) : same_steps l l.
Proof. reflexivity. Qed.

Lemma same_steps_cons (s s' : step) (l l' : list step) :
  same_steps (s :: l) (s' :: l') <-> shape_step s = shape_step s' /\ same_steps l l'.
Proof.
  unfold same_steps. cbn [map]. split.
  - intros H. split.
    + exact (f_equal (hd (shape_step s)) H).
    + exact (f_equal (@tl _) H).
  - intros [H1 H2]. rewrite H1, H2. reflexivity.
Qed.

Lemma same_steps_nil (l : list step) : same_steps [] l -> l = [].
Proof. destruct l; [reflexivity|discriminate]. Qed.

Lemma same_steps_app (l1 l1' l2 l2' : list step) :
  same_steps l1 l1' -> same_steps l2 l2' -> same_steps (l1 ++ l2) (l1' ++ l2').
Proof. unfold same_steps. intros H1 H2. rewrite !map_app, H1, H2. reflexivity. Qed.

Lemma same_steps_ids (l l' : list step) : same_steps l l' -> ids l = ids l'.
Proof.
  unfold same_steps, ids. intros H.
  apply (f_equal (map fst)) in H. rewrite !map_map in H. exact H.
Qed.

Lemma same_steps_tl (l l' : list step) : same_steps l l' -> same_steps (tl l) (tl l').
Proof.
  destruct l, l'; try discriminate; [reflexivity|].
  intros H. apply same_steps_cons in H. apply H.
Qed.

Lemma step_is_shape (name : string) (s s' : step) :
  shape_step s = shape_step s' -> step_is name s = step_is name s'.
Proof.
  destruct s as [i [w|]], s' as [i' [w'|]]; cbn; intros H;
    injection H as ->; try discriminate; reflexivity.
Qed.

Lemma step_in_shape {A} (dict : list (string * A)) (s s' : step) :
  shape_step s = shape_step s' -> step_in dict s = step_in dict s'.
Proof.
  destruct s as [i [w|]], s' as [i' [w'|]]; cbn; intros H;
    injection H as ->; try discriminate; reflexivity.
Qed.

Lemma key_matches_shape (kr : list string) :
  forall ss ss', same_steps ss ss' -> key_matches kr ss = key_matches kr ss'.
Proof.
  induction kr as [|k kr IH]; intros ss ss' H; [reflexivity|].
  destruct ss as [|s ss], ss' as [|s' ss']; try discriminate; [reflexivity|].
  apply same_steps_cons in H. destruct H as [H1 H2]. cbn.
  rewrite (step_is_shape k H1), (IH _ _ H2). reflexivity.
Qed.

Lemma find_key_shape (ks : list fkey) (ss ss' : list step) :
  same_steps ss ss' -> find_key ks ss = find_key ks ss'.
Proof.
  intros H. unfold find_key. induction ks as [|k ks IH]; [reflexivity|].
  cbn. rewrite (key_matches_shape _ H), IH. reflexivity.
Qed.

Lemma firstStepIsTableAlias_shape (srcs : sources) (proj : projection)
    (ref ref' : list step) :
  same_steps ref ref' ->
  firstStepIsTableAlias srcs ref proj = firstStepIsTableAlias srcs ref' proj.
Proof.
  intros H. unfold firstStepIsTableAlias.
  destruct ref as [|s [|s2 ref]], ref' as [|s' [|s2' ref']]; try discriminate;
    try reflexivity; apply same_steps_cons in H; destruct H as [H1 H2];
    try discriminate; rewrite (step_in_shape srcs H1); reflexivity.
Qed.

Lemma firstStepIsSelf_shape (srcs : sources) (proj : projection)
    (ref ref' : list step) :
  same_steps ref ref' ->
  firstStepIsSelf srcs ref proj = firstStepIsSelf srcs ref' proj.
Proof.
  intros H. unfold firstStepIsSelf.
  rewrite (firstStepIsTableAlias_shape srcs proj H).
  destruct ref as [|s [|s2 ref]], ref' as [|s' [|s2' ref']]; try discriminate;
    try reflexivity; apply same_steps_cons in H; destruct H as [H1 H2];
    try discriminate.
  rewrite (step_is_shape "$self" H1), (step_is_shape "$projection" H1).
  reflexivity.
Qed.

(** *** Tokens *)

Lemma same_head_refl (t : token) : same_head t t.
Proof. destruct t; cbn; auto using same_steps_refl. tauto. Qed.

Lemma is_kw_same_head (s : string) (t t' : token) :
  same_head t t' -> is_kw s t = is_kw s t'.
Proof. destruct t, t'; cbn; try contradiction; try reflexivity. intros ->. reflexivity. Qed.

(** A step of a proof about a run that succeeded: the first computation
    of a sequence has succeeded too. *)
Ltac bind_ok H x E :=
  match type of H with
  | bind ?c _ = Ok _ =>
      destruct c as [x|] eqn:E; [cbn [bind] in H | discriminate H]
  end.

Section Lists.

Variable JoinTree : Type.
Variable rec : rec_type JoinTree.
Hypothesis rec_annotating : annotating rec.

Lemma infer_each_again (l : list token) :
  forall (st : istate JoinTree) (base : option baseLink) (inExists inExpr : bool)
         (l' : list token) (st' : istate JoinTree),
    infer_each rec st l base inExists inExpr = Ok (l', st') ->
    Forall2 same_head l l'
    /\ infer_each rec st l' base inExists inExpr = Ok (l', st').
Proof.
  induction l as [|t r IH]; intros st base inExists inExpr l' st' H; cbn in H.
  - injection H as <- <-. split; [constructor|reflexivity].
  - bind_ok H p1 E1. destruct p1 as [t1 st1].
    bind_ok H p2 E2. destruct p2 as [r2 st2].
    injection H as <- <-.
    apply rec_annotating in E1. destruct E1 as [Hh E1].
    apply IH in E2. destruct E2 as [Hr E2].
    split; [constructor; assumption|].
    cbn. rewrite E1. cbn. rewrite E2. reflexivity.
Qed.

Lemma infer_filter_again (l : list token) :
  forall (st : istate JoinTree) (base : baseLink) (skip : bool)
         (l' : list token) (st' : istate JoinTree),
    infer_filter rec st l base skip = Ok (l', st') ->
    Forall2 same_head l l'
    /\ infer_filter rec st l' base skip = Ok (l', st').
Proof.
  induction l as [|t r IH]; intros st base skip l' st' H; cbn [infer_filter] in H.
  - injection H as <- <-. split; [constructor|reflexivity].
  - destruct (is_kw "exists" t) eqn:Hkw.
    + bind_ok H p E. destruct p as [r' st1]. injection H as <- <-.
      apply IH in E. destruct E as [Hr E].
      split; [constructor; [apply same_head_refl|assumption]|].
      cbn [infer_filter]. rewrite Hkw, E. reflexivity.
    + bind_ok H p1 E1. destruct p1 as [t1 st1].
      bind_ok H p2 E2. destruct p2 as [r2 st2].
      injection H as <- <-.
      apply IH in E2. destruct E2 as [Hr E2].
      assert (Ht : same_head t t1
                   /\ match t1 with
                      | Ref _ _ _ _ | Xpr _ _ =>
                          rec st t1 false (Some base) skip false
                      | Fn f (Some args) a =>
                          '(args', st1) <- infer_each rec st args (Some base) skip false ;;
                          Ok (Fn f (Some args') a, st1)
                      | _ => Ok (t1, st)
                      end = Ok (t1, st1)).
      { destruct t as [k|steps ri a proj|v a|lst|x a|f [args|] a|q a];
          try (injection E1 as <- <-; split; [apply same_head_refl|reflexivity]).
        - apply rec_annotating in E1. destruct E1 as [Hh E1].
          split; [exact Hh|]. destruct t1; try contradiction. exact E1.
        - apply rec_annotating in E1. destruct E1 as [Hh E1].
          split; [exact Hh|]. destruct t1; try contradiction. exact E1.
        - bind_ok E1 p Ea. destruct p as [args' st0]. injection E1 as <- <-.
          apply infer_each_again in Ea. destruct Ea as [Ha Ea].
          split; [cbn; repeat split; discriminate|].
          rewrite Ea. reflexivity. }
      destruct Ht as [Hh Ht].
      split; [constructor; assumption|].
      cbn [infer_filter]. rewrite <- (@is_kw_same_head "exists" t t1 Hh), Hkw.
      rewrite Ht. cbn [bind]. rewrite E2. reflexivity.
Qed.

End Lists.

Lemma elementName_of_shape (a : attrs) (flat : string) (self alias : bool)
    (ref ref' : list step) :
  same_steps ref ref' ->
  elementName_of a ref' flat self alias = elementName_of a ref flat self alias.
Proof.
  intros H. unfold elementName_of.
  destruct (self || alias);
    [rewrite (same_steps_ids (same_steps_tl H)) | rewrite (same_steps_ids H)];
    reflexivity.
Qed.

(** *** The walk over the steps of a column *)

Section Column.

Variable pseudos : list (string * def).
Variable JoinTree : Type.
Variable m : model.
Variable srcs : sources.
Variable outerQueries : list sources.
Variable combinedElements : list (string * list combined).
Variable resolveExpand : token -> result element.
Variable resolveInline : token -> result (list (string * element)).
Hypothesis resolveExpand_flag : ignores_join_relevance resolveExpand.
Hypothesis resolveInline_flag : ignores_join_relevance resolveInline.
Variable rec : rec_type JoinTree.
Hypothesis rec_annotating : annotating rec.

Variable a : attrs.
Variable proj : projection.
Variable insert : bool.
Variable base : option baseLink.
Variable inExists : bool.

(** The result of a step of the walk when [isJoinRelevant] was [b]. *)
Let lift (b : bool) (r : result (walk JoinTree)) : result (walk JoinTree) :=
  match r with
  | Ok w => Ok (set_joinRelevant b w)
  | Err e => Err e
  end.

Lemma resolve_first_again (ref ref' : list step) (id : string)
    (w1 w2 : walk JoinTree) :
  same_steps ref ref' ->
  w_state w1 = w_state w2 ->
  resolve_first pseudos m srcs outerQueries combinedElements ref' proj base id w1
  = resolve_first pseudos m srcs outerQueries combinedElements ref proj base id w2.
Proof.
  intros H Hw. unfold resolve_first.
  rewrite <- (firstStepIsTableAlias_shape srcs proj H).
  rewrite <- (firstStepIsSelf_shape srcs proj H). rewrite Hw. reflexivity.
Qed.

Lemma resolve_next_again (ref ref' : list step) (id : string) (prev : refLink)
    (w1 w2 : walk JoinTree) :
  same_steps ref ref' ->
  pseudoPath w1 = pseudoPath w2 ->
  resolve_next m srcs ref' proj id prev w1
  = resolve_next m srcs ref proj id prev w2.
Proof.
  intros H Hw. unfold resolve_next.
  rewrite <- (firstStepIsSelf_shape srcs proj H). rewrite Hw.
  replace (match ref' with s :: _ => step_is "$user" s | [] => false end)
    with (match ref with s :: _ => step_is "$user" s | [] => false end);
    [reflexivity|].
  destruct ref, ref'; try discriminate; [reflexivity|].
  apply same_steps_cons in H. apply step_is_shape. apply H.
Qed.

Lemma name_segments_next_again (id : string) (prev : refLink)
    (rest rest' : list step) (w1 w2 : walk JoinTree) :
  same_steps rest rest' ->
  nameSegments w1 = nameSegments w2 ->
  skipAliasedFkSegmentsOfNameStack w1 = skipAliasedFkSegmentsOfNameStack w2 ->
  name_segments_next id prev rest' w1 = name_segments_next id prev rest w2.
Proof.
  intros H Hn Hs. unfold name_segments_next. rewrite Hn, Hs.
  destruct (d_keys (l_definition prev)) as [ks|]; [|reflexivity].
  rewrite (find_key_shape ks H). reflexivity.
Qed.

Lemma infer_leaf_again (ref ref' : list step) (i : nat) (id : string)
    (lk : refLink) (links : list refLink) (steps : list step)
    (segs stack : list string) (pseudo persisted b b' : bool)
    (st : istate JoinTree) :
  same_steps ref ref' ->
  infer_leaf srcs resolveExpand resolveInline ref' a proj insert i id lk
    (Walk links steps segs stack pseudo persisted b st)
  = lift b (infer_leaf srcs resolveExpand resolveInline ref a proj insert i id lk
              (Walk links steps segs stack pseudo persisted b' st)).
Proof.
  intros H. unfold infer_leaf. cbn [w_links w_steps nameSegments
    skipAliasedFkSegmentsOfNameStack pseudoPath isPersisted w_joinRelevant w_state].
  rewrite <- (firstStepIsTableAlias_shape srcs proj H).
  rewrite <- (firstStepIsSelf_shape srcs proj H).
  rewrite (resolveExpand_flag steps links (Some (join "_" segs)) b b' a proj).
  rewrite (resolveInline_flag steps links (Some (join "_" segs)) b b' a proj).
  rewrite (elementName_of_shape a (join "_" segs)
             (firstStepIsSelf srcs ref proj) (firstStepIsTableAlias srcs ref proj) H).
  match goal with
  | |- bind ?c _ = _ => destruct c; reflexivity
  end.
Qed.

Lemma infer_leaf_fields (ref : list step) (i : nat) (id : string)
    (lk : refLink) (w w' : walk JoinTree) :
  infer_leaf srcs resolveExpand resolveInline ref a proj insert i id lk w = Ok w' ->
  w_steps w' = w_steps w /\ w_joinRelevant w' = w_joinRelevant w
  /\ w_links w' = w_links w.
Proof.
  unfold infer_leaf. intros H. bind_ok H qe E. injection H as <-. auto.
Qed.

Lemma has_next_shape (later later' : list step) :
  same_steps later later' ->
  match later' with [] => false | _ => true end
  = match later with [] => false | _ => true end.
Proof. destruct later, later'; try discriminate; reflexivity. Qed.

Lemma infer_step_again (ref later later' : list step) (i : nat)
    (id : string) (f : option (list token)) (w w' : walk JoinTree) :
  same_steps later later' ->
  infer_step pseudos m srcs outerQueries combinedElements resolveExpand
    resolveInline rec ref a proj insert base inExists i (Step id f :: later) w
  = Ok w' ->
  exists (f' : option (list token)) (delta : bool),
    shape_step (Step id f) = shape_step (Step id f')
    /\ w_steps w' = w_steps w ++ [Step id f']
    /\ w_joinRelevant w' = w_joinRelevant w || delta
    /\ forall (ref' : list step) (b : bool),
         same_steps ref ref' ->
         infer_step pseudos m srcs outerQueries combinedElements resolveExpand
           resolveInline rec ref' a proj insert base inExists i
           (Step id f' :: later') (set_joinRelevant b w)
         = Ok (set_joinRelevant (b || delta) w').
Proof.
  intros Hlater H. unfold infer_step in H.
  bind_ok H p1 E1. destruct p1 as [[[[[d t] jr] segs] stack] pseudo].
  bind_ok H p2 E2. destruct p2 as [[where' jr'] st'].
  exists where', (jr || jr').
  assert (Hshape : shape_step (Step id f) = shape_step (Step id where')).
  { destruct f as [f0|].
    - destruct (negb (isAssociation d) || _); [discriminate|].
      bind_ok E2 p E. destruct p as [f1 st1]. injection E2 as <- _ _. reflexivity.
    - injection E2 as <- _ _. reflexivity. }
  split; [exact Hshape|].
  assert (Hfields : w_steps w' = w_steps w ++ [Step id where']
                    /\ w_joinRelevant w' = w_joinRelevant w || (jr || jr')).
  { destruct later.
    - apply infer_leaf_fields in H. cbn in H. destruct H as (H1 & H2 & _).
      rewrite H1, H2, orb_assoc. auto.
    - injection H as <-. cbn. rewrite orb_assoc. auto. }
  destruct Hfields as [Hs Hf]. split; [exact Hs|]. split; [exact Hf|].
  assert (Hrest : same_steps (Step id f :: later) (Step id where' :: later')).
  { apply same_steps_cons. auto. }
  intros ref' b Href. unfold infer_step.
  cbn [set_joinRelevant w_links w_steps nameSegments
       skipAliasedFkSegmentsOfNameStack pseudoPath isPersisted w_joinRelevant w_state].
  match goal with
  | |- bind ?c _ = _ => assert (E1' : c = Ok (d, t, jr, segs, stack, pseudo))
  end.
  { destruct i as [|i'].
    - rewrite (@resolve_first_again ref ref' id (set_joinRelevant b w) w Href eq_refl).
      exact E1.
    - destruct (last_opt (w_links w)) as [prev|]; [|discriminate E1].
      cbn [of_option bind] in E1 |- *.
      rewrite (@resolve_next_again ref ref' id prev (set_joinRelevant b w) w Href eq_refl).
      destruct (resolve_next m srcs ref proj id prev w) as [[[d0 t0] jr0]|];
        [|discriminate E1].
      cbn [bind] in E1 |- *.
      rewrite (@name_segments_next_again id prev _ _ (set_joinRelevant b w) w
                 Hrest eq_refl eq_refl).
      exact E1. }
  rewrite E1'. cbn [bind]. clear E1'.
  assert (E2' : match where' with
                | Some f0 =>
                    if negb (isAssociation d)
                       || negb (match later' with [] => false | _ => true end
                                || is_expand proj || inExists)
                    then Err FilterOnNonAssoc
                    else
                      '(f', st'0) <- infer_filter rec (w_state w) f0 (Base d t) inExists ;;
                      Ok (Some f', negb (is_expand proj), st'0)
                | None => Ok (None, false, w_state w)
                end = Ok (where', jr', st')).
  { rewrite (has_next_shape Hlater). destruct f as [f0|].
    - destruct (negb (isAssociation d) || _); [discriminate|].
      bind_ok E2 p E. destruct p as [f1 st1]. injection E2 as <- <- <-.
      apply (infer_filter_again rec_annotating) in E. destruct E as [_ E].
      rewrite E. reflexivity.
    - injection E2 as <- <- <-. reflexivity. }
  rewrite E2'. cbn [bind]. clear E2'.
  rewrite (has_next_shape Hlater).
  destruct later.
  - erewrite infer_leaf_again by exact Href. rewrite H. cbn.
    rewrite orb_assoc. reflexivity.
  - injection H as <-. cbn. rewrite orb_assoc. reflexivity.
Qed.

Lemma infer_steps_again (ref : list step) (rest : list step) :
  forall (i : nat) (w wf : walk JoinTree),
    infer_steps pseudos m srcs outerQueries combinedElements resolveExpand
      resolveInline rec ref a proj insert base inExists i rest w = Ok wf ->
    exists (rest' : list step) (delta : bool),
      same_steps rest rest'
      /\ w_steps wf = w_steps w ++ rest'
      /\ w_joinRelevant wf = w_joinRelevant w || delta
      /\ forall (ref' : list step) (b : bool),
           same_steps ref ref' ->
           infer_steps pseudos m srcs outerQueries combinedElements resolveExpand
             resolveInline rec ref' a proj insert base inExists i rest'
             (set_joinRelevant b w)
           = Ok (set_joinRelevant (b || delta) wf).
Proof.
  induction rest as [|s later IH]; intros i w wf H.
  - cbn in H. injection H as <-. exists [], false.
    rewrite app_nil_r, orb_false_r. repeat split.
    intros ref' b _. rewrite orb_false_r. reflexivity.
  - cbn [infer_steps] in H. bind_ok H w1 E1.
    apply IH in H. destruct H as (later' & d2 & Hl & Hs2 & Hf2 & Hrun2).
    destruct s as [id f].
    pose proof (@infer_step_again ref later later' i id f w w1 Hl E1) as E1'.
    destruct E1' as (f' & d1 & Hsh & Hs1 & Hf1 & Hrun1).
    exists (Step id f' :: later'), (d1 || d2). split; [|split; [|split]].
    + apply same_steps_cons. auto.
    + rewrite Hs2, Hs1, <- app_assoc. reflexivity.
    + rewrite Hf2, Hf1, orb_assoc. reflexivity.
    + intros ref' b Href. cbn [infer_steps]. rewrite (Hrun1 ref' b Href).
      cbn [bind]. rewrite (Hrun2 ref' _ Href), orb_assoc. reflexivity.
Qed.

End Column.

(** *** Columns and tokens *)

Section Element.

Variable pseudos : list (string * def).
Variable JoinTree : Type.
Variable mergeColumn : list step -> list refLink -> JoinTree -> list refLink * JoinTree.
Variable m : model.
Variable srcs : sources.
Variable outerQueries : list sources.
Variable combinedElements : list (string * list combined).
Variable resolveExpand : token -> result element.
Variable resolveInline : token -> result (list (string * element)).
Hypothesis resolveExpand_flag : ignores_join_relevance resolveExpand.
Hypothesis resolveInline_flag : ignores_join_relevance resolveInline.

(** [inferQueryElement] only annotates, and on a token it has annotated it
    attaches the same hidden properties again. *)
Lemma inferQueryElement_annotating (fuel : nat) :
  annotating (inferQueryElement pseudos mergeColumn m srcs outerQueries
                combinedElements resolveExpand resolveInline fuel).
Proof.
  induction fuel as [|fuel IH];
    intros st t insert base inExists inExpr t' st' H; [discriminate|].
  cbn [inferQueryElement] in H.
  destruct t as [k|steps ri a proj|v a|l|l a|f [args|] a|q a];
    try (injection H as <- <-; split; [apply same_head_refl|reflexivity]).
  - (* a reference *)
    destruct (a_param a) eqn:Hparam.
    { injection H as <- <-. split; [apply same_head_refl|].
      cbn [inferQueryElement]. rewrite Hparam. reflexivity. }
    bind_ok H w E.
    eapply infer_steps_again in E; try eassumption.
    destruct E as (rest' & delta & Hsame & Hsteps & Hflag & Hrun).
    cbn [w_steps w_joinRelevant app] in Hsteps, Hflag.
    assert (Hrun' : forall b : bool,
               infer_steps pseudos m srcs outerQueries combinedElements
                 resolveExpand resolveInline
                 (inferQueryElement pseudos mergeColumn m srcs outerQueries
                    combinedElements resolveExpand resolveInline fuel)
                 (w_steps w) a proj insert base inExists 0 (w_steps w)
                 (Walk [] [] [] [] false true b st)
               = Ok (set_joinRelevant (b || delta) w)).
    { intros b. rewrite Hsteps. apply (Hrun rest' b Hsame). }
    clear Hrun.
    bind_ok H leaf El.
    assert (Hhead : forall ri', same_head (Ref steps ri a proj) (Ref (w_steps w) ri' a proj)).
    { intros ri'. cbn. rewrite Hsteps. auto. }
    destruct (is_expand proj && _) eqn:Hskip.
    { injection H as <- <-. split; [apply Hhead|].
      cbn [inferQueryElement]. rewrite Hparam. cbn [isJoinRelevant].
      rewrite Hrun'. cbn [bind set_joinRelevant w_links w_steps nameSegments
        w_joinRelevant w_state]. rewrite El. cbn [of_option bind]. rewrite Hskip.
      rewrite Hflag. destruct (isJoinRelevant ri), delta; reflexivity. }
    destruct (negb inExists && _ && _) eqn:Hjoin.
    { destruct (mergeColumn (w_steps w) (w_links w) (joinTree (w_state w)))
        as [links' jt'] eqn:Hmerge.
      injection H as <- <-. split; [apply Hhead|].
      cbn [inferQueryElement]. rewrite Hparam. cbn [isJoinRelevant].
      rewrite Hrun'. cbn [bind set_joinRelevant w_links w_steps nameSegments
        w_joinRelevant w_state isPersisted]. rewrite El. cbn [of_option bind].
      rewrite Hskip, Hjoin, Hmerge. reflexivity. }
    injection H as <- <-. split; [apply Hhead|].
    cbn [inferQueryElement]. rewrite Hparam. cbn [isJoinRelevant].
    rewrite Hrun'. cbn [bind set_joinRelevant w_links w_steps nameSegments
      w_joinRelevant w_state isPersisted]. rewrite El. cbn [of_option bind].
    rewrite Hskip, Hjoin.
    rewrite Hflag. destruct (isJoinRelevant ri), delta; reflexivity.
  - bind_ok H p E. destruct p as [l' st1]. injection H as <- <-.
    apply (infer_each_again IH) in E. destruct E as [_ E].
    split; [exact I|]. cbn [inferQueryElement]. rewrite E. reflexivity.
  - bind_ok H p E. destruct p as [l' st1]. injection H as <- <-.
    apply (infer_each_again IH) in E. destruct E as [_ E].
    split; [reflexivity|]. cbn [inferQueryElement]. rewrite E. reflexivity.
  - bind_ok H p E. destruct p as [l' st1]. injection H as <- <-.
    apply (infer_each_again IH) in E. destruct E as [_ E].
    split; [cbn; repeat split; discriminate|].
    cbn [inferQueryElement]. rewrite E. reflexivity.
Qed.

Local Abbreviation inferQE :=
  (Infer.inferQE pseudos mergeColumn resolveExpand resolveInline m srcs
     outerQueries combinedElements).
Local Abbreviation walk_exists :=
  (Infer.walk_exists pseudos mergeColumn resolveExpand resolveInline m srcs
     outerQueries combinedElements).
Local Abbreviation infer_xpr_tokens :=
  (Infer.infer_xpr_tokens pseudos mergeColumn resolveExpand resolveInline m srcs
     outerQueries combinedElements).
Local Abbreviation getElementForXprOrSubquery :=
  (Infer.getElementForXprOrSubquery pseudos mergeColumn resolveExpand
     resolveInline m srcs outerQueries combinedElements).

Lemma inferQE_annotating (fuel : nat) : annotating (inferQE fuel).
Proof. unfold Infer.inferQE. apply inferQueryElement_annotating. Qed.

Lemma walk_exists_cons (fuel : nat) (st : istate JoinTree) (t : token)
    (r : list token) (skipJoins : bool) :
  walk_exists (S fuel) st (t :: r) skipJoins
  = ('(t', st', skip') <-
       (if is_kw "exists" t then Ok (t, st, true)
        else
          match t with
          | Xpr x a =>
              '(x', st', skip') <- walk_exists fuel st x skipJoins ;;
              Ok (Xpr x' a, st', skip')
          | _ =>
              '(t', st') <- inferQE (S fuel) st t false None skipJoins true ;;
              Ok (t', st', false)
          end) ;;
     '(r', st'', skip'') <- walk_exists (S fuel) st' r skip' ;;
     Ok (t' :: r', st'', skip'')).
Proof. reflexivity. Qed.

Lemma walk_exists_again (fuel : nat) :
  forall (l : list token) (st : istate JoinTree) (skipJoins : bool)
         (l' : list token) (st' : istate JoinTree) (skip' : bool),
    walk_exists fuel st l skipJoins = Ok (l', st', skip') ->
    Forall2 same_head l l'
    /\ walk_exists fuel st l' skipJoins = Ok (l', st', skip').
Proof.
  induction fuel as [|fuel IHfuel]; [discriminate|].
  induction l as [|t r IH]; intros st skipJoins l' st' skip' H.
  - cbn in H. injection H as <- <- <-. split; [constructor|reflexivity].
  - rewrite walk_exists_cons in H.
    bind_ok H p1 E1. destruct p1 as [[t1 st1] skip1].
    bind_ok H p2 E2. destruct p2 as [[r2 st2] skip2].
    injection H as <- <- <-.
    apply IH in E2. destruct E2 as [Hr E2].
    assert (Ht : same_head t t1
                 /\ (if is_kw "exists" t1 then Ok (t1, st, true)
                     else
                       match t1 with
                       | Xpr x a =>
                           '(x', st', skip') <- walk_exists fuel st x skipJoins ;;
                           Ok (Xpr x' a, st', skip')
                       | _ =>
                           '(t', st') <- inferQE (S fuel) st t1 false None skipJoins true ;;
                           Ok (t', st', false)
                       end) = Ok (t1, st1, skip1)).
    { destruct (is_kw "exists" t) eqn:Hkw.
      - injection E1 as <- <- <-. rewrite Hkw. split; [apply same_head_refl|reflexivity].
      - assert (Hh : same_head t t1 ->
                     is_kw "exists" t1 = false).
        { intros Hh. rewrite <- (@is_kw_same_head "exists" t t1 Hh). exact Hkw. }
        destruct t as [k|steps ri a proj|v a|l0|x a|f args a|q a];
          try (bind_ok E1 p E; destruct p as [t2 st3]; injection E1 as <- <- <-;
               apply inferQE_annotating in E; destruct E as [Hs E];
               split; [exact Hs|]; rewrite (Hh Hs);
               destruct t2; try contradiction; rewrite E; reflexivity).
        bind_ok E1 p E. destruct p as [[x' st3] skip3]. injection E1 as <- <- <-.
        apply IHfuel in E. destruct E as [_ E].
        split; [reflexivity|]. cbn [is_kw]. rewrite E. reflexivity. }
    destruct Ht as [Hh Ht].
    split; [constructor; assumption|].
    rewrite walk_exists_cons, Ht. cbn [bind]. rewrite E2. reflexivity.
Qed.

Lemma infer_xpr_tokens_again (fuel : nat) (l : list token) :
  forall (st : istate JoinTree) (skipJoins : bool) (l' : list token)
         (st' : istate JoinTree),
    infer_xpr_tokens fuel st l skipJoins = Ok (l', st') ->
    Forall2 same_head l l'
    /\ infer_xpr_tokens fuel st l' skipJoins = Ok (l', st').
Proof.
  induction l as [|t r IH]; intros st skipJoins l' st' H; cbn [Infer.infer_xpr_tokens] in H.
  - injection H as <- <-. split; [constructor|reflexivity].
  - destruct (is_kw "exists" t) eqn:Hkw.
    + bind_ok H p E. destruct p as [r' st1]. injection H as <- <-.
      apply IH in E. destruct E as [Hr E].
      split; [constructor; [apply same_head_refl|assumption]|].
      cbn [Infer.infer_xpr_tokens]. rewrite Hkw, E. reflexivity.
    + bind_ok H p1 E1. destruct p1 as [t1 st1].
      bind_ok H p2 E2. destruct p2 as [r2 st2]. injection H as <- <-.
      apply inferQE_annotating in E1. destruct E1 as [Hh E1].
      apply IH in E2. destruct E2 as [Hr E2].
      split; [constructor; assumption|].
      cbn [Infer.infer_xpr_tokens].
      rewrite <- (@is_kw_same_head "exists" t t1 Hh), Hkw, E1. cbn [bind].
      rewrite E2. reflexivity.
Qed.

Local Abbreviation infer_expression_column :=
  (Infer.infer_expression_column pseudos mergeColumn resolveExpand
     resolveInline m srcs outerQueries combinedElements).
Local Abbreviation infer_columns_first :=
  (Infer.infer_columns_first pseudos mergeColumn resolveExpand
     resolveInline m srcs outerQueries combinedElements).
Local Abbreviation infer_columns_refs :=
  (Infer.infer_columns_refs pseudos mergeColumn resolveExpand
     resolveInline m srcs outerQueries combinedElements).
Local Abbreviation infer_orderBy :=
  (Infer.infer_orderBy pseudos mergeColumn resolveExpand
     resolveInline m srcs outerQueries combinedElements).
Local Abbreviation inferQueryElements :=
  (Infer.inferQueryElements pseudos mergeColumn resolveExpand
     resolveInline m srcs outerQueries combinedElements).

Lemma getElementForXprOrSubquery_again (fuel : nat) (st st' : istate JoinTree)
    (col col' : token) (e : element) :
  getElementForXprOrSubquery fuel st col = Ok (col', e, st') ->
  same_head col col'
  /\ getElementForXprOrSubquery fuel st col' = Ok (col', e, st').
Proof.
  unfold Infer.getElementForXprOrSubquery. intros H.
  destruct col as [k|steps ri a proj|v a|l0|x a|f args a|q a];
    try (bind_ok H b E; injection H as <- <- <-;
         split; [apply same_head_refl|]; rewrite E; reflexivity).
  bind_ok H p E. destruct p as [x' st1]. bind_ok H b Eb.
  injection H as <- <- <-.
  apply infer_xpr_tokens_again in E. destruct E as [_ E].
  split; [reflexivity|]. rewrite E. cbn [bind]. rewrite Eb. reflexivity.
Qed.

Lemma alias_of_column_same_head (t t' : token) :
  same_head t t' -> alias_of_column t = alias_of_column t'.
Proof.
  destruct t, t'; cbn; try contradiction; try reflexivity.
  - intros (-> & _). reflexivity.
  - intros (-> & ->). reflexivity.
  - intros ->. reflexivity.
  - intros (-> & -> & _). reflexivity.
  - intros (_ & ->). reflexivity.
Qed.

Lemma is_expression_column_same_head (t t' : token) :
  same_head t t' -> is_expression_column t = is_expression_column t'.
Proof.
  destruct t, t'; cbn; try contradiction; try reflexivity.
  - intros (-> & _). reflexivity.
  - intros (-> & _). reflexivity.
Qed.

Lemma infer_expression_column_again (fuel : nat) (st st' : istate JoinTree)
    (col col' : token) :
  infer_expression_column fuel st col = Ok (col', st') ->
  same_head col col'
  /\ infer_expression_column fuel st col' = Ok (col', st').
Proof.
  unfold Infer.infer_expression_column. intros H.
  destruct (alias_of_column col) as [as_name|] eqn:Halias; [|discriminate].
  destruct (has_key as_name (queryElements st)) eqn:Hkey; [discriminate|].
  assert (Hdone : forall c, same_head col c ->
                    alias_of_column c = Some as_name).
  { intros c Hc. rewrite <- (alias_of_column_same_head col c Hc). exact Halias. }
  destruct col as [k|steps ri a proj|v a|l0|x a|f args a|q a].
  - bind_ok H e E. injection H as <- <-. split; [reflexivity|].
    rewrite Halias, Hkey, E. reflexivity.
  - bind_ok H e E. injection H as <- <-. split; [apply same_head_refl|].
    rewrite Halias, Hkey, E. reflexivity.
  - bind_ok H e E. injection H as <- <-. split; [apply same_head_refl|].
    rewrite Halias, Hkey, E. reflexivity.
  - bind_ok H e E. injection H as <- <-. split; [apply same_head_refl|].
    rewrite Halias, Hkey, E. reflexivity.
  - bind_ok H p E. destruct p as [[c e] st1]. injection H as <- <-.
    apply getElementForXprOrSubquery_again in E. destruct E as [Hh E].
    split; [exact Hh|]. rewrite (Hdone c Hh), Hkey.
    destruct c; try contradiction. rewrite E. reflexivity.
  - bind_ok H p E. destruct p as [args' st1]. bind_ok H e Ee.
    injection H as <- <-.
    destruct args as [l|].
    + bind_ok E p El. destruct p as [l' st2]. injection E as <- <-.
      apply (infer_each_again (inferQE_annotating fuel)) in El.
      destruct El as [_ El].
      split; [cbn; repeat split; discriminate|].
      rewrite (Hdone (Fn f (Some l') a)) by (cbn; repeat split; discriminate).
      rewrite Hkey, El. cbn [bind]. rewrite Ee. reflexivity.
    + injection E as <- <-. split; [apply same_head_refl|].
      rewrite Halias, Hkey. cbn [bind]. rewrite Ee. reflexivity.
  - bind_ok H p E. destruct p as [[c e] st1]. injection H as <- <-.
    apply getElementForXprOrSubquery_again in E. destruct E as [Hh E].
    split; [exact Hh|]. rewrite (Hdone c Hh), Hkey.
    destruct c; try contradiction. rewrite E. reflexivity.
Qed.

Lemma infer_columns_first_again (fuel : nat) (cols : list token) :
  forall (st st1 : istate JoinTree) (cols1 : list token) (w : bool),
    infer_columns_first fuel st cols = Ok (cols1, st1, w) ->
    Forall2 same_head cols cols1
    /\ infer_columns_first fuel st cols1 = Ok (cols1, st1, w).
Proof.
  induction cols as [|col r IH]; intros st st1 cols1 w H;
    cbn [Infer.infer_columns_first] in H.
  - injection H as <- <- <-. split; [constructor|reflexivity].
  - destruct (is_kw "*" col) eqn:Hstar.
    { bind_ok H p E. destruct p as [[r' st'] w']. injection H as <- <- <-.
      apply IH in E. destruct E as [Hr E].
      split; [constructor; [apply same_head_refl|assumption]|].
      cbn [Infer.infer_columns_first]. rewrite Hstar, E. reflexivity. }
    destruct (is_expression_column col) eqn:Hexpr.
    { bind_ok H p1 E1. destruct p1 as [col' stA].
      bind_ok H p2 E2. destruct p2 as [[r' st'] w']. injection H as <- <- <-.
      apply infer_expression_column_again in E1. destruct E1 as [Hh E1].
      apply IH in E2. destruct E2 as [Hr E2].
      split; [constructor; assumption|].
      cbn [Infer.infer_columns_first].
      rewrite <- (is_kw_same_head "*" col col' Hh), Hstar.
      rewrite <- (is_expression_column_same_head col col' Hh), Hexpr.
      rewrite E1. cbn [bind]. rewrite E2. reflexivity. }
    destruct col as [k|steps ri a proj|v a|l0|x a|f args a|q a]; try discriminate.
    bind_ok H p E. destruct p as [[r' st'] w']. injection H as <- <- <-.
    apply IH in E. destruct E as [Hr E].
    split; [constructor; [apply same_head_refl|assumption]|].
    cbn [Infer.infer_columns_first]. rewrite Hstar, Hexpr, E. reflexivity.
Qed.

Lemma infer_columns_refs_again (fuel : nat) (cols : list token) :
  forall (st st2 : istate JoinTree) (cols2 : list token),
    infer_columns_refs fuel st cols = Ok (cols2, st2) ->
    Forall2 same_head cols cols2
    /\ infer_columns_refs fuel st cols2 = Ok (cols2, st2).
Proof.
  induction cols as [|col r IH]; intros st st2 cols2 H;
    cbn [Infer.infer_columns_refs] in H.
  - injection H as <- <-. split; [constructor|reflexivity].
  - bind_ok H p1 E1. destruct p1 as [col' stA].
    bind_ok H p2 E2. destruct p2 as [r' st']. injection H as <- <-.
    apply IH in E2. destruct E2 as [Hr E2].
    assert (Hc : same_head col col'
                 /\ match col' with
                    | Ref _ _ a _ =>
                        if a_param a then Ok (col', st)
                        else inferQE fuel st col' true None false false
                    | _ => Ok (col', st)
                    end = Ok (col', stA)).
    { destruct col as [k|steps ri a proj|v a|l0|x a|f args a|q a];
        try (injection E1 as <- <-; split; [apply same_head_refl|reflexivity]).
      destruct (a_param a) eqn:Hparam.
      - injection E1 as <- <-. split; [apply same_head_refl|].
        rewrite Hparam. reflexivity.
      - apply inferQE_annotating in E1. destruct E1 as [Hh E1].
        split; [exact Hh|]. destruct col'; try contradiction.
        destruct Hh as (<- & _). rewrite Hparam. exact E1. }
    destruct Hc as [Hh Hc].
    split; [constructor; assumption|].
    cbn [Infer.infer_columns_refs]. rewrite Hc. cbn [bind]. rewrite E2. reflexivity.
Qed.

(** The first loop over the columns leaves the plain references to the
    second loop, and finds them again as the second loop has left them. *)
Lemma infer_columns_first_after_refs (fuel : nat) (cols1 : list token) :
  forall (st st1 stX st2 : istate JoinTree) (cols2 : list token) (w : bool),
    infer_columns_first fuel st cols1 = Ok (cols1, st1, w) ->
    infer_columns_refs fuel stX cols1 = Ok (cols2, st2) ->
    infer_columns_first fuel st cols2 = Ok (cols2, st1, w).
Proof.
  induction cols1 as [|col r IH]; intros st st1 stX st2 cols2 w H1 H2;
    cbn [Infer.infer_columns_first] in H1; cbn [Infer.infer_columns_refs] in H2.
  - injection H2 as <- <-. exact H1.
  - bind_ok H2 p1 E1. destruct p1 as [col2 stB].
    bind_ok H2 p2 E2. destruct p2 as [r2 st2']. injection H2 as <- <-.
    destruct (is_kw "*" col) eqn:Hstar.
    { bind_ok H1 p E. destruct p as [[r' st'] w']. injection H1 as -> <- <-.
      destruct col; try discriminate. injection E1 as <- <-.
      cbn [Infer.infer_columns_first]. rewrite Hstar.
      rewrite (IH _ _ _ _ _ _ E E2). reflexivity. }
    destruct (is_expression_column col) eqn:Hexpr.
    { bind_ok H1 p E. destruct p as [col' stA].
      bind_ok H1 p' E'. destruct p' as [[r' st'] w']. injection H1 as -> -> <- <-.
      assert (Hsame : col2 = col /\ stB = stX).
      { destruct col as [k|steps ri a proj|v a|l0|x a|f args a|q a];
          try (injection E1 as <- <-; auto).
        cbn in Hexpr. rewrite Hexpr in E1. injection E1 as <- <-. auto. }
      destruct Hsame as [-> ->].
      cbn [Infer.infer_columns_first]. rewrite Hstar, Hexpr, E. cbn [bind].
      rewrite (IH _ _ _ _ _ _ E' E2). reflexivity. }
    destruct col as [k|steps ri a proj|v a|l0|x a|f args a|q a]; try discriminate.
    bind_ok H1 p E. destruct p as [[r' st'] w']. injection H1 as -> <- <-.
    cbn in Hexpr. rewrite Hexpr in E1.
    apply inferQE_annotating in E1. destruct E1 as [Hh _].
    cbn [Infer.infer_columns_first].
    rewrite <- (is_kw_same_head "*" _ _ Hh), Hstar.
    rewrite <- (is_expression_column_same_head _ _ Hh). cbn [is_expression_column].
    rewrite Hexpr. destruct col2; try contradiction.
    rewrite (IH _ _ _ _ _ _ E E2). reflexivity.
Qed.

Lemma first_plain_step_same_head {A} (F : string -> option A) (t t' : token) :
  same_head t t' ->
  match t' with
  | Ref (Step id None :: _) _ _ _ => F id
  | _ => None
  end
  = match t with
    | Ref (Step id None :: _) _ _ _ => F id
    | _ => None
    end.
Proof.
  destruct t as [k|steps ri a proj|v a|l0|x a|f args a|q a],
           t' as [k'|steps' ri' a' proj'|v' a'|l0'|x' a'|f' args' a'|q' a'];
    cbn; try contradiction; try reflexivity.
  intros (_ & _ & H).
  destruct steps as [|[i [w|]] steps], steps' as [|[i' [w'|]] steps'];
    try discriminate; try reflexivity.
  apply same_steps_cons in H. destruct H as [H _]. injection H as ->. reflexivity.
Qed.

Lemma infer_orderBy_again (fuel : nat) (has_columns : bool) (l : list token) :
  forall (st st' : istate JoinTree) (l' : list token),
    infer_orderBy fuel has_columns st l = Ok (l', st') ->
    Forall2 same_head l l'
    /\ infer_orderBy fuel has_columns st l' = Ok (l', st').
Proof.
  induction l as [|t r IH]; intros st st' l' H; cbn [Infer.infer_orderBy] in H.
  - injection H as <- <-. split; [constructor|reflexivity].
  - bind_ok H p1 E1. destruct p1 as [t1 st1].
    bind_ok H p2 E2. destruct p2 as [r2 st2]. injection H as <- <-.
    apply inferQE_annotating in E1. destruct E1 as [Hh E1].
    apply IH in E2. destruct E2 as [Hr E2].
    split; [constructor; assumption|].
    cbn [Infer.infer_orderBy].
    rewrite (first_plain_step_same_head
               (fun id =>
                  match assoc id (queryElements st) with
                  | Some (ENested _ _) => None
                  | Some _ =>
                      Some (Base (self_env (queryElements st))
                                 (query_def (queryElements st)))
                  | None => None
                  end) t t1 Hh).
    rewrite E1. cbn [bind]. rewrite E2. reflexivity.
Qed.

Lemma on_some_again {A B} (f : A -> result (A * B)) (o o' : option A) (st st' : B) :
  (forall x x' s, f x = Ok (x', s) -> f x' = Ok (x', s)) ->
  on_some o st f = Ok (o', st') ->
  on_some o' st f = Ok (o', st').
Proof.
  intros Hf H. destruct o as [x|]; cbn in H.
  - bind_ok H p E. destruct p as [x' s]. injection H as <- <-.
    cbn. rewrite (Hf _ _ _ E). reflexivity.
  - injection H as <- <-. reflexivity.
Qed.

Lemma inferQueryElements_again (fuel : nat) (jt : JoinTree) (from from2 : source)
    (c w h g o : option (list token)) (e : option (list string)) (l : bool)
    (s' : select) (st : istate JoinTree) :
  inferQueryElements fuel jt (Select from c w h g o e l) = Ok (s', st) ->
  exists c' w' h' g' o',
    s' = Select from c' w' h' g' o' e l
    /\ inferQueryElements fuel jt (Select from2 c' w' h' g' o' e l)
       = Ok (Select from2 c' w' h' g' o' e l, st).
Proof.
  unfold Infer.inferQueryElements. intros H.
  bind_ok H p1 Ec. destruct p1 as [c' st1].
  bind_ok H p2 Eo. destruct p2 as [o' st2].
  bind_ok H p3 Ew. destruct p3 as [w' st3].
  bind_ok H p4 Eg. destruct p4 as [g' st4].
  bind_ok H p5 Eh. destruct p5 as [h' st5].
  injection H as <- <-.
  exists c', w', h', g', o'. split; [reflexivity|].
  assert (Hc : match c' with
               | None =>
                   qe <- inferElementsFromWildCard srcs combinedElements e [] ;;
                   Ok (None, IState qe jt)
               | Some cols =>
                   '(cols1, st1, wildcardSelect) <-
                     infer_columns_first fuel (IState [] jt) cols ;;
                   '(cols2, st2) <- infer_columns_refs fuel st1 cols1 ;;
                   if (wildcardSelect : bool) then
                     qe <- inferElementsFromWildCard srcs combinedElements e
                             (queryElements st2) ;;
                     Ok (Some cols2, IState qe (joinTree st2))
                   else Ok (Some cols2, st2)
               end = Ok (c', st1)
               /\ match c' with Some _ => true | None => false end
                  = match c with Some _ => true | None => false end).
  { destruct c as [cols|].
    - bind_ok Ec q1 E1. destruct q1 as [[cols1 stA] wS].
      bind_ok Ec q2 E2. destruct q2 as [cols2 stB].
      apply infer_columns_first_again in E1. destruct E1 as [_ E1].
      pose proof E1 as E1'.
      eapply infer_columns_first_after_refs in E1'; [|exact E2].
      apply infer_columns_refs_again in E2. destruct E2 as [_ E2].
      destruct wS.
      + bind_ok Ec qe Ewild. injection Ec as <- <-. split; [|reflexivity].
        rewrite E1'. cbn [bind]. rewrite E2. cbn [bind]. rewrite Ewild. reflexivity.
      + injection Ec as <- <-. split; [|reflexivity].
        rewrite E1'. cbn [bind]. rewrite E2. reflexivity.
    - bind_ok Ec qe Ewild. injection Ec as <- <-. split; [|reflexivity].
      reflexivity. }
  destruct Hc as [Hc Hsome]. rewrite Hc. cbn [bind]. rewrite Hsome.
  eapply on_some_again in Eo;
    [|intros x x' s E; apply infer_orderBy_again in E; apply E].
  rewrite Eo. cbn [bind].
  eapply on_some_again in Ew;
    [|intros x x' s E; bind_ok E p Ex; destruct p as [[x1 s1] k1];
      injection E as <- <-; apply walk_exists_again in Ex;
      destruct Ex as [_ Ex]; rewrite Ex; reflexivity].
  rewrite Ew. cbn [bind].
  eapply on_some_again in Eg;
    [|intros x x' s E; apply (infer_each_again (inferQE_annotating fuel)) in E;
      apply E].
  rewrite Eg. cbn [bind].
  eapply on_some_again in Eh;
    [|intros x x' s E; apply (infer_each_again (inferQE_annotating fuel)) in E;
      apply E].
  rewrite Eh. reflexivity.
Qed.

Lemma inferQueryElements_where_only (fuel : nat) (jt : JoinTree) (from : source)
    (w : option (list token)) (e : option (list string)) (l : bool)
    (s' : select) (st : istate JoinTree) :
  inferQueryElements fuel jt (Select from None w None None None e l) = Ok (s', st) ->
  s' = Select from None (sel_where s') None None None e l.
Proof.
  unfold Infer.inferQueryElements. intros H.
  bind_ok H p1 Ec. destruct p1 as [c' st1].
  bind_ok Ec qe Ewild. injection Ec as <- <-.
  cbn [on_some bind] in H.
  bind_ok H p3 Ew. destruct p3 as [w' st3].
  injection H as <- <-. reflexivity.
Qed.

End Element.

(** *** Query sources *)

Section Target.

Variable m : model.
Variable foreignKeys : def -> list string.

Section Attach.

Variable attach_token : token -> refLink -> bool -> result token.
Hypothesis attach_token_attaching : attaching attach_token.

Lemma walkTokenStream_cons (fuel : nat) (t : token) (r : list token)
    (lk : refLink) (existsPredicate : bool) :
  walkTokenStream attach_token (S fuel) (t :: r) lk existsPredicate
  = ('(t', e') <-
       (if is_kw "exists" t then Ok (t, true)
        else
          match t with
          | Xpr x a =>
              '(x', e') <- walkTokenStream attach_token fuel x lk existsPredicate ;;
              Ok (Xpr x' a, e')
          | _ =>
              t' <- attach_token t lk existsPredicate ;;
              Ok (t', false)
          end) ;;
     '(r', e'') <- walkTokenStream attach_token (S fuel) r lk e' ;;
     Ok (t' :: r', e'')).
Proof. reflexivity. Qed.

Lemma walkTokenStream_again (fuel : nat) :
  forall (l : list token) (lk : refLink) (existsPredicate : bool)
         (l' : list token) (e' : bool),
    walkTokenStream attach_token fuel l lk existsPredicate = Ok (l', e') ->
    Forall2 same_head l l'
    /\ walkTokenStream attach_token fuel l' lk existsPredicate = Ok (l', e').
Proof.
  induction fuel as [|fuel IHfuel]; [discriminate|].
  induction l as [|t r IH]; intros lk existsPredicate l' e' H.
  - cbn in H. injection H as <- <-. split; [constructor|reflexivity].
  - rewrite walkTokenStream_cons in H.
    bind_ok H p1 E1. destruct p1 as [t1 e1].
    bind_ok H p2 E2. destruct p2 as [r2 e2].
    injection H as <- <-.
    apply IH in E2. destruct E2 as [Hr E2].
    assert (Ht : same_head t t1
                 /\ (if is_kw "exists" t1 then Ok (t1, true)
                     else
                       match t1 with
                       | Xpr x a =>
                           '(x', e') <- walkTokenStream attach_token fuel x lk existsPredicate ;;
                           Ok (Xpr x' a, e')
                       | _ =>
                           t' <- attach_token t1 lk existsPredicate ;;
                           Ok (t', false)
                       end) = Ok (t1, e1)).
    { destruct (is_kw "exists" t) eqn:Hkw.
      - injection E1 as <- <-. rewrite Hkw. split; [apply same_head_refl|reflexivity].
      - assert (Hh : forall t2, same_head t t2 -> is_kw "exists" t2 = false).
        { intros t2 Hh. rewrite <- (@is_kw_same_head "exists" t t2 Hh). exact Hkw. }
        destruct t as [k|steps ri a proj|v a|l0|x a|f args a|q a];
          try (bind_ok E1 t2 E; injection E1 as <- <-;
               apply attach_token_attaching in E; destruct E as [Hs E];
               split; [exact Hs|]; rewrite (Hh _ Hs);
               destruct t2; try contradiction; rewrite E; reflexivity).
        bind_ok E1 p E. destruct p as [x' e3]. injection E1 as <- <-.
        apply IHfuel in E. destruct E as [_ E].
        split; [reflexivity|]. cbn [is_kw]. rewrite E. reflexivity. }
    destruct Ht as [Hh Ht].
    split; [constructor; assumption|].
    rewrite walkTokenStream_cons, Ht. cbn [bind]. rewrite E2. reflexivity.
Qed.

Lemma attach_steps_again (fuel : nat) (as_name : option string)
    (base : option refLink) (expandOrExists : bool) (rest : list step) :
  forall (i : nat) (links : list refLink) (done steps' : list step)
         (links' : list refLink),
    attach_steps m foreignKeys attach_token fuel i rest as_name base
      expandOrExists links done = Ok (steps', links') ->
    exists rest' : list step,
      same_steps rest rest'
      /\ steps' = done ++ rest'
      /\ forall done2 : list step,
           attach_steps m foreignKeys attach_token fuel i rest' as_name base
             expandOrExists links done2 = Ok (done2 ++ rest', links').
Proof.
  induction rest as [|[id f] later IH]; intros i links done steps' links' H;
    cbn [attach_steps] in H.
  - injection H as <- <-. exists []. rewrite app_nil_r. repeat split.
    intros done2. rewrite app_nil_r. reflexivity.
  - bind_ok H p1 E1. destruct p1 as [d t].
    bind_ok H f' E2.
    apply IH in H. destruct H as (later' & Hl & Hs & Hrun).
    exists (Step id f' :: later').
    assert (Hshape : shape_step (Step id f) = shape_step (Step id f')).
    { destruct f as [f0|].
      - destruct (dkind_eqb (d_kind d) KEntity || isAssociation d); [|discriminate].
        bind_ok E2 p E. destruct p as [f1 e1]. injection E2 as <-. reflexivity.
      - injection E2 as <-. reflexivity. }
    split; [apply same_steps_cons; auto|].
    split; [rewrite Hs, <- app_assoc; reflexivity|].
    assert (Hnext : match later' with [] => None | s :: _ => Some (step_id s) end
                    = match later with [] => None | s :: _ => Some (step_id s) end).
    { destruct later, later'; try discriminate Hl; [reflexivity|].
      apply same_steps_cons in Hl. destruct Hl as [Hl _].
      apply (f_equal fst) in Hl. cbn in Hl. rewrite Hl. reflexivity. }
    assert (Halias : forall (A : Type) (X Y : A),
               match later' with [] => X | _ :: _ => Y end
               = match later with [] => X | _ :: _ => Y end).
    { intros A X Y. destruct later, later'; try discriminate Hl; reflexivity. }
    intros done2. cbn [attach_steps].
    rewrite Hnext, E1. cbn [bind]. rewrite !Halias.
    assert (E2' : match f' with
                  | None => Ok None
                  | Some f0 =>
                      if dkind_eqb (d_kind d) KEntity || isAssociation d then
                        '(f1, _) <-
                          walkTokenStream attach_token fuel f0
                            (link d t
                               match later with
                               | [] =>
                                   match truthy_name as_name with
                                   | Some n => n
                                   | None => after_last_dot id
                                   end
                               | _ :: _ => after_last_dot id
                               end) false ;;
                        Ok (Some f1)
                      else Err FilterOnNonAssoc
                  end = Ok f').
    { destruct f as [f0|].
      - destruct (dkind_eqb (d_kind d) KEntity || isAssociation d); [|discriminate].
        bind_ok E2 p E. destruct p as [f1 e1]. injection E2 as <-.
        apply walkTokenStream_again in E. destruct E as [_ E].
        rewrite E. reflexivity.
      - injection E2 as <-. reflexivity. }
    rewrite E2'. cbn [bind]. rewrite Hrun, <- app_assoc. reflexivity.
Qed.

End Attach.

Lemma attachRefLinksToArg_attaching (fuel : nat) :
  attaching (attachRefLinksToArg m foreignKeys fuel).
Proof.
  induction fuel as [|fuel IH]; intros t lk e t' H; [discriminate|].
  cbn [attachRefLinksToArg] in H.
  destruct t as [k|steps ri a proj|v a|l0|x a|f args a|q a];
    try (injection H as <-; split; [apply same_head_refl|reflexivity]).
  - (* a reference *)
    bind_ok H p E. destruct p as [steps' links]. injection H as <-.
    eapply attach_steps_again in E; [|exact IH].
    destruct E as (rest' & Hsame & Hs & Hrun). cbn [app] in Hs. subst steps'.
    split; [cbn; auto|].
    cbn [attachRefLinksToArg]. rewrite Hrun. cbn [app bind].
    rewrite (same_steps_ids Hsame). reflexivity.
  - (* an expression *)
    match type of H with
    | bind (?F x) _ = _ =>
        assert (Heach : forall y y', F y = Ok y' -> F y' = Ok y')
    end.
    { induction y as [|t r IHr]; intros y' Hy.
      - injection Hy as <-. reflexivity.
      - bind_ok Hy t1 E1. bind_ok Hy r1 E2. injection Hy as <-.
        apply IH in E1. destruct E1 as [_ E1].
        specialize (IHr r1 eq_refl).
        rewrite E1. cbn [bind]. rewrite IHr. reflexivity. }
    bind_ok H x' E. injection H as <-. apply Heach in E.
    split; [reflexivity|]. cbn [attachRefLinksToArg]. rewrite E. reflexivity.
Qed.

Lemma target_of_path_shape (steps : list step) :
  forall (steps' : list step) (d : def),
    same_steps steps steps' ->
    target_of_path m d steps' = target_of_path m d steps.
Proof.
  induction steps as [|s r IH]; intros steps' d H.
  - apply same_steps_nil in H. subst. reflexivity.
  - destruct steps' as [|s' r']; [discriminate|].
    apply same_steps_cons in H. destruct H as [Hs Hr].
    assert (Hid : step_id s' = step_id s).
    { apply (f_equal fst) in Hs. symmetry. exact Hs. }
    cbn [target_of_path]. rewrite Hid.
    destruct (d_elements d) as [els|]; [|reflexivity]. cbn [of_option bind].
    match goal with
    | |- bind ?c _ = _ => destruct c as [next|]; [|reflexivity]
    end.
    cbn [bind]. apply IH. exact Hr.
Qed.

Lemma last_cons {A} (l : list A) :
  forall a d : A, last (a :: l) d = last l a.
Proof.
  induction l as [|b l IH]; intros a d; [reflexivity|].
  change (last (a :: b :: l) d) with (last (b :: l) d).
  rewrite !IH. reflexivity.
Qed.

Lemma last_step_id (rest : list step) :
  forall (rest' : list step) (first first' : step),
    same_steps (first :: rest) (first' :: rest') ->
    step_id (last rest' first') = step_id (last rest first).
Proof.
  induction rest as [|s r IH]; intros rest' first first' H.
  - apply same_steps_cons in H. destruct H as [Hs Hr].
    apply same_steps_nil in Hr. subst. cbn.
    apply (f_equal fst) in Hs. symmetry. exact Hs.
  - destruct rest' as [|s' r'];
      [apply same_steps_cons in H; destruct H as [_ H]; discriminate|].
    apply same_steps_cons in H. destruct H as [_ H].
    rewrite !last_cons. apply IH. exact H.
Qed.

Section Sources.

Variable infer_select : select -> result (select * list (string * element)).
Hypothesis infer_select_again :
  forall q q' els, infer_select q = Ok (q', els) -> infer_select q' = Ok (q', els).

Lemma inferTarget_again (fuel : nat) (from : source) :
  forall (qs : sources) (from' : source) (qs' : sources),
    inferTarget foreignKeys m infer_select fuel from qs = Ok (from', qs') ->
    inferTarget foreignKeys m infer_select fuel from' qs = Ok (from', qs').
Proof.
  revert from. fix IH 1. intros from qs from' qs' H.
  destruct from as [steps ri as_name|k args on|q as_name|name];
    cbn [inferTarget] in H.
  - (* a reference *)
    destruct steps as [|first rest]; [discriminate|].
    bind_ok H d Ed. bind_ok H target Et.
    destruct (negb (dkind_eqb (d_kind target) KEntity)) eqn:Hkind; [discriminate|].
    bind_ok H p E. destruct p as [steps' links].
    destruct (has_key _ qs) eqn:Hdup; [discriminate|].
    injection H as <- <-.
    eapply attach_steps_again in E;
      [|exact (attachRefLinksToArg_attaching fuel)].
    destruct E as (rest' & Hsame & Hs & Hrun). cbn [app] in Hs. subst steps'.
    destruct rest' as [|first' rest']; [discriminate|].
    pose proof Hsame as Hsame'. apply same_steps_cons in Hsame'.
    destruct Hsame' as [Hfirst Hrest].
    assert (Hid : step_id first' = step_id first).
    { apply (f_equal fst) in Hfirst. symmetry. exact Hfirst. }
    cbn [inferTarget]. rewrite Hid, Ed. cbn [bind].
    rewrite (target_of_path_shape d Hrest), Et. cbn [bind]. rewrite Hkind.
    rewrite Hrun. cbn [app bind flatName isJoinRelevant].
    assert (Halias : match rest' with
                     | [] => after_last_dot (step_id first)
                     | _ :: _ => step_id (last rest' first')
                     end
                     = match rest with
                       | [] => after_last_dot (step_id first)
                       | _ :: _ => step_id (last rest first)
                       end).
    { rewrite (last_step_id Hsame).
      destruct rest, rest'; try discriminate Hrest; reflexivity. }
    rewrite Halias, Hdup. reflexivity.
  - (* a join *)
    bind_ok H p E. destruct p as [args' qs1]. injection H as <- <-.
    cbn [inferTarget].
    match type of E with
    | ?F args qs = _ =>
        assert (Heach : F args' qs = Ok (args', qs1));
          [|rewrite Heach; reflexivity]
    end.
    revert qs args' qs1 E.
    induction args as [|x r IHr]; intros qs args' qs1 E.
    + injection E as <- <-. reflexivity.
    + bind_ok E p1 E1. destruct p1 as [x' qsA].
      bind_ok E p2 E2. destruct p2 as [r' qsB]. injection E as <- <-.
      apply IH in E1. apply IHr in E2.
      rewrite E1. cbn [bind]. rewrite E2. reflexivity.
  - (* a subquery *)
    bind_ok H p E. destruct p as [q' els]. injection H as <- <-.
    apply infer_select_again in E.
    cbn [inferTarget]. rewrite E. reflexivity.
  - (* a name *)
    bind_ok H d E. injection H as <- <-.
    cbn [inferTarget]. rewrite E. reflexivity.
Qed.

End Sources.

End Target.

(** *** The entry point of the inference *)

Section Entry.

Variable pseudos : list (string * def).
Variable JoinTree : Type.
Variable newJoinTree : sources -> JoinTree.
Variable mergeColumn : list step -> list refLink -> JoinTree -> list refLink * JoinTree.
Variable resolveExpand : token -> result element.
Variable resolveInline : token -> result (list (string * element)).
Variable foreignKeys : def -> list string.
Hypothesis resolveExpand_flag : ignores_join_relevance resolveExpand.
Hypothesis resolveInline_flag : ignores_join_relevance resolveInline.

Local Abbreviation infer :=
  (Infer.infer pseudos newJoinTree mergeColumn resolveExpand resolveInline
     foreignKeys).

Lemma infer_subselect_again (rec : query -> result (inferred JoinTree)) :
  (forall q i, rec q = Ok i -> rec (i_query i) = Ok i) ->
  forall q q' els,
    infer_subselect rec q = Ok (q', els) -> infer_subselect rec q' = Ok (q', els).
Proof.
  intros Hrec q q' els H. unfold infer_subselect in *.
  bind_ok H i E. destruct (i_query i) as [s| | | | |] eqn:Hq; try discriminate.
  injection H as <- <-. apply Hrec in E. rewrite Hq in E. rewrite E. cbn [bind].
  rewrite Hq. reflexivity.
Qed.

(** The inference of a query that was inferred before gives the same
    inferred query, sources and elements. *)
Lemma infer_again (fuel : nat) :
  forall (outerQueries : list sources) (q : query) (model_ : option model)
         (i : inferred JoinTree),
    infer fuel outerQueries q model_ = Ok i ->
    infer fuel outerQueries (i_query i) model_ = Ok i.
Proof.
  induction fuel as [|fuel IH]; intros outerQueries q model_ i H.
  - cbn in H. destruct model_; [|discriminate].
    destruct (is_SET q); discriminate.
  - cbn [Infer.infer] in H. destruct model_ as [m|]; [|discriminate].
    destruct (is_SET q) eqn:Hset; [discriminate|].
    pose proof (@infer_subselect_again
                  (fun q0 => infer fuel [] q0 (Some m))
                  (fun q0 i0 => IH [] q0 (Some m) i0)) as Hsub.
    destruct q as [s|args|into|into|from where_|from where_]; try discriminate.
    + (* SELECT *)
      destruct s as [from c w h g o e l]. cbn [sel_from] in H.
      bind_ok H p1 Et. destruct p1 as [from' srcs].
      bind_ok H p2 Ee. destruct p2 as [s' st]. injection H as <-.
      eapply inferTarget_again in Et; [|exact Hsub].
      eapply inferQueryElements_again with (from2 := from') in Ee; try eassumption.
      destruct Ee as (c' & w' & h' & g' & o' & -> & Ee).
      cbn [i_query Infer.infer is_SET sel_from]. rewrite Et. cbn [bind].
      rewrite Ee. reflexivity.
    + (* INSERT *)
      bind_ok H p1 Et. destruct p1 as [into' srcs]. injection H as <-.
      eapply inferTarget_again in Et; [|exact Hsub].
      cbn [i_query Infer.infer is_SET]. rewrite Et. reflexivity.
    + (* UPSERT *)
      bind_ok H p1 Et. destruct p1 as [into' srcs]. injection H as <-.
      eapply inferTarget_again in Et; [|exact Hsub].
      cbn [i_query Infer.infer is_SET]. rewrite Et. reflexivity.
    + (* UPDATE *)
      bind_ok H p1 Et. destruct p1 as [from' srcs].
      bind_ok H p2 Ee. destruct p2 as [s' st]. injection H as <-.
      eapply inferTarget_again in Et; [|exact Hsub].
      pose proof Ee as Hs'. apply inferQueryElements_where_only in Hs'.
      rewrite Hs' in Ee.
      eapply inferQueryElements_again with (from2 := from') in Ee; try eassumption.
      destruct Ee as (c' & w' & h' & g' & o' & Heq & Ee).
      injection Heq as <- <- <- <- <-.
      cbn [i_query Infer.infer is_SET]. rewrite Et. cbn [bind].
      rewrite Ee. cbn [bind sel_where]. reflexivity.
    + (* DELETE *)
      bind_ok H p1 Et. destruct p1 as [from' srcs].
      bind_ok H p2 Ee. destruct p2 as [s' st]. injection H as <-.
      eapply inferTarget_again in Et; [|exact Hsub].
      pose proof Ee as Hs'. apply inferQueryElements_where_only in Hs'.
      rewrite Hs' in Ee.
      eapply inferQueryElements_again with (from2 := from') in Ee; try eassumption.
      destruct Ee as (c' & w' & h' & g' & o' & Heq & Ee).
      injection Heq as <- <- <- <- <-.
      cbn [i_query Infer.infer is_SET]. rewrite Et. cbn [bind].
      rewrite Ee. cbn [bind sel_where]. reflexivity.
Qed.

End Entry.

(** *** Determinism (§5, §8) *)

Section Determinism.

Variable pseudos : list (string * def).
Variable foreignKeys : def -> list string.
Variable skippedByWildcard isComposition : def -> bool.
Variable JoinTree : Type.
Variable newJoinTree : sources -> JoinTree.
Variable mergeColumn : list step -> list refLink -> JoinTree -> list refLink * JoinTree.
Variable addNextAvailableTableAlias : string -> JoinTree -> string * JoinTree.
Variable isInitial : JoinTree -> bool.
Variable translateAssocsToJoins : model -> JoinTree -> source -> result source.
Variable resolveExpand : token -> result element.
Variable resolveInline : token -> result (list (string * element)).
Variable calculateOnCondition :
  model -> refLink -> refLink -> bool -> list ctoken -> result (list token).
Variable expandColumn : model -> token -> JoinTree -> result (token * JoinTree).
Variable nestedProjectionOnStructure : model -> token -> result (list token).


End Determinism.


(** The second run of the witness is a run that succeeds, on a query that
    carries the links of the first run. *)
Example second_run_succeeds :
  is_ok (Bookshop.cqn4sql_bookshop select_titles) = true
  /\ annotated Bookshop.pseudo_elements Bookshop.new_join_tree
       Bookshop.merge_none Bookshop.no_expand Bookshop.no_inline
       Bookshop.fk_names 10 [] select_titles (Some Bookshop.bookshop)
     <> select_titles.
Proof.
  split; [vm_compute; reflexivity|]. vm_compute. discriminate.
Qed.

End Rerun.

(** ** Further behaviour of the inference and of the rewrite *)

Module Behaviour.
Import Csn Cqn Infer Rewrite Statements.

(** *** Where-exists subqueries *)

(** X1: [whereExistsSubqueries] links the sub-selects by pushing
    [and exists <next>] to the [where] array of the one before; read after
    the loop, the first sub-select holds the second, which holds the
    third, and so on: the result is the nesting of the list, [undefined]
    for the empty list and the sub-select itself for a single one. *)
Theorem exists_subqueries_are_nested (subs : list subselect) :
  whereExistsSubqueries subs = nest subs.
Proof. apply Properties.whereExistsSubqueries_nest. Qed.

(** *** The inference only annotates *)

Section Annotations.

Variable pseudos : list (string * def).
Variable JoinTree : Type.
Variable mergeColumn : list step -> list refLink -> JoinTree -> list refLink * JoinTree.
Variable m : model.
Variable srcs : sources.
Variable outerQueries : list sources.
Variable combinedElements : list (string * list combined).
Variable resolveExpand : token -> result element.
Variable resolveInline : token -> result (list (string * element)).
Variable foreignKeys : def -> list string.


(** X4: [attachRefLinksToArg] leaves the visible part of an argument of a
    filter in [from] as it is, and on the token it returns it attaches
    the same links again. *)
Theorem attachRefLinksToArg_only_annotates (fuel : nat) (t t' : token)
    (base : refLink) (expandOrExists : bool) :
  attachRefLinksToArg m foreignKeys fuel t base expandOrExists = Ok t' ->
  same_head t t'
  /\ attachRefLinksToArg m foreignKeys fuel t' base expandOrExists = Ok t'.
Proof. apply Rerun.attachRefLinksToArg_attaching. Qed.

End Annotations.


(** X4, witness: the argument [name] of a filter on [Books:author]. *)
Lemma attachRefLinksToArg_only_annotates_witness :
  exists t',
    attachRefLinksToArg Bookshop.bookshop Bookshop.fk_names 5 (ref_ ["name"])
      author_link false = Ok t'
    /\ same_head (ref_ ["name"]) t'
    /\ attachRefLinksToArg Bookshop.bookshop Bookshop.fk_names 5 t'
         author_link false = Ok t'.
Proof.
  eexists. split; [vm_compute; reflexivity|].
  apply attachRefLinksToArg_only_annotates. vm_compute. reflexivity.
Defined.

(** *** Join relevance of a column *)

Section JoinRelevance.

(** [column.expand] *)
Variable expand : bool.

Lemma loop_without_association (steps : list step) :
  forall (links : list refLink) (fkAccess : bool),
    forallb (fun l => negb (isAssociation (l_definition l))) links = true ->
    isColumnJoinRelevant_loop expand steps links fkAccess None = false.
Proof.
  induction steps as [|s steps IH]; intros links fkAccess H; [reflexivity|].
  destruct links as [|lk links]; [reflexivity|].
  cbn [forallb] in H. apply andb_prop in H. destruct H as [Hlk H].
  apply negb_true_iff in Hlk.
  cbn [isColumnJoinRelevant_loop]. rewrite Hlk, andb_false_r.
  unfold isAssociation in Hlk.
  destruct (d_target (l_definition lk)); [discriminate|].
  apply IH. exact H.
Qed.

(** X5: a column whose path visits no association (elements of the query
    source and of its structures only) is never join relevant, whatever
    its steps and their filters are. *)
Theorem no_association_no_join (steps : list step) (links : list refLink) :
  forallb (fun l => negb (isAssociation (l_definition l))) links = true ->
  isColumnJoinRelevant expand steps links = false.
Proof. apply loop_without_association. Qed.

Lemma every_key_matches (kr : list string) (ss : list step) :
  (fix every (kr : list string) (ss : list step) : bool :=
     match kr with
     | [] => true
     | s :: kr' =>
         match ss with
         | Step i None :: ss' => eqs i s && every kr' ss'
         | _ => false
         end
     end) kr ss = key_matches kr ss.
Proof.
  revert ss. induction kr as [|k kr IH]; intros ss; [reflexivity|].
  destruct ss as [|[i [w|]] ss]; cbn [key_matches step_is]; try reflexivity.
  rewrite IH. reflexivity.
Qed.

(** X6: for a path of two plain steps, a managed association and an
    element that is no association, the column is join relevant exactly
    when the second step is not one of the foreign keys of the
    association: [author.ID] needs no join, [author.name] does. *)
Theorem foreign_key_access (a k : string) (la lk : refLink) (ks : list fkey) :
  d_on (l_definition la) = None ->
  isAssociation (l_definition la) = true ->
  d_keys (l_definition la) = Some ks ->
  isAssociation (l_definition lk) = false ->
  isColumnJoinRelevant expand [plain a; plain k] [la; lk]
  = negb (existsb (fun key => key_matches (fk_ref key) [plain k]) ks).
Proof.
  intros Hon Hassoc Hkeys Hlk. unfold isColumnJoinRelevant.
  cbn [isColumnJoinRelevant_loop plain step_where]. rewrite Hon, Hkeys.
  cbn [andb]. unfold isAssociation in Hassoc.
  destruct (d_target (l_definition la)); [|discriminate]. cbn [orb].
  rewrite Hlk, andb_false_r.
  match goal with
  | |- (if existsb ?f ks then _ else _) = _ =>
      replace (existsb f ks)
        with (existsb (fun key => key_matches (fk_ref key) [plain k]) ks)
  end.
  2:{ clear. induction ks as [|key ks IH]; [reflexivity|].
      cbn [existsb]. rewrite IH, <- every_key_matches. reflexivity. }
  destruct (existsb _ ks); [reflexivity|].
  unfold isAssociation in Hlk.
  destruct (d_target (l_definition lk)); [discriminate|].
  reflexivity.
Qed.

End JoinRelevance.

(** X5, witness: the column [dedication.text] of [Books]. *)
Lemma no_association_no_join_witness :
  isColumnJoinRelevant false [plain "dedication"; plain "text"]
    [dedication_link; dedication_text_link] = false.
Proof.
  exact (@no_association_no_join false [plain "dedication"; plain "text"]
           [dedication_link; dedication_text_link] eq_refl).
Defined.

(** X6, witness: the column [author.ID] of [Books]. *)
Lemma foreign_key_access_witness :
  isColumnJoinRelevant false [plain "author"; plain "ID"]
    [author_link; author_ID_link] = false.
Proof.
  exact (@foreign_key_access false "author" "ID" author_link author_ID_link
           [FKey ["ID"] None] eq_refl eq_refl eq_refl eq_refl).
Defined.

(** *** Flat names *)

Lemma join_snoc (l : list string) (x n : string) :
  join "_" (l ++ [(x ++ "_" ++ n)%string]) = join "_" (l ++ [x; n]).
Proof.
  unfold join. induction l as [|y l IH]; [reflexivity|].
  destruct l as [|z l]; [reflexivity|].
  cbn [app String.concat] in *. rewrite IH. reflexivity.
Qed.

Lemma getFullName_chain_structures (inner : list parent_info) :
  forall (e : parent_info) (outer : list parent_info) (name : string),
    forallb (fun p => negb (dkind_eqb (p_kind p) KEntity)) inner = true ->
    p_kind e = KEntity ->
    getFullName_chain (inner ++ e :: outer) name
    = Ok (join "_" (rev (map p_name inner) ++ [name])).
Proof.
  induction inner as [|p inner IH]; intros e outer name Hinner He.
  - cbn. rewrite He. reflexivity.
  - cbn [forallb] in Hinner. apply andb_prop in Hinner.
    destruct Hinner as [Hp Hinner]. apply negb_true_iff in Hp.
    cbn [app getFullName_chain]. rewrite Hp.
    rewrite (IH e outer _ Hinner He).
    cbn [map rev]. rewrite <- app_assoc. cbn [app].
    rewrite join_snoc. reflexivity.
Qed.

(** X7: the full name of an element is the names of the structures
    around it, outermost first, and its own name, joined by an
    underscore; the entity and whatever is above it are not part of the
    name. *)
Theorem full_name_joins_the_structures (d : def) (inner : list parent_info)
    (e : parent_info) (outer : list parent_info) :
  d_parents d = inner ++ e :: outer ->
  forallb (fun p => negb (dkind_eqb (p_kind p) KEntity)) inner = true ->
  p_kind e = KEntity ->
  getFullName d = Ok (join "_" (rev (map p_name inner) ++ [d_name d])).
Proof.
  intros Hd Hinner He. unfold getFullName. rewrite Hd.
  apply getFullName_chain_structures; assumption.
Qed.

(** X7, witness: [foo] in [Books.dedication.sub] is [dedication_sub_foo]. *)
Lemma full_name_joins_the_structures_witness :
  getFullName
    (scalar "foo" [Parent KElement "sub"; Parent KElement "dedication";
                   Parent KEntity "Books"])
  = Ok "dedication_sub_foo".
Proof.
  exact (@full_name_joins_the_structures
           (scalar "foo" [Parent KElement "sub"; Parent KElement "dedication";
                          Parent KEntity "Books"])
           [Parent KElement "sub"; Parent KElement "dedication"]
           (Parent KEntity "Books") [] eq_refl eq_refl eq_refl).
Defined.

Section Names.

Variable m : model.
Variable foreignKeys : def -> list string.
Variable combinedElements : list (string * list combined).
Variable tableAlias : option string.

Let below (baseName : option string) (element : def) (c : flatcol) : Prop :=
  exists bn, element_base_name baseName element = Ok bn
             /\ named_below tableAlias bn c.

Lemma append_assoc (a b c : string) : ((a ++ b) ++ c = a ++ (b ++ c))%string.
Proof. induction a as [|x a IH]; [reflexivity|]. cbn. rewrite IH. reflexivity. Qed.

Lemma append_empty_r (a : string) : (a ++ "")%string = a.
Proof. induction a as [|x a IH]; [reflexivity|]. cbn. rewrite IH. reflexivity. Qed.

Lemma append_empty (a b : string) : (a ++ b)%string = "" -> a = "".
Proof. destruct a; [reflexivity|discriminate]. Qed.

Lemma below_weaken (b bn x : string) (e : def) (c : flatcol) :
  b = (bn ++ x)%string -> below (Some b) e c -> named_below tableAlias bn c.
Proof.
  intros -> (bn' & Hbn & rest & a & Hc). unfold element_base_name in Hbn.
  unfold truthy_name, eqs in Hbn.
  destruct (String.eqb_spec (bn ++ x) "") as [E|E].
  - apply append_empty in E. subst bn. exists (bn' ++ rest)%string, a. exact Hc.
  - injection Hbn as <-. exists (x ++ ("_" ++ d_name e) ++ rest)%string, a.
    rewrite Hc. rewrite !append_assoc. reflexivity.
Qed.

(** X8: every flat column that [getFlatColumnsFor] makes for an element
    of the model (the leaves of a structure, the foreign keys of a
    managed association, at any depth) is a reference to a name that
    starts with the base name of the element: the given base name and
    the name of the element or, without a base name, its full name. *)
Theorem flat_names_start_with_the_element (fuel : nat) :
  forall (element : def) (baseName columnAlias : option string)
         (csnPath : nat) (exclude : list token) (st st' : fstate)
         (cols : list flatcol),
    getFlatColumnsFor m foreignKeys combinedElements fuel (InDef element)
      baseName columnAlias tableAlias csnPath exclude false st = Ok (cols, st') ->
    Forall (fun c => exists bn, element_base_name baseName element = Ok bn
                                /\ named_below tableAlias bn c) cols.
Proof.
  change (forall element baseName columnAlias csnPath exclude st st' cols,
            getFlatColumnsFor m foreignKeys combinedElements fuel (InDef element)
              baseName columnAlias tableAlias csnPath exclude false st
            = Ok (cols, st') ->
            Forall (below baseName element) cols).
  induction fuel as [|fuel IH];
    intros element baseName columnAlias csnPath exclude st st' cols H.
  - discriminate.
  - cbn [getFlatColumnsFor] in H. cbn [flat_head] in H.
    destruct (match d_on element with Some _ => true | None => d_virtual element end);
      [injection H as <- <-; constructor|].
    fold (element_base_name baseName element) in H.
    destruct (element_base_name baseName element) as [bn|err] eqn:Hbn;
      [|discriminate].
    cbn [bind] in H.
    destruct (getReplacement exclude (d_name element));
      [injection H as <- <-; constructor|].
    assert (Hup : forall cs, Forall (named_below tableAlias bn) cs ->
                             Forall (below baseName element) cs).
    { intros cs Hcs. eapply Forall_impl; [|exact Hcs].
      intros c Hc. exists bn. split; [exact Hbn|exact Hc]. }
    apply Hup. clear Hup.
    destruct (d_keys element) as [keys|].
    + (* a managed association: its foreign keys *)
      revert H. apply Properties.flat_each_Forall. intros fk st0 cs st0' Hfk.
      destruct (getElementForRef m (fk_ref fk) (target_of m element))
        as [fkElement|]; [|discriminate]. cbn [of_option bind] in Hfk.
      destruct (d_elements fkElement) as [els|].
      * revert Hfk. apply Properties.flat_each_Forall. intros e st1 cs1 st1' He.
        destruct (alloc _ _) as [p s'] in He.
        apply IH in He. eapply Forall_impl; [|exact He].
        intros c Hc. eapply below_weaken; [|exact Hc]. reflexivity.
      * destruct (isAssociation fkElement).
        -- apply IH in Hfk. eapply Forall_impl; [|exact Hfk].
           intros c Hc. eapply below_weaken with (x := ""); [|exact Hc].
           symmetry. apply append_empty_r.
        -- injection Hfk as <- <-. constructor; [|constructor].
           eexists. eexists. cbn [fc_token]. reflexivity.
    + destruct (d_elements element) as [els|].
      * (* a structure: its elements *)
        revert H. apply Properties.flat_each_Forall. intros e st1 cs1 st1' He.
        destruct (alloc _ _) as [p s'] in He.
        apply IH in He. eapply Forall_impl; [|exact He].
        intros c Hc. eapply below_weaken with (x := ""); [|exact Hc].
        symmetry. apply append_empty_r.
      * injection H as <- <-. constructor; [|constructor].
        exists "". eexists. cbn [fc_token]. rewrite append_empty_r. reflexivity.
Qed.

End Names.

(** X8, witness: the structure [dedication] of [Books] below the alias
    [Books] has the columns [dedication_text] and [dedication_sub_foo]. *)
Lemma flat_names_start_with_the_element_witness :
  exists cols st',
    getFlatColumnsFor Bookshop.bookshop Bookshop.fk_names
      (inferCombinedElements [("Books", Bookshop.Books)]) 10
      (InDef dedication_def) None None (Some "Books") 0 [] false (FState [[]] [])
    = Ok (cols, st')
    /\ length cols = 2
    /\ Forall (fun c => exists bn, element_base_name None dedication_def = Ok bn
                                   /\ named_below (Some "Books") bn c) cols.
Proof.
  eexists. eexists. split; [vm_compute; reflexivity|]. split; [reflexivity|].
  eapply flat_names_start_with_the_element
    with (m := Bookshop.bookshop) (foreignKeys := Bookshop.fk_names)
         (combinedElements := inferCombinedElements [("Books", Bookshop.Books)])
         (fuel := 10) (columnAlias := None) (csnPath := 0) (exclude := [])
         (st := FState [[]] []).
  vm_compute. reflexivity.
Defined.

(** *** Comparison of two structures *)

Lemma every_step_refl (l : list string) : every_step l l = true.
Proof.
  induction l as [|x l IH]; [reflexivity|].
  cbn. unfold eqs. rewrite String.eqb_refl. exact IH.
Qed.

Lemma match_leaves_same_paths (operator : list string)
    (flatLhs flatRhs : list leafcol) :
  map path_below flatLhs = map path_below flatRhs ->
  match_leaves operator flatLhs flatRhs
  = (compare_pairwise operator flatLhs flatRhs, []).
Proof.
  revert flatRhs. induction flatLhs as [|l lhs IH]; intros flatRhs H.
  - destruct flatRhs; [reflexivity|discriminate].
  - destruct flatRhs as [|r rhs]; [discriminate|].
    cbn [map] in H. injection H as Hhead Htail.
    cbn [match_leaves findIndex]. unfold path_matches at 1.
    unfold path_below in Hhead. rewrite Hhead, every_step_refl.
    cbn [nth remove_at]. rewrite (IH rhs Htail). reflexivity.
Qed.

Section Comparison.

Variable m : model.
Variable foreignKeys : def -> list string.
Variable combinedElements : list (string * list combined).

(** X9: when the two operands of a structural comparison flatten to
    leaves with the same paths below the operands, in the same order
    (two structures of the same shape), [expandComparison] compares the
    leaves one by one: the i-th leaf of the left side with the i-th leaf
    of the right side, with [and] between the comparisons, or [or] for
    an operator of inequality; no path is reported as missing. *)
Theorem same_structure_is_compared_leaf_by_leaf (fuel : nat)
    (token_ value : token) (operator : list string)
    (flatLhs flatRhs : list leafcol) :
  has_links value = true ->
  flattenWithBaseName m foreignKeys combinedElements fuel value = Ok flatRhs ->
  flattenWithBaseName m foreignKeys combinedElements fuel token_ = Ok flatLhs ->
  map path_below flatLhs = map path_below flatRhs ->
  expandComparison m foreignKeys combinedElements fuel token_ operator value
  = Ok (compare_pairwise operator flatLhs flatRhs).
Proof.
  intros Hlinks Hrhs Hlhs Hpaths. unfold expandComparison.
  rewrite Hlinks, Hrhs, Hlhs. cbn [bind].
  assert (Hlen : length flatRhs = length flatLhs).
  { rewrite <- (length_map path_below flatRhs), <- Hpaths. apply length_map. }
  rewrite Hlen, Nat.eqb_refl. cbn [negb].
  rewrite (match_leaves_same_paths operator _ _ Hpaths). reflexivity.
Qed.

End Comparison.

(** X9, witness: [dedication = dedication] on [Books] becomes
    [Books.dedication_text = Books.dedication_text and
     Books.dedication_sub_foo = Books.dedication_sub_foo]. *)
Lemma same_structure_is_compared_leaf_by_leaf_witness :
  exists flat,
    flattenWithBaseName Bookshop.bookshop Bookshop.fk_names
      (inferCombinedElements [("Books", Bookshop.Books)]) 10 dedication_ref
    = Ok flat
    /\ length flat = 2
    /\ expandComparison Bookshop.bookshop Bookshop.fk_names
         (inferCombinedElements [("Books", Bookshop.Books)]) 10 dedication_ref
         ["="] dedication_ref
       = Ok (compare_pairwise ["="] flat flat).
Proof.
  eexists. split; [vm_compute; reflexivity|]. split; [reflexivity|].
  apply same_structure_is_compared_leaf_by_leaf; vm_compute; reflexivity.
Defined.

(** *** Token streams *)

Section Literals.

Variable m : model.
Variable foreignKeys : def -> list string.
Variable pseudos : list (string * def).
Variable srcs : sources.
Variable combinedElements : list (string * list combined).
Variable localized_query : bool.
Variable JoinTree : Type.
Variable addNextAvailableTableAlias : string -> JoinTree -> string * JoinTree.
Variable transformSubquery : token -> result token.
Variable calculateOnCondition :
  refLink -> refLink -> bool -> list ctoken -> result (list token).

Local Abbreviation stream_step :=
  (Rewrite.stream_step m foreignKeys pseudos srcs combinedElements
     localized_query addNextAvailableTableAlias transformSubquery
     calculateOnCondition).
Local Abbreviation stream_loop :=
  (Rewrite.stream_loop m foreignKeys pseudos srcs combinedElements
     localized_query addNextAvailableTableAlias transformSubquery
     calculateOnCondition).
Local Abbreviation getTransformedTokenStream :=
  (Rewrite.getTransformedTokenStream m foreignKeys pseudos srcs combinedElements
     localized_query addNextAvailableTableAlias transformSubquery
     calculateOnCondition).

(** The round of the loop for a keyword or a value. *)
Lemma literal_step (rec : stream_fun JoinTree) (fuel : nat)
    (tokenStream : list token) (i : nat) (t : token) (tw : list token)
    (jt : JoinTree) :
  literal_token t = true ->
  stream_step rec fuel tokenStream None i t tw jt = Ok (i, tw ++ [t], jt).
Proof.
  intros H. destruct t as [s| | v a | | | | ]; try discriminate H.
  - cbn in H. apply negb_true_iff in H.
    unfold Rewrite.stream_step. cbn [is_kw]. rewrite H.
    destruct tokenStream as [|x [|y r]]; cbn; rewrite ?andb_false_r; reflexivity.
  - unfold Rewrite.stream_step. cbn [is_kw].
    destruct tokenStream as [|x [|y r]]; cbn; rewrite ?andb_false_r; reflexivity.
Qed.

(** The rounds of the loop over a run of keywords and values. *)
Lemma literal_prefix (rec : stream_fun JoinTree) (fuel : nat)
    (rest : list token) (jt : JoinTree) (n : nat) (post : list token) :
  forall (pre : list token),
    forallb literal_token post = true ->
    stream_loop rec fuel (length post + n) (pre ++ post ++ rest) None
      (length pre) pre jt
    = stream_loop rec fuel n (pre ++ post ++ rest) None
        (length (pre ++ post)) (pre ++ post) jt.
Proof.
  induction post as [|t post IH]; intros pre H.
  - cbn [length plus app]. rewrite app_nil_r. reflexivity.
  - cbn [forallb] in H. apply andb_prop in H. destruct H as [Ht H].
    cbn [length plus]. rewrite Properties.stream_loop_step.
    rewrite nth_error_app2 by lia. rewrite Nat.sub_diag. cbn [app nth_error].
    rewrite (literal_step _ _ _ _ _ _ _ Ht). cbn [bind].
    specialize (IH (pre ++ [t]) H).
    rewrite <- !app_assoc in IH. cbn [app] in IH.
    rewrite length_app in IH. cbn [length] in IH.
    replace (length pre + 1) with (S (length pre)) in IH by lia.
    exact IH.
Qed.

(** X10: a token stream of keywords, operators and literal values (no
    [exists], no reference, list, function, expression or subquery) that
    is not an infix filter is returned as it is, and no table alias is
    taken. *)
Theorem literals_are_kept (fuel : nat) (tokenStream : list token) (jt : JoinTree) :
  forallb literal_token tokenStream = true ->
  getTransformedTokenStream (S fuel) tokenStream None jt = Ok (tokenStream, jt).
Proof.
  intros H. cbn [Rewrite.getTransformedTokenStream].
  pose proof (@literal_prefix (getTransformedTokenStream fuel) fuel [] jt 0
                tokenStream [] H) as Hp.
  cbn [app length] in Hp. rewrite Nat.add_0_r, app_nil_r in Hp.
  rewrite Hp. apply Properties.stream_loop_end.
  apply nth_error_None. lia.
Qed.

(** X11: a reference to an association or to a structure (no bind
    parameter, not rooted in a pseudo variable) that stands in a [where]
    or [having] after keywords and values only and is not followed by an
    operator of comparison is rejected: an association with
    AssocInExpression, a structure with StructInExpression. *)
Theorem association_as_value_is_rejected (fuel : nat) (pre rest : list token)
    (steps : list step) (ri : refinfo) (a : attrs) (proj : projection)
    (leaf : refLink) (jt : JoinTree) :
  forallb literal_token pre = true ->
  a_param a = false ->
  match steps with s :: _ => step_in pseudos s | [] => false end = false ->
  last_opt (refLinks ri) = Some leaf ->
  isAssociation (l_definition leaf) || isStructured (l_definition leaf) = true ->
  is_first_op allOps (nth_error rest 0) = false ->
  getTransformedTokenStream (S fuel) (pre ++ Ref steps ri a proj :: rest) None jt
  = Err (if isAssociation (l_definition leaf) then AssocInExpression
         else StructInExpression).
Proof.
  intros Hpre Hparam Hpseudo Hleaf Hkind Hnext.
  cbn [Rewrite.getTransformedTokenStream].
  rewrite length_app. cbn [length].
  pose proof (@literal_prefix (getTransformedTokenStream fuel) fuel
                (Ref steps ri a proj :: rest) jt (S (length rest)) pre [] Hpre) as Hp.
  cbn [app length] in Hp. rewrite Hp. clear Hp.
  rewrite Properties.stream_loop_step.
  rewrite nth_error_app2 by lia. rewrite Nat.sub_diag. cbn [nth_error].
  match goal with
  | |- bind ?c _ = _ => assert (Hs : c = Err (if isAssociation (l_definition leaf)
                                              then AssocInExpression
                                              else StructInExpression))
  end.
  { unfold Rewrite.stream_step. cbn [is_kw].
    assert (Hsingle : match pre ++ Ref steps ri a proj :: rest, Ref steps ri a proj, @None refLink with
                      | [_], Val v _, Some b => if truthy v then Some b else None
                      | _, _, _ => None
                      end = None).
    { destruct (pre ++ Ref steps ri a proj :: rest) as [|x [|y r]]; reflexivity. }
    rewrite Hsingle. rewrite Hparam. cbn [orb].
    rewrite Hpseudo.
    replace (nth_error (pre ++ Ref steps ri a proj :: rest) (length pre + 1))
      with (nth_error rest 0).
    2:{ rewrite nth_error_app2 by lia.
        replace (length pre + 1 - length pre) with 1 by lia. reflexivity. }
    rewrite Hnext. cbn [andb].
    unfold assertNoStructInXpr. rewrite Hleaf. cbn [negb andb].
    destruct (isAssociation (l_definition leaf)); [reflexivity|].
    cbn [orb] in Hkind. rewrite Hkind. reflexivity. }
  rewrite Hs. reflexivity.
Qed.

End Literals.

(** X10, witness: [where 1 = 1] in a query on [Books]. *)
Lemma literals_are_kept_witness :
  transform_where_Books [num 1; Kw "="; num 1]
  = Ok ([num 1; Kw "="; num 1], ["Books"]).
Proof.
  exact (@literals_are_kept Bookshop.bookshop Bookshop.fk_names
           Bookshop.pseudo_elements [("Books", Bookshop.Books)]
           (inferCombinedElements [("Books", Bookshop.Books)]) false
           Bookshop.join_tree Bookshop.add_alias (fun t => Ok t)
           (Bookshop.no_on_condition Bookshop.bookshop)
           9 [num 1; Kw "="; num 1] ["Books"] eq_refl).
Defined.

(** X11, witness: [where author] in a query on [Books]. *)
Lemma association_as_value_is_rejected_witness :
  transform_where_Books [author_ref] = Err AssocInExpression.
Proof.
  exact (@association_as_value_is_rejected Bookshop.bookshop Bookshop.fk_names
           Bookshop.pseudo_elements [("Books", Bookshop.Books)]
           (inferCombinedElements [("Books", Bookshop.Books)]) false
           Bookshop.join_tree Bookshop.add_alias (fun t => Ok t)
           (Bookshop.no_on_condition Bookshop.bookshop)
           9 [] [] [plain "author"] (RefInfo [author_link] (Some "author") false)
           no_attrs NoProj author_link ["Books"]
           eq_refl eq_refl eq_refl eq_refl eq_refl eq_refl).
Defined.

(** *** The elements of a query *)

Ltac bind_ok H x E :=
  match type of H with
  | bind ?c _ = Ok _ => destruct c as [x|] eqn:E; [cbn [bind] in H | discriminate H]
  end.

Section Frame.

Variable pseudos : list (string * def).
Variable JoinTree : Type.
Variable mergeColumn : list step -> list refLink -> JoinTree -> list refLink * JoinTree.
Variable m : model.
Variable srcs : sources.
Variable outerQueries : list sources.
Variable combinedElements : list (string * list combined).
Variable resolveExpand : token -> result element.
Variable resolveInline : token -> result (list (string * element)).

Section Steps.

Variable rec : rec_type JoinTree.
Hypothesis rec_keeps : keeps_elements rec.

Lemma infer_each_keeps (l : list token) :
  forall (st : istate JoinTree) (base : option baseLink) (inExists inExpr : bool)
         (l' : list token) (st' : istate JoinTree),
    infer_each rec st l base inExists inExpr = Ok (l', st') ->
    queryElements st' = queryElements st.
Proof.
  induction l as [|t l IH]; intros st base inExists inExpr l' st' H; cbn in H.
  - injection H as <- <-. reflexivity.
  - bind_ok H p E. destruct p as [t1 st1]. bind_ok H q E2. destruct q as [r st2].
    injection H as <- <-. apply rec_keeps in E. apply IH in E2. congruence.
Qed.

Lemma infer_filter_keeps (l : list token) :
  forall (st : istate JoinTree) (base : baseLink) (skip : bool)
         (l' : list token) (st' : istate JoinTree),
    infer_filter rec st l base skip = Ok (l', st') ->
    queryElements st' = queryElements st.
Proof.
  induction l as [|t l IH]; intros st base skip l' st' H; cbn [infer_filter] in H.
  - injection H as <- <-. reflexivity.
  - destruct (is_kw "exists" t).
    + bind_ok H p E. destruct p as [r st1]. injection H as <- <-.
      apply IH in E. exact E.
    + bind_ok H p E. destruct p as [t1 st1]. bind_ok H q E2. destruct q as [r st2].
      injection H as <- <-. apply IH in E2. rewrite E2. clear E2 IH.
      destruct t as [k|steps ri a proj|v a|l0|x a|f [args|] a|q a];
        try (injection E as <- <-; reflexivity).
      * apply rec_keeps in E. exact E.
      * apply rec_keeps in E. exact E.
      * bind_ok E p E1. destruct p as [args' st3]. injection E as <- <-.
        apply infer_each_keeps in E1. exact E1.
Qed.

Variable ref : list step.
Variable a : attrs.
Variable proj : projection.
Variable base : option baseLink.
Variable inExists : bool.

Lemma infer_leaf_keeps (i : nat) (id : string) (lk : refLink) (w w' : walk JoinTree) :
  infer_leaf srcs resolveExpand resolveInline ref a proj false i id lk w = Ok w' ->
  queryElements (w_state w') = queryElements (w_state w).
Proof.
  unfold infer_leaf. intros H. bind_ok H qe E. injection H as <-.
  cbn [w_state queryElements].
  destruct (a_cast a).
  - bind_ok E b Eb. injection E as <-. reflexivity.
  - destruct proj.
    + bind_ok E b Eb. injection E as <-. reflexivity.
    + bind_ok E b Eb. injection E as <-. reflexivity.
    + injection E as <-. reflexivity.
Qed.

Lemma infer_step_keeps (i : nat) (rest : list step) (w w' : walk JoinTree) :
  infer_step pseudos m srcs outerQueries combinedElements resolveExpand
    resolveInline rec ref a proj false base inExists i rest w = Ok w' ->
  queryElements (w_state w') = queryElements (w_state w).
Proof.
  unfold infer_step. destruct rest as [|[id where_] later].
  - intros H. injection H as <-. reflexivity.
  - intros H. bind_ok H p E. destruct p as [[[[[d t] jr] segs] stack] pseudo].
    bind_ok H q E2. destruct q as [[where' jr'] st'].
    assert (Hst : queryElements st' = queryElements (w_state w)).
    { destruct where_ as [f|].
      - destruct (negb (isAssociation d) || _); [discriminate|].
        bind_ok E2 r E3. destruct r as [f' st2]. injection E2 as _ _ <-.
        apply infer_filter_keeps in E3. exact E3.
      - injection E2 as _ _ <-. reflexivity. }
    destruct later.
    + apply infer_leaf_keeps in H. cbn [w_state] in H. congruence.
    + injection H as <-. exact Hst.
Qed.

Lemma infer_steps_keeps (rest : list step) :
  forall (i : nat) (w w' : walk JoinTree),
    infer_steps pseudos m srcs outerQueries combinedElements resolveExpand
      resolveInline rec ref a proj false base inExists i rest w = Ok w' ->
    queryElements (w_state w') = queryElements (w_state w).
Proof.
  induction rest as [|s rest IH]; intros i w w' H.
  - injection H as <-. reflexivity.
  - change (bind (infer_step pseudos m srcs outerQueries combinedElements
                    resolveExpand resolveInline rec ref a proj false base
                    inExists i (s :: rest) w)
                 (fun w1 => infer_steps pseudos m srcs outerQueries
                              combinedElements resolveExpand resolveInline rec
                              ref a proj false base inExists (S i) rest w1)
            = Ok w') in H.
    bind_ok H w1 E. apply infer_step_keeps in E. apply IH in H. congruence.
Qed.

End Steps.

Lemma inferQueryElement_keeps (fuel : nat) :
  keeps_elements (inferQueryElement pseudos mergeColumn m srcs outerQueries
                    combinedElements resolveExpand resolveInline fuel).
Proof.
  induction fuel as [|fuel IH]; intros st t base inExists inExpr t' st' H;
    [discriminate|].
  cbn [inferQueryElement] in H.
  destruct t as [k|steps ri a proj|v a|l|l a|f [args|] a|q a];
    try (injection H as <- <-; reflexivity).
  - destruct (a_param a); [injection H as <- <-; reflexivity|].
    bind_ok H w E. eapply infer_steps_keeps in E; [|exact IH]. cbn [w_state] in E.
    bind_ok H leaf El.
    destruct (is_expand proj && _); [injection H as <- <-; exact E|].
    destruct (negb inExists && _ && _).
    + destruct (mergeColumn _ _ _) as [links' jt']. injection H as <- <-. exact E.
    + injection H as <- <-. exact E.
  - bind_ok H p E. destruct p as [l' st1]. injection H as <- <-.
    eapply infer_each_keeps in E; [exact E|exact IH].
  - bind_ok H p E. destruct p as [l' st1]. injection H as <- <-.
    eapply infer_each_keeps in E; [exact E|exact IH].
  - bind_ok H p E. destruct p as [l' st1]. injection H as <- <-.
    eapply infer_each_keeps in E; [exact E|exact IH].
Qed.


(** X12: only a column adds to the elements of a query: when
    [inferQueryElement] is called with [insertIntoQueryElements = false]
    (on the tokens of [where], [having], [groupBy], [orderBy], of infix
    filters and of function arguments), the elements of the query are
    afterwards what they were before, whatever the token is. *)
Theorem references_outside_columns_add_no_element (fuel : nat)
    (st st' : istate JoinTree) (t t' : token) (base : option baseLink)
    (inExists inExpr : bool) :
  inferQueryElement pseudos mergeColumn m srcs outerQueries combinedElements
    resolveExpand resolveInline fuel st t false base inExists inExpr
  = Ok (t', st') ->
  queryElements st' = queryElements st.
Proof. apply inferQueryElement_keeps. Qed.

Local Abbreviation inferQE :=
  (Infer.inferQE pseudos mergeColumn resolveExpand resolveInline m srcs
     outerQueries combinedElements).
Local Abbreviation walk_exists :=
  (Infer.walk_exists pseudos mergeColumn resolveExpand resolveInline m srcs
     outerQueries combinedElements).
Local Abbreviation infer_orderBy :=
  (Infer.infer_orderBy pseudos mergeColumn resolveExpand resolveInline m srcs
     outerQueries combinedElements).
Local Abbreviation inferQueryElements :=
  (Infer.inferQueryElements pseudos mergeColumn resolveExpand resolveInline m
     srcs outerQueries combinedElements).

Lemma inferQE_keeps (fuel : nat) : keeps_elements (inferQE fuel).
Proof. unfold Infer.inferQE. apply inferQueryElement_keeps. Qed.

Lemma walk_exists_keeps (fuel : nat) :
  forall (l : list token) (st : istate JoinTree) (skipJoins : bool)
         (l' : list token) (st' : istate JoinTree) (skip' : bool),
    walk_exists fuel st l skipJoins = Ok (l', st', skip') ->
    queryElements st' = queryElements st.
Proof.
  induction fuel as [|fuel IHfuel]; [discriminate|].
  induction l as [|t r IH]; intros st skipJoins l' st' skip' H.
  - cbn in H. injection H as <- <- <-. reflexivity.
  - rewrite Rerun.walk_exists_cons in H.
    bind_ok H p1 E1. destruct p1 as [[t1 st1] skip1].
    bind_ok H p2 E2. destruct p2 as [[r2 st2] skip2].
    injection H as <- <- <-. apply IH in E2. rewrite E2. clear E2 IH.
    destruct (is_kw "exists" t); [injection E1 as <- <- <-; reflexivity|].
    destruct t as [k|steps ri a proj|v a|l0|x a|f args a|q a];
      try (bind_ok E1 p E; destruct p as [t2 st3]; injection E1 as <- <- <-;
           apply inferQE_keeps in E; exact E).
    bind_ok E1 p E. destruct p as [[x' st3] skip3]. injection E1 as <- <- <-.
    apply IHfuel in E. exact E.
Qed.

Lemma infer_orderBy_keeps (fuel : nat) (has_columns : bool) (l : list token) :
  forall (st st' : istate JoinTree) (l' : list token),
    infer_orderBy fuel has_columns st l = Ok (l', st') ->
    queryElements st' = queryElements st.
Proof.
  induction l as [|t r IH]; intros st st' l' H; cbn [Infer.infer_orderBy] in H.
  - injection H as <- <-. reflexivity.
  - bind_ok H p1 E1. destruct p1 as [t1 st1].
    bind_ok H p2 E2. destruct p2 as [r2 st2]. injection H as <- <-.
    apply inferQE_keeps in E1. apply IH in E2. congruence.
Qed.

Lemma on_some_keeps {A} (f : A -> result (A * istate JoinTree)) (o o' : option A)
    (st st' : istate JoinTree) :
  (forall x x' s, f x = Ok (x', s) -> queryElements s = queryElements st) ->
  on_some o st f = Ok (o', st') ->
  queryElements st' = queryElements st.
Proof.
  intros Hf H. destruct o as [x|]; cbn in H.
  - bind_ok H p E. destruct p as [x' s]. injection H as <- <-.
    exact (Hf _ _ _ E).
  - injection H as <- <-. reflexivity.
Qed.

Lemma inferQueryElements_without_columns (fuel : nat) (jt : JoinTree)
    (from : source) (w h g o : option (list token)) (e : option (list string))
    (l : bool) (s' : select) (st : istate JoinTree) :
  inferQueryElements fuel jt (Select from None w h g o e l) = Ok (s', st) ->
  inferElementsFromWildCard srcs combinedElements e [] = Ok (queryElements st).
Proof.
  unfold Infer.inferQueryElements. intros H.
  bind_ok H p1 Ec. destruct p1 as [c' st1].
  bind_ok H p2 Eo. destruct p2 as [o' st2].
  bind_ok H p3 Ew. destruct p3 as [w' st3].
  bind_ok H p4 Eg. destruct p4 as [g' st4].
  bind_ok H p5 Eh. destruct p5 as [h' st5].
  injection H as <- <-.
  bind_ok Ec qe Ewild. injection Ec as <- <-.
  eapply on_some_keeps in Eo;
    [|intros x x' s E; apply infer_orderBy_keeps in E; exact E].
  eapply on_some_keeps in Ew;
    [|intros x x' s E; bind_ok E p Ex; destruct p as [[x1 s1] k1];
      injection E as <- <-; apply walk_exists_keeps in Ex; exact Ex].
  eapply on_some_keeps in Eg;
    [|intros x x' s E; eapply infer_each_keeps in E; [exact E|apply inferQE_keeps]].
  eapply on_some_keeps in Eh;
    [|intros x x' s E; eapply infer_each_keeps in E; [exact E|apply inferQE_keeps]].
  cbn [queryElements] in Eo. congruence.
Qed.

End Frame.

Section Wildcard.

Variable pseudos : list (string * def).
Variable JoinTree : Type.
Variable newJoinTree : sources -> JoinTree.
Variable mergeColumn : list step -> list refLink -> JoinTree -> list refLink * JoinTree.
Variable resolveExpand : token -> result element.
Variable resolveInline : token -> result (list (string * element)).
Variable foreignKeys : def -> list string.

(** X13: a [SELECT] without [columns] from a single query source has the
    elements of that source as its elements, all of them and in their
    order, whatever its [where], [having], [groupBy] and [orderBy] are;
    the names in [excluding] are not left out. *)
Theorem elements_without_columns (fuel : nat) (outerQueries : list sources)
    (from : source) (w h g o : option (list token)) (e : option (list string))
    (l : bool) (model_ : option model) (i : inferred JoinTree)
    (alias : string) (d : def) :
  infer pseudos newJoinTree mergeColumn resolveExpand resolveInline foreignKeys
    fuel outerQueries (SELECT (Select from None w h g o e l)) model_ = Ok i ->
  i_sources i = [(alias, d)] ->
  exists els,
    d_elements d = Some els
    /\ i_elements i = map (fun kv => (fst kv, EDef (snd kv))) els.
Proof.
  intros H Hsrc. destruct model_ as [m|]; [|destruct fuel; discriminate].
  destruct fuel as [|fuel]; [discriminate|].
  cbn [infer is_SET sel_from] in H.
  bind_ok H p E. destruct p as [from' srcs].
  bind_ok H q E2. destruct q as [s' st]. injection H as <-.
  cbn [i_sources] in Hsrc. cbn [i_elements]. subst srcs.
  apply inferQueryElements_without_columns in E2.
  cbn [inferElementsFromWildCard] in E2.
  destruct (d_elements d) as [els|]; [|discriminate].
  injection E2 as <-. exists els. split; reflexivity.
Qed.

End Wildcard.

(** X12, witness: the reference [author.name] in a [where] of a query on
    [Books] that has the element [x]. *)
Lemma references_outside_columns_add_no_element_witness :
  exists t' st',
    infer_token_Books 5 (IState [("x", EEmpty)] ["Books"])
      (ref_ ["author"; "name"]) false None false true = Ok (t', st')
    /\ queryElements st'
       = queryElements (IState [("x", EEmpty)] ["Books"]).
Proof.
  eexists. eexists. split; [vm_compute; reflexivity|].
  eapply references_outside_columns_add_no_element
    with (pseudos := Bookshop.pseudo_elements)
         (mergeColumn := Bookshop.merge_none) (m := Bookshop.bookshop)
         (srcs := [("Books", Bookshop.Books)]) (outerQueries := [])
         (combinedElements := inferCombinedElements [("Books", Bookshop.Books)])
         (resolveExpand := Bookshop.no_expand)
         (resolveInline := Bookshop.no_inline) (fuel := 5)
         (t := ref_ ["author"; "name"]) (base := None) (inExists := false)
         (inExpr := true).
  vm_compute. reflexivity.
Defined.

(** X13, witness: [SELECT from Books excluding { title }]. *)
Lemma elements_without_columns_witness :
  exists i,
    Bookshop.infer_bookshop
      (SELECT (Select from_Books None None None None None (Some ["title"]) false))
    = Ok i
    /\ i_sources i = [("Books", Bookshop.Books)]
    /\ exists els,
         d_elements Bookshop.Books = Some els
         /\ i_elements i = map (fun kv => (fst kv, EDef (snd kv))) els.
Proof.
  eexists. split; [vm_compute; reflexivity|]. split; [reflexivity|].
  eapply elements_without_columns
    with (pseudos := Bookshop.pseudo_elements)
         (newJoinTree := Bookshop.new_join_tree)
         (mergeColumn := Bookshop.merge_none)
         (resolveExpand := Bookshop.no_expand)
         (resolveInline := Bookshop.no_inline)
         (foreignKeys := Bookshop.fk_names) (fuel := 10) (outerQueries := [])
         (from := from_Books) (w := None) (h := None) (g := None) (o := None)
         (e := Some ["title"]) (l := false) (model_ := Some Bookshop.bookshop)
         (alias := "Books");
    [vm_compute; reflexivity | reflexivity].
Defined.

(** *** Query sources *)

Section Sources.

Variable pseudos : list (string * def).
Variable JoinTree : Type.
Variable newJoinTree : sources -> JoinTree.
Variable mergeColumn : list step -> list refLink -> JoinTree -> list refLink * JoinTree.
Variable resolveExpand : token -> result element.
Variable resolveInline : token -> result (list (string * element)).
Variable foreignKeys : def -> list string.

Local Abbreviation infer :=
  (Infer.infer pseudos newJoinTree mergeColumn resolveExpand resolveInline
     foreignKeys).

Lemma set_key_Forall {A} (P : string * A -> Prop) (k : string) (v : A)
    (l : list (string * A)) :
  (forall k', P (k', v)) -> Forall P l -> Forall P (set_key k v l).
Proof.
  intros Hv H. induction H as [|[k' v'] l Hx Hl IH]; cbn [set_key].
  - constructor; [apply Hv|constructor].
  - destruct (eqs k k'); constructor; auto.
Qed.

Lemma inferTarget_sources (m : model)
    (infer_select : select -> result (select * list (string * element)))
    (fuel : nat) (from : source) :
  forall (qs : sources) (from' : source) (qs' : sources),
    by_reference from = true ->
    inferTarget foreignKeys m infer_select fuel from qs = Ok (from', qs') ->
    Forall entity_or_query qs -> Forall entity_or_query qs'.
Proof.
  revert from. fix IH 1. intros from qs from' qs' Hfrom H Hqs.
  destruct from as [steps ri as_name|k args on|q as_name|name];
    cbn [inferTarget] in H; cbn [by_reference] in Hfrom.
  - destruct steps as [|first rest]; [discriminate|].
    bind_ok H d Ed. bind_ok H target Et.
    destruct (dkind_eqb (d_kind target) KEntity) eqn:Hkind; [|discriminate].
    cbn [negb] in H.
    bind_ok H p E. destruct p as [steps' links].
    destruct (has_key _ qs); [discriminate|].
    injection H as <- <-. apply set_key_Forall; [|exact Hqs].
    intros k'. left. cbn [snd]. destruct (d_kind target); try discriminate. reflexivity.
  - bind_ok H p E. destruct p as [args' qs1]. injection H as <- <-.
    revert qs args' qs1 E Hqs Hfrom.
    induction args as [|x r IHr]; intros qs args' qs1 E Hqs Hfrom.
    + injection E as <- <-. exact Hqs.
    + cbn [forallb] in Hfrom. apply andb_prop in Hfrom. destruct Hfrom as [Hx Hr].
      bind_ok E p1 E1. destruct p1 as [x' qsA].
      bind_ok E p2 E2. destruct p2 as [r' qsB]. injection E as <- <-.
      eapply IHr; [exact E2| |exact Hr].
      eapply IH; [exact Hx|exact E1|exact Hqs].
  - bind_ok H p E. destruct p as [q' els]. injection H as <- <-.
    apply set_key_Forall; [|exact Hqs]. intros k'. right. reflexivity.
  - discriminate.
Qed.

(** X15: every query source that the inference finds through a reference
    in [from] (in [into], in [entity], in the arguments of a join) is an
    entity, and every one it finds through a subquery is that query: a
    path that ends on an element, a type or anything else is never a
    query source. *)
Theorem sources_are_entities_or_queries (fuel : nat) (outerQueries : list sources)
    (q : query) (model_ : option model) (from : source) (i : inferred JoinTree) :
  query_source q = Some from ->
  by_reference from = true ->
  infer fuel outerQueries q model_ = Ok i ->
  Forall entity_or_query (i_sources i).
Proof.
  intros Hq Hfrom H. destruct model_ as [m|]; [|destruct fuel; discriminate].
  destruct fuel as [|fuel]; [destruct q; discriminate|].
  destruct q as [s|args|into|into|entity w|from0 w]; cbn in Hq;
    try discriminate Hq; injection Hq as <-;
    cbn [Infer.infer is_SET] in H.
  - bind_ok H p E. destruct p as [from' srcs].
    bind_ok H p2 E2. destruct p2 as [s' st]. injection H as <-. cbn [i_sources].
    eapply inferTarget_sources; [exact Hfrom|exact E|constructor].
  - bind_ok H p E. destruct p as [from' srcs]. injection H as <-. cbn [i_sources].
    eapply inferTarget_sources; [exact Hfrom|exact E|constructor].
  - bind_ok H p E. destruct p as [from' srcs]. injection H as <-. cbn [i_sources].
    eapply inferTarget_sources; [exact Hfrom|exact E|constructor].
  - bind_ok H p E. destruct p as [from' srcs].
    bind_ok H p2 E2. destruct p2 as [s' st]. injection H as <-. cbn [i_sources].
    eapply inferTarget_sources; [exact Hfrom|exact E|constructor].
  - bind_ok H p E. destruct p as [from' srcs].
    bind_ok H p2 E2. destruct p2 as [s' st]. injection H as <-. cbn [i_sources].
    eapply inferTarget_sources; [exact Hfrom|exact E|constructor].
Qed.

Lemma has_key_set_key {A} (k : string) (v : A) (l : list (string * A)) :
  has_key k (set_key k v l) = true.
Proof.
  unfold has_key. induction l as [|[k' v'] l IH]; cbn [set_key assoc].
  - unfold eqs. rewrite String.eqb_refl. reflexivity.
  - destruct (eqs k k') eqn:E; cbn [assoc]; rewrite E; [reflexivity|exact IH].
Qed.

(** X16: a join whose first two arguments are entities with the same
    alias (the [as] of the argument or else the last segment of its
    name) is rejected with DuplicateAlias for that alias. *)
Theorem same_alias_twice_is_rejected (fuel : nat) (outerQueries : list sources)
    (m : model) (k : string) (on : list token) (a b : string) (da db : def)
    (ria rib : refinfo) (as_a as_b : option string) (more : list source)
    (c w h g o : option (list token)) (e : option (list string)) (l : bool) :
  assoc a (definitions m) = Some da -> d_kind da = KEntity ->
  assoc b (definitions m) = Some db -> d_kind db = KEntity ->
  alias_of as_a a = alias_of as_b b ->
  infer (S fuel) outerQueries
    (SELECT (Select (SrcJoin k (SrcRef [plain a] ria as_a
                                  :: SrcRef [plain b] rib as_b :: more) on)
               c w h g o e l))
    (Some m)
  = Err (DuplicateAlias (alias_of as_b b)).
Proof.
  intros Ha Hka Hb Hkb Halias.
  cbn [Infer.infer is_SET sel_from inferTarget plain step_id].
  unfold getDefinition. rewrite Ha, Hb. cbn [of_option bind target_of_path].
  rewrite Hka, Hkb. cbn [dkind_eqb negb attach_steps].
  unfold plain, getDefinition. rewrite Ha, Hb.
  cbn [of_option bind has_key assoc app].
  fold (alias_of as_a a). fold (alias_of as_b b). rewrite Halias.
  rewrite has_key_set_key. reflexivity.
Qed.

End Sources.

(** X15, witness: the sources of [SELECT ID from Books:author]. *)
Lemma sources_are_entities_or_queries_witness :
  exists i,
    Bookshop.infer_bookshop (select_ID_from ["Books"; "author"]) = Ok i
    /\ i_sources i = [("author", Bookshop.Authors)]
    /\ Forall entity_or_query (i_sources i).
Proof.
  eexists. split; [vm_compute; reflexivity|]. split; [reflexivity|].
  eapply sources_are_entities_or_queries
    with (pseudos := Bookshop.pseudo_elements)
         (newJoinTree := Bookshop.new_join_tree)
         (mergeColumn := Bookshop.merge_none)
         (resolveExpand := Bookshop.no_expand)
         (resolveInline := Bookshop.no_inline)
         (foreignKeys := Bookshop.fk_names) (fuel := 10) (outerQueries := [])
         (q := select_ID_from ["Books"; "author"])
         (model_ := Some Bookshop.bookshop);
    [reflexivity | reflexivity | vm_compute; reflexivity].
Defined.

(** X16, witness: [SELECT ID from Books join Books]. *)
Lemma same_alias_twice_is_rejected_witness :
  Bookshop.infer_bookshop (select_ID_from_join "Books" "Books")
  = Err (DuplicateAlias "Books").
Proof.
  exact (@same_alias_twice_is_rejected Bookshop.pseudo_elements
           Bookshop.join_tree Bookshop.new_join_tree Bookshop.merge_none
           Bookshop.no_expand Bookshop.no_inline Bookshop.fk_names 9 []
           Bookshop.bookshop "inner" [] "Books" "Books" Bookshop.Books
           Bookshop.Books no_info no_info None None []
           (Some [Ref [plain "ID"] no_info no_attrs NoProj]) None None None None
           None false eq_refl eq_refl eq_refl eq_refl eq_refl).
Defined.

(** *** Columns with a filter *)

Section Dangling.

Variable pseudos : list (string * def).
Variable JoinTree : Type.
Variable mergeColumn : list step -> list refLink -> JoinTree -> list refLink * JoinTree.
Variable m : model.
Variable srcs : sources.
Variable outerQueries : list sources.
Variable combinedElements : list (string * list combined).
Variable resolveExpand : token -> result element.
Variable resolveInline : token -> result (list (string * element)).

Lemma dangling_step (rec : rec_type JoinTree) (ref : list step) (a : attrs)
    (proj : projection) (insert : bool) (base : option baseLink) (i : nat)
    (id : string) (f : list token) (w : walk JoinTree) :
  is_expand proj = false ->
  is_ok (infer_step pseudos m srcs outerQueries combinedElements resolveExpand
           resolveInline rec ref a proj insert base false i [Step id (Some f)] w)
  = false.
Proof.
  intros Hproj. unfold infer_step.
  match goal with
  | |- is_ok (bind ?c _) = false => destruct c as [[[[[[d t] jr] segs] stack] pseudo]|]
  end; [|reflexivity].
  cbn [bind]. rewrite Hproj. cbn [orb negb]. rewrite orb_true_r. reflexivity.
Qed.

Lemma dangling_steps (rec : rec_type JoinTree) (ref : list step) (a : attrs)
    (proj : projection) (insert : bool) (base : option baseLink)
    (id : string) (f : list token) (before : list step) :
  is_expand proj = false ->
  forall (i : nat) (w : walk JoinTree),
    is_ok (infer_steps pseudos m srcs outerQueries combinedElements resolveExpand
             resolveInline rec ref a proj insert base false i
             (before ++ [Step id (Some f)]) w)
    = false.
Proof.
  intros Hproj. induction before as [|s before IH]; intros i w.
  - cbn [app infer_steps].
    pose proof (@dangling_step rec ref a proj insert base i id f w Hproj) as H.
    destruct (infer_step _ _ _ _ _ _ _ _ _ _ _ _ _ _ _ _ _); [discriminate|reflexivity].
  - cbn [app].
    change (is_ok (bind (infer_step pseudos m srcs outerQueries combinedElements
                           resolveExpand resolveInline rec ref a proj insert base
                           false i (s :: before ++ [Step id (Some f)]) w)
                        (fun w1 =>
                           infer_steps pseudos m srcs outerQueries
                             combinedElements resolveExpand resolveInline rec
                             ref a proj insert base false (S i)
                             (before ++ [Step id (Some f)]) w1))
            = false).
    destruct (infer_step _ _ _ _ _ _ _ _ _ _ _ _ _ _ _ _ _); [|reflexivity].
    cbn [bind]. apply IH.
Qed.

(** X17: a reference whose last step carries an infix filter is never
    accepted outside [exists] unless it has an [expand]: whatever the
    steps, the model and the filter are, [inferQueryElement] fails (with
    what the steps before raise or, when they resolve, with
    FilterOnNonAssoc). *)
Theorem dangling_filter_is_rejected (fuel : nat) (st : istate JoinTree)
    (before : list step) (id : string) (f : list token) (ri : refinfo)
    (a : attrs) (proj : projection) (insert : bool) (base : option baseLink)
    (inExpr : bool) :
  a_param a = false ->
  is_expand proj = false ->
  is_ok (inferQueryElement pseudos mergeColumn m srcs outerQueries
           combinedElements resolveExpand resolveInline fuel st
           (Ref (before ++ [Step id (Some f)]) ri a proj) insert base false inExpr)
  = false.
Proof.
  intros Hparam Hproj. destruct fuel as [|fuel]; [reflexivity|].
  cbn [inferQueryElement]. rewrite Hparam.
  pose proof (@dangling_steps
                (inferQueryElement pseudos mergeColumn m srcs outerQueries
                   combinedElements resolveExpand resolveInline fuel)
                (before ++ [Step id (Some f)]) a proj insert base id f before
                Hproj 0
                (Walk [] [] [] [] false true (isJoinRelevant ri) st)) as H.
  destruct (infer_steps _ _ _ _ _ _ _ _ _ _ _ _ _ _ _ _ _); [discriminate|reflexivity].
Qed.

End Dangling.

(** X17, witness: the column [author[ID = 1]] of a query on [Books]. *)
Lemma dangling_filter_is_rejected_witness :
  is_ok (infer_token_Books 5 (IState [] ["Books"]) filtered_author
           true None false false) = false.
Proof.
  exact (@dangling_filter_is_rejected Bookshop.pseudo_elements
           Bookshop.join_tree Bookshop.merge_none Bookshop.bookshop
           [("Books", Bookshop.Books)] []
           (inferCombinedElements [("Books", Bookshop.Books)])
           Bookshop.no_expand Bookshop.no_inline 5 (IState [] ["Books"]) []
           "author" [ref_ ["ID"]; Kw "="; num 1] no_info no_attrs NoProj true
           None false eq_refl eq_refl).
Defined.

(** The error of the witness is the one of the dangling filter. *)
Example scenario_dangling_filter :
  infer_token_Books 5 (IState [] ["Books"]) filtered_author true None false false
  = Err FilterOnNonAssoc.
Proof. vm_compute. reflexivity. Qed.

(** *** The entry points *)

Section Entry.

Variable pseudos : list (string * def).
Variable foreignKeys : def -> list string.
Variable skippedByWildcard isComposition : def -> bool.
Variable JoinTree : Type.
Variable newJoinTree : sources -> JoinTree.
Variable mergeColumn : list step -> list refLink -> JoinTree -> list refLink * JoinTree.
Variable addNextAvailableTableAlias : string -> JoinTree -> string * JoinTree.
Variable isInitial : JoinTree -> bool.
Variable translateAssocsToJoins : model -> JoinTree -> source -> result source.
Variable resolveExpand : token -> result element.
Variable resolveInline : token -> result (list (string * element)).
Variable calculateOnCondition :
  model -> refLink -> refLink -> bool -> list ctoken -> result (list token).
Variable expandColumn : model -> token -> JoinTree -> result (token * JoinTree).
Variable nestedProjectionOnStructure : model -> token -> result (list token).

Local Abbreviation infer :=
  (Infer.infer pseudos newJoinTree mergeColumn resolveExpand resolveInline
     foreignKeys).
Local Abbreviation cqn4sql :=
  (Rewrite.cqn4sql pseudos foreignKeys skippedByWildcard isComposition
     newJoinTree mergeColumn addNextAvailableTableAlias isInitial
     translateAssocsToJoins resolveExpand resolveInline calculateOnCondition
     expandColumn nestedProjectionOnStructure).

(** X14: a query of any kind whose source starts at a name that the
    model does not define is rejected by the inference with UnknownName
    for that name, before anything else of the query is looked at. *)
Theorem unknown_entity_is_rejected (fuel : nat) (outerQueries : list sources)
    (q : query) (m : model) (from : source) (name : string) :
  query_source q = Some from ->
  first_name from = Some name ->
  assoc name (definitions m) = None ->
  infer (S fuel) outerQueries q (Some m) = Err (UnknownName name).
Proof.
  intros Hq Hfrom Hname.
  assert (Htarget : forall infer_select qs,
            inferTarget foreignKeys m infer_select fuel from qs
            = Err (UnknownName name)).
  { intros infer_select qs.
    destruct from as [[|first rest] ri as_name| | |n]; try discriminate Hfrom;
      injection Hfrom as <-; cbn [inferTarget]; unfold getDefinition;
      rewrite Hname; reflexivity. }
  destruct q as [s|args|into|into|entity w|from0 w]; cbn in Hq;
    try discriminate Hq; injection Hq as <-;
    cbn [Infer.infer is_SET]; rewrite Htarget; reflexivity.
Qed.

Lemma infer_join_query (fuel : nat) (outerQueries : list sources) (k : string)
    (args : list source) (on : list token) (c w h g o : option (list token))
    (e : option (list string)) (l : bool) (model_ : option model)
    (i : inferred JoinTree) :
  infer fuel outerQueries (SELECT (Select (SrcJoin k args on) c w h g o e l)) model_
  = Ok i ->
  exists args' c' w' h' g' o',
    i_query i = SELECT (Select (SrcJoin k args' on) c' w' h' g' o' e l).
Proof.
  intros H. destruct model_ as [m|]; [|destruct fuel; discriminate].
  destruct fuel as [|fuel]; [discriminate|].
  cbn [Infer.infer is_SET sel_from] in H.
  bind_ok H p E. destruct p as [from' srcs].
  bind_ok H q E2. destruct q as [s' st]. injection H as <-.
  cbn [inferTarget] in E. bind_ok E p E3. destruct p as [args' qs].
  injection E as <- <-.
  unfold inferQueryElements in E2.
  bind_ok E2 p1 Ec. destruct p1 as [c' st1].
  bind_ok E2 p2 Eo. destruct p2 as [o' st2].
  bind_ok E2 p3 Ew. destruct p3 as [w' st3].
  bind_ok E2 p4 Eg. destruct p4 as [g' st4].
  bind_ok E2 p5 Eh. destruct p5 as [h' st5].
  injection E2 as <- <-. cbn [i_query]. 
  exists args', c', w', h', g', o'. reflexivity.
Qed.

(** X18: a [SELECT] whose [from] is a join is not rewritten: [cqn4sql]
    returns the query as the inference leaves it, and fails exactly when
    the inference fails. *)
Theorem join_is_only_inferred (fuel : nat) (outerQueries : list sources)
    (k : string) (args : list source) (on : list token)
    (c w h g o : option (list token)) (e : option (list string)) (l : bool)
    (m : model) :
  cqn4sql (S fuel) outerQueries
    (SELECT (Select (SrcJoin k args on) c w h g o e l)) (Some m)
  = (i <- infer (S fuel) outerQueries
            (SELECT (Select (SrcJoin k args on) c w h g o e l)) (Some m) ;;
     Ok (i_query i)).
Proof.
  cbn [Rewrite.cqn4sql].
  destruct (infer (S fuel) outerQueries
              (SELECT (Select (SrcJoin k args on) c w h g o e l)) (Some m))
    as [i|err] eqn:E; [|reflexivity].
  cbn [bind]. apply infer_join_query in E.
  destruct E as (args' & c' & w' & h' & g' & o' & ->). reflexivity.
Qed.


End Entry.

(** X14, witness: [SELECT ID from Nope] on the bookshop. *)
Lemma unknown_entity_is_rejected_witness :
  Bookshop.infer_bookshop (select_ID_from ["Nope"]) = Err (UnknownName "Nope").
Proof.
  exact (@unknown_entity_is_rejected Bookshop.pseudo_elements
           Bookshop.fk_names Bookshop.join_tree Bookshop.new_join_tree
           Bookshop.merge_none Bookshop.no_expand Bookshop.no_inline 9 []
           (select_ID_from ["Nope"]) Bookshop.bookshop
           (SrcRef [plain "Nope"] no_info None) "Nope"
           eq_refl eq_refl eq_refl).
Defined.


(** *** Combined elements *)

Lemma assoc_add_combined (k k' : string) (c : combined)
    (ce : list (string * list combined)) :
  assoc k (add_combined k' c ce)
  = if eqs k k'
    then Some (match assoc k ce with Some l => l ++ [c] | None => [c] end)
    else assoc k ce.
Proof.
  induction ce as [|[k0 l0] ce IH]; cbn [add_combined assoc].
  - destruct (eqs k k'); reflexivity.
  - destruct (eqs k' k0) eqn:E0; cbn [assoc].
    + apply String.eqb_eq in E0. subst k0.
      destruct (eqs k k'); reflexivity.
    + destruct (eqs k k0) eqn:E1.
      * destruct (eqs k k') eqn:E2; [|reflexivity].
        apply String.eqb_eq in E1, E2. subst. unfold eqs in E0.
        rewrite String.eqb_refl in E0. discriminate.
      * exact IH.
Qed.

Lemma assoc_add_elements (k idx : string) (ta : def) (els : list (string * def)) :
  NoDup (map fst els) ->
  forall ce,
    assoc k (fold_left (fun ce e => add_combined (fst e) (Combined idx ta) ce) els ce)
    = if existsb (eqs k) (map fst els)
      then Some (match assoc k ce with
                 | Some l => l ++ [Combined idx ta]
                 | None => [Combined idx ta]
                 end)
      else assoc k ce.
Proof.
  induction els as [|[n e] els IH]; intros Hnd ce; [reflexivity|].
  cbn [map fst] in Hnd. inversion Hnd as [|x l Hnotin Hnd']. subst.
  cbn [fold_left map fst existsb]. rewrite (IH Hnd').
  rewrite assoc_add_combined.
  destruct (eqs k n) eqn:E; cbn [orb]; [|reflexivity].
  apply String.eqb_eq in E. subst n.
  destruct (existsb (eqs k) (map fst els)) eqn:Ex; [|reflexivity].
  exfalso. apply Hnotin. apply existsb_exists in Ex.
  destruct Ex as (x & Hin & Hx). apply String.eqb_eq in Hx. subst x. exact Hin.
Qed.

Lemma assoc_combined_from (k : string) (srcs : sources) :
  Forall (fun s => NoDup (element_names (snd s))) srcs ->
  forall ce,
    assoc k
      (fold_left
         (fun ce '(idx, ta) =>
            fold_left (fun ce e => add_combined (fst e) (Combined idx ta) ce)
                      (match d_elements ta with Some els => els | None => [] end) ce)
         srcs ce)
    = match assoc k ce, sources_with k srcs with
      | None, [] => None
      | Some l, more => Some (l ++ more)
      | None, more => Some more
      end.
Proof.
  induction 1 as [|[idx ta] srcs Hnd Hall IH]; intros ce.
  - cbn. destruct (assoc k ce); [rewrite app_nil_r|]; reflexivity.
  - cbn [fold_left]. rewrite IH. unfold sources_with. cbn [filter snd fst].
    unfold element_names in Hnd |- *. cbn [snd] in Hnd.
    destruct (d_elements ta) as [els|].
    + rewrite (@assoc_add_elements k idx ta els Hnd).
      destruct (existsb (eqs k) (map fst els)); cbn [map fst snd].
      * destruct (assoc k ce) as [l|]; [rewrite <- app_assoc|]; reflexivity.
      * reflexivity.
    + cbn [fold_left existsb]. reflexivity.
Qed.



(** *** Columns *)

Section Twice.

Variable pseudos : list (string * def).
Variable JoinTree : Type.
Variable mergeColumn : list step -> list refLink -> JoinTree -> list refLink * JoinTree.
Variable resolveExpand : token -> result element.
Variable resolveInline : token -> result (list (string * element)).
Variable m : model.
Variable srcs : sources.
Variable outerQueries : list sources.
Variable combinedElements : list (string * list combined).

Local Abbreviation inferQE :=
  (Infer.inferQE pseudos mergeColumn resolveExpand resolveInline m srcs
     outerQueries combinedElements).
Local Abbreviation infer_columns_refs :=
  (Infer.infer_columns_refs pseudos mergeColumn resolveExpand resolveInline m
     srcs outerQueries combinedElements).

Lemma single_step_name (a : attrs) (id flat : string) (self : bool) :
  elementName_of a [Step id None] flat self
    (firstStepIsTableAlias srcs [Step id None] NoProj)
  = column_key a id \/ self = true.
Proof.
  destruct self; [right; reflexivity|left].
  unfold elementName_of, column_key, firstStepIsTableAlias.
  cbn [is_inline]. rewrite andb_false_r. cbn [orb ids map step_id join String.concat].
  destruct (truthy_name (a_as a)); [reflexivity|].
  destruct (eqs id flat) eqn:E; [|reflexivity].
  apply String.eqb_eq in E. symmetry. exact E.
Qed.

Lemma resolve_first_single (id : string) (w w' : walk JoinTree) :
  resolve_first pseudos m srcs outerQueries combinedElements [Step id None]
    NoProj None id w
  = resolve_first pseudos m srcs outerQueries combinedElements [Step id None]
      NoProj None id w'.
Proof.
  unfold resolve_first, firstStepIsSelf, firstStepIsTableAlias.
  cbn [is_inline]. rewrite !andb_false_r. reflexivity.
Qed.

Local Abbreviation single_step :=
  (Statements.single_step pseudos m srcs outerQueries combinedElements).

Lemma single_step_walk (rec : rec_type JoinTree) (id : string) (a : attrs)
    (b : bool) (st0 st : istate JoinTree) :
  a_cast a = None ->
  infer_steps pseudos m srcs outerQueries combinedElements resolveExpand
    resolveInline rec [Step id None] a NoProj true None false 0
    [Step id None] (Walk [] [] [] [] false true b st)
  = match single_step id a st0 with
    | Err e => Err e
    | Ok (lk, segs, pseudo, leafArt) =>
        if has_key (column_key a id) (queryElements st)
        then Err (DuplicateElement (column_key a id))
        else
          match leafArt with
          | None => Err (TypeError "leafArt")
          | Some art =>
              Ok (Walk [lk] [Step id None] segs [] pseudo
                    (match target_of m (l_definition lk) with
                     | Some tg => if d_skip tg then false else true
                     | None => true
                     end) b
                    (IState (set_key (column_key a id)
                               (getCopyWithAnnos a (EDef art))
                               (queryElements st))
                            (joinTree st)))
          end
    end.
Proof.
  intros Hcast. unfold Statements.single_step.
  cbn [infer_steps infer_step].
  rewrite (resolve_first_single id (Walk [] [] [] [] false true b st)
             (Walk [] [] [] [] false true false st0)).
  destruct (resolve_first _ _ _ _ _ _ _ _ _ _) as [[[[d t] pseudo] named]|e];
    [|reflexivity].
  cbn [bind]. unfold infer_leaf.
  cbn [w_links w_steps nameSegments skipAliasedFkSegmentsOfNameStack pseudoPath
       isPersisted w_joinRelevant w_state app]. rewrite Hcast.
  cbn [Nat.eqb andb].
  destruct (if eqs id "$user" then _ else _) as [leafArt|e]; [|reflexivity].
  cbn [bind].
  assert (Hname : elementName_of a [Step id None]
                    (join "_" (if named then [id] else []))
                    (firstStepIsSelf srcs [Step id None] NoProj)
                    (firstStepIsTableAlias srcs [Step id None] NoProj)
                  = column_key a id).
  { destruct (single_step_name a id (join "_" (if named then [id] else []))
                (firstStepIsSelf srcs [Step id None] NoProj)) as [H|H];
      [exact H|].
    unfold firstStepIsSelf in H. rewrite andb_false_r in H. discriminate. }
  rewrite Hname, !orb_false_r.
  destruct (has_key (column_key a id) (queryElements st)); [reflexivity|].
  destruct leafArt as [art|]; [|reflexivity].
  cbn [of_option bind]. reflexivity.
Qed.

Lemma accepted_column_is_present (fuel : nat) (st st1 : istate JoinTree)
    (id : string) (a : attrs) (ri : refinfo) (c1 : token) :
  a_cast a = None -> a_param a = false ->
  inferQE fuel st (Ref [Step id None] ri a NoProj) true None false false
  = Ok (c1, st1) ->
  has_key (column_key a id) (queryElements st1) = true
  /\ exists lk segs pseudo art,
       single_step id a st = Ok (lk, segs, pseudo, Some art).
Proof.
  intros Hcast Hparam H. destruct fuel as [|fuel]; [discriminate|].
  unfold Infer.inferQE in H. cbn [inferQueryElement] in H. rewrite Hparam in H.
  rewrite (@single_step_walk _ id a (isJoinRelevant ri) st st Hcast) in H.
  destruct (single_step id a st) as [[[[lk segs] pseudo] leafArt]|e];
    [|discriminate].
  destruct (has_key (column_key a id) (queryElements st)); [discriminate|].
  destruct leafArt as [art|]; [|discriminate].
  cbn [bind w_links w_steps nameSegments w_joinRelevant w_state isPersisted
       is_expand andb] in H.
  split; [|exists lk, segs, pseudo, art; reflexivity].
  bind_ok H leaf El.
  destruct (negb false && _ && _).
  - destruct (mergeColumn _ _ _) as [links' jt']. injection H as _ <-.
    cbn [queryElements]. apply has_key_set_key.
  - injection H as _ <-. cbn [queryElements]. apply has_key_set_key.
Qed.

(** X21: when the list of columns names the same element twice, by two
    plain references of one step with the same [as] (no cast, no bind
    parameter), the second one is rejected with DuplicateElement for the
    name of the column, provided the first one was accepted. *)
Theorem same_column_twice_is_rejected (fuel : nat) (st : istate JoinTree)
    (id : string) (a : attrs) (ri1 ri2 : refinfo) (rest : list token) :
  a_cast a = None ->
  a_param a = false ->
  infer_columns_refs fuel st
    (Ref [Step id None] ri1 a NoProj :: Ref [Step id None] ri2 a NoProj :: rest)
  = match inferQE fuel st (Ref [Step id None] ri1 a NoProj) true None false false with
    | Ok _ => Err (DuplicateElement (column_key a id))
    | Err e => Err e
    end.
Proof.
  intros Hcast Hparam. cbn [Infer.infer_columns_refs]. rewrite Hparam.
  destruct (inferQE fuel st (Ref [Step id None] ri1 a NoProj) true None false false)
    as [[c1 st1]|e] eqn:E1; [|reflexivity].
  cbn [bind].
  destruct (@accepted_column_is_present _ _ _ _ _ _ _ Hcast Hparam E1)
    as (Hkey & lk & segs & pseudo & art & Hstep).
  destruct fuel as [|fuel]; [discriminate|].
  unfold Infer.inferQE. cbn [inferQueryElement]. rewrite Hparam.
  rewrite (@single_step_walk _ id a (isJoinRelevant ri2) st st1 Hcast).
  rewrite Hstep, Hkey. reflexivity.
Qed.

End Twice.

(** X21, witness: [SELECT title, title from Books]. *)
Lemma same_column_twice_is_rejected_witness :
  infer_columns_refs Bookshop.pseudo_elements Bookshop.merge_none
    Bookshop.no_expand Bookshop.no_inline Bookshop.bookshop
    [("Books", Bookshop.Books)] []
    (inferCombinedElements [("Books", Bookshop.Books)]) 5 (IState [] ["Books"])
    [ref_ ["title"]; ref_ ["title"]]
  = Err (DuplicateElement "title").
Proof.
  exact (@same_column_twice_is_rejected Bookshop.pseudo_elements
           Bookshop.join_tree Bookshop.merge_none Bookshop.no_expand
           Bookshop.no_inline Bookshop.bookshop [("Books", Bookshop.Books)] []
           (inferCombinedElements [("Books", Bookshop.Books)]) 5
           (IState [] ["Books"]) "title" no_attrs no_info no_info []
           eq_refl eq_refl).
Defined.

Section Columns.

Variable m : model.
Variable foreignKeys : def -> list string.
Variable pseudos : list (string * def).
Variable srcs : sources.
Variable combinedElements : list (string * list combined).
Variable localized_query : bool.
Variable JoinTree : Type.
Variable addNextAvailableTableAlias : string -> JoinTree -> string * JoinTree.
Variable transformSubquery : token -> result token.
Variable calculateOnCondition :
  refLink -> refLink -> bool -> list ctoken -> result (list token).
Variable expandColumn : token -> JoinTree -> result (token * JoinTree).
Variable nestedProjectionOnStructure : token -> result (list token).
Variable skippedByWildcard : def -> bool.
Variable isComposition : def -> bool.

Local Abbreviation transform_columns :=
  (Rewrite.transform_columns m foreignKeys pseudos srcs combinedElements
     localized_query addNextAvailableTableAlias transformSubquery
     calculateOnCondition expandColumn nestedProjectionOnStructure
     skippedByWildcard).
Local Abbreviation getTransformedColumns :=
  (Rewrite.getTransformedColumns m foreignKeys pseudos srcs combinedElements
     localized_query addNextAvailableTableAlias transformSubquery
     calculateOnCondition expandColumn nestedProjectionOnStructure
     skippedByWildcard isComposition).
Local Abbreviation transformFrom_ref :=
  (Rewrite.transformFrom_ref m foreignKeys pseudos srcs combinedElements
     localized_query addNextAvailableTableAlias transformSubquery
     calculateOnCondition).

Lemma virtual_columns_vanish (fuel : nat) (excluding : option (list string))
    (rest : list token) :
  forall (before transformedColumns : list token) (jt : JoinTree),
    forallb (virtual_column pseudos combinedElements) rest = true ->
    transform_columns fuel excluding before rest transformedColumns jt
    = Ok (transformedColumns, jt).
Proof.
  induction rest as [|col rest IH]; intros before tc jt H; [reflexivity|].
  cbn [forallb] in H. apply andb_prop in H. destruct H as [Hcol H].
  cbn [Rewrite.transform_columns].
  destruct col as [|steps ri a [| |]| | | | |]; try discriminate Hcol.
  cbn [virtual_column] in Hcol.
  apply andb_prop in Hcol. destruct Hcol as [Hcol Hvirtual].
  apply andb_prop in Hcol. destruct Hcol as [Hcol Hsource].
  apply andb_prop in Hcol. destruct Hcol as [Hpseudo Hparam].
  apply negb_true_iff in Hpseudo, Hparam. rewrite Hpseudo, Hparam.
  unfold flat_columns_of_ref.
  destruct (getQuerySourceName combinedElements (Ref steps ri a NoProj) None)
    as [t|]; [|discriminate Hsource].
  cbn [bind]. destruct (last_opt (refLinks ri)) as [leaf|]; [|discriminate].
  cbn [of_option bind]. rewrite Hvirtual. cbn [bind fold_left].
  apply IH. exact H.
Qed.

Lemma composition_leaf (columns : list token) :
  existsb (fun c => match c with
                    | Ref _ ri _ _ =>
                        match last_opt (refLinks ri) with
                        | Some l => isComposition (l_definition l)
                        | None => false
                        end
                    | _ => false
                    end) columns
  = existsb (fun c => match leaf_of c with
                      | Some d => isComposition d
                      | None => false
                      end) columns.
Proof.
  induction columns as [|c l IH]; [reflexivity|].
  cbn [existsb]. rewrite IH. f_equal.
  destruct c as [|steps ri a proj| | | | |]; try reflexivity.
  cbn [leaf_of]. destruct (last_opt (refLinks ri)); reflexivity.
Qed.

(** X22: a list of columns that are all plain references to virtual
    elements (and no managed composition) leaves no column, and the
    rewrite of the columns fails with EmptyProjection. *)
Theorem only_virtual_columns_is_rejected (fuel : nat)
    (excluding : option (list string)) (col : token) (more : list token)
    (jt : JoinTree) :
  forallb (virtual_column pseudos combinedElements) (col :: more) = true ->
  existsb (fun c => match leaf_of c with
                    | Some d => isComposition d
                    | None => false
                    end) (col :: more) = false ->
  getTransformedColumns fuel excluding (col :: more) jt = Err EmptyProjection.
Proof.
  intros H Hcomp. unfold Rewrite.getTransformedColumns.
  rewrite (virtual_columns_vanish fuel excluding _ [] [] jt H). cbn [bind].
  rewrite composition_leaf, Hcomp. reflexivity.
Qed.

(** X23: a [from] reference of a single step without a filter stays a
    reference of one step: the name of the (localized) target of the
    step, with the alias [as] or else the last segment of the name of
    the definition; the [where] of the query is handed back as it is and
    no table alias is taken. *)
Theorem entity_in_from_is_kept (fuel : nat) (name : string) (leaf : refLink)
    (flat : option string) (joinRelevant : bool) (as_name : option string)
    (existingWhere : list token) (jt : JoinTree) :
  transformFrom_ref fuel [Step name None] (RefInfo [leaf] flat joinRelevant)
    as_name existingWhere jt
  = Ok (TransformedFrom (Some existingWhere)
          (SrcRef [plain (localized m localized_query (l_target leaf))]
                  (RefInfo [leaf] None false)
                  (Some (alias_of as_name (d_name (l_definition leaf))))),
        jt).
Proof.
  unfold Rewrite.transformFrom_ref.
  cbn [rev app length from_steps refLinks nth_error of_option bind].
  destruct (isAssociation (l_definition leaf));
    cbn [bind nth_error of_option step_where app];
    unfold alias_of; destruct (truthy_name as_name);
    cbn [bind]; destruct existingWhere as [|t w];
    cbn [glue_conditions rev app]; rewrite ?app_nil_r; reflexivity.
Qed.

End Columns.

(** X22, witness: [SELECT note from Drafts], [note] being virtual. *)
Lemma only_virtual_columns_is_rejected_witness :
  getTransformedColumns (Model [("Drafts", Drafts)]) Bookshop.fk_names
    Bookshop.pseudo_elements [("Drafts", Drafts)]
    (inferCombinedElements [("Drafts", Drafts)]) false Bookshop.add_alias
    (fun t => Ok t)
    (Bookshop.no_on_condition (Model [("Drafts", Drafts)]))
    (Bookshop.no_expand_column (Model [("Drafts", Drafts)]))
    (Bookshop.no_nested (Model [("Drafts", Drafts)]))
    Bookshop.none_skipped Bookshop.none_skipped 5 None [note_ref] ["Drafts"]
  = Err EmptyProjection.
Proof.
  apply only_virtual_columns_is_rejected; reflexivity.
Defined.

(** *** Paths after [exists] *)

Section ExistsPath.

Variable m : model.
Variable foreignKeys : def -> list string.
Variable pseudos : list (string * def).
Variable srcs : sources.
Variable combinedElements : list (string * list combined).
Variable localized_query : bool.
Variable JoinTree : Type.
Variable addNextAvailableTableAlias : string -> JoinTree -> string * JoinTree.
Variable transformSubquery : token -> result token.
Variable calculateOnCondition :
  refLink -> refLink -> bool -> list ctoken -> result (list token).

Local Abbreviation exists_path :=
  (Statements.exists_path m foreignKeys pseudos srcs combinedElements
     localized_query addNextAvailableTableAlias transformSubquery
     calculateOnCondition).
Local Abbreviation exists_path_shape :=
  (Statements.exists_path_shape m localized_query).
Local Abbreviation exists_steps :=
  (Rewrite.exists_steps m foreignKeys combinedElements localized_query
     addNextAvailableTableAlias calculateOnCondition).
Local Abbreviation tts :=
  (getTransformedTokenStream m foreignKeys pseudos srcs combinedElements
     localized_query addNextAvailableTableAlias transformSubquery
     calculateOnCondition).


Lemma exists_path_cons (fuel : nat) (step_ : step) (steps : list step)
    (next1 : refLink) (links : list refLink) (current : refLink) (jt : JoinTree) :
  exists_path fuel (step_ :: steps) (next1 :: links) current jt
  = (let '(as_name, jt1) :=
       addNextAvailableTableAlias (after_last_dot (l_alias next1)) jt in
     '(sub, jt2) <-
       exists_subquery m foreignKeys pseudos srcs combinedElements
         localized_query addNextAvailableTableAlias transformSubquery
         calculateOnCondition fuel current (set_alias as_name next1)
         (step_where step_) true jt1 ;;
     '(subs, jt3) <- exists_path fuel steps links (set_alias as_name next1) jt2 ;;
     Ok (sub :: subs, jt3)).
Proof. reflexivity. Qed.

Lemma exists_steps_path (fuel : nat) (suffix : list step) :
  forall (links prefix_links : list refLink) (prefix : list step)
         (current : refLink) (base : option refLink)
         (subs : list subselect) (jt : JoinTree) (k : nat),
    length prefix = S (length prefix_links) ->
    length suffix = length links ->
    forallb (fun l => negb (isStructured (l_definition l))) links = true ->
    exists_steps (tts fuel) fuel (length suffix + k) (length prefix)
      (prefix ++ suffix) ((prefix_links ++ [current]) ++ links) base false
      subs jt
    = ('(subs', jt') <- exists_path fuel suffix links current jt ;;
       Ok (subs ++ subs', jt')).
Proof.
  induction suffix as [|s suffix IH];
    intros links pl pr current base subs jt k Hpre Hlen Hplain.
  - destruct links; [|discriminate]. cbn [length plus exists_path bind].
    rewrite !app_nil_r.
    destruct k; cbn [Rewrite.exists_steps];
      rewrite (proj2 (nth_error_None pr (length pr))) by lia; reflexivity.
  - destruct links as [|y links]; [discriminate|].
    cbn [forallb] in Hplain. apply andb_prop in Hplain.
    destruct Hplain as [Hy Hplain]. apply negb_true_iff in Hy.
    cbn [length plus Rewrite.exists_steps].
    rewrite Properties.nth_error_middle. rewrite andb_false_r.
    rewrite Hpre.
    replace (nth_error ((pl ++ [current]) ++ y :: links) (length pl))
      with (Some current).
    2:{ rewrite <- app_assoc. cbn [app]. symmetry. apply Properties.nth_error_middle. }
    cbn [of_option bind].
    replace (S (length pl)) with (length (pl ++ [current]))
      by (rewrite length_app; cbn; lia).
    rewrite Properties.nth_error_middle. cbn [of_option bind]. rewrite Hy.
    rewrite Properties.nth_error_middle. cbn [of_option bind].
    rewrite exists_path_cons.
    destruct (addNextAvailableTableAlias (after_last_dot (l_alias y)) jt)
      as [as_name jt1].
    rewrite Properties.list_update_app.
    unfold exists_subquery.
    destruct (getWhereExistsSubquery _ _ _ _ _ _ _ _ _ _ _ _)
      as [[sub jt2]|e]; [|reflexivity].
    cbn [bind].
    replace (pr ++ s :: suffix) with ((pr ++ [s]) ++ suffix)
      by (rewrite <- app_assoc; reflexivity).
    replace (S (length (pl ++ [current]))) with (length (pr ++ [s]))
      by (rewrite !length_app; cbn; lia).
    replace ((pl ++ [current]) ++ set_alias as_name y :: links)
      with (((pl ++ [current]) ++ [set_alias as_name y]) ++ links)
      by (rewrite <- app_assoc; reflexivity).
    rewrite (IH links (pl ++ [current]) (pr ++ [s]) (set_alias as_name y));
      [ | rewrite !length_app; cbn; lia | cbn in Hlen; lia | exact Hplain ].
    destruct (exists_path fuel suffix links (set_alias as_name y) jt2)
      as [[subs' jt3]|e]; [|reflexivity].
    cbn [bind]. rewrite <- app_assoc. reflexivity.
Qed.

Lemma exists_steps_start (fuel : nat) (steps : list step)
    (links : list refLink) (jt : JoinTree) :
  length steps = length links ->
  forallb (fun l => negb (isStructured (l_definition l))) links = true ->
  exists_steps (tts fuel) fuel (S (length steps)) 0 steps links None false [] jt
  = match steps, links with
    | s1 :: _, first :: _ =>
        match assoc (step_id s1) combinedElements with
        | Some (c :: _) =>
            exists_path fuel steps links
              (link (l_target first) (l_target first) (index c)) jt
        | _ => Err (TypeError "$combinedElements")
        end
    | _, _ => Ok ([], jt)
    end.
Proof.
  intros Hlen Hplain.
  destruct steps as [|s1 rest]; [reflexivity|].
  destruct links as [|first lrest]; [discriminate|].
  cbn [forallb] in Hplain. apply andb_prop in Hplain.
  destruct Hplain as [Hfirst Hplain]. apply negb_true_iff in Hfirst.
  cbn [length]. remember (S (length rest)) as n' eqn:Hn.
  cbn [Rewrite.exists_steps nth_error Nat.eqb andb of_option bind].
  destruct (assoc (step_id s1) combinedElements) as [[|c cs]|]; try reflexivity.
  cbn [bind]. rewrite Hfirst. cbn [nth_error of_option bind list_update].
  rewrite exists_path_cons.
  destruct (addNextAvailableTableAlias (after_last_dot (l_alias first)) jt)
    as [as_name jt1].
  unfold exists_subquery.
  destruct (getWhereExistsSubquery _ _ _ _ _ _ _ _ _ _ _ _)
    as [[sub jt2]|e]; [|reflexivity].
  cbn [bind].
  pose proof (@exists_steps_path fuel rest lrest [] [s1] (set_alias as_name first)
                None ([] ++ [sub]) jt2 1 eq_refl) as Hrest.
  cbn [app length] in Hrest.
  replace (length rest + 1) with n' in Hrest by lia.
  cbn [app]. rewrite Hrest; [|cbn in Hlen; lia|exact Hplain].
  destruct (exists_path fuel rest lrest (set_alias as_name first) jt2)
    as [[subs' jt3]|e]; reflexivity.
Qed.

Lemma exists_subquery_shape (fuel : nat) (current next : refLink)
    (customWhere : option (list token)) (inWhere : bool) (jt jt' : JoinTree)
    (sub : subselect) :
  exists_subquery m foreignKeys pseudos srcs combinedElements localized_query
    addNextAvailableTableAlias transformSubquery calculateOnCondition fuel
    current next customWhere inWhere jt = Ok (sub, jt') ->
  exists_select m localized_query next customWhere sub.
Proof.
  unfold exists_subquery, getWhereExistsSubquery, exists_select.
  match goal with
  | |- (x <- ?c ;; _) = _ -> _ => destruct c as [on|e]; [|discriminate]
  end.
  cbn [bind]. destruct customWhere as [w|].
  - match goal with
    | |- context [getTransformedTokenStream ?a ?b ?c ?d ?e ?f ?g ?h ?i ?j ?k ?l ?n] =>
        destruct (getTransformedTokenStream a b c d e f g h i j k l n)
          as [[filter jt2]|err]; [|discriminate]
    end.
    cbn [bind]. intros H. injection H as <- _. cbn.
    repeat split. exists on. eexists. reflexivity.
  - cbn [bind]. intros H. injection H as <- _. cbn.
    repeat split. exists on. reflexivity.
Qed.

Lemma exists_path_has_shape (fuel : nat) (steps : list step) :
  forall (links : list refLink) (current : refLink) (jt jt' : JoinTree)
         (subs : list subselect),
    length steps = length links ->
    exists_path fuel steps links current jt = Ok (subs, jt') ->
    exists_path_shape steps links subs /\ length subs = length steps.
Proof.
  induction steps as [|s steps IH]; intros links current jt jt' subs Hlen H.
  - cbn in H. injection H as <- _. split; reflexivity.
  - destruct links as [|y links]; [discriminate|].
    rewrite exists_path_cons in H.
    destruct (addNextAvailableTableAlias (after_last_dot (l_alias y)) jt)
      as [as_name jt1].
    bind_ok H p E. destruct p as [sub jt2].
    bind_ok H q E2. destruct q as [subs' jt3]. injection H as <- _.
    apply exists_subquery_shape in E.
    apply IH in E2; [|cbn in Hlen; lia]. destruct E2 as [Hshape Hcount].
    split; [|cbn [length]; lia].
    cbn [exists_path_shape]. split; [exists as_name; exact E|exact Hshape].
Qed.

Local Abbreviation stream_step :=
  (Rewrite.stream_step m foreignKeys pseudos srcs combinedElements
     localized_query addNextAvailableTableAlias transformSubquery
     calculateOnCondition).
Local Abbreviation stream_loop :=
  (Rewrite.stream_loop m foreignKeys pseudos srcs combinedElements
     localized_query addNextAvailableTableAlias transformSubquery
     calculateOnCondition).

Lemma literal_run (rec : stream_fun JoinTree) (fuel : nat)
    (rest : list token) (jt : JoinTree) (n : nat) (post : list token) :
  forall (before tw : list token),
    forallb literal_token post = true ->
    stream_loop rec fuel (length post + n) (before ++ post ++ rest) None
      (length before) tw jt
    = stream_loop rec fuel n (before ++ post ++ rest) None
        (length before + length post) (tw ++ post) jt.
Proof.
  induction post as [|t post IH]; intros before tw H.
  - cbn [length plus app]. rewrite Nat.add_0_r, app_nil_r. reflexivity.
  - cbn [forallb] in H. apply andb_prop in H. destruct H as [Ht H].
    cbn [length plus]. rewrite Properties.stream_loop_step.
    cbn [app]. rewrite Properties.nth_error_middle.
    rewrite (@literal_step m foreignKeys pseudos srcs combinedElements
               localized_query JoinTree addNextAvailableTableAlias
               transformSubquery calculateOnCondition rec fuel
               (before ++ t :: post ++ rest) (length before) t tw jt Ht).
    cbn [bind].
    specialize (IH (before ++ [t]) (tw ++ [t]) H).
    rewrite <- !app_assoc in IH. cbn [app] in IH.
    rewrite length_app in IH. cbn [length] in IH.
    replace (length before + 1) with (S (length before)) in IH by lia.
    rewrite IH. f_equal. lia.
Qed.

Lemma array_set_end (x : token) (l : list token) :
  array_set (length l) x l = l ++ [x].
Proof. induction l as [|y l IH]; cbn; [reflexivity|]. rewrite IH. reflexivity. Qed.

(** X24: [exists <path>] in a [where] or [having] (after and before
    keywords and values), for a path whose steps are no structures and
    whose first step is no table alias, becomes [exists] followed by one
    subquery: every step of the path, in step order, is one
    [SELECT 1 from <target of the step> as <new alias> where <on>
    [and <filter of the step>]], and each is nested into the [where] of
    the one before it under [and exists]. *)
Theorem exists_path_becomes_nested_subqueries (fuel : nat)
    (pre rest : list token) (steps : list step) (ri : refinfo) (a : attrs)
    (proj : projection) (jt jt' : JoinTree) (out : list token) :
  forallb literal_token pre = true ->
  forallb literal_token rest = true ->
  length steps = length (refLinks ri) ->
  match steps with
  | s :: _ => step_is "$self" s || step_is "$projection" s
  | [] => false
  end = false ->
  match steps with s :: _ :: _ => step_in srcs s | _ => false end = false ->
  forallb (fun l => negb (isStructured (l_definition l))) (refLinks ri) = true ->
  tts (S fuel) (pre ++ Kw "exists" :: Ref steps ri a proj :: rest) None jt
  = Ok (out, jt') ->
  exists (subs : list subselect) (chain : subselect),
    exists_path_shape steps (refLinks ri) subs
    /\ length subs = length steps
    /\ nest subs = Some chain
    /\ out = pre ++ Kw "exists" :: exists_token chain :: rest.
Proof.
  intros Hpre Hrest Hlen Hself Halias Hplain H.
  cbn [getTransformedTokenStream] in H.
  rewrite length_app in H. cbn [length] in H.
  pose proof (@literal_run (tts fuel) fuel (Kw "exists" :: Ref steps ri a proj :: rest)
                jt (S (S (length rest))) pre [] [] Hpre) as Hp.
  cbn [app length plus] in Hp. rewrite Hp in H. clear Hp.
  rewrite Properties.stream_loop_step in H.
  rewrite Properties.nth_error_middle in H.
  unfold Rewrite.stream_step at 1 in H. cbn [is_kw eqs String.eqb Ascii.eqb Bool.eqb] in H.
  assert (Hnext : nth_error (pre ++ Kw "exists" :: Ref steps ri a proj :: rest)
                            (length pre + 1)
                  = Some (Ref steps ri a proj)).
  { replace (pre ++ Kw "exists" :: Ref steps ri a proj :: rest)
      with ((pre ++ [Kw "exists"]) ++ Ref steps ri a proj :: rest)
      by (rewrite <- app_assoc; reflexivity).
    replace (length pre + 1) with (length (pre ++ [Kw "exists"]))
      by (rewrite length_app; reflexivity).
    apply Properties.nth_error_middle. }
  rewrite Hnext, Hself, Halias in H.
  rewrite (exists_steps_start fuel steps (refLinks ri) jt Hlen Hplain) in H.
  bind_ok H p E. destruct p as [[i' tw'] jt1].
  bind_ok E q Epath. destruct q as [subs jt2].
  rewrite Properties.whereExistsSubqueries_nest in E.
  destruct (nest subs) as [chain|] eqn:Hnest; [|discriminate].
  cbn [of_option bind] in E. injection E as <- <- <-.
  replace (length pre + 1) with (length (pre ++ [Kw "exists"])) in H
    by (rewrite length_app; reflexivity).
  rewrite array_set_end in H.
  pose proof (@literal_run (tts fuel) fuel [] jt2 1 rest
                (pre ++ [Kw "exists"; Ref steps ri a proj])
                ((pre ++ [Kw "exists"]) ++ [exists_token chain]) Hrest) as Hr.
  rewrite app_nil_r in Hr. rewrite <- !app_assoc in Hr. cbn [app] in Hr.
  rewrite !length_app in Hr. cbn [length] in Hr.
  rewrite !length_app in H. cbn [length] in H.
  replace (S (length rest)) with (length rest + 1) in H by lia.
  replace (S (length pre + 1)) with (length pre + 2) in H by lia.
  rewrite <- !app_assoc in H. cbn [app] in H.
  rewrite Hr in H. clear Hr.
  rewrite Properties.stream_loop_end in H.
  2:{ apply nth_error_None. rewrite length_app. cbn [length]. lia. }
  injection H as <- _.
  exists subs, chain.
  assert (Hshape : exists_path_shape steps (refLinks ri) subs
                   /\ length subs = length steps).
  { destruct steps as [|s1 srest]; [injection Epath as <- _; discriminate Hnest|].
    destruct (refLinks ri) as [|first lrest]; [discriminate Hlen|].
    destruct (assoc (step_id s1) combinedElements) as [[|c cs]|];
      try discriminate Epath.
    eapply exists_path_has_shape; [exact Hlen|exact Epath]. }
  destruct Hshape as [Hshape Hcount].
  repeat split; try assumption.
Qed.

End ExistsPath.

(** X24, witness: [where exists book.author] in a query on [Chapters]
    becomes [exists (SELECT 1 from Books as book where book.ID =
    Chapters.book_ID and exists (SELECT 1 from Authors as author where
    author.ID = book.author_ID))]. *)
Lemma exists_path_becomes_nested_subqueries_witness :
  exists out jt',
    transform_where_Chapters [Kw "exists"; book_author_ref] = Ok (out, jt')
    /\ exists (subs : list subselect) (chain : subselect),
         exists_path_shape chapters false [plain "book"; plain "author"]
           book_author_links subs
         /\ length subs = 2
         /\ nest subs = Some chain
         /\ out = [Kw "exists"; exists_token chain].
Proof.
  eexists. eexists. split; [vm_compute; reflexivity|].
  eapply exists_path_becomes_nested_subqueries
    with (m := chapters) (foreignKeys := Bookshop.fk_names)
         (pseudos := Bookshop.pseudo_elements) (srcs := [("Chapters", Chapters)])
         (combinedElements := inferCombinedElements [("Chapters", Chapters)])
         (addNextAvailableTableAlias := Bookshop.add_alias)
         (transformSubquery := fun t => Ok t)
         (calculateOnCondition := Bookshop.no_on_condition chapters)
         (fuel := 9) (pre := []) (rest := [])
         (steps := [plain "book"; plain "author"])
         (ri := RefInfo book_author_links (Some "book_author") false)
         (a := no_attrs) (proj := NoProj) (jt := ["Chapters"]);
    [reflexivity | reflexivity | reflexivity | reflexivity | reflexivity
    | reflexivity | vm_compute; reflexivity].
Defined.

(** The subquery of the witness. *)
Example scenario_exists_path :
  option_map fst
    (match transform_where_Chapters [Kw "exists"; book_author_ref] with
     | Ok r => Some r
     | Err _ => None
     end)
  = Some [Kw "exists";
          exists_token
            (SubSelect "Books" "book"
               [flat_ref ["book"; "ID"] no_attrs; Kw "=";
                flat_ref ["Chapters"; "book_ID"] no_attrs;
                Kw "and"; Kw "exists";
                exists_token
                  (SubSelect "Authors" "author"
                     [flat_ref ["author"; "ID"] no_attrs; Kw "=";
                      flat_ref ["book"; "author_ID"] no_attrs])])].
Proof. vm_compute. reflexivity. Qed.

Lemma no_dot_append (a b : string) :
  no_dot (a ++ b) = no_dot a && no_dot b.
Proof.
  induction a as [|c a IH]; [reflexivity|].
  cbn. rewrite IH, andb_assoc. reflexivity.
Qed.

Lemma after_last_dot_aux_no_dot (s : string) :
  forall acc, no_dot acc = true -> no_dot (after_last_dot_aux s acc) = true.
Proof.
  induction s as [|c s IH]; intros acc H; [exact H|].
  cbn [after_last_dot_aux]. destruct (Ascii.eqb c ".") eqn:E.
  - apply IH. reflexivity.
  - apply IH. rewrite no_dot_append, H. cbn. rewrite E. reflexivity.
Qed.

Lemma after_last_dot_aux_plain (s : string) :
  forall acc, no_dot s = true -> after_last_dot_aux s acc = (acc ++ s)%string.
Proof.
  induction s as [|c s IH]; intros acc H.
  - cbn. clear. induction acc as [|x acc IH]; [reflexivity|]. cbn. rewrite <- IH. reflexivity.
  - cbn in H. apply andb_prop in H. destruct H as [Hc H].
    apply negb_true_iff in Hc. cbn [after_last_dot_aux]. rewrite Hc.
    rewrite (IH _ H). clear. induction acc as [|x acc IH]; [reflexivity|].
    cbn. rewrite IH. reflexivity.
Qed.

Lemma after_last_dot_again (s : string) :
  after_last_dot (after_last_dot s) = after_last_dot s.
Proof.
  unfold after_last_dot at 1.
  rewrite after_last_dot_aux_plain; [reflexivity|].
  apply after_last_dot_aux_no_dot. reflexivity.
Qed.

(** *** Dictionaries without a key twice *)

Lemma assoc_not_in {A} (k : string) (l : list (string * A)) :
  ~ In k (map fst l) -> assoc k l = None.
Proof.
  induction l as [|[k0 v] l IH]; intros H; [reflexivity|].
  cbn [assoc]. destruct (eqs k k0) eqn:Ek.
  - apply String.eqb_eq in Ek. subst. exfalso. apply H. left. reflexivity.
  - apply IH. intros Hin. apply H. right. exact Hin.
Qed.

Lemma assoc_in_unique {A} (k : string) (v : A) (l : list (string * A)) :
  NoDup (map fst l) -> In (k, v) l -> assoc k l = Some v.
Proof.
  induction l as [|[k0 v0] l IH]; intros Hnd Hin; [destruct Hin|].
  inversion Hnd as [|x xs Hnotin Hnd']. subst. cbn [assoc].
  destruct Hin as [Heq|Hin].
  - injection Heq as -> ->. unfold eqs. rewrite String.eqb_refl. reflexivity.
  - destruct (eqs k k0) eqn:Ek; [|apply IH; assumption].
    apply String.eqb_eq in Ek. subst. exfalso. apply Hnotin.
    change k0 with (fst (k0, v)). apply in_map. exact Hin.
Qed.

Lemma add_combined_fresh (k : string) (c : combined)
    (ce : list (string * list combined)) :
  assoc k ce = None -> add_combined k c ce = ce ++ [(k, [c])].
Proof.
  induction ce as [|[k0 l] ce IH]; intros H; [reflexivity|].
  cbn [assoc] in H. cbn [add_combined app].
  destruct (eqs k k0); [discriminate|]. rewrite (IH H). reflexivity.
Qed.

Lemma combined_of_one_source (c : combined) (els : list (string * def)) :
  forall acc : list (string * list combined),
    NoDup (map fst acc ++ map fst els) ->
    fold_left (fun ce e => add_combined (fst e) c ce) els acc
    = acc ++ map (fun e => (fst e, [c])) els.
Proof.
  induction els as [|[k d] els IH]; intros acc Hnd.
  - cbn. rewrite app_nil_r. reflexivity.
  - cbn [fold_left map fst]. rewrite add_combined_fresh.
    + rewrite IH.
      * rewrite <- app_assoc. reflexivity.
      * rewrite map_app, <- app_assoc. exact Hnd.
    + apply assoc_not_in. intros Hin.
      cbn [map fst] in Hnd. apply NoDup_remove_2 in Hnd. apply Hnd.
      apply in_or_app. left. exact Hin.
Qed.

(** *** A plain projection from an entity *)

Section PlainSelect.

Variable pseudos : list (string * def).
Variable foreignKeys : def -> list string.
Variable skippedByWildcard isComposition : def -> bool.
Variable JoinTree : Type.
Variable newJoinTree : sources -> JoinTree.
Variable mergeColumn : list step -> list refLink -> JoinTree -> list refLink * JoinTree.
Variable addNextAvailableTableAlias : string -> JoinTree -> string * JoinTree.
Variable isInitial : JoinTree -> bool.
Variable translateAssocsToJoins : model -> JoinTree -> source -> result source.
Variable resolveExpand : token -> result element.
Variable resolveInline : token -> result (list (string * element)).
Variable calculateOnCondition :
  model -> refLink -> refLink -> bool -> list ctoken -> result (list token).
Variable expandColumn : model -> token -> JoinTree -> result (token * JoinTree).
Variable nestedProjectionOnStructure : model -> token -> result (list token).

Variable m : model.
Variable name : string.
Variable E : def.
Variable els : list (string * def).
Hypothesis E_elements : d_elements E = Some els.
Hypothesis els_unique : NoDup (map fst els).

Let alias : string := after_last_dot name.
Let srcs : sources := [(alias, E)].
Let ce := inferCombinedElements srcs.

Lemma combined_single (id : string) (d : def) :
  assoc id els = Some d ->
  assoc id ce = Some [Combined alias E].
Proof.
  intros Hd. unfold ce, inferCombinedElements, srcs.
  rewrite (@assoc_combined_from id [(alias, E)]).
  2:{ constructor; [|constructor]. unfold element_names. cbn [snd].
      rewrite E_elements. exact els_unique. }
  cbn [assoc]. unfold sources_with. cbn [filter snd]. unfold element_names.
  rewrite E_elements.
  replace (existsb (eqs id) (map fst els)) with true; [reflexivity|].
  symmetry. clear - Hd. induction els as [|[k v] l IH]; [discriminate|].
  cbn [assoc] in Hd. cbn [map fst existsb].
  destruct (eqs id k); [reflexivity|]. cbn [orb]. apply IH. exact Hd.
Qed.

Lemma scalar_column_inv (id : string) :
  scalar_column pseudos els id = true ->
  eqs id "" = false /\ eqs id "$user" = false /\ assoc id pseudos = None
  /\ exists d, assoc id els = Some d /\ is_scalar d = true.
Proof.
  unfold scalar_column, has_key. intros H.
  apply andb_prop in H. destruct H as [H Hd].
  apply andb_prop in H. destruct H as [H Hp].
  apply andb_prop in H. destruct H as [He Hu].
  apply negb_true_iff in He, Hu, Hp.
  repeat split; try assumption.
  - destruct (assoc id pseudos); [discriminate|reflexivity].
  - destruct (assoc id els) as [d|]; [|discriminate]. exists d. auto.
Qed.

Lemma is_scalar_inv (d : def) :
  is_scalar d = true ->
  d_kind d = KElement /\ d_elements d = None /\ d_target d = None
  /\ d_keys d = None /\ d_on d = None /\ d_virtual d = false.
Proof.
  unfold is_scalar. intros H. apply andb_prop in H. destruct H as [Hk H].
  destruct (d_elements d); [discriminate|].
  destruct (d_target d); [discriminate|].
  destruct (d_keys d); [discriminate|].
  destruct (d_on d); [discriminate|].
  apply negb_true_iff in H.
  destruct (d_kind d); try discriminate. auto 10.
Qed.

Lemma scalar_single_step (id : string) (d : def) (st0 : istate JoinTree) :
  scalar_column pseudos els id = true ->
  assoc id els = Some d ->
  single_step pseudos m srcs [] ce id no_attrs st0
  = Ok (link d E (after_last_dot id), [id], false, Some d).
Proof.
  intros H Hd. apply scalar_column_inv in H.
  destruct H as (He & Hu & Hp & _).
  unfold single_step, resolve_first, firstStepIsSelf, firstStepIsTableAlias.
  cbn [is_inline]. rewrite Hp, !andb_false_r. cbn [find].
  rewrite (@combined_single id d Hd). cbn [tableAlias]. rewrite E_elements.
  cbn [of_option bind]. rewrite Hd. cbn [of_option bind]. rewrite Hu.
  cbn [bind a_as no_attrs truthy_name]. reflexivity.
Qed.

Local Abbreviation inferQE :=
  (Infer.inferQE pseudos mergeColumn resolveExpand resolveInline m srcs [] ce).

Lemma scalar_column_inferred (fuel : nat) (id : string) (d : def)
    (ri : refinfo) (st : istate JoinTree) :
  scalar_column pseudos els id = true ->
  assoc id els = Some d ->
  has_key id (queryElements st) = false ->
  isJoinRelevant ri = false ->
  inferQE (S fuel) st (Ref [Step id None] ri no_attrs NoProj) true None false false
  = Ok (linked_column E id d,
        IState (set_key id (getCopyWithAnnos no_attrs (EDef d)) (queryElements st))
               (joinTree st)).
Proof.
  intros H Hd Hkey Hri. pose proof H as H'. apply scalar_column_inv in H'.
  destruct H' as (He & Hu & Hp & d' & Hd' & Hscalar).
  rewrite Hd in Hd'. injection Hd' as <-.
  apply is_scalar_inv in Hscalar.
  destruct Hscalar as (Hkind & Hels & Htarget & Hkeys & Hon & Hvirtual).
  unfold Infer.inferQE. cbn [inferQueryElement a_param no_attrs].
  rewrite (@single_step_walk pseudos JoinTree resolveExpand
             resolveInline m srcs [] ce _ id
             (Attrs None None false None None []) (isJoinRelevant ri) st st eq_refl).
  change (Attrs None None false None None []) with no_attrs.
  rewrite (@scalar_single_step id d st H Hd).
  unfold column_key. cbn [a_as no_attrs truthy_name]. rewrite Hkey.
  cbn [bind w_links w_steps nameSegments w_joinRelevant w_state isPersisted
       last_opt rev app of_option is_expand andb l_definition link].
  rewrite Hvirtual.
  unfold target_of. rewrite Htarget. cbn [orb negb andb existsb].
  unfold isColumnJoinRelevant.
  rewrite loop_without_association.
  2:{ cbn [forallb l_definition link]. unfold isAssociation. rewrite Htarget. reflexivity. }
  cbn [join String.concat]. rewrite Hri. reflexivity.
Qed.

Local Abbreviation infer_columns_first :=
  (Infer.infer_columns_first pseudos mergeColumn resolveExpand resolveInline m
     srcs [] ce).
Local Abbreviation infer_columns_refs :=
  (Infer.infer_columns_refs pseudos mergeColumn resolveExpand resolveInline m
     srcs [] ce).

Lemma plain_columns_first (fuel : nat) (st : istate JoinTree) (ids : list string) :
  infer_columns_first fuel st (map (fun id => ref_ [id]) ids)
  = Ok (map (fun id => ref_ [id]) ids, st, false).
Proof.
  induction ids as [|id ids IH]; [reflexivity|].
  cbn [map Infer.infer_columns_first ref_ is_kw is_expression_column a_param no_attrs].
  cbn [map ref_] in IH. rewrite IH. reflexivity.
Qed.

Lemma has_key_set_key_other {A} (k k' : string) (v : A) (l : list (string * A)) :
  eqs k k' = false -> has_key k (set_key k' v l) = has_key k l.
Proof.
  intros H. unfold has_key. induction l as [|[k0 v0] l IH]; cbn [set_key assoc].
  - rewrite H. reflexivity.
  - destruct (eqs k' k0) eqn:E0; cbn [assoc]; destruct (eqs k k0) eqn:E1;
      try reflexivity; try exact IH.
Qed.

Lemma scalar_columns_refs (fuel : nat) (ids : list string) :
  forall st : istate JoinTree,
    NoDup ids ->
    forallb (scalar_column pseudos els) ids = true ->
    forallb (fun id => negb (has_key id (queryElements st))) ids = true ->
    exists st',
      infer_columns_refs (S fuel) st (map (fun id => ref_ [id]) ids)
      = Ok (map (linked E els) ids, st')
      /\ joinTree st' = joinTree st.
Proof.
  induction ids as [|id ids IH]; intros st Hnd Hall Hfresh.
  - exists st. split; reflexivity.
  - inversion Hnd as [|x l Hnotin Hnd']. subst.
    cbn [forallb] in Hall, Hfresh.
    apply andb_prop in Hall. destruct Hall as [Hid Hall].
    apply andb_prop in Hfresh. destruct Hfresh as [Hkey Hfresh].
    apply negb_true_iff in Hkey.
    destruct (scalar_column_inv id Hid) as (_ & _ & _ & d & Hd & _).
    cbn [map Infer.infer_columns_refs ref_ a_param no_attrs].
    change (ref_ [id]) with (Ref [Step id None] no_info no_attrs NoProj).
    rewrite (@scalar_column_inferred fuel id d no_info st Hid Hd Hkey eq_refl).
    cbn [bind].
    assert (Hfresh' : forallb (fun x => negb (has_key x
                        (queryElements
                           (IState (set_key id (getCopyWithAnnos no_attrs (EDef d))
                                      (queryElements st)) (joinTree st))))) ids
                      = true).
    { cbn [queryElements]. clear - Hfresh Hnotin.
      induction ids as [|x ids IH]; [reflexivity|].
      cbn [forallb] in Hfresh |- *. apply andb_prop in Hfresh.
      destruct Hfresh as [Hx Hfresh].
      rewrite has_key_set_key_other, Hx.
      - cbn [andb]. apply IH; [exact Hfresh|].
        intros Hin. apply Hnotin. right. exact Hin.
      - destruct (eqs x id) eqn:E; [|reflexivity].
        apply String.eqb_eq in E. subst x. exfalso. apply Hnotin. left. reflexivity. }
    destruct (IH _ Hnd' Hall Hfresh') as (st' & Hrun & Hjt).
    exists st'. split; [|exact Hjt].
    rewrite Hrun. cbn [bind map].
    unfold linked at 2. rewrite Hd. reflexivity.
Qed.

Hypothesis alias_nonempty : eqs alias "" = false.

Lemma scalar_flat_column (fuel : nat) (id : string) (d : def) :
  scalar_column pseudos els id = true ->
  assoc id els = Some d ->
  flat_columns_of_ref m foreignKeys ce (S fuel) (linked_column E id d)
  = Ok [flat_ref [alias; id] no_attrs].
Proof.
  intros H Hd. pose proof H as H'. apply scalar_column_inv in H'.
  destruct H' as (He & Hu & Hp & d' & Hd' & Hscalar).
  rewrite Hd in Hd'. injection Hd' as <-.
  apply is_scalar_inv in Hscalar.
  destruct Hscalar as (Hkind & Hels & Htarget & Hkeys & Hon & Hvirtual).
  unfold flat_columns_of_ref, linked_column, getQuerySourceName.
  cbn [refLinks isJoinRelevant l_definition link step_id]. rewrite Hkind.
  cbn [dkind_eqb orb]. rewrite (@combined_single id d Hd).
  cbn [index bind last_opt rev app of_option l_definition link].
  assert (Ha : after_last_dot alias = alias)
    by (unfold alias; apply after_last_dot_again).
  rewrite !Ha. rewrite Hvirtual.
  cbn [existsb l_definition link]. unfold target_of. rewrite Htarget.
  cbn [orb a_as no_attrs flatName]. unfold truthy_name at 1 2. rewrite He.
  assert (Hcol : match (if eqs id (join "_" (ids (if step_is alias (Step id None)
                                                  then tl [Step id None]
                                                  else [Step id None])))
                        then None
                        else Some (join "_" (ids (if step_is alias (Step id None)
                                                  then tl [Step id None]
                                                  else [Step id None]))))
                 with
                 | Some n => if eqs n "" then None else Some n
                 | None => None
                 end = None).
  { cbn [step_is]. destruct (eqs id alias); cbn [tl ids map step_id join String.concat].
    - rewrite He. reflexivity.
    - unfold eqs. rewrite String.eqb_refl. reflexivity. }
  unfold flatten, getFlatColumnsFor_new.
  cbn [alloc f_store length app set_store f_replace].
  cbn [getFlatColumnsFor flat_head last_opt rev app refLinks isJoinRelevant
       flatName l_definition link].
  rewrite Hon, Hvirtual. unfold truthy_name at 1. rewrite He.
  cbn [bind getReplacement find]. rewrite Hkeys, Hels.
  cbn [input_attrs token_attrs a_cast a_sort no_attrs a_as].
  unfold with_table. unfold truthy_name at 1. rewrite alias_nonempty.
  unfold truthy_name. rewrite Hcol.
  cbn [bind map resolve_leaf lc_token fc_token]. reflexivity.
Qed.

Lemma scalar_columns_flat (loc : bool) (ts : token -> result token)
    (fuel : nat) (excluding : option (list string))
    (jt : JoinTree) (ids : list string) :
  forall before acc : list token,
    forallb (scalar_column pseudos els) ids = true ->
    Rewrite.transform_columns m foreignKeys pseudos srcs ce loc
      addNextAvailableTableAlias ts (calculateOnCondition m) (expandColumn m)
      (nestedProjectionOnStructure m) skippedByWildcard
      (S fuel) excluding before (map (linked E els) ids) acc jt
    = Ok (acc ++ map (fun id => flat_ref [alias; id] no_attrs) ids, jt).
Proof.
  induction ids as [|id ids IH]; intros before acc Hall.
  - cbn [map Rewrite.transform_columns]. rewrite app_nil_r. reflexivity.
  - cbn [forallb] in Hall. apply andb_prop in Hall. destruct Hall as [Hid Hall].
    destruct (scalar_column_inv id Hid) as (He & Hu & Hp & d & Hd & Hs).
    cbn [map]. unfold linked at 1. rewrite Hd.
    unfold linked_column at 1. cbn [Rewrite.transform_columns].
    fold (linked_column E id d).
    unfold step_in, has_key. rewrite Hp. cbn [a_param no_attrs].
    rewrite (@scalar_flat_column fuel id d Hid Hd).
    cbn [bind fold_left flat_ref token_attrs a_as no_attrs truthy_name].
    rewrite (IH _ _ Hall). rewrite <- app_assoc. reflexivity.
Qed.

Lemma scalar_columns_transformed (loc : bool) (ts : token -> result token)
    (fuel : nat) (excluding : option (list string))
    (jt : JoinTree) (ids : list string) :
  forallb (scalar_column pseudos els) ids = true ->
  getTransformedColumns m foreignKeys pseudos srcs ce loc
    addNextAvailableTableAlias ts (calculateOnCondition m) (expandColumn m)
    (nestedProjectionOnStructure m) skippedByWildcard isComposition
    (S fuel) excluding (map (linked E els) ids) jt
  = Ok (map (fun id => flat_ref [alias; id] no_attrs) ids, jt).
Proof.
  intros Hall. unfold getTransformedColumns.
  rewrite (@scalar_columns_flat loc ts fuel excluding jt ids [] [] Hall).
  cbn [bind app]. destruct ids; reflexivity.
Qed.

Hypothesis E_found : assoc name (definitions m) = Some E.
Hypothesis E_entity : d_kind E = KEntity.

Lemma plain_select_inferred (loc : bool) (fuel : nat) (ids : list string) :
  NoDup ids ->
  forallb (scalar_column pseudos els) ids = true ->
  exists qe,
    infer pseudos newJoinTree mergeColumn resolveExpand resolveInline foreignKeys
      (S (S fuel)) []
      (plain_select loc (SrcRef [plain name] no_info None)
         (map (fun id => ref_ [id]) ids))
      (Some m)
    = Ok (Inferred
            (plain_select loc
               (SrcRef [plain name] (RefInfo [link E E alias] None false) None)
               (map (linked E els) ids))
            srcs ce qe (Some (newJoinTree srcs))).
Proof.
  intros Hnd Hall.
  cbn [infer plain_select is_SET sel_from inferTarget plain step_id].
  unfold getDefinition. rewrite E_found.
  cbn [of_option bind target_of_path]. rewrite E_entity.
  cbn [dkind_eqb negb attach_steps]. unfold plain at 1, getDefinition.
  rewrite E_found.
  cbn [of_option bind truthy_name app has_key assoc set_key flatName
       isJoinRelevant no_info].
  fold alias. fold srcs. fold ce.
  unfold inferQueryElements.
  rewrite plain_columns_first. cbn [bind].
  destruct (@scalar_columns_refs fuel ids (IState [] (newJoinTree srcs)) Hnd Hall)
    as (st' & Hrun & Hjt).
  { clear. induction ids; [reflexivity|]. cbn [forallb]. apply IHids. }
  rewrite Hrun. cbn [bind on_some]. rewrite Hjt. cbn [joinTree].
  exists (queryElements st'). reflexivity.
Qed.

Hypothesis E_name : d_name E = name.
Hypothesis no_join : isInitial (newJoinTree srcs) = true.


(** **** Without columns *)

Lemma combined_of_entity :
  ce = map (fun kv => (fst kv, [Combined alias E])) els.
Proof.
  unfold ce, inferCombinedElements, srcs. cbn [fold_left]. rewrite E_elements.
  rewrite combined_of_one_source; [reflexivity|exact els_unique].
Qed.

Lemma own_scalar_flat (fuel : nat) (k : string) (d : def) (st : fstate) :
  own_scalar skippedByWildcard (k, d) = true ->
  f_replace st = [] ->
  exists c st',
    getFlatColumnsFor_new m foreignKeys ce (S fuel) (InDef d) None None
      (Some alias) [] true st = Ok ([c], st')
    /\ fc_token c = flat_ref [alias; k] no_attrs
    /\ f_replace st' = [].
Proof.
  unfold own_scalar. cbn [fst snd]. intros H Hr.
  apply andb_prop in H. destruct H as [H Hskip].
  apply andb_prop in H. destruct H as [H Hscalar].
  apply andb_prop in H. destruct H as [Hname Hparent].
  apply String.eqb_eq in Hname.
  apply is_scalar_inv in Hscalar.
  destruct Hscalar as (Hkind & Hels & Htarget & Hkeys & Hon & Hvirtual).
  unfold getFlatColumnsFor_new. cbn [alloc].
  cbn [getFlatColumnsFor flat_head]. rewrite Hon, Hvirtual.
  cbn [truthy_name]. unfold getFullName.
  destruct (d_parents d) as [|p ps]; [discriminate|].
  cbn [getFullName_chain]. rewrite Hparent. cbn [bind getReplacement find].
  cbn [set_store f_replace]. rewrite Hr. cbn [getReplacement find].
  rewrite Hkeys, Hels. cbn [input_attrs a_cast a_sort no_attrs truthy_name].
  unfold with_table. cbn [truthy_name]. rewrite alias_nonempty, Hname.
  eexists. eexists. split; [reflexivity|]. split; [reflexivity|].
  cbn [set_store f_replace]. exact Hr.
Qed.

Lemma own_scalars_flat (fuel : nat) (l : list (string * def)) :
  forall st : fstate,
    Forall (fun kv => assoc (fst kv) els = Some (snd kv)) l ->
    forallb (own_scalar skippedByWildcard) l = true ->
    f_replace st = [] ->
    exists cols st',
      flat_each
        (fun (kv : string * list combined) (st : fstate) =>
           match snd kv with
           | [] => Err (TypeError "tableAlias")
           | c :: _ =>
               els <- of_option (d_elements (tableAlias c)) (TypeError "elements") ;;
               element <- of_option (assoc (fst kv) els) (TypeError "element") ;;
               if skippedByWildcard element then Ok ([], st)
               else
                 getFlatColumnsFor_new m foreignKeys ce (S fuel) (InDef element)
                   None None (Some (index c)) [] true st
           end)
        (map (fun kv => (fst kv, [Combined alias E])) l) st
      = Ok (cols, st')
      /\ map fc_token cols = map (fun kv => flat_ref [alias; fst kv] no_attrs) l.
Proof.
  induction l as [|[k d] l IH]; intros st Hin Hall Hr.
  - exists [], st. split; reflexivity.
  - inversion Hin as [|x xs Hk Hin']. subst x xs. cbn [fst snd] in Hk.
    cbn [forallb] in Hall. apply andb_prop in Hall. destruct Hall as [Hkd Hall].
    destruct (@own_scalar_flat fuel k d st Hkd Hr) as (c & st1 & Hrun & Hc & Hr1).
    destruct (IH st1 Hin' Hall Hr1) as (cols & st' & Hrest & Hcols).
    exists (c :: cols), st'.
    cbn [map flat_each fst snd tableAlias index]. rewrite E_elements.
    cbn [of_option bind]. rewrite Hk. cbn [of_option bind].
    assert (Hskip : skippedByWildcard d = false).
    { unfold own_scalar in Hkd. cbn [snd] in Hkd.
      apply andb_prop in Hkd. destruct Hkd as [_ Hs].
      apply negb_true_iff in Hs. exact Hs. }
    rewrite Hskip, Hrun. cbn [bind]. rewrite Hrest. cbn [bind app map].
    rewrite Hc, Hcols. split; reflexivity.
Qed.

Lemma wildcard_columns (fuel : nat) :
  forallb (own_scalar skippedByWildcard) els = true ->
  getColumnsForWildcard m foreignKeys ce skippedByWildcard (S fuel) [] []
  = Ok (map (fun kv => flat_ref [alias; fst kv] no_attrs) els).
Proof.
  intros Hall. unfold getColumnsForWildcard.
  match goal with
  | |- context [flat_each ?f ce ?s] =>
      replace (flat_each f ce s)
        with (flat_each f (map (fun kv => (fst kv, [Combined alias E])) els) s)
        by (rewrite <- combined_of_entity; reflexivity)
  end.
  destruct (@own_scalars_flat fuel els (FState [] [])) as (cols & st' & Hrun & Hcols).
  - apply Forall_forall. intros [k d] Hin. cbn [fst snd].
    apply assoc_in_unique; assumption.
  - exact Hall.
  - reflexivity.
  - rewrite Hrun. cbn [bind]. rewrite Hcols. reflexivity.
Qed.

Lemma select_all_inferred (loc : bool) (excluding : option (list string))
    (fuel : nat) :
  infer pseudos newJoinTree mergeColumn resolveExpand resolveInline foreignKeys
    (S (S fuel)) []
    (select_all loc excluding (SrcRef [plain name] no_info None) None) (Some m)
  = Ok (Inferred
          (select_all loc excluding
             (SrcRef [plain name] (RefInfo [link E E alias] None false) None) None)
          srcs ce (map (fun kv => (fst kv, EDef (snd kv))) els)
          (Some (newJoinTree srcs))).
Proof.
  cbn [infer select_all is_SET sel_from inferTarget plain step_id].
  unfold getDefinition. rewrite E_found.
  cbn [of_option bind target_of_path]. rewrite E_entity.
  cbn [dkind_eqb negb attach_steps]. unfold plain at 1, getDefinition.
  rewrite E_found.
  cbn [of_option bind truthy_name app has_key assoc set_key flatName
       isJoinRelevant no_info].
  fold alias. fold srcs. fold ce.
  unfold inferQueryElements, inferElementsFromWildCard, srcs.
  rewrite E_elements. cbn [of_option bind on_some queryElements joinTree].
  reflexivity.
Qed.


End PlainSelect.



End Behaviour.

